(** * SuperLU_DIST v100 GPU factorization core: schedulers and L-panel index

    Shallow embedding of
    - [LUstruct_v100::dDiagFactorPanelSolveGPU], [dPanelBcastGPU],
      [dsparseTreeFactorGPU] (pipelined) and [dsparseTreeFactorGPUBaseline];
    - [xlpanel_t<Ftype>::xlpanel_t] (index construction) and
      [xlpanel_t<Ftype>::diagFactor].

    The control flow of the schedulers never inspects numeric data, so each
    function is embedded as the list of operations it issues, in program
    order (its trace); the effect on memory is the interpretation of that
    trace by the external kernels, which are parameters.

    [int_t] values are integers in [Z]: the quantities computed here are
    list positions, slot offsets and child counts, and no wrap-around is
    modelled.  [/] and [%] are C's truncating division and remainder
    ([Z.quot], [Z.rem]). *)

From Stdlib Require Import ZArith List Lia Bool.
From stdpp Require Import base list.
Import ListNotations.
Local Open Scope Z_scope.

(** ** Operations issued by the core *)

Inductive side := LSide | USide.

(** A transient panel handle: it aliases either a panel the process owns
    ([lPanelVec[g2lCol(k)]] / [uPanelVec[g2lRow(k)]]) or the receive buffers
    of one slot ([LidxRecvBufs[offset]], [LvalRecvBufs[offset]] and their
    device mirrors). *)
Inductive panel_handle :=
| OwnedPanel (li : Z)
| RecvBufPanel (offset : Z).

(** External GPU and MPI operations, with the arguments the source passes. *)
Inductive prim :=
| diagFactorPackDiagBlockGPU (li k hostOff : Z)
| MPI_Bcast_diag (s : side) (k hostOff count root : Z)
| cudaMemcpy_diag (s : side) (devOff hostOff count : Z)
| panelSolveGPU (s : side) (li streamOff devOff ksupc : Z)
| cudaStreamSynchronize (streamOff : Z)
| MPI_Bcast_index (s : side) (h : panel_handle) (count root : Z)
| MPI_Bcast_val (s : side) (h : panel_handle) (count root : Z)
| cudaMemcpy_index (s : side) (h : panel_handle) (count : Z)
| lookAheadUpdateGPU (offset k k_parent : Z) (l u : panel_handle)
| dSchurCompUpdateExcludeOneGPU (offset k k_parent : Z) (l u : panel_handle)
| dSchurComplementUpdateGPU (streamId k : Z) (l u : panel_handle).

(** What a run leaves behind, in program order.  [Call_*] marks the entry of
    a member function, [Printf_*] are the three [printf] lines of the
    schedulers, and [Gate_decrement k0_parent left] records the statement
    [localNumChildrenLeft[k0_parent]--] together with the value it leaves. *)
Inductive event :=
| Printf_Using
| Printf_Doing (k0 offset : Z)
| Printf_Trying (k0_next offset_next : Z)
| Call_dDiagFactorPanelSolveGPU (k offset : Z)
| Call_dPanelBcastGPU (k offset : Z)
| Gate_decrement (k0_parent left : Z)
| Prim (p : prim).

(** ** Inputs *)

(** The fields of [LUstruct_v100] (and the members [krow], [kcol], [procIJ],
    [g2lRow], [g2lCol], the macro [SuperSize] and [getNumLookAhead(options)],
    none of which is defined in these files) that the core reads.  C arrays
    are total maps on [Z]; reading one outside its allocation is undefined
    in the source and is given no meaning here. *)
Record LUstruct := {
  iam : Z; myrow : Z; mycol : Z;
  nsupers : Z;
  procIJ : Z -> Z -> Z;
  krow : Z -> Z; kcol : Z -> Z;
  g2lRow : Z -> Z; g2lCol : Z -> Z;
  SuperSize : Z -> Z;
  UidxSendCounts : Z -> Z; UvalSendCounts : Z -> Z;
  LidxSendCounts : Z -> Z; LvalSendCounts : Z -> Z;
  numLookAhead : Z
}.

(** [sForest_t] with its [topoInfo] flattened. *)
Record sForest := {
  nNodes : Z;
  nodeList : Z -> Z;
  myIperm : Z -> Z;
  numLvl : Z;
  eTreeTopLims : Z -> Z
}.

(** [a[i] = v] on a C array. *)
Definition upd (a : Z -> Z) (i v : Z) : Z -> Z :=
  fun j => if Z.eq_dec j i then v else a j.

Definition SUPERLU_MIN (x y : Z) : Z := if x <? y then x else y.

(** ** Loops *)

(** [for (k0 = lo; k0 < hi; ++k0) body], with [n] iterations left. *)
Fixpoint for_loop {St : Type} (n : nat) (k0 : Z)
    (body : Z -> St -> list event * St) (s : St) : list event * St :=
  match n with
  | O => ([], s)
  | S n' =>
      let '(t1, s1) := body k0 s in
      let '(t2, s2) := for_loop n' (k0 + 1) body s1 in
      (t1 ++ t2, s2)
  end.

Definition for_range {St : Type} (lo hi : Z)
    (body : Z -> St -> list event * St) (s : St) : list event * St :=
  for_loop (Z.to_nat (hi - lo)) lo body s.

Section Core.

Variable LU : LUstruct.
Variable setree : Z -> Z.   (* gEtreeInfo->setree *)

(** *** dDiagFactorPanelSolveGPU *)

Definition dDiagFactorPanelSolveGPU_trace (k offset : Z) : list event :=
  let ksupc := SuperSize LU k in
  Call_dDiagFactorPanelSolveGPU k offset ::
  (if iam LU =? procIJ LU k k
   then [Prim (diagFactorPackDiagBlockGPU (g2lCol LU k) k offset)] else []) ++
  (if myrow LU =? krow LU k
   then [Prim (MPI_Bcast_diag LSide k offset (ksupc * ksupc) (kcol LU k))] else []) ++
  (if mycol LU =? kcol LU k
   then [Prim (MPI_Bcast_diag USide k offset (ksupc * ksupc) (krow LU k))] else []) ++
  (if myrow LU =? krow LU k
   then [Prim (cudaMemcpy_diag LSide offset offset (ksupc * ksupc));
         Prim (panelSolveGPU USide (g2lRow LU k) offset offset ksupc);
         Prim (cudaStreamSynchronize offset)]
   else []) ++
  (if mycol LU =? kcol LU k
   then [Prim (cudaMemcpy_diag USide offset offset (ksupc * ksupc));
         Prim (panelSolveGPU LSide (g2lCol LU k) offset offset ksupc);
         Prim (cudaStreamSynchronize offset)]
   else []).

(** *** dPanelBcastGPU *)

Definition k_upanel_of (k offset : Z) : panel_handle :=
  if myrow LU =? krow LU k then OwnedPanel (g2lRow LU k) else RecvBufPanel offset.

Definition k_lpanel_of (k offset : Z) : panel_handle :=
  if mycol LU =? kcol LU k then OwnedPanel (g2lCol LU k) else RecvBufPanel offset.

Definition panel_bcast_U (k : Z) (k_upanel : panel_handle) : list event :=
  if 0 <? UidxSendCounts LU k
  then [Prim (MPI_Bcast_index USide k_upanel (UidxSendCounts LU k) (krow LU k));
        Prim (MPI_Bcast_val USide k_upanel (UvalSendCounts LU k) (krow LU k));
        Prim (cudaMemcpy_index USide k_upanel (UidxSendCounts LU k))]
  else [].

Definition panel_bcast_L (k : Z) (k_lpanel : panel_handle) : list event :=
  if 0 <? LidxSendCounts LU k
  then [Prim (MPI_Bcast_index LSide k_lpanel (LidxSendCounts LU k) (kcol LU k));
        Prim (MPI_Bcast_val LSide k_lpanel (LvalSendCounts LU k) (kcol LU k));
        Prim (cudaMemcpy_index LSide k_lpanel (LidxSendCounts LU k))]
  else [].

Definition dPanelBcastGPU_trace (k offset : Z) : list event :=
  Call_dPanelBcastGPU k offset ::
  panel_bcast_U k (k_upanel_of k offset) ++ panel_bcast_L k (k_lpanel_of k offset).

(** *** dsparseTreeFactorGPU *)

Variable sforest : sForest.

Let nnodes := nNodes sforest.
Let perm_c_supno := nodeList sforest.
Let maxTopoLevel := numLvl sforest.
Let numLA := numLookAhead LU.

(** The scratch arrays and loop variables of the pipelined scheduler. *)
Record sched_state := {
  k1 : Z;
  winSize : Z;
  winParity : Z;
  localNumChildrenLeft : Z -> Z;
  donePanelBcast : Z -> Z;
  donePanelSolve : Z -> Z
}.

(** Assignments to one variable of the state. *)
Definition set_winSize (w : Z) (s : sched_state) : sched_state :=
  {| k1 := k1 s; winSize := w; winParity := winParity s;
     localNumChildrenLeft := localNumChildrenLeft s;
     donePanelBcast := donePanelBcast s;
     donePanelSolve := donePanelSolve s |}.

Definition set_localNumChildrenLeft (a : Z -> Z) (s : sched_state) : sched_state :=
  {| k1 := k1 s; winSize := winSize s; winParity := winParity s;
     localNumChildrenLeft := a;
     donePanelBcast := donePanelBcast s;
     donePanelSolve := donePanelSolve s |}.

Definition set_donePanelBcast (a : Z -> Z) (s : sched_state) : sched_state :=
  {| k1 := k1 s; winSize := winSize s; winParity := winParity s;
     localNumChildrenLeft := localNumChildrenLeft s;
     donePanelBcast := a;
     donePanelSolve := donePanelSolve s |}.

Definition set_donePanelSolve (a : Z -> Z) (s : sched_state) : sched_state :=
  {| k1 := k1 s; winSize := winSize s; winParity := winParity s;
     localNumChildrenLeft := localNumChildrenLeft s;
     donePanelBcast := donePanelBcast s;
     donePanelSolve := a |}.

Definition has_sends (k : Z) : bool :=
  (0 <? UidxSendCounts LU k) && (0 <? LidxSendCounts LU k).

(** Lines 136-143: count, for every list position, the nodes whose parent
    sits at that position. *)
Definition count_child (k0 : Z) (lncl : Z -> Z) : list event * (Z -> Z) :=
  let k := perm_c_supno k0 in
  let k_parent := setree k in
  let ik := myIperm sforest k_parent in
  if (-1 <? ik) && (ik <? nnodes)
  then ([], upd lncl ik (lncl ik + 1))
  else ([], lncl).

(** Lines 152-158: the initial ramp over the first topological level. *)
Definition ramp_node (k0 : Z) (dps : Z -> Z) : list event * (Z -> Z) :=
  let k := perm_c_supno k0 in
  let offset := 0 in
  (dDiagFactorPanelSolveGPU_trace k offset, upd dps k0 1).

(** Lines 163-172: broadcasts of the first window. *)
Definition first_bcast (k0 : Z) (dpb : Z -> Z) : list event * (Z -> Z) :=
  let k := perm_c_supno k0 in
  let offset := Z.rem k0 numLA in
  if dpb k0 =? 0
  then (dPanelBcastGPU_trace k offset, upd dpb k0 1)
  else ([], dpb).

Definition topoLvl : Z := 0.
Definition halfWin : Z := Z.quot numLA 2.

Definition parity_odd (winParity : Z) : bool := negb (Z.rem winParity 2 =? 0).

(** Lines 201-215, "Look Ahead Panel Solve": tell the parent that one more
    child is done and, when that was the last one, factor the parent. *)
Definition look_ahead_panel_solve (k_parent : Z) (s : sched_state)
    : list event * sched_state :=
  if k_parent <? nsupers LU then
    let k0_parent := myIperm sforest k_parent in
    if (0 <? k0_parent) && (k0_parent <? nnodes) then
      let left := localNumChildrenLeft s k0_parent - 1 in
      let s1 :=
        set_localNumChildrenLeft (upd (localNumChildrenLeft s) k0_parent left) s in
      if (topoLvl <? maxTopoLevel - 1) && (left =? 0) then
        let dOffset := 0 in
        (Gate_decrement k0_parent left ::
           dDiagFactorPanelSolveGPU_trace k_parent dOffset,
         set_donePanelSolve (upd (donePanelSolve s1) k0_parent 1) s1)
      else ([Gate_decrement k0_parent left], s1)
    else ([], s)
  else ([], s).

(** Lines 179-221: one node of the current window.  [w1], [wsz] and [par]
    are [k1], [winSize] and [winParity], which the loop does not change. *)
Definition window_node (w1 wsz par : Z) (k0 : Z) (s : sched_state)
    : list event * sched_state :=
  let k := perm_c_supno k0 in
  let offset := Z.rem (k0 - w1) wsz + (if parity_odd par then halfWin else 0) in
  let k_upanel := k_upanel_of k offset in
  let k_lpanel := k_lpanel_of k offset in
  let k_parent := setree k in
  let t_la :=
    if has_sends k
    then [Prim (lookAheadUpdateGPU offset k k_parent k_lpanel k_upanel)] else [] in
  let '(t_gate, s') := look_ahead_panel_solve k_parent s in
  let t_ex :=
    if has_sends k
    then [Prim (dSchurCompUpdateExcludeOneGPU offset k k_parent k_lpanel k_upanel)]
    else [] in
  (Printf_Doing k0 offset :: t_la ++ t_gate ++ t_ex, s').

Definition offset_next_of (k0_next k1_next : Z) (s : sched_state) : Z :=
  Z.rem (k0_next - k1_next) (winSize s)
  + (if negb (parity_odd (winParity s)) then halfWin else 0).

(** Lines 225-242: look for the next window, broadcasting each node whose
    gate is open and cutting the window short at the first closed gate.
    [n] iterations are left; the bound was evaluated with the window size
    that is only changed on [break]. *)
Fixpoint scan_next (n : nat) (k0_next k1_next : Z) (s : sched_state)
    : list event * sched_state :=
  match n with
  | O => ([], s)
  | S n' =>
      let k_next := perm_c_supno k0_next in
      if localNumChildrenLeft s k0_next =? 0 then
        let offset_next := offset_next_of k0_next k1_next s in
        let s1 := set_donePanelBcast (upd (donePanelBcast s) k0_next 1) s in
        let '(t2, s2) := scan_next n' (k0_next + 1) k1_next s1 in
        (dPanelBcastGPU_trace k_next offset_next
           ++ Printf_Trying k0_next offset_next :: t2, s2)
      else ([], set_winSize (k0_next - k1_next) s)
  end.

(** Lines 244-252: synchronize the streams of the window just processed. *)
Definition sync_node (w1 oldWinSize par : Z) (k0 : Z) (u : unit)
    : list event * unit :=
  let k := perm_c_supno k0 in
  let offset := Z.rem (k0 - w1) oldWinSize + (if parity_odd par then halfWin else 0) in
  (if has_sends k then [Prim (cudaStreamSynchronize offset)] else [], u).

(** Lines 179-255: one turn of the [while] loop. *)
Definition window_iter (s : sched_state) : list event * sched_state :=
  let '(t1, s1) :=
    for_range (k1 s) (SUPERLU_MIN nnodes (k1 s + winSize s))
      (window_node (k1 s) (winSize s) (winParity s)) s in
  let k1_next := k1 s + winSize s in
  let oldWinSize := winSize s in
  let '(t2, s2) :=
    scan_next (Z.to_nat (SUPERLU_MIN nnodes (k1_next + winSize s1) - k1_next))
      k1_next k1_next s1 in
  let '(t3, _) :=
    for_range (k1 s) (SUPERLU_MIN nnodes (k1 s + oldWinSize))
      (sync_node (k1 s) oldWinSize (winParity s)) tt in
  (t1 ++ t2 ++ t3,
   {| k1 := k1_next; winSize := winSize s2; winParity := winParity s + 1;
      localNumChildrenLeft := localNumChildrenLeft s2;
      donePanelBcast := donePanelBcast s2;
      donePanelSolve := donePanelSolve s2 |}).

(** Lines 177-256: [while (k1 < nnodes)].  The result state is [None] when
    the loop is still running after [fuel] turns; the trace issued so far is
    returned in both cases. *)
Fixpoint while_windows (fuel : nat) (s : sched_state)
    : list event * option sched_state :=
  if k1 s <? nnodes then
    match fuel with
    | O => ([], None)
    | S fuel' =>
        let '(t1, s1) := window_iter s in
        let '(t2, r) := while_windows fuel' s1 in
        (t1 ++ t2, r)
    end
  else ([], Some s).

(** Lines 124-158: allocation of the scratch arrays, child counts and the
    ramp over the first topological level. *)
Definition ramp : list event * ((Z -> Z) * (Z -> Z)) :=
  let zero := fun _ : Z => 0 in
  let '(_, lncl) := for_range 0 nnodes count_child zero in
  let k_st := eTreeTopLims sforest topoLvl in
  let k_end := eTreeTopLims sforest (topoLvl + 1) in
  let '(t, dps) := for_range k_st k_end ramp_node zero in
  (t, (lncl, dps)).

(** Lines 162-176: the first window and the state the [while] loop starts
    from. *)
Definition first_window : list event * sched_state :=
  let '(_, (lncl, dps)) := ramp in
  let k_st := eTreeTopLims sforest topoLvl in
  let wsz := SUPERLU_MIN (Z.quot numLA 2) (eTreeTopLims sforest 1) in
  let '(t, dpb) := for_range k_st wsz first_bcast (fun _ : Z => 0) in
  (t,
   {| k1 := 0; winSize := wsz; winParity := 0;
      localNumChildrenLeft := lncl;
      donePanelBcast := dpb;
      donePanelSolve := dps |}).

(** The windows, started as the scheduler starts them. *)
Definition pipeline (fuel : nat) : list event * option sched_state :=
  while_windows fuel (snd first_window).

(** The whole function: its return value ([None] while the [while] loop is
    still running) and the operations issued. *)
Definition dsparseTreeFactorGPU_trace (fuel : nat) : option Z * list event :=
  if nnodes <? 1 then (Some 1, [])
  else
    let '(t_win, r) := pipeline fuel in
    (match r with Some _ => Some 0 | None => None end,
     Printf_Using :: fst ramp ++ fst first_window ++ t_win).

(** *** dsparseTreeFactorGPUBaseline *)

(** Lines 371-497 ([NDEBUG] is defined at line 379, so the [#ifndef NDEBUG]
    blocks are compiled out). *)
Definition baseline_diag (k offset : Z) : list event :=
  let ksupc := SuperSize LU k in
  (if iam LU =? procIJ LU k k
   then [Prim (diagFactorPackDiagBlockGPU (g2lCol LU k) k offset)] else []) ++
  (if myrow LU =? krow LU k
   then [Prim (MPI_Bcast_diag LSide k offset (ksupc * ksupc) (kcol LU k))] else []) ++
  (if mycol LU =? kcol LU k
   then [Prim (MPI_Bcast_diag USide k offset (ksupc * ksupc) (krow LU k))] else []) ++
  (if myrow LU =? krow LU k
   then [Prim (cudaMemcpy_diag LSide 0 offset (ksupc * ksupc));
         Prim (panelSolveGPU USide (g2lRow LU k) 0 0 ksupc);
         Prim (cudaStreamSynchronize 0)]
   else []) ++
  (if mycol LU =? kcol LU k
   then [Prim (cudaMemcpy_diag USide 0 offset (ksupc * ksupc));
         Prim (panelSolveGPU LSide (g2lCol LU k) 0 0 ksupc);
         Prim (cudaStreamSynchronize 0)]
   else []).

Definition baseline_bcast (k : Z) : list event :=
  panel_bcast_U k (k_upanel_of k 0) ++ panel_bcast_L k (k_lpanel_of k 0).

Definition baseline_schur (k : Z) : list event :=
  if has_sends k
  then let streamId := 0 in
       [Prim (dSchurComplementUpdateGPU streamId k (k_lpanel_of k 0) (k_upanel_of k 0))]
  else [].

Definition baseline_node (k_st : Z) (k0 : Z) (u : unit) : list event * unit :=
  let k := perm_c_supno k0 in
  let offset := k0 - k_st in
  (baseline_diag k offset ++ baseline_bcast k ++ baseline_schur k, u).

Definition baseline_level (lvl : Z) (u : unit) : list event * unit :=
  let k_st := eTreeTopLims sforest lvl in
  let k_end := eTreeTopLims sforest (lvl + 1) in
  for_range k_st k_end (baseline_node k_st) u.

Definition dsparseTreeFactorGPUBaseline_trace : Z * list event :=
  if nnodes <? 1 then (1, [])
  else (0, Printf_Using :: fst (for_range 0 maxTopoLevel baseline_level tt)).

End Core.

(** ** Memory effects *)

(** The state the core acts on: the panel store with every host and device
    buffer ([mem]) and the integer behind the [info] pointer. *)
Record lu_state (Mem : Type) := { mem : Mem; info : Z }.
Arguments mem {Mem} _.
Arguments info {Mem} _.

Section Effects.

Context {Mem : Type}.

(** The threshold-pivot GPU kernel behind [diagFactorPackDiagBlockGPU]: it
    rewrites buffers and the [info] cell it is handed. *)
Variable diag_kernel : Z -> Z -> Z -> Mem -> Z -> Mem * Z.

(** Every other external operation; none of them is given [info]. *)
Variable extern : prim -> Mem -> Mem.

Definition exec_prim (p : prim) (st : lu_state Mem) : lu_state Mem :=
  match p with
  | diagFactorPackDiagBlockGPU li k hostOff =>
      let '(m, i) := diag_kernel li k hostOff (mem st) (info st) in
      {| mem := m; info := i |}
  | _ => {| mem := extern p (mem st); info := info st |}
  end.

Definition exec_event (e : event) (st : lu_state Mem) : lu_state Mem :=
  match e with
  | Prim p => exec_prim p st
  | _ => st
  end.

Definition exec_trace (tr : list event) (st : lu_state Mem) : lu_state Mem :=
  fold_left (fun s e => exec_event e s) tr st.

Definition dDiagFactorPanelSolveGPU (LU : LUstruct) (k offset : Z)
    (st : lu_state Mem) : Z * lu_state Mem :=
  (0, exec_trace (dDiagFactorPanelSolveGPU_trace LU k offset) st).

Definition dPanelBcastGPU (LU : LUstruct) (k offset : Z)
    (st : lu_state Mem) : Z * lu_state Mem :=
  (0, exec_trace (dPanelBcastGPU_trace LU k offset) st).

Definition dsparseTreeFactorGPU (LU : LUstruct) (setree : Z -> Z)
    (sforest : sForest) (fuel : nat) (st : lu_state Mem)
    : option Z * lu_state Mem :=
  let '(r, tr) := dsparseTreeFactorGPU_trace LU setree sforest fuel in
  (r, exec_trace tr st).

Definition dsparseTreeFactorGPUBaseline (LU : LUstruct)
    (sforest : sForest) (st : lu_state Mem) : Z * lu_state Mem :=
  let '(r, tr) := dsparseTreeFactorGPUBaseline_trace LU sforest in
  (r, exec_trace tr st).

End Effects.

(** ** xlpanel_t::xlpanel_t *)

(** The index array under construction is a list; [lsub] and [xsup] are
    arrays of the caller, read as total maps.  A store or load outside the
    allocated block is undefined in the source: it is [None] here. *)
Definition store (a : list Z) (i v : Z) : option (list Z) :=
  if (0 <=? i) && (i <? Z.of_nat (length a))
  then Some (<[Z.to_nat i := v]> a) else None.

Definition load (a : list Z) (i : Z) : option Z :=
  if 0 <=? i then a !! Z.to_nat i else None.

(** The panel object: the index array built by the constructor and the
    value pointer it keeps. *)
Record xlpanel (Val : Type) := { index : list Z; val : Val }.
Arguments index {Val} _.
Arguments val {Val} _.

(** The four running pointers of the constructor and the array. *)
Record ctor_state := {
  blkIdPtr : Z;
  pxSumPtr : Z;
  rowIdxPtr : Z;
  lsub_ptr : Z;
  ctor_index : list Z
}.

Section LPanel.

(** The layout macros and [SuperSize] are defined in headers that are not
    part of these files; they are parameters. *)
Variables LPANEL_HEADER_SIZE BC_HEADER LB_DESCRIPTOR : Z.
Variable SuperSize_of : Z -> Z.

Variable lsub : Z -> Z.
Variable xsup : Z -> Z.

(** Lines 645-649: the relative row indices of one block; [n] rows left. *)
Fixpoint copy_rows (n : nat) (rowId : Z) (ptr firstRow : Z)
    (rowIdx : Z) (a : list Z) : option (Z * list Z) :=
  match n with
  | O => Some (rowIdx, a)
  | S n' =>
      a' ← store a rowIdx (lsub (ptr + LB_DESCRIPTOR + rowId) - firstRow);
      copy_rows n' (rowId + 1) ptr firstRow (rowIdx + 1) a'
  end.

(** Lines 630-652: the loop over the block descriptors; [n] blocks left. *)
Fixpoint block_loop (n : nat) (st : ctor_state) : option ctor_state :=
  match n with
  | O => Some st
  | S n' =>
      let global_id := lsub (lsub_ptr st) in
      let nrows := lsub (lsub_ptr st + 1) in
      a1 ← store (ctor_index st) (blkIdPtr st) global_id;
      prev ← load a1 (pxSumPtr st - 1);
      a2 ← store a1 (pxSumPtr st) (nrows + prev);
      let firstRow := xsup global_id in
      r ← copy_rows (Z.to_nat nrows) 0 (lsub_ptr st) firstRow (rowIdxPtr st) a2;
      block_loop n'
        {| blkIdPtr := blkIdPtr st + 1;
           pxSumPtr := pxSumPtr st + 1;
           rowIdxPtr := fst r;
           lsub_ptr := lsub_ptr st + LB_DESCRIPTOR + nrows;
           ctor_index := snd r |}
  end.

(** Lines 611-654.  [heap] is the content of the block [SUPERLU_MALLOC]
    returns. *)
Definition xlpanel_t {Val : Type} (heap : nat -> Z) (k : Z) (lval : Val)
    (isDiagIncluded : Z) : option (xlpanel Val) :=
  let nlb := lsub 0 in
  let nzrow := lsub 1 in
  let lIndexSize := LPANEL_HEADER_SIZE + 2 * nlb + 1 + nzrow in
  let a0 := map heap (seq 0 (Z.to_nat lIndexSize)) in
  a1 ← store a0 0 nlb;
  a2 ← store a1 1 nzrow;
  a3 ← store a2 2 isDiagIncluded;
  a4 ← store a3 3 (SuperSize_of k);
  a5 ← store a4 (LPANEL_HEADER_SIZE + nlb) 0;
  st ← block_loop (Z.to_nat nlb)
         {| blkIdPtr := LPANEL_HEADER_SIZE;
            pxSumPtr := LPANEL_HEADER_SIZE + nlb + 1;
            rowIdxPtr := LPANEL_HEADER_SIZE + 2 * nlb + 1;
            lsub_ptr := BC_HEADER;
            ctor_index := a5 |};
  Some {| index := ctor_index st; val := lval |}.

(** *** Reading [lsub] as a list of block descriptors *)

(** Where the descriptor of block [i] starts. *)
Fixpoint desc_ptr (i : nat) : Z :=
  match i with
  | O => BC_HEADER
  | S i' => desc_ptr i' + LB_DESCRIPTOR + lsub (desc_ptr i' + 1)
  end.

Definition blk_gid (i : nat) : Z := lsub (desc_ptr i).
Definition blk_nrows (i : nat) : Z := lsub (desc_ptr i + 1).

(** Rows of the blocks before block [i]. *)
Fixpoint rows_before (i : nat) : Z :=
  match i with
  | O => 0
  | S i' => rows_before i' + blk_nrows i'
  end.

(** A well-formed [lsub]: [lsub[0]] descriptors, row counts that are not
    negative and add up to [lsub[1]], block ids in increasing order. *)
Definition wf_lsub : Prop :=
  0 <= lsub 0
  /\ (forall i, (i < Z.to_nat (lsub 0))%nat -> 0 <= blk_nrows i)
  /\ rows_before (Z.to_nat (lsub 0)) = lsub 1
  /\ (forall i j, (i < j < Z.to_nat (lsub 0))%nat -> blk_gid i < blk_gid j).

(** The invariant of the block loop after [i] blocks: the pointers, the
    size of the array, the stored row count, the block ids and the prefix
    sums written so far. *)
Definition ctor_inv (i : nat) (st : ctor_state) : Prop :=
  blkIdPtr st = LPANEL_HEADER_SIZE + Z.of_nat i
  /\ pxSumPtr st = LPANEL_HEADER_SIZE + lsub 0 + 1 + Z.of_nat i
  /\ rowIdxPtr st = LPANEL_HEADER_SIZE + 2 * lsub 0 + 1 + rows_before i
  /\ lsub_ptr st = desc_ptr i
  /\ Z.of_nat (length (ctor_index st))
     = LPANEL_HEADER_SIZE + 2 * lsub 0 + 1 + lsub 1
  /\ load (ctor_index st) 1 = Some (lsub 1)
  /\ (forall j, (j < i)%nat ->
        load (ctor_index st) (LPANEL_HEADER_SIZE + Z.of_nat j) = Some (blk_gid j))
  /\ (forall j, (j <= i)%nat ->
        load (ctor_index st) (LPANEL_HEADER_SIZE + lsub 0 + Z.of_nat j)
        = Some (rows_before j)).

End LPanel.

(** ** xlpanel_t::diagFactor *)

(** [xgstrf2] is the external threshold-pivot kernel: it rewrites the panel
    values and the diagonal block ([Val]) and the cell behind [info]. *)
Definition xlpanel_diagFactor {Val : Type} (xgstrf2 : Z -> Val -> Z -> Val * Z)
    (k : Z) (val : Val) (info : Z) : Z * (Val * Z) :=
  let st := xgstrf2 k val info in
  (0, st).

(** ** Classification of events *)

(** Operations of the panel broadcast, per side. *)
Definition is_panel_bcast_op (s : side) (e : event) : bool :=
  match e with
  | Prim (MPI_Bcast_index s' _ _ _)
  | Prim (MPI_Bcast_val s' _ _ _)
  | Prim (cudaMemcpy_index s' _ _) =>
      match s, s' with LSide, LSide | USide, USide => true | _, _ => false end
  | _ => false
  end.

Definition is_prim (e : event) : bool :=
  match e with Prim _ => true | _ => false end.

(** The slot offsets an event uses to index the per-slot streams, handles,
    diagonal buffers and receive buffers. *)
Definition handle_slots (h : panel_handle) : list Z :=
  match h with
  | RecvBufPanel offset => [offset]
  | OwnedPanel _ => []
  end.

Definition prim_slots (p : prim) : list Z :=
  match p with
  | diagFactorPackDiagBlockGPU _ _ hostOff => [hostOff]
  | MPI_Bcast_diag _ _ hostOff _ _ => [hostOff]
  | cudaMemcpy_diag _ devOff hostOff _ => [devOff; hostOff]
  | panelSolveGPU _ _ streamOff devOff _ => [streamOff; devOff]
  | cudaStreamSynchronize streamOff => [streamOff]
  | MPI_Bcast_index _ h _ _ => handle_slots h
  | MPI_Bcast_val _ h _ _ => handle_slots h
  | cudaMemcpy_index _ h _ => handle_slots h
  | lookAheadUpdateGPU offset _ _ l u => offset :: handle_slots l ++ handle_slots u
  | dSchurCompUpdateExcludeOneGPU offset _ _ l u =>
      offset :: handle_slots l ++ handle_slots u
  | dSchurComplementUpdateGPU streamId _ l u =>
      streamId :: handle_slots l ++ handle_slots u
  end.

Definition event_slots (e : event) : list Z :=
  match e with
  | Printf_Doing _ offset => [offset]
  | Printf_Trying _ offset => [offset]
  | Call_dDiagFactorPanelSolveGPU _ offset => [offset]
  | Call_dPanelBcastGPU _ offset => [offset]
  | Prim p => prim_slots p
  | Printf_Using => []
  | Gate_decrement _ _ => []
  end.

Definition slots_below (numLA : Z) (e : event) : Prop :=
  Forall (fun offset => 0 <= offset < numLA) (event_slots e).

(** ** Shape of the pipeline trace *)

(** The pieces a run of the windows is made of: a node of a window, a
    broadcast of the scan for the next window, a stream synchronization.
    [wsz0] bounds the window size in use. *)
Inductive window_block (LU : LUstruct) (setree : Z -> Z) (sforest : sForest)
    (wsz0 : Z) : list event -> Prop :=
| wb_node (w1 wsz par k0 : Z) (s : sched_state) :
    w1 <= k0 < w1 + wsz -> wsz <= wsz0 ->
    window_block LU setree sforest wsz0
      (fst (window_node LU setree sforest w1 wsz par k0 s))
| wb_scan (k0_next k1_next : Z) (s : sched_state) :
    k1_next <= k0_next < k1_next + winSize s -> winSize s <= wsz0 ->
    window_block LU setree sforest wsz0
      (dPanelBcastGPU_trace LU (nodeList sforest k0_next)
         (offset_next_of LU k0_next k1_next s)
       ++ [Printf_Trying k0_next (offset_next_of LU k0_next k1_next s)])
| wb_sync (w1 wsz par k0 : Z) :
    w1 <= k0 < w1 + wsz -> wsz <= wsz0 ->
    window_block LU setree sforest wsz0
      (fst (sync_node LU sforest w1 wsz par k0 tt)).

(** A trace cut into such pieces. *)
Definition blocks_of (LU : LUstruct) (setree : Z -> Z) (sforest : sForest)
    (wsz0 : Z) (T : list event) : Prop :=
  exists bs : list (list event),
    T = concat bs /\ Forall (window_block LU setree sforest wsz0) bs.

(** Every occurrence [pre ++ e :: post] of an event in a trace satisfies
    [Q pre e post]. *)
Definition each_occ (Q : list event -> event -> list event -> Prop)
    (tr : list event) : Prop :=
  forall pre e post, tr = pre ++ e :: post -> Q pre e post.

(** [Q] survives when the trace is extended on either side. *)
Definition stable (Q : list event -> event -> list event -> Prop) : Prop :=
  forall a b pre e post, Q pre e post -> Q (a ++ pre) e (post ++ b).

(** [p] is a list position of the last topological level. *)
Definition in_final_level (sforest : sForest) (p : Z) : Prop :=
  eTreeTopLims sforest (numLvl sforest - 1) <= p
  < eTreeTopLims sforest (numLvl sforest).

(** What may stand between the look-ahead update of a node and its
    exclude-one update: nothing (the parent is outside the subtree), the
    decrement of the parent's counter alone, or that decrement reaching
    zero followed by the parent's diagonal factorization on slot 0. *)
Definition gate_shape (LU : LUstruct) (sforest : sForest) (k_parent : Z)
    (mid : list event) : Prop :=
  mid = []
  \/ (exists left, mid = [Gate_decrement (myIperm sforest k_parent) left]
                   /\ (left <> 0 \/ numLvl sforest <= 1))
  \/ (mid = Gate_decrement (myIperm sforest k_parent) 0
             :: dDiagFactorPanelSolveGPU_trace LU k_parent 0
      /\ 1 < numLvl sforest).

Definition is_diag_call (e : event) : bool :=
  match e with Call_dDiagFactorPanelSolveGPU _ _ => true | _ => false end.

Definition is_doing (e : event) : bool :=
  match e with Printf_Doing _ _ => true | _ => false end.

(** Where a call of [dDiagFactorPanelSolveGPU] may stand in the windows:
    on slot 0, in a forest of more than one level, for a parent inside the
    subtree, right behind the decrement that empties its counter. *)
Definition gated_call (LU : LUstruct) (sforest : sForest)
    (pre : list event) (e : event) (post : list event) : Prop :=
  forall k_parent offset,
    e = Call_dDiagFactorPanelSolveGPU k_parent offset ->
    offset = 0 /\ 1 < numLvl sforest /\ k_parent < nsupers LU
    /\ 0 < myIperm sforest k_parent < nNodes sforest
    /\ exists pre', pre = pre' ++ [Gate_decrement (myIperm sforest k_parent) 0].

(** What follows the start of a node with nonzero send counts: its
    look-ahead update, the gate of its parent, its exclude-one update. *)
Definition ordered_updates (LU : LUstruct) (setree : Z -> Z) (sforest : sForest)
    (pre : list event) (e : event) (post : list event) : Prop :=
  forall k0 offset,
    e = Printf_Doing k0 offset ->
    has_sends LU (nodeList sforest k0) = true ->
    let k := nodeList sforest k0 in
    let k_parent := setree k in
    exists mid post',
      post = Prim (lookAheadUpdateGPU offset k k_parent
                     (k_lpanel_of LU k offset) (k_upanel_of LU k offset))
             :: mid
             ++ Prim (dSchurCompUpdateExcludeOneGPU offset k k_parent
                        (k_lpanel_of LU k offset) (k_upanel_of LU k offset))
             :: post'
      /\ gate_shape LU sforest k_parent mid.

(** The node a Schur-update call works for. *)
Definition schur_node (e : event) : option Z :=
  match e with
  | Prim (lookAheadUpdateGPU _ k _ _ _) => Some k
  | Prim (dSchurCompUpdateExcludeOneGPU _ k _ _ _) => Some k
  | Prim (dSchurComplementUpdateGPU _ k _ _) => Some k
  | _ => None
  end.

(** Diagonal factorization (kernel, diagonal broadcasts, copies, panel
    solves) and scheduler bookkeeping (calls, gate decrements, progress
    lines), as opposed to panel transfers, Schur updates and stream
    synchronizations. *)
Definition is_bookkeeping (e : event) : bool :=
  match e with
  | Prim (diagFactorPackDiagBlockGPU _ _ _) => true
  | Prim (MPI_Bcast_diag _ _ _ _ _) => true
  | Prim (cudaMemcpy_diag _ _ _ _) => true
  | Prim (panelSolveGPU _ _ _ _ _) => true
  | Prim _ => false
  | _ => true
  end.

(** The same process with other send-count tables. *)
Definition with_counts (LU : LUstruct) (Uidx Uval Lidx Lval : Z -> Z) : LUstruct :=
  {| iam := iam LU; myrow := myrow LU; mycol := mycol LU;
     nsupers := nsupers LU;
     procIJ := procIJ LU; krow := krow LU; kcol := kcol LU;
     g2lRow := g2lRow LU; g2lCol := g2lCol LU;
     SuperSize := SuperSize LU;
     UidxSendCounts := Uidx; UvalSendCounts := Uval;
     LidxSendCounts := Lidx; LvalSendCounts := Lval;
     numLookAhead := numLookAhead LU |}.

(** Schur updates are only issued for nodes with sends. *)
Definition schur_has_sends (LU : LUstruct) (e : event) : Prop :=
  forall k, schur_node e = Some k -> has_sends LU k = true.

(** ** Children and their counters *)

(** The list position of the parent of the node at position [c], as line
    140 computes it. *)
Definition parent_pos (setree : Z -> Z) (sforest : sForest) (c : Z) : Z :=
  myIperm sforest (setree (nodeList sforest c)).

(** How many of the [n] positions from [lo] on have their parent at [p]. *)
Fixpoint children_in (setree : Z -> Z) (sforest : sForest)
    (n : nat) (lo p : Z) : Z :=
  match n with
  | O => 0
  | S n' =>
      (if parent_pos setree sforest lo =? p then 1 else 0)
      + children_in setree sforest n' (lo + 1) p
  end.

(** The node at position [c] has been started by a window and, when it has
    sends, its look-ahead update has been issued. *)
Definition processed (LU : LUstruct) (setree : Z -> Z) (sforest : sForest)
    (c : Z) (T : list event) : Prop :=
  exists offset,
    In (Printf_Doing c offset) T
    /\ (has_sends LU (nodeList sforest c) = true ->
        In (Prim (lookAheadUpdateGPU offset (nodeList sforest c)
                    (setree (nodeList sforest c))
                    (k_lpanel_of LU (nodeList sforest c) offset)
                    (k_upanel_of LU (nodeList sforest c) offset))) T).

(** When a counter is decremented to zero, every node whose parent sits at
    that position has been processed. *)
Definition gate_children (LU : LUstruct) (setree : Z -> Z) (sforest : sForest)
    (pre : list event) (e : event) (post : list event) : Prop :=
  forall p, e = Gate_decrement p 0 ->
    forall c, 0 <= c < nNodes sforest -> parent_pos setree sforest c = p ->
      processed LU setree sforest c pre.

Definition is_gate (e : event) : bool :=
  match e with Gate_decrement _ _ => true | _ => false end.

(** The invariant of the windows at list position [k0]: every counter still
    covers the children that are yet to come, the positions before [k0]
    have been processed, and so far every decrement to zero came after the
    children. *)
Definition children_inv (LU : LUstruct) (setree : Z -> Z) (sforest : sForest)
    (k0 : Z) (T : list event) (lncl : Z -> Z) : Prop :=
  (forall p, 0 < p < nNodes sforest ->
     children_in setree sforest (Z.to_nat (nNodes sforest - k0)) k0 p <= lncl p)
  /\ (forall c, 0 <= c < k0 -> c < nNodes sforest ->
        processed LU setree sforest c T)
  /\ each_occ (gate_children LU setree sforest) T.

(** ** Example inputs *)

Module Examples.

(** A chain of two supernodes, 0 -> 1, on a 1x1 process grid: node 0 is the
    only node of the first topological level and node 1 (the root, whose
    parent is [nsupers]) the only node of the second and last one. *)
Definition chain_LU (numLA : Z) : LUstruct :=
  {| iam := 0; myrow := 0; mycol := 0; nsupers := 2;
     procIJ := fun _ _ => 0; krow := fun _ => 0; kcol := fun _ => 0;
     g2lRow := fun k => k; g2lCol := fun k => k;
     SuperSize := fun _ => 1;
     UidxSendCounts := fun _ => 3; UvalSendCounts := fun _ => 1;
     LidxSendCounts := fun _ => 3; LvalSendCounts := fun _ => 1;
     numLookAhead := numLA |}.

Definition chain_setree (k : Z) : Z := k + 1.

Definition chain_forest : sForest :=
  {| nNodes := 2; nodeList := fun k0 => k0;
     myIperm := fun k => if (0 <=? k) && (k <? 2) then k else -1;
     numLvl := 2; eTreeTopLims := fun l => l |}.

(** The same grid with every send count zero. *)
Definition silent_LU (numLA : Z) : LUstruct :=
  {| iam := 0; myrow := 0; mycol := 0; nsupers := 2;
     procIJ := fun _ _ => 0; krow := fun _ => 0; kcol := fun _ => 0;
     g2lRow := fun k => k; g2lCol := fun k => k;
     SuperSize := fun _ => 1;
     UidxSendCounts := fun _ => 0; UvalSendCounts := fun _ => 0;
     LidxSendCounts := fun _ => 0; LvalSendCounts := fun _ => 0;
     numLookAhead := numLA |}.

(** A forest with no node. *)
Definition empty_forest : sForest :=
  {| nNodes := 0; nodeList := fun k0 => k0; myIperm := fun _ => -1;
     numLvl := 0; eTreeTopLims := fun _ => 0 |}.

(** A toy memory: the log of the operations applied to it. *)
Definition log_kernel (li k hostOff : Z) (m : list prim) (i : Z) : list prim * Z :=
  (diagFactorPackDiagBlockGPU li k hostOff :: m, k + 1).

Definition log_extern (p : prim) (m : list prim) : list prim := p :: m.

(** An [lsub] with two blocks: block 5 with row 50 and block 7 with rows
    70 and 71 (layout 4/2/2, supernode [g] starting at column [10 g]). *)
Definition two_block_lsub (i : Z) : Z :=
  nth (Z.to_nat i) [2; 3; 5; 1; 50; 7; 2; 70; 71] 0.

Definition tens_xsup (g : Z) : Z := 10 * g.

End Examples.


(** * Further definitions *)

(** ** Who issues what in the diagonal step *)

Inductive grid_role := DiagOwner | RowOwner | ColOwner.

(** The process coordinate that must match for [e] to be issued by the
    diagonal step of node [k]. *)
Definition diag_op_role (e : event) : option grid_role :=
  match e with
  | Prim (diagFactorPackDiagBlockGPU _ _ _) => Some DiagOwner
  | Prim (MPI_Bcast_diag LSide _ _ _ _) => Some RowOwner
  | Prim (cudaMemcpy_diag LSide _ _ _) => Some RowOwner
  | Prim (panelSolveGPU USide _ _ _ _) => Some RowOwner
  | Prim (MPI_Bcast_diag USide _ _ _ _) => Some ColOwner
  | Prim (cudaMemcpy_diag USide _ _ _) => Some ColOwner
  | Prim (panelSolveGPU LSide _ _ _ _) => Some ColOwner
  | _ => None
  end.

Definition has_role (LU : LUstruct) (k : Z) (r : grid_role) : Prop :=
  match r with
  | DiagOwner => iam LU = procIJ LU k k
  | RowOwner => myrow LU = krow LU k
  | ColOwner => mycol LU = kcol LU k
  end.

Definition other_side (s : side) : side :=
  match s with LSide => USide | USide => LSide end.

(** A panel solve stands between the copy of the diagonal block of the
    other side to the device buffer it reads and the synchronization of the
    stream it runs on. *)
Definition solve_bracketed (pre : list event) (e : event) (post : list event)
    : Prop :=
  forall s li streamOff devOff ksupc,
    e = Prim (panelSolveGPU s li streamOff devOff ksupc) ->
    exists pre' post' hostOff,
      pre = pre' ++ [Prim (cudaMemcpy_diag (other_side s) devOff hostOff
                             (ksupc * ksupc))]
      /\ post = Prim (cudaStreamSynchronize streamOff) :: post'.

(** ** xlpanel_t: lookups in the index array *)

Section LPanelQueries.

(** Modelled from the spec: the accessors [nblocks()], [gid(i)], [stRow(i)],
    [nzrows()]/[LDA()] and [haveDiag()] are declared in the panel header,
    which is not among these files; they are taken as the reads of the
    fields the constructor fills: the block count [index[0]], the row count
    [index[1]], the flag [index[2]], the block ids from
    [index[LPANEL_HEADER_SIZE]] on and the prefix sums from
    [index[LPANEL_HEADER_SIZE + nblocks()]] on. *)
Variable LPANEL_HEADER_SIZE : Z.

(** [GLOBAL_BLOCK_NOT_FOUND], defined outside these files. *)
Variable GLOBAL_BLOCK_NOT_FOUND : Z.

Variable idx : list Z.

Definition nblocks : option Z := load idx 0.
Definition nzrows : option Z := load idx 1.
Definition haveDiag : option Z := load idx 2.

Definition gid (i : Z) : option Z := load idx (LPANEL_HEADER_SIZE + i).

Definition stRow (i : Z) : option Z :=
  nb ← nblocks; load idx (LPANEL_HEADER_SIZE + nb + i).

Definition nbrow (i : Z) : option Z :=
  a ← stRow (i + 1); b ← stRow i; Some (a - b).

(** Lines 658-667; [n] iterations of the loop are left. *)
Fixpoint find_from (n : nat) (i k : Z) : option Z :=
  match n with
  | O => Some GLOBAL_BLOCK_NOT_FOUND
  | S n' =>
      g ← gid i;
      if k =? g then Some i else find_from n' (i + 1) k
  end.

Definition xlpanel_find (k : Z) : option Z :=
  nb ← nblocks; find_from (Z.to_nat nb) 0 k.

(** Lines 728-731: the [while] loop, which reads [stRow(ii)] before it
    looks at [ii < nlb].  [n] bounds the turns that are left; it is
    [nlb - ii], so the loop condition is false when it is used up. *)
Fixpoint end_scan (nlb iSt maxRows : Z) (n : nat) (ii : Z) : option Z :=
  a ← stRow ii;
  b ← stRow iSt;
  if (a - b <=? maxRows) && (ii <? nlb) then
    match n with
    | S n' => end_scan nlb iSt maxRows n' (ii + 1)
    | O => Some ii
    end
  else Some ii.

(** Lines 720-750, with the [#if 1] branch. *)
Definition getEndBlock (iSt maxRows : Z) : option Z :=
  nlb ← nblocks;
  if nlb <=? iSt then Some nlb
  else
    ii ← end_scan nlb iSt maxRows (Z.to_nat (nlb - (iSt + 1))) (iSt + 1);
    a ← stRow ii;
    b ← stRow iSt;
    if maxRows <? a - b then Some (ii - 1) else Some ii.

End LPanelQueries.

(** ** xlpanel_t::packDiagBlock *)

(** Value buffers are lists of an arbitrary element type; a store, load or
    copy outside the buffer is undefined in the source and [None] here. *)
Definition vstore {A : Type} (a : list A) (i : Z) (v : A) : option (list A) :=
  if (0 <=? i) && (i <? Z.of_nat (length a))
  then Some (<[Z.to_nat i := v]> a) else None.

Definition vload {A : Type} (a : list A) (i : Z) : option A :=
  if 0 <=? i then a !! Z.to_nat i else None.

(** [memcpy(&dst[doff], &src[soff], n * sizeof(A))] between two distinct
    buffers, element by element. *)
Fixpoint memcpy {A : Type} (n : nat) (dst : list A) (doff : Z)
    (src : list A) (soff : Z) : option (list A) :=
  match n with
  | O => Some dst
  | S n' =>
      v ← vload src soff;
      dst' ← vstore dst doff v;
      memcpy n' dst' (doff + 1) src (soff + 1)
  end.

(** How a call ends: normally, in a failed [assert], or outside what C
    defines. *)
Inductive outcome (R : Type) :=
| Returned (r : R)
| AssertFailed
| Undefined.
Arguments Returned {R} _.
Arguments AssertFailed {R}.
Arguments Undefined {R}.

(** Lines 712-715: the copy of column [j] and the ones after it; [n]
    columns are left.  [LDA()] is read in every turn. *)
Fixpoint pack_columns {A : Type} (idx : list Z) (n : nat) (j nsupc LDD : Z)
    (DiagLBlk val : list A) : option (list A) :=
  match n with
  | O => Some DiagLBlk
  | S n' =>
      lda ← nzrows idx;
      d ← memcpy (Z.to_nat nsupc) DiagLBlk (j * LDD) val (j * lda);
      pack_columns idx n' (j + 1) nsupc LDD d val
  end.

(** Lines 710-716: the copy of the [nsupc] columns of the diagonal
    block. *)
Definition pack_block {A : Type} (LPANEL_HEADER_SIZE : Z) (idx : list Z)
    (val : list A) (DiagLBlk : list A) (LDD : Z) : outcome (Z * list A) :=
  match nbrow LPANEL_HEADER_SIZE idx 0 with
  | None => Undefined
  | Some nsupc =>
      match pack_columns idx (Z.to_nat nsupc) 0 nsupc LDD DiagLBlk val with
      | Some d => Returned (0, d)
      | None => Undefined
      end
  end.

(** Lines 707-717.  [NDEBUG] tells whether the macro of that name is
    defined where the file is compiled: [assert] then expands to nothing
    and the two tests are not made.  The result is the return value and
    the new content of [DiagLBlk]. *)
Definition packDiagBlock {A : Type} (NDEBUG : bool) (LPANEL_HEADER_SIZE : Z)
    (idx : list Z) (val : list A) (DiagLBlk : list A) (LDD : Z)
    : outcome (Z * list A) :=
  if NDEBUG then pack_block LPANEL_HEADER_SIZE idx val DiagLBlk LDD
  else
    match haveDiag idx with
    | None => Undefined
    | Some hd =>
        if hd =? 0 then AssertFailed
        else
          match nbrow LPANEL_HEADER_SIZE idx 0 with
          | None => Undefined
          | Some nsupc =>
              if LDD <? nsupc then AssertFailed
              else pack_block LPANEL_HEADER_SIZE idx val DiagLBlk LDD
          end
    end.

(** ** xlpanel_t: the row segment of the index array *)

(** After [i] blocks the row segment holds, for each of them, the rows of
    the block as listed in [lsub], each less the first column of the
    block's supernode. *)
Definition ctor_rows (LPANEL_HEADER_SIZE BC_HEADER LB_DESCRIPTOR : Z)
    (lsub xsup : Z -> Z) (i : nat) (a : list Z) : Prop :=
  forall (j : nat) (r : Z),
    (j < i)%nat -> 0 <= r < blk_nrows BC_HEADER LB_DESCRIPTOR lsub j ->
    load a (LPANEL_HEADER_SIZE + 2 * lsub 0 + 1
            + rows_before BC_HEADER LB_DESCRIPTOR lsub j + r)
    = Some (lsub (desc_ptr BC_HEADER LB_DESCRIPTOR lsub j + LB_DESCRIPTOR + r)
            - xsup (blk_gid BC_HEADER LB_DESCRIPTOR lsub j)).

(** The three header fields the block loop leaves alone. *)
Definition ctor_header (lsub : Z -> Z) (isDiagIncluded size : Z)
    (a : list Z) : Prop :=
  load a 0 = Some (lsub 0)
  /\ load a 2 = Some isDiagIncluded
  /\ load a 3 = Some size.

(** ** Order and progress of the windows *)

(** The list positions a trace starts, in the order of its "Doing" lines. *)
Definition started (T : list event) : list Z :=
  flat_map (fun e => match e with Printf_Doing k0 _ => [k0] | _ => [] end) T.

(** [0, 1, ..., m - 1]. *)
Definition positions (m : Z) : list Z := map Z.of_nat (seq 0 (Z.to_nat m)).

(** A forest in factorization order: a node whose parent is in the list
    stands before it, and that parent is a supernode. *)
Definition wf_forest (LU : LUstruct) (setree : Z -> Z) (sforest : sForest)
    : Prop :=
  forall c, 0 <= c < nNodes sforest ->
    -1 < parent_pos setree sforest c < nNodes sforest ->
    c < parent_pos setree sforest c
    /\ setree (nodeList sforest c) < nsupers LU.

(** Every counter is the number of children from position [k0] on. *)
Definition exact_counts (setree : Z -> Z) (sforest : sForest) (k0 : Z)
    (lncl : Z -> Z) : Prop :=
  forall p, 0 <= p < nNodes sforest ->
    lncl p = children_in setree sforest (Z.to_nat (nNodes sforest - k0)) k0 p.

(** The slot the window of state [s] uses for list position [k0]. *)
Definition slot_of (LU : LUstruct) (s : sched_state) (k0 : Z) : Z :=
  Z.rem (k0 - k1 s) (winSize s)
  + (if parity_odd (winParity s) then halfWin LU else 0).

(** The panels of the window of state [s] have been broadcast, each into
    the slot the window will use for it. *)
Definition window_ready (LU : LUstruct) (sforest : sForest)
    (T : list event) (s : sched_state) : Prop :=
  forall k0, k1 s <= k0 < Z.min (nNodes sforest) (k1 s + winSize s) ->
    In (Call_dPanelBcastGPU (nodeList sforest k0) (slot_of LU s k0)) T.

(** A node is started on a slot only after [dPanelBcastGPU] was called for
    it with that slot. *)
Definition bcast_before_doing (sforest : sForest)
    (pre : list event) (e : event) (post : list event) : Prop :=
  forall k0 offset, e = Printf_Doing k0 offset ->
    In (Call_dPanelBcastGPU (nodeList sforest k0) offset) pre.

(** ** Factorization before broadcast *)

(** The positions without children are those of the first level. *)
Definition leaves_first_level (setree : Z -> Z) (sforest : sForest) : Prop :=
  forall p, 0 <= p < nNodes sforest ->
    children_in setree sforest (Z.to_nat (nNodes sforest)) 0 p = 0 ->
    eTreeTopLims sforest 0 <= p < eTreeTopLims sforest 1.

(** [myIperm] inverts [nodeList] on the parents that are in the list. *)
Definition parents_listed (setree : Z -> Z) (sforest : sForest) : Prop :=
  forall c, 0 <= c < nNodes sforest ->
    -1 < parent_pos setree sforest c < nNodes sforest ->
    nodeList sforest (parent_pos setree sforest c)
    = setree (nodeList sforest c).

(** Every position whose counter is zero has had its diagonal block
    factored. *)
Definition factored_when_free (sforest : sForest) (T : list event)
    (lncl : Z -> Z) : Prop :=
  forall p, 0 <= p < nNodes sforest -> lncl p = 0 ->
    In (Call_dDiagFactorPanelSolveGPU (nodeList sforest p) 0) T.

(** A panel is broadcast only after [dDiagFactorPanelSolveGPU] was called
    for its node. *)
Definition factor_before_bcast (pre : list event) (e : event)
    (post : list event) : Prop :=
  forall k offset, e = Call_dPanelBcastGPU k offset ->
    In (Call_dDiagFactorPanelSolveGPU k 0) pre.

Definition is_bcast_call (e : event) : bool :=
  match e with Call_dPanelBcastGPU _ _ => true | _ => false end.

(** ** at_plus_a_dist *)

(** [for (i = lo; i < hi; ++i) body] on a state; [n] turns are left. *)
Fixpoint iter_from {St : Type} (n : nat) (i : Z) (body : Z -> St -> St)
    (s : St) : St :=
  match n with
  | O => s
  | S n' => iter_from n' (i + 1) body (body i s)
  end.

Definition iter_z {St : Type} (lo hi : Z) (body : Z -> St -> St) (s : St) : St :=
  iter_from (Z.to_nat (hi - lo)) lo body s.

(** The same loop with a body that may step outside an allocated block. *)
Fixpoint try_from {St : Type} (n : nat) (i : Z) (body : Z -> St -> option St)
    (s : St) : option St :=
  match n with
  | O => Some s
  | S n' => s' ← body i s; try_from n' (i + 1) body s'
  end.

Definition try_z {St : Type} (lo hi : Z) (body : Z -> St -> option St)
    (s : St) : option St :=
  try_from (Z.to_nat (hi - lo)) lo body s.

(** The state of the second pass: the flags, the running count, and the two
    output arrays.  [b_rowind] is the block of [*bnz] cells allocated at
    line 397 (no block at all when [*bnz] is 0); [marker] and the two
    pointer arrays, whose sizes follow from [n], are total maps, as in the
    scheduler. *)
Record fill_state := {
  marker : Z -> Z;
  num_nz : Z;
  b_colptr : Z -> Z;
  b_rowind : list Z
}.

(** [a[i] = v] on an array of any element type. *)
Definition gupd {X : Type} (a : Z -> X) (i : Z) (v : X) : Z -> X :=
  fun j => if Z.eq_dec j i then v else a j.

(** [a[i] = v] and [a[i]] on a block of [size] cells: an access outside
    the block is undefined in the source and [None] here. *)
Definition store_within {X : Type} (size : Z) (a : Z -> X) (i : Z) (v : X)
    : option (Z -> X) :=
  if (0 <=? i) && (i <? size) then Some (gupd a i v) else None.

Definition load_within {X : Type} (size : Z) (a : Z -> X) (i : Z) : option X :=
  if (0 <=? i) && (i <? size) then Some (a i) else None.

Section AtPlusA.

Variable n : Z.
Variables colptr rowind : Z -> Z.

(** Lines 336-340: the number of entries of every row; [m] is the number
    of rows ([n] again in [at_plus_a_dist]). *)
Definition count_entries (m : Z) (heap_marker : Z -> Z) : Z -> Z :=
  let m0 := iter_z 0 m (fun i mk => upd mk i 0) heap_marker in
  iter_z 0 n
    (fun j m =>
       iter_z (colptr j) (colptr (j + 1))
         (fun i m => upd m (rowind i) (m (rowind i) + 1)) m)
    m0.

(** Lines 342-346: the column pointers of T; [marker] is left pointing at
    the start of every column. *)
Definition set_pointers (heap_t_colptr m : Z -> Z) : (Z -> Z) * (Z -> Z) :=
  iter_z 0 n
    (fun i '(tc, m) => (upd tc (i + 1) (tc i + m i), upd m i (tc i)))
    (upd heap_t_colptr 0 0, m).

(** Lines 349-355: the entries of A, column by column, into T, when no
    store leaves [t_rowind] (see [transpose_within]). *)
Definition transpose (heap_t_rowind m : Z -> Z) : (Z -> Z) * (Z -> Z) :=
  iter_z 0 n
    (fun j s =>
       iter_z (colptr j) (colptr (j + 1))
         (fun i '(tr, m) =>
            let col := rowind i in
            (upd tr (m col) j, upd m col (m col + 1)))
         s)
    (heap_t_rowind, m).

(** Lines 349-355 on the block of [nz] cells that line 336 allocates for
    [t_rowind] (line 200 in [getata_dist]): [None] when a store falls
    outside the block. *)
Definition transpose_within (nz : Z) (heap_t_rowind m : Z -> Z)
    : option ((Z -> Z) * (Z -> Z)) :=
  try_z 0 n
    (fun j s =>
       try_z (colptr j) (colptr (j + 1))
         (fun i '(tr, m) =>
            let col := rowind i in
            tr' ← store_within nz tr (m col) j;
            Some (tr', upd m col (m col + 1)))
         s)
    (heap_t_rowind, m).

(** Lines 367 and 401: [marker[i] = -1]. *)
Definition clear_flags (m : Z -> Z) : Z -> Z :=
  iter_z 0 n (fun i m => upd m i (-1)) m.

(** Lines 378-381 and 387-390: row [k] is new in column [j]. *)
Definition count_new (j k : Z) (s : (Z -> Z) * Z) : (Z -> Z) * Z :=
  let '(m, c) := s in
  if m k =? j then s else (upd m k j, c + 1).

(** Lines 371-392: one column of the first pass. *)
Definition count_column (t_colptr t_rowind : Z -> Z) (j : Z)
    (s : (Z -> Z) * Z) : (Z -> Z) * Z :=
  let '(m, c) := s in
  let s1 := (upd m j j, c) in
  let s2 :=
    iter_z (colptr j) (colptr (j + 1)) (fun i s => count_new j (rowind i) s) s1 in
  iter_z (t_colptr j) (t_colptr (j + 1)) (fun i s => count_new j (t_rowind i) s) s2.

(** Lines 366-393: the first pass; its count becomes [*bnz]. *)
Definition count_pass (t_colptr t_rowind m : Z -> Z) : (Z -> Z) * Z :=
  iter_z 0 n (count_column t_colptr t_rowind) (clear_flags m, 0).

(** Lines 414-418 and 423-427: the same test, storing the row. *)
Definition fill_new (j k : Z) (s : fill_state) : option fill_state :=
  if marker s k =? j then Some s
  else
    br ← store (b_rowind s) (num_nz s) k;
    Some {| marker := upd (marker s) k j; num_nz := num_nz s + 1;
            b_colptr := b_colptr s; b_rowind := br |}.

(** Lines 406-428: one column of the second pass. *)
Definition fill_column (t_colptr t_rowind : Z -> Z) (j : Z) (s : fill_state)
    : option fill_state :=
  let s1 := {| marker := upd (marker s) j j; num_nz := num_nz s;
               b_colptr := upd (b_colptr s) j (num_nz s);
               b_rowind := b_rowind s |} in
  s2 ← try_z (colptr j) (colptr (j + 1)) (fun i s => fill_new j (rowind i) s) s1;
  try_z (t_colptr j) (t_colptr (j + 1)) (fun i s => fill_new j (t_rowind i) s) s2.

(** Lines 315-442.  The [heap_] arguments are what the allocated blocks
    hold when [SUPERLU_MALLOC] returns them; the allocations themselves are
    taken to succeed (the [ABORT] after a failed one is not modelled).  The
    result is [*bnz], [*b_colptr] and [*b_rowind], or [None] when the
    transposition stores outside the [nz] cells of [t_rowind] or the second
    pass outside [*b_rowind]. *)
Definition at_plus_a_dist (nz : Z)
    (heap_marker heap_t_colptr heap_t_rowind heap_b_colptr : Z -> Z)
    (heap_b_rowind : nat -> Z) : option (Z * (Z -> Z) * list Z) :=
  let m := count_entries n heap_marker in
  let '(t_colptr, m) := set_pointers heap_t_colptr m in
  match transpose_within nz heap_t_rowind m with
  | None => None
  | Some (t_rowind, m) =>
      let '(m, bnz) := count_pass t_colptr t_rowind m in
      s ← try_z 0 n (fill_column t_colptr t_rowind)
            {| marker := clear_flags m; num_nz := 0;
               b_colptr := heap_b_colptr;
               b_rowind := map heap_b_rowind (seq 0 (Z.to_nat bnz)) |};
      Some (bnz, upd (b_colptr s) n (num_nz s), b_rowind s)
  end.

End AtPlusA.

(** ** getata_dist *)

Section GetATA.

Variables m n : Z.
Variables colptr rowind : Z -> Z.

(** Lines 241-253: one column of the first pass. *)
Definition ata_count_column (t_colptr t_rowind : Z -> Z) (j : Z)
    (s : (Z -> Z) * Z) : (Z -> Z) * Z :=
  let '(mk, c) := s in
  iter_z (colptr j) (colptr (j + 1))
    (fun i s =>
       let k := rowind i in
       iter_z (t_colptr k) (t_colptr (k + 1))
         (fun ti s => count_new j (t_rowind ti) s) s)
    (upd mk j j, c).

(** Lines 275-291: one column of the second pass. *)
Definition ata_fill_column (t_colptr t_rowind : Z -> Z) (j : Z)
    (s : fill_state) : option fill_state :=
  let s1 := {| marker := upd (marker s) j j; num_nz := num_nz s;
               b_colptr := upd (b_colptr s) j (num_nz s);
               b_rowind := b_rowind s |} in
  try_z (colptr j) (colptr (j + 1))
    (fun i s =>
       let k := rowind i in
       try_z (t_colptr k) (t_colptr (k + 1))
         (fun ti s => fill_new j (t_rowind ti) s) s)
    s1.

(** Lines 178-301, with the conventions of [at_plus_a_dist]: the result is
    [*atanz], [*ata_colptr] and [*ata_rowind], or [None] when a store
    falls outside [t_rowind] or [*ata_rowind]. *)
Definition getata_dist (nz : Z)
    (heap_marker heap_t_colptr heap_t_rowind heap_b_colptr : Z -> Z)
    (heap_b_rowind : nat -> Z) : option (Z * (Z -> Z) * list Z) :=
  let mk := count_entries n colptr rowind m heap_marker in
  let '(t_colptr, mk) := set_pointers m heap_t_colptr mk in
  match transpose_within n colptr rowind nz heap_t_rowind mk with
  | None => None
  | Some (t_rowind, mk) =>
      let '(mk, atanz) :=
        iter_z 0 n (ata_count_column t_colptr t_rowind) (clear_flags n mk, 0) in
      s ← try_z 0 n (ata_fill_column t_colptr t_rowind)
            {| marker := clear_flags n mk; num_nz := 0;
               b_colptr := heap_b_colptr;
               b_rowind := map heap_b_rowind (seq 0 (Z.to_nat atanz)) |};
      Some (atanz, upd (b_colptr s) n (num_nz s), b_rowind s)
  end.

End GetATA.

(** ** get_perm_c_dist *)

(** The values of [ispec] the switch names; any other value of the [int]
    is [OtherSpec]. *)
Inductive colperm_t :=
| NATURAL
| MMD_ATA
| MMD_AT_PLUS_A
| COLAMD
| METIS_AT_PLUS_A
| OtherSpec (code : Z).

(** [SuperMatrix] with its [NCformat] store. *)
Record SuperMatrix := {
  nrow : Z; ncol : Z;
  nnz : Z;
  Astore_colptr : Z -> Z;
  Astore_rowind : Z -> Z
}.

(** What the freshly allocated blocks hold. *)
Record heap := {
  heap_marker : Z -> Z;
  heap_t_colptr : Z -> Z;
  heap_t_rowind : Z -> Z;
  heap_b_colptr : Z -> Z;
  heap_b_rowind : nat -> Z
}.

(** The messages of [ABORT]. *)
Inductive abort_message := NotSquare | InvalidIspec | ColamdFailed.

(** How a call ends: with [perm_c] set, in [ABORT], or with a store or
    load outside an allocated block. *)
Inductive perm_outcome :=
| PermSet (perm_c : Z -> Z)
| Stopped (msg : abort_message)
| OutsideBlock.

Section GetPermC.

(** The configuration macros and the ordering routines.  The macros are
    set by [superlu_dist_config.h] (both to [TRUE] in the copy among these
    files); they stay arguments here, so that both configurations are
    covered.  The routines are not defined in these files:
    [genmmd_dist_] and [METIS_NodeND] map the
    dimension and the adjacency structure to the permutation they write
    ([genmmd_dist_] into [perm_c], [METIS_NodeND] into [iperm]); [colamd]
    maps the matrix to the new content of [p], or to [None] when it
    returns [FALSE]. *)
Variables HAVE_PARMETIS HAVE_COLAMD : bool.
Variable genmmd_dist_ : Z -> (Z -> Z) -> list Z -> (Z -> Z) -> Z -> Z.
Variable METIS_NodeND : Z -> (Z -> Z) -> list Z -> Z -> Z.
Variable colamd : Z -> Z -> Z -> (Z -> Z) -> (Z -> Z) -> option (Z -> Z).

(** [for (i = 0; i < n; ++i) perm_c[i] = i]. *)
Definition natural_order (n : Z) (perm_c : Z -> Z) : Z -> Z :=
  iter_z 0 n (fun i pc => upd pc i i) perm_c.

(** Lines 32-118. *)
Definition get_metis_dist (n bnz : Z) (b_colptr : Z -> Z) (b_rowind : list Z)
    (perm_c : Z -> Z) : Z -> Z :=
  if HAVE_PARMETIS then
    let iperm := METIS_NodeND n b_colptr b_rowind in
    iter_z 0 n (fun i pc => upd pc i (iperm i)) perm_c
  else perm_c.

(** Lines 120-155. *)
Definition get_colamd_dist (m n nnz_A : Z) (colptr rowind : Z -> Z)
    (perm_c : Z -> Z) : perm_outcome :=
  if HAVE_COLAMD then
    match colamd m n nnz_A colptr rowind with
    | None => Stopped ColamdFailed
    | Some p => PermSet (iter_z 0 n (fun i pc => upd pc (p i) i) perm_c)
    end
  else PermSet (natural_order n perm_c).

(** Lines 564-599: the call of GENMMD on the adjacency structure, or the
    natural order when the structure is empty. *)
Definition minimum_degree (n bnz : Z) (b_colptr : Z -> Z) (b_rowind : list Z)
    (perm_c : Z -> Z) : perm_outcome :=
  if negb (bnz =? 0) then
    let b_colptr := iter_z 0 (n + 1) (fun i b => upd b i (b i + 1)) b_colptr in
    match try_z 0 bnz
            (fun i b => v ← load b i; store b i (v + 1)) b_rowind with
    | None => OutsideBlock
    | Some b_rowind =>
        let perm_c := genmmd_dist_ n b_colptr b_rowind perm_c in
        PermSet (iter_z 0 n (fun i pc => upd pc i (pc i - 1)) perm_c)
    end
  else PermSet (natural_order n perm_c).

(** Lines 478-606. *)
Definition get_perm_c_dist (pnum : Z) (ispec : colperm_t) (A : SuperMatrix)
    (perm_c : Z -> Z) (h : heap) : perm_outcome :=
  let m := nrow A in
  let n := ncol A in
  match ispec with
  | NATURAL => PermSet (natural_order n perm_c)
  | MMD_AT_PLUS_A =>
      if negb (m =? n) then Stopped NotSquare
      else
        match at_plus_a_dist n (Astore_colptr A) (Astore_rowind A) (nnz A)
                (heap_marker h) (heap_t_colptr h) (heap_t_rowind h)
                (heap_b_colptr h) (heap_b_rowind h) with
        | None => OutsideBlock
        | Some (bnz, b_colptr, b_rowind) =>
            minimum_degree n bnz b_colptr b_rowind perm_c
        end
  | MMD_ATA =>
      match getata_dist m n (Astore_colptr A) (Astore_rowind A) (nnz A)
              (heap_marker h) (heap_t_colptr h) (heap_t_rowind h)
              (heap_b_colptr h) (heap_b_rowind h) with
      | None => OutsideBlock
      | Some (bnz, b_colptr, b_rowind) =>
          minimum_degree n bnz b_colptr b_rowind perm_c
      end
  | COLAMD =>
      get_colamd_dist m n (nnz A) (Astore_colptr A) (Astore_rowind A) perm_c
  | METIS_AT_PLUS_A =>
      if HAVE_PARMETIS then
        if negb (m =? n) then Stopped NotSquare
        else
          match at_plus_a_dist n (Astore_colptr A) (Astore_rowind A) (nnz A)
                  (heap_marker h) (heap_t_colptr h) (heap_t_rowind h)
                  (heap_b_colptr h) (heap_b_rowind h) with
          | None => OutsideBlock
          | Some (bnz, b_colptr, b_rowind) =>
              if negb (bnz =? 0)
              then PermSet (get_metis_dist n bnz b_colptr b_rowind perm_c)
              else PermSet (natural_order n perm_c)
          end
      else Stopped InvalidIspec
  | OtherSpec _ => Stopped InvalidIspec
  end.

End GetPermC.

(** A pattern whose stored entries all lie on the diagonal. *)
Definition diagonal_only (n : Z) (colptr rowind : Z -> Z) : Prop :=
  forall j i, 0 <= j < n -> colptr j <= i < colptr (j + 1) -> rowind i = j.

(** *** What the passes compute *)

(** [lo, lo + 1, ..., hi - 1]. *)
Definition zseq (lo hi : Z) : list Z :=
  map (fun t => lo + Z.of_nat t) (seq 0 (Z.to_nat (hi - lo))).

(** The rows of column [j] of A, as stored. *)
Definition A_col (colptr rowind : Z -> Z) (j : Z) : list Z :=
  map rowind (zseq (colptr j) (colptr (j + 1))).

(** The entries of A as (column, row), in storage order. *)
Definition entries (n : Z) (colptr rowind : Z -> Z) : list (Z * Z) :=
  flat_map (fun j => map (fun r => (j, r)) (A_col colptr rowind j)) (zseq 0 n).

(** The columns (or whatever else the entries carry) of the entries in
    row [r], in order. *)
Definition cols_with {X : Type} (E : list (X * Z)) (r : Z) : list X :=
  map fst (List.filter (fun e => snd e =? r) E).

Definition cnt {X : Type} (E : list (X * Z)) (r : Z) : Z :=
  Z.of_nat (length (cols_with E r)).

(** Every stored row index is a row of the matrix. *)
Definition rows_in_range (m n : Z) (colptr rowind : Z -> Z) : Prop :=
  forall j i, 0 <= j < n -> colptr j <= i < colptr (j + 1) -> 0 <= rowind i < m.

(** Lines 336-355: the column pointers and row indices of T, when no
    store leaves [t_rowind]. *)
Definition transpose_of (m n : Z) (colptr rowind : Z -> Z)
    (heap_marker heap_t_colptr heap_t_rowind : Z -> Z) : (Z -> Z) * (Z -> Z) :=
  let mk := count_entries n colptr rowind m heap_marker in
  let '(t_colptr, mk) := set_pointers m heap_t_colptr mk in
  let '(t_rowind, mk) := transpose n colptr rowind heap_t_rowind mk in
  (t_colptr, t_rowind).

(** Lines 336-355 with [t_rowind] the block of [nz] cells of line 336:
    [None] when a store falls outside it. *)
Definition transpose_of_within (m n : Z) (colptr rowind : Z -> Z) (nz : Z)
    (heap_marker heap_t_colptr heap_t_rowind : Z -> Z)
    : option ((Z -> Z) * (Z -> Z)) :=
  let mk := count_entries n colptr rowind m heap_marker in
  let '(t_colptr, mk) := set_pointers m heap_t_colptr mk in
  match transpose_within n colptr rowind nz heap_t_rowind mk with
  | None => None
  | Some (t_rowind, mk) => Some (t_colptr, t_rowind)
  end.

(** Column [r] of a matrix stored with pointers [tc] and indices [tr]. *)
Definition T_col (tc tr : Z -> Z) (r : Z) : list Z :=
  map tr (zseq (tc r) (tc (r + 1))).

(** The invariant of the transposition after the entries [E1]: every flag
    points behind the entries of its row, which stand in T in order. *)
Definition transposed {X : Type} (m : Z) (tc : Z -> Z) (E1 : list (X * Z))
    (s : (Z -> X) * (Z -> Z)) : Prop :=
  (forall r, 0 <= r < m -> snd s r = tc r + cnt E1 r)
  /\ (forall r, 0 <= r < m ->
        map (fst s) (zseq (tc r) (tc r + cnt E1 r)) = cols_with E1 r).

(** Row [k] joins the rows found so far for column [j] unless it is the
    diagonal or already there. *)
Definition add_new (j : Z) (acc : list Z) (k : Z) : list Z :=
  if (k =? j) || existsb (Z.eqb k) acc then acc else acc ++ [k].

(** What a column keeps of the rows the passes read for it: each row
    once, in order of first appearance, without the diagonal. *)
Definition merged (reads : Z -> list Z) (j : Z) : list Z :=
  fold_left (add_new j) (reads j) [].

(** The rows [at_plus_a_dist] reads for column [j]: those of column [j]
    of A, then the columns of A with an entry in row [j]. *)
Definition apa_reads (n : Z) (colptr rowind : Z -> Z) (j : Z) : list Z :=
  A_col colptr rowind j ++ cols_with (entries n colptr rowind) j.

(** Column [j] of A' + A as a list. *)
Definition B_spec (n : Z) (colptr rowind : Z -> Z) (j : Z) : list Z :=
  merged (apa_reads n colptr rowind) j.

(** The rows [getata_dist] reads for column [j]: for every row of column
    [j] of A, the columns of A with an entry in that row. *)
Definition ata_reads (n : Z) (colptr rowind : Z -> Z) (j : Z) : list Z :=
  flat_map (cols_with (entries n colptr rowind)) (A_col colptr rowind j).

(** Column [j] of A' * A as a list. *)
Definition ATA_spec (n : Z) (colptr rowind : Z -> Z) (j : Z) : list Z :=
  merged (ata_reads n colptr rowind) j.

(** [try_z] over the list of what the loop reads. *)
Fixpoint try_fold {St X : Type} (f : X -> St -> option St) (l : list X)
    (s : St) : option St :=
  match l with
  | [] => Some s
  | x :: l' => s' ← f x s; try_fold f l' s'
  end.

(** The part of [b_rowind] filled so far. *)
Definition written (s : fill_state) : list Z :=
  take (Z.to_nat (num_nz s)) (b_rowind s).

(** In column [j] the flags of the rows mark the diagonal and the rows
    already found. *)
Definition flags_for (n j : Z) (m : Z -> Z) (W : list Z) : Prop :=
  forall k, 0 <= k < n -> (m k = j <-> k = j \/ In k W).

(** The cells [lo .. hi - 1] of a block. *)
Definition col_of (br : list Z) (lo hi : Z) : list Z :=
  take (Z.to_nat (hi - lo)) (drop (Z.to_nat lo) br).

(** The invariant of the second pass before column [j]. *)
Definition filled (n : Z) (B : Z -> list Z) (len : nat) (j : Z)
    (s : fill_state) : Prop :=
  (forall k, 0 <= k < n -> marker s k < j)
  /\ written s = flat_map B (zseq 0 j)
  /\ num_nz s = Z.of_nat (length (flat_map B (zseq 0 j)))
  /\ length (b_rowind s) = len
  /\ (forall j', 0 <= j' < j ->
        b_colptr s j' = Z.of_nat (length (flat_map B (zseq 0 j')))).

(** ** screate_A_x_b: the rows of a process *)

(** Lines 173-181 and 234: [m_loc] and [fst_row] of process [iam] on an
    [nprow]-by-[npcol] grid. *)
Definition local_rows (m nprow npcol iam : Z) : Z * Z :=
  let m_loc := Z.quot m (nprow * npcol) in
  let m_loc_fst := m_loc in
  let m_loc :=
    if negb (m_loc * nprow * npcol =? m) then
      if iam =? nprow * npcol - 1
      then m - m_loc * (nprow * npcol - 1)
      else m_loc
    else m_loc in
  let fst_row := iam * m_loc_fst in
  (m_loc, fst_row).

(** ** screate_A_x_b: the local rows in compressed row storage *)

(** [intCalloc_dist(n)]: a block of [n] zeros. *)
Definition intCalloc_dist (n : Z) (heap : Z -> Z) : Z -> Z :=
  fun i => if (0 <=? i) && (i <? n) then 0 else heap i.

(** The three arrays the transfer writes. *)
Record csr_state (V : Type) := {
  colind : Z -> Z;
  nzval_loc : Z -> V;
  csr_marker : Z -> Z
}.
Arguments colind {V} _.
Arguments nzval_loc {V} _.
Arguments csr_marker {V} _.

Section LocalCSR.

Context {V : Type}.
Variable n : Z.
Variables colptr rowind : Z -> Z.
Variable nzval : Z -> V.
Variables m_loc fst_row : Z.

(** Lines 229-231: the number of entries of every row of the global
    matrix. *)
Definition row_counts (mk : Z -> Z) : Z -> Z :=
  iter_z 0 n
    (fun i mk =>
       iter_z (colptr i) (colptr (i + 1))
         (fun j mk => upd mk (rowind j) (mk (rowind j) + 1)) mk)
    mk.

(** Lines 233-240: the pointers of the local rows; [marker] is reused, from
    its start, for the fill positions of the local rows. *)
Definition row_pointers (heap_rowptr mk : Z -> Z) : (Z -> Z) * (Z -> Z) :=
  iter_z 0 m_loc
    (fun j '(rowptr, mk) =>
       let row := fst_row + j in
       (upd rowptr (j + 1) (rowptr j + mk row), upd mk j (rowptr j)))
    (upd heap_rowptr 0 0, mk).

(** Lines 249-256: one entry of column [i], stored at [j]. *)
Definition transfer_entry (i j : Z) (s : csr_state V) : csr_state V :=
  let row := rowind j in
  if (fst_row <=? row) && (row <? fst_row + m_loc) then
    let row := row - fst_row in
    let relpos := csr_marker s row in
    {| colind := upd (colind s) relpos i;
       nzval_loc := gupd (nzval_loc s) relpos (nzval j);
       csr_marker := upd (csr_marker s) row (csr_marker s row + 1) |}
  else s.

(** Lines 226-259: [rowptr], [nnz_loc], [colind] and [nzval_loc] of the
    local matrix. *)
Definition local_csr (heap_marker heap_rowptr heap_colind : Z -> Z)
    (heap_nzval : Z -> V) : (Z -> Z) * Z * (Z -> Z) * (Z -> V) :=
  let mk := row_counts (intCalloc_dist n heap_marker) in
  let '(rowptr, mk) := row_pointers heap_rowptr mk in
  let nnz_loc := rowptr m_loc in
  let s :=
    iter_z 0 n
      (fun i s =>
         iter_z (colptr i) (colptr (i + 1)) (fun j s => transfer_entry i j s) s)
      {| colind := heap_colind; nzval_loc := heap_nzval; csr_marker := mk |} in
  (rowptr, nnz_loc, colind s, nzval_loc s).

(** The entries of the local rows, each with its column and value, under
    its local row number, in storage order. *)
Definition local_entries : list ((Z * V) * Z) :=
  map (fun e : Z * Z => ((fst e, nzval (snd e)), rowind (snd e) - fst_row))
    (List.filter
       (fun e : Z * Z =>
          (fst_row <=? rowind (snd e)) && (rowind (snd e) <? fst_row + m_loc))
       (entries n colptr (fun j => j))).

End LocalCSR.

(** ** screate_A_x_b: the local right-hand sides and solutions *)

(** Lines 277-284: the local rows of the right-hand sides; [round] is the
    conversion of a double to single precision.  [b_global_dble] is the
    block of [m * nrhs] cells of line 207, which [dFillRHS_dist] fills
    with leading dimension [m] (line 212), and [*rhs] the block of
    [m_loc * nrhs] cells of line 277. *)
Definition local_rhs {D V : Type} (round : D -> V) (m n m_loc fst_row nrhs : Z)
    (b_global_dble : Z -> D) (heap_rhs : Z -> V) : option (Z -> V) :=
  try_z 0 nrhs
    (fun j rhs =>
       try_z 0 m_loc
         (fun i rhs =>
            let row := fst_row + i in
            v ← load_within (m * nrhs) b_global_dble (j * n + row);
            store_within (m_loc * nrhs) rhs (j * m_loc + i) (round v))
         rhs)
    heap_rhs.

(** Lines 287-297: the local rows of the true solutions, out of the
    [n * nrhs] cells of [xtrue_global] (line 196). *)
Definition local_x {V : Type} (n m_loc fst_row nrhs : Z)
    (xtrue_global heap_x : Z -> V) : option (Z -> V) :=
  let ldx := m_loc in
  try_z 0 nrhs
    (fun j x =>
       try_z 0 m_loc
         (fun i x =>
            v ← load_within (n * nrhs) xtrue_global (i + fst_row + j * n);
            store_within (ldx * nrhs) x (i + j * ldx) v)
         x)
    heap_x.

(** ** More example inputs *)

Module MoreExamples.

(** A process of a 2x2 grid that owns neither the row nor the column of
    the supernodes (all of which live on process 0). *)
Definition bystander_LU : LUstruct :=
  {| iam := 3; myrow := 1; mycol := 1; nsupers := 2;
     procIJ := fun _ _ => 0; krow := fun _ => 0; kcol := fun _ => 0;
     g2lRow := fun k => k; g2lCol := fun k => k; SuperSize := fun _ => 1;
     UidxSendCounts := fun _ => 3; UvalSendCounts := fun _ => 1;
     LidxSendCounts := fun _ => 3; LvalSendCounts := fun _ => 1;
     numLookAhead := 2 |}.

(** A scheduler state whose window has shrunk to nothing before the last
    node. *)
Definition stuck_state : sched_state :=
  {| k1 := 1; winSize := 0; winParity := 1;
     localNumChildrenLeft := fun _ => 1;
     donePanelBcast := fun _ => 0; donePanelSolve := fun _ => 0 |}.

(** The index array of the panel of [Examples.two_block_lsub] (header of
    size 4, diagonal block included, supernode of size 10). *)
Definition two_block_index : list Z :=
  [2; 3; 1; 10; 5; 7; 0; 1; 3; 0; 0; 1].

(** A 2-by-2 pattern in column storage: column 0 holds row 1, column 1
    holds rows 0 and 1. *)
Definition small_colptr (j : Z) : Z := nth (Z.to_nat j) [0; 1; 3] 0.
Definition small_rowind (i : Z) : Z := nth (Z.to_nat i) [1; 0; 1] 0.

(** A 2-by-2 diagonal pattern. *)
Definition diag_colptr (j : Z) : Z := nth (Z.to_nat j) [0; 1; 2] 0.
Definition diag_rowind (i : Z) : Z := nth (Z.to_nat i) [0; 1] 0.

End MoreExamples.
(** * Properties *)

(** ** The model on concrete inputs *)

Example chain_pipelined_returns :
  fst (dsparseTreeFactorGPU_trace (Examples.chain_LU 2) Examples.chain_setree
         Examples.chain_forest 5) = Some 0.
Proof. reflexivity. Qed.

Example chain_pipelined_windows :
  List.filter (fun e => is_doing e || is_gate e || is_diag_call e)
    (snd (dsparseTreeFactorGPU_trace (Examples.chain_LU 2) Examples.chain_setree
            Examples.chain_forest 5))
  = [Call_dDiagFactorPanelSolveGPU 0 0; Printf_Doing 0 0; Gate_decrement 1 0;
     Call_dDiagFactorPanelSolveGPU 1 0; Printf_Doing 1 1].
Proof. reflexivity. Qed.

Example chain_baseline_schur :
  List.filter (fun e => match schur_node e with Some _ => true | None => false end)
    (snd (dsparseTreeFactorGPUBaseline_trace (Examples.chain_LU 2)
            Examples.chain_forest))
  = [Prim (dSchurComplementUpdateGPU 0 0 (OwnedPanel 0) (OwnedPanel 0));
     Prim (dSchurComplementUpdateGPU 0 1 (OwnedPanel 1) (OwnedPanel 1))].
Proof. reflexivity. Qed.

Example two_block_index :
  xlpanel_t 4 2 2 (fun _ => 10) Examples.two_block_lsub Examples.tens_xsup
    (fun _ => -7) 3 tt 1
  = Some {| index := [2; 3; 1; 10; 5; 7; 0; 1; 3; 0; 0; 1]; val := tt |}.
Proof. reflexivity. Qed.

(** ** Status codes and no-ops *)

(** C9. [dDiagFactorPanelSolveGPU] and [xlpanel_t::diagFactor] return 0
    whatever status the pivot kernel reports, and after the call the [info]
    cell holds exactly what the kernel wrote into it (it is untouched when
    the process does not own the diagonal block): nothing the core does
    afterwards alters it. *)
Theorem pivot_status_forwarded :
  forall (Mem Val : Type) (diag_kernel : Z -> Z -> Z -> Mem -> Z -> Mem * Z)
         (extern : prim -> Mem -> Mem) (xgstrf2 : Z -> Val -> Z -> Val * Z)
         (LU : LUstruct) (k offset : Z) (st : lu_state Mem) (val : Val) (i : Z),
    fst (dDiagFactorPanelSolveGPU diag_kernel extern LU k offset st) = 0
    /\ info (snd (dDiagFactorPanelSolveGPU diag_kernel extern LU k offset st))
       = (if iam LU =? procIJ LU k k
          then snd (diag_kernel (g2lCol LU k) k offset (mem st) (info st))
          else info st)
    /\ fst (xlpanel_diagFactor xgstrf2 k val i) = 0
    /\ snd (snd (xlpanel_diagFactor xgstrf2 k val i)) = snd (xgstrf2 k val i).
Proof.
  intros. split; [reflexivity|]. split; [|split; reflexivity].
  unfold dDiagFactorPanelSolveGPU, dDiagFactorPanelSolveGPU_trace, exec_trace.
  destruct (iam LU =? procIJ LU k k), (myrow LU =? krow LU k),
    (mycol LU =? kcol LU k); simpl;
    try destruct (diag_kernel _ _ _ _ _); reflexivity.
Qed.

(** C5. A side whose index send count is zero is skipped by
    [dPanelBcastGPU]: no broadcast and no index copy for it; with both
    counts zero the call issues no external operation at all and the state
    is returned as it was. *)
Theorem panel_bcast_zero_counts :
  forall (Mem : Type) (diag_kernel : Z -> Z -> Z -> Mem -> Z -> Mem * Z)
         (extern : prim -> Mem -> Mem)
         (LU : LUstruct) (k offset : Z) (st : lu_state Mem),
    (UidxSendCounts LU k = 0 ->
     forall e, In e (dPanelBcastGPU_trace LU k offset) ->
               is_panel_bcast_op USide e = false)
    /\ (LidxSendCounts LU k = 0 ->
        forall e, In e (dPanelBcastGPU_trace LU k offset) ->
                  is_panel_bcast_op LSide e = false)
    /\ (UidxSendCounts LU k = 0 -> LidxSendCounts LU k = 0 ->
        dPanelBcastGPU_trace LU k offset = [Call_dPanelBcastGPU k offset]
        /\ dPanelBcastGPU diag_kernel extern LU k offset st = (0, st)).
Proof.
  intros. unfold dPanelBcastGPU, dPanelBcastGPU_trace, panel_bcast_U, panel_bcast_L.
  repeat split.
  - intros HU e. rewrite HU. simpl.
    destruct (0 <? LidxSendCounts LU k); simpl; intros He;
      repeat (destruct He as [<-|He]; [reflexivity|]); destruct He.
  - intros HL e. rewrite HL. simpl. rewrite app_nil_r.
    destruct (0 <? UidxSendCounts LU k); simpl; intros He;
      repeat (destruct He as [<-|He]; [reflexivity|]); destruct He.
  - rewrite H, H0. reflexivity.
  - rewrite H, H0. reflexivity.
Qed.

Lemma panel_bcast_zero_counts_witness :
  dPanelBcastGPU_trace (Examples.silent_LU 2) 1 0 = [Call_dPanelBcastGPU 1 0]
  /\ dPanelBcastGPU Examples.log_kernel Examples.log_extern
       (Examples.silent_LU 2) 1 0 {| mem := []; info := 0 |}
     = (0, {| mem := []; info := 0 |}).
Proof.
  apply (panel_bcast_zero_counts (list prim) Examples.log_kernel
           Examples.log_extern (Examples.silent_LU 2) 1 0
           {| mem := []; info := 0 |}); reflexivity.
Defined.

(** C4. With [nnodes < 1] both schedulers return 1 at once: nothing is
    issued and the state is unchanged.  On a non-empty subtree the baseline
    returns 0, and so does the pipelined scheduler whenever it returns. *)
Theorem empty_subtree_status :
  forall (Mem : Type) (diag_kernel : Z -> Z -> Z -> Mem -> Z -> Mem * Z)
         (extern : prim -> Mem -> Mem)
         (LU : LUstruct) (setree : Z -> Z) (sforest : sForest)
         (fuel : nat) (st : lu_state Mem),
    (nNodes sforest < 1 ->
     dsparseTreeFactorGPU_trace LU setree sforest fuel = (Some 1, [])
     /\ dsparseTreeFactorGPU diag_kernel extern LU setree sforest fuel st = (Some 1, st)
     /\ dsparseTreeFactorGPUBaseline_trace LU sforest = (1, [])
     /\ dsparseTreeFactorGPUBaseline diag_kernel extern LU sforest st = (1, st))
    /\ (1 <= nNodes sforest ->
        fst (dsparseTreeFactorGPUBaseline diag_kernel extern LU sforest st) = 0
        /\ forall r,
             fst (dsparseTreeFactorGPU diag_kernel extern LU setree sforest fuel st)
             = Some r -> r = 0).
Proof.
  intros. unfold dsparseTreeFactorGPU, dsparseTreeFactorGPUBaseline,
    dsparseTreeFactorGPU_trace, dsparseTreeFactorGPUBaseline_trace.
  split; intros Hn.
  - apply Z.ltb_lt in Hn. rewrite Hn. simpl. repeat split.
  - assert (Hf : (nNodes sforest <? 1) = false) by (apply Z.ltb_ge; lia).
    rewrite Hf. split; [reflexivity|].
    destruct (pipeline LU setree sforest fuel) as [t [s|]]; simpl;
      intros r Hr; congruence.
Qed.

Lemma empty_subtree_status_witness :
  (dsparseTreeFactorGPU_trace (Examples.chain_LU 2) Examples.chain_setree
     Examples.empty_forest 3 = (Some 1, [])
   /\ dsparseTreeFactorGPU Examples.log_kernel Examples.log_extern
        (Examples.chain_LU 2) Examples.chain_setree Examples.empty_forest 3
        {| mem := []; info := 0 |} = (Some 1, {| mem := []; info := 0 |})
   /\ dsparseTreeFactorGPUBaseline_trace (Examples.chain_LU 2)
        Examples.empty_forest = (1, [])
   /\ dsparseTreeFactorGPUBaseline Examples.log_kernel Examples.log_extern
        (Examples.chain_LU 2) Examples.empty_forest
        {| mem := []; info := 0 |} = (1, {| mem := []; info := 0 |}))
  /\ fst (dsparseTreeFactorGPUBaseline Examples.log_kernel Examples.log_extern
            (Examples.chain_LU 2) Examples.chain_forest
            {| mem := []; info := 0 |}) = 0
  /\ exists r,
       fst (dsparseTreeFactorGPU Examples.log_kernel Examples.log_extern
              (Examples.chain_LU 2) Examples.chain_setree Examples.chain_forest 5
              {| mem := []; info := 0 |}) = Some r
       /\ r = 0.
Proof.
  pose proof (empty_subtree_status (list prim) Examples.log_kernel
                Examples.log_extern (Examples.chain_LU 2) Examples.chain_setree
                Examples.empty_forest 3 {| mem := []; info := 0 |}) as [He _].
  pose proof (empty_subtree_status (list prim) Examples.log_kernel
                Examples.log_extern (Examples.chain_LU 2) Examples.chain_setree
                Examples.chain_forest 5 {| mem := []; info := 0 |}) as [_ Hn].
  split; [apply He; simpl; lia|].
  destruct Hn as [Hb Hp]; [simpl; lia|].
  split; [exact Hb|].
  exists 0. split; [reflexivity|]. apply Hp. reflexivity.
Defined.

(** ** The degenerate look-ahead depths *)

(** With a window of size zero a turn of the [while] loop issues nothing
    and leaves [k1] where it was. *)
Lemma zero_window_stuck (LU : LUstruct) (setree : Z -> Z) (sforest : sForest) :
  forall (fuel : nat) (s : sched_state),
    winSize s = 0 -> k1 s < nNodes sforest ->
    while_windows LU setree sforest fuel s = ([], None).
Proof.
  induction fuel as [|fuel IH]; intros s Hw Hk; simpl.
  - apply Z.ltb_lt in Hk. now rewrite Hk.
  - pose proof Hk as Hk'. apply Z.ltb_lt in Hk'. rewrite Hk'.
    unfold window_iter, for_range. rewrite Hw, Z.add_0_r.
    assert (Hmin : SUPERLU_MIN (nNodes sforest) (k1 s) = k1 s).
    { unfold SUPERLU_MIN. destruct (Z.ltb_spec (nNodes sforest) (k1 s)); lia. }
    rewrite Hmin, Z.sub_diag. simpl. rewrite Hw, Z.add_0_r.
    rewrite Hmin, Z.sub_diag. simpl.
    rewrite IH; [reflexivity| simpl; exact Hw | simpl; exact Hk].
Qed.

Lemma degenerate_lookahead_never_returns
    (LU : LUstruct) (setree : Z -> Z) (sforest : sForest) (fuel : nat) :
  0 <= numLookAhead LU <= 1 -> 1 <= nNodes sforest ->
  0 <= eTreeTopLims sforest 1 ->
  fst (dsparseTreeFactorGPU_trace LU setree sforest fuel) = None.
Proof.
  intros HLA Hn Hl. unfold dsparseTreeFactorGPU_trace.
  assert (Hf : (nNodes sforest <? 1) = false) by (apply Z.ltb_ge; lia).
  rewrite Hf. unfold pipeline.
  rewrite zero_window_stuck; [reflexivity| |].
  - unfold first_window.
    destruct (ramp LU setree sforest) as [t0 [lncl dps]].
    destruct (for_range _ _ _ _) as [t dpb]. simpl.
    assert (Hq : numLookAhead LU ÷ 2 = 0).
    { apply Z.quot_small. lia. }
    rewrite Hq. unfold SUPERLU_MIN.
    destruct (Z.ltb_spec 0 (eTreeTopLims sforest 1)); lia.
  - unfold first_window.
    destruct (ramp LU setree sforest) as [t0 [lncl dps]].
    destruct (for_range _ _ _ _) as [t dpb]. simpl. lia.
Qed.

(** C2. With look-ahead depth 0 or 1 the first window has size
    [numLA/2 = 0], so the [while] loop of the pipelined scheduler never
    advances [k1]: on the two-node chain it is still running after any
    number of turns, while the baseline returns 0. *)
Theorem degenerate_lookahead_diverges :
  forall fuel : nat,
    fst (dsparseTreeFactorGPU_trace (Examples.chain_LU 1)
           Examples.chain_setree Examples.chain_forest fuel) = None
    /\ fst (dsparseTreeFactorGPU_trace (Examples.chain_LU 0)
              Examples.chain_setree Examples.chain_forest fuel) = None
    /\ fst (dsparseTreeFactorGPUBaseline_trace (Examples.chain_LU 1)
              Examples.chain_forest) = 0
    /\ fst (dsparseTreeFactorGPUBaseline_trace (Examples.chain_LU 0)
              Examples.chain_forest) = 0.
Proof.
  intros fuel. repeat split.
  - apply degenerate_lookahead_never_returns; simpl; lia.
  - apply degenerate_lookahead_never_returns; simpl; lia.
Qed.

(** ** Loop invariants *)

Arguments dPanelBcastGPU_trace : simpl never.
Arguments dDiagFactorPanelSolveGPU_trace : simpl never.
Arguments offset_next_of : simpl never.
Arguments window_node : simpl never.
Arguments look_ahead_panel_solve : simpl never.
Arguments window_iter : simpl never.

Lemma for_loop_inv {St : Type} (P : Z -> list event -> St -> Prop)
    (body : Z -> St -> list event * St) :
  forall (n : nat) (k0 : Z) (T : list event) (s : St),
    P k0 T s ->
    (forall k T' s', k0 <= k < k0 + Z.of_nat n -> P k T' s' ->
       P (k + 1) (T' ++ fst (body k s')) (snd (body k s'))) ->
    P (k0 + Z.of_nat n) (T ++ fst (for_loop n k0 body s))
      (snd (for_loop n k0 body s)).
Proof.
  induction n as [|n IH]; intros k0 T s H0 Hstep; simpl.
  - now rewrite Z.add_0_r, app_nil_r.
  - destruct (body k0 s) as [t1 s1] eqn:E1.
    destruct (for_loop n (k0 + 1) body s1) as [t2 s2] eqn:E2. simpl.
    specialize (IH (k0 + 1) (T ++ t1) s1). rewrite E2 in IH. simpl in IH.
    rewrite app_assoc.
    replace (k0 + Z.of_nat (S n)) with (k0 + 1 + Z.of_nat n) by lia.
    apply IH.
    + specialize (Hstep k0 T s). rewrite E1 in Hstep. apply Hstep; [lia|exact H0].
    + intros k T' s' Hk. apply Hstep. lia.
Qed.

Lemma for_range_inv {St : Type} (P : Z -> list event -> St -> Prop)
    (body : Z -> St -> list event * St) (lo hi : Z) (T : list event) (s : St) :
  P lo T s ->
  (forall k T' s', lo <= k < hi -> P k T' s' ->
     P (k + 1) (T' ++ fst (body k s')) (snd (body k s'))) ->
  P (Z.max lo hi) (T ++ fst (for_range lo hi body s))
    (snd (for_range lo hi body s)).
Proof.
  intros H0 Hstep. unfold for_range.
  replace (Z.max lo hi) with (lo + Z.of_nat (Z.to_nat (hi - lo))) by lia.
  apply for_loop_inv; [exact H0|].
  intros k T' s' Hk. apply Hstep. lia.
Qed.

Lemma for_range_empty {St : Type} (body : Z -> St -> list event * St)
    (lo hi : Z) (s : St) :
  hi <= lo -> for_range lo hi body s = ([], s).
Proof.
  intros H. unfold for_range.
  replace (Z.to_nat (hi - lo)) with O by lia. reflexivity.
Qed.

Lemma SUPERLU_MIN_spec (x y : Z) : SUPERLU_MIN x y = Z.min x y.
Proof. unfold SUPERLU_MIN. destruct (Z.ltb_spec x y); lia. Qed.

Section SchedulerLemmas.

Variable LU : LUstruct.
Variable setree : Z -> Z.
Variable sforest : sForest.

Lemma scan_next_inv (P : Z -> list event -> sched_state -> Prop)
    (R : list event -> sched_state -> Prop) (k1_next : Z) :
  forall (n : nat) (k0_next : Z) (T : list event) (s : sched_state),
    P k0_next T s ->
    (forall k T' s', k0_next <= k < k0_next + Z.of_nat n -> P k T' s' ->
       localNumChildrenLeft s' k = 0 ->
       P (k + 1)
         (T' ++ dPanelBcastGPU_trace LU (nodeList sforest k)
                  (offset_next_of LU k k1_next s')
             ++ [Printf_Trying k (offset_next_of LU k k1_next s')])
         (set_donePanelBcast (upd (donePanelBcast s') k 1) s')) ->
    (forall k T' s', k0_next <= k < k0_next + Z.of_nat n -> P k T' s' ->
       localNumChildrenLeft s' k <> 0 ->
       R T' (set_winSize (k - k1_next) s')) ->
    (forall T' s', P (k0_next + Z.of_nat n) T' s' -> R T' s') ->
    R (T ++ fst (scan_next LU sforest n k0_next k1_next s))
      (snd (scan_next LU sforest n k0_next k1_next s)).
Proof.
  induction n as [|n IH]; intros k0_next T s H0 Hopen Hshut Hend; cbn [scan_next fst snd].
  - rewrite app_nil_r. apply Hend. now rewrite Z.add_0_r.
  - destruct (Z.eqb_spec (localNumChildrenLeft s k0_next) 0) as [Hz|Hz].
    + destruct (scan_next LU sforest n (k0_next + 1) k1_next _) as [t2 s2] eqn:E2.
      cbn [fst snd].
      specialize (IH (k0_next + 1)
        (T ++ dPanelBcastGPU_trace LU (nodeList sforest k0_next)
                (offset_next_of LU k0_next k1_next s)
            ++ [Printf_Trying k0_next (offset_next_of LU k0_next k1_next s)])
        (set_donePanelBcast (upd (donePanelBcast s) k0_next 1) s)).
      rewrite E2 in IH. cbn [fst snd] in IH.
      replace (T ++ dPanelBcastGPU_trace LU (nodeList sforest k0_next)
                      (offset_next_of LU k0_next k1_next s)
                 ++ Printf_Trying k0_next (offset_next_of LU k0_next k1_next s) :: t2)
        with ((T ++ dPanelBcastGPU_trace LU (nodeList sforest k0_next)
                      (offset_next_of LU k0_next k1_next s)
                 ++ [Printf_Trying k0_next (offset_next_of LU k0_next k1_next s)]) ++ t2)
        by (rewrite <- !app_assoc; reflexivity).
      apply IH.
      * apply Hopen; [lia|exact H0|exact Hz].
      * intros k T' s' Hk. apply Hopen. lia.
      * intros k T' s' Hk. apply Hshut. lia.
      * intros T' s' HP. apply Hend.
        replace (k0_next + Z.of_nat (S n)) with (k0_next + 1 + Z.of_nat n) by lia.
        exact HP.
    + cbn [fst snd]. rewrite app_nil_r. apply Hshut; [lia|exact H0|exact Hz].
Qed.

Lemma while_windows_inv (P : list event -> sched_state -> Prop) :
  (forall T s, P T s -> k1 s < nNodes sforest ->
     P (T ++ fst (window_iter LU setree sforest s))
       (snd (window_iter LU setree sforest s))) ->
  forall (fuel : nat) (T : list event) (s : sched_state),
    P T s ->
    exists s', P (T ++ fst (while_windows LU setree sforest fuel s)) s'.
Proof.
  intros Hstep. induction fuel as [|fuel IH]; intros T s H0; simpl.
  - destruct (k1 s <? nNodes sforest); simpl; rewrite app_nil_r; eauto.
  - destruct (Z.ltb_spec (k1 s) (nNodes sforest)) as [Hlt|Hge].
    + destruct (window_iter LU setree sforest s) as [t1 s1] eqn:E1.
      destruct (while_windows LU setree sforest fuel s1) as [t2 r] eqn:E2.
      simpl. specialize (Hstep T s H0 Hlt). rewrite E1 in Hstep. simpl in Hstep.
      destruct (IH _ _ Hstep) as [s' Hs']. rewrite E2 in Hs'. simpl in Hs'.
      exists s'. now rewrite app_assoc.
    + simpl. rewrite app_nil_r. eauto.
Qed.

(** *** The state fields a window node leaves alone *)

Lemma look_ahead_panel_solve_frame (k_parent : Z) (s : sched_state) :
  let s' := snd (look_ahead_panel_solve LU sforest k_parent s) in
  k1 s' = k1 s /\ winSize s' = winSize s /\ winParity s' = winParity s.
Proof.
  unfold look_ahead_panel_solve.
  destruct (k_parent <? nsupers LU); [|now cbn].
  destruct ((0 <? myIperm sforest k_parent) && (myIperm sforest k_parent <? nNodes sforest));
    [|now cbn].
  destruct ((topoLvl <? numLvl sforest - 1) && _); now cbn.
Qed.

Lemma window_node_frame (w1 wsz par k0 : Z) (s : sched_state) :
  let s' := snd (window_node LU setree sforest w1 wsz par k0 s) in
  k1 s' = k1 s /\ winSize s' = winSize s /\ winParity s' = winParity s.
Proof.
  unfold window_node.
  pose proof (look_ahead_panel_solve_frame (setree (nodeList sforest k0)) s) as H.
  destruct (look_ahead_panel_solve LU sforest (setree (nodeList sforest k0)) s)
    as [t_gate s']. exact H.
Qed.

(** *** Cutting the pipeline trace into blocks *)

Lemma blocks_nil (wsz0 : Z) : blocks_of LU setree sforest wsz0 [].
Proof. exists []. split; [reflexivity|constructor]. Qed.

Lemma blocks_app (wsz0 : Z) (T1 T2 : list event) :
  blocks_of LU setree sforest wsz0 T1 -> blocks_of LU setree sforest wsz0 T2 ->
  blocks_of LU setree sforest wsz0 (T1 ++ T2).
Proof.
  intros [b1 [-> H1]] [b2 [-> H2]]. exists (b1 ++ b2). split.
  - now rewrite concat_app.
  - apply Forall_app. now split.
Qed.

Lemma blocks_one (wsz0 : Z) (b : list event) :
  window_block LU setree sforest wsz0 b -> blocks_of LU setree sforest wsz0 b.
Proof.
  intros H. exists [b]. split; [simpl; now rewrite app_nil_r|].
  constructor; [exact H|constructor].
Qed.

Lemma blocks_snoc (wsz0 : Z) (T b : list event) :
  blocks_of LU setree sforest wsz0 T ->
  window_block LU setree sforest wsz0 b ->
  blocks_of LU setree sforest wsz0 (T ++ b).
Proof. intros HT Hb. apply blocks_app; [exact HT|now apply blocks_one]. Qed.

Lemma window_iter_blocks (wsz0 : Z) (T : list event) (s : sched_state) :
  winSize s <= wsz0 ->
  blocks_of LU setree sforest wsz0 T ->
  blocks_of LU setree sforest wsz0 (T ++ fst (window_iter LU setree sforest s))
  /\ winSize (snd (window_iter LU setree sforest s)) <= wsz0.
Proof.
  intros Hw HT. unfold window_iter.
  (* the nodes of the window *)
  pose proof (for_range_inv
    (fun (_ : Z) T' s' =>
       blocks_of LU setree sforest wsz0 T'
       /\ winSize s' = winSize s /\ winParity s' = winParity s)
    (window_node LU setree sforest (k1 s) (winSize s) (winParity s))
    (k1 s) (SUPERLU_MIN (nNodes sforest) (k1 s + winSize s)) T s) as H1.
  cbv beta in H1.
  destruct (for_range (k1 s) _ (window_node LU setree sforest _ _ _) s)
    as [t1 s1]. cbn [fst snd] in H1.
  destruct H1 as (HT1 & Hw1 & Hp1); [now repeat split| |].
  { intros k T' s' Hk (HT' & Hw' & Hp'). rewrite SUPERLU_MIN_spec in Hk.
    pose proof (window_node_frame (k1 s) (winSize s) (winParity s) k s') as (_ & F2 & F3).
    cbv zeta in F2, F3. repeat split.
    - apply blocks_snoc; [exact HT'|]. constructor; lia.
    - congruence.
    - congruence. }
  (* the scan for the next window *)
  pose proof (scan_next_inv
    (fun (_ : Z) T' s' =>
       blocks_of LU setree sforest wsz0 T'
       /\ winSize s' = winSize s /\ winParity s' = winParity s)
    (fun T' s' => blocks_of LU setree sforest wsz0 T' /\ winSize s' <= winSize s)
    (k1 s + winSize s)
    (Z.to_nat (SUPERLU_MIN (nNodes sforest) (k1 s + winSize s + winSize s1)
               - (k1 s + winSize s)))
    (k1 s + winSize s) (T ++ t1) s1) as H2.
  cbv beta in H2.
  destruct (scan_next LU sforest _ (k1 s + winSize s) (k1 s + winSize s) s1)
    as [t2 s2]. cbn [fst snd] in H2.
  destruct H2 as (HT2 & Hw2); [now repeat split| | | |].
  { intros k T' s' Hk (HT' & Hw' & Hp') _. rewrite SUPERLU_MIN_spec in Hk.
    repeat split; [|exact Hw'|exact Hp'].
    apply blocks_snoc; [exact HT'|]. constructor; lia. }
  { intros k T' s' Hk (HT' & Hw' & Hp') _. rewrite SUPERLU_MIN_spec in Hk.
    split; [exact HT'|]. cbn. lia. }
  { intros T' s' (HT' & Hw' & Hp'). split; [exact HT'|lia]. }
  (* the synchronizations *)
  pose proof (for_range_inv
    (fun (_ : Z) T' (_ : unit) => blocks_of LU setree sforest wsz0 T')
    (sync_node LU sforest (k1 s) (winSize s) (winParity s))
    (k1 s) (SUPERLU_MIN (nNodes sforest) (k1 s + winSize s)) ((T ++ t1) ++ t2) tt) as H3.
  cbv beta in H3.
  destruct (for_range (k1 s) _ (sync_node LU sforest _ _ _) tt) as [t3 u3].
  cbn [fst snd] in H3 |- *.
  split; [|cbn; lia].
  rewrite <- !app_assoc in H3. apply H3; [now rewrite !app_assoc|].
  intros k T' [] Hk HT'. rewrite SUPERLU_MIN_spec in Hk.
  apply blocks_snoc; [exact HT'|]. constructor; lia.
Qed.

Lemma pipeline_blocks (fuel : nat) :
  blocks_of LU setree sforest (winSize (snd (first_window LU setree sforest)))
    (fst (pipeline LU setree sforest fuel)).
Proof.
  unfold pipeline.
  destruct (while_windows_inv
    (fun T s => blocks_of LU setree sforest
                  (winSize (snd (first_window LU setree sforest))) T
                /\ winSize s <= winSize (snd (first_window LU setree sforest)))
    ) with (fuel := fuel) (T := @nil event) (s := snd (first_window LU setree sforest))
    as [s' [H _]].
  - intros T s [HT Hw] _. now apply window_iter_blocks.
  - split; [apply blocks_nil|lia].
  - exact H.
Qed.

Lemma blocks_Forall (wsz0 : Z) (Q : event -> Prop) (T : list event) :
  (forall b, window_block LU setree sforest wsz0 b -> Forall Q b) ->
  blocks_of LU setree sforest wsz0 T -> Forall Q T.
Proof.
  intros Hb [bs [-> Hbs]]. induction Hbs as [|b bs Hb1 _ IH]; simpl.
  - constructor.
  - apply Forall_app. split; [now apply Hb|exact IH].
Qed.

End SchedulerLemmas.

(** ** Slot offsets *)

Ltac split_ifs :=
  repeat match goal with
         | |- context [if ?b then _ else _] => destruct b
         end.

Ltac slots_tac :=
  cbn; split_ifs; cbn;
  repeat (constructor; [unfold slots_below; cbn; repeat constructor; lia|]);
  try constructor.

Lemma dDiag_trace_slots (LU : LUstruct) (k offset : Z) :
  0 <= offset < numLookAhead LU ->
  Forall (slots_below (numLookAhead LU)) (dDiagFactorPanelSolveGPU_trace LU k offset).
Proof.
  intros H. unfold dDiagFactorPanelSolveGPU_trace. slots_tac.
Qed.

Lemma dPanelBcast_trace_slots (LU : LUstruct) (k offset : Z) :
  0 <= offset < numLookAhead LU ->
  Forall (slots_below (numLookAhead LU)) (dPanelBcastGPU_trace LU k offset).
Proof.
  intros H.
  unfold dPanelBcastGPU_trace, panel_bcast_U, panel_bcast_L, k_upanel_of, k_lpanel_of.
  slots_tac.
Qed.

Lemma halfWin_double (LU : LUstruct) :
  0 <= numLookAhead LU -> 0 <= halfWin LU /\ 2 * halfWin LU <= numLookAhead LU.
Proof.
  intros H. unfold halfWin.
  pose proof (Z.quot_rem' (numLookAhead LU) 2) as E.
  pose proof (Z.rem_bound_pos (numLookAhead LU) 2 H ltac:(lia)) as B. lia.
Qed.

Lemma window_offset_bound (LU : LUstruct) (d wsz : Z) (b : bool) :
  0 <= numLookAhead LU -> 0 <= d < wsz -> wsz <= halfWin LU ->
  0 <= Z.rem d wsz + (if b then halfWin LU else 0) < numLookAhead LU.
Proof.
  intros HLA Hd Hw. destruct (halfWin_double LU HLA) as [H0 H2].
  pose proof (Z.rem_bound_pos d wsz ltac:(lia) ltac:(lia)) as B.
  destruct b; lia.
Qed.

Lemma window_block_slots (LU : LUstruct) (setree : Z -> Z) (sforest : sForest)
    (wsz0 : Z) (b : list event) :
  2 <= numLookAhead LU -> wsz0 <= halfWin LU ->
  window_block LU setree sforest wsz0 b ->
  Forall (slots_below (numLookAhead LU)) b.
Proof.
  intros HLA Hw0 Hb. destruct Hb as [w1 wsz par k0 s Hk Hw|k0n k1n s Hk Hw|w1 wsz par k0 Hk Hw].
  - unfold window_node.
    pose proof (window_offset_bound LU (k0 - w1) wsz (parity_odd par)
                  ltac:(lia) ltac:(lia) ltac:(lia)) as Ho.
    set (offset := Z.rem (k0 - w1) wsz + _) in *.
    assert (Hgate : Forall (slots_below (numLookAhead LU))
              (fst (look_ahead_panel_solve LU sforest (setree (nodeList sforest k0)) s))).
    { unfold look_ahead_panel_solve.
      destruct (_ <? nsupers LU); [|constructor].
      destruct ((0 <? _) && _); [|constructor].
      destruct ((topoLvl <? _) && _); cbn [fst].
      - constructor; [constructor|]. apply dDiag_trace_slots. lia.
      - constructor; [constructor|constructor]. }
    destruct (look_ahead_panel_solve LU sforest _ s) as [t_gate s']. cbn [fst] in *.
    constructor; [repeat constructor; cbn; lia|].
    apply Forall_app. split; [|apply Forall_app; split; [exact Hgate|]].
    + unfold k_upanel_of, k_lpanel_of. slots_tac.
    + unfold k_upanel_of, k_lpanel_of. slots_tac.
  - pose proof (window_offset_bound LU (k0n - k1n) (winSize s)
                  (negb (parity_odd (winParity s)))
                  ltac:(lia) ltac:(lia) ltac:(lia)) as Ho.
    fold (offset_next_of LU k0n k1n s) in Ho.
    apply Forall_app. split; [now apply dPanelBcast_trace_slots|].
    repeat constructor; cbn; lia.
  - unfold sync_node. cbn [fst].
    pose proof (window_offset_bound LU (k0 - w1) wsz (parity_odd par)
                  ltac:(lia) ltac:(lia) ltac:(lia)) as Ho.
    destruct (has_sends LU _); repeat constructor; cbn; lia.
Qed.

Lemma first_window_winSize (LU : LUstruct) (setree : Z -> Z) (sforest : sForest) :
  winSize (snd (first_window LU setree sforest))
  = SUPERLU_MIN (Z.quot (numLookAhead LU) 2) (eTreeTopLims sforest 1).
Proof.
  unfold first_window.
  destruct (ramp LU setree sforest) as [t0 [lncl dps]].
  destruct (for_range _ _ _ _) as [t dpb]. reflexivity.
Qed.

(** C10. With [numLA >= 2] and a non-empty first level, every slot offset
    used by the windows of the pipelined scheduler (the offset of a node in
    its window, of a broadcast of the next window, of a stream
    synchronization, and slot 0 of the mid-window factorization) lies in
    [[0, numLA)]: the window size starts at most at [numLA/2] and never
    grows. *)
Theorem window_slots_in_range :
  forall (LU : LUstruct) (setree : Z -> Z) (sforest : sForest) (fuel : nat),
    2 <= numLookAhead LU ->
    eTreeTopLims sforest 0 < eTreeTopLims sforest 1 ->
    forall e offset,
      In e (fst (pipeline LU setree sforest fuel)) ->
      In offset (event_slots e) ->
      0 <= offset < numLookAhead LU.
Proof.
  intros LU setree sforest fuel HLA _ e offset He Ho.
  pose proof (pipeline_blocks LU setree sforest fuel) as Hb.
  apply (blocks_Forall LU setree sforest _ (slots_below (numLookAhead LU))) in Hb.
  - rewrite List.Forall_forall in Hb. specialize (Hb e He).
    unfold slots_below in Hb. rewrite List.Forall_forall in Hb. now apply Hb.
  - intros b. apply window_block_slots; [exact HLA|].
    rewrite first_window_winSize, SUPERLU_MIN_spec. unfold halfWin. lia.
Qed.

Lemma window_slots_in_range_witness :
  0 <= 1 < numLookAhead (Examples.chain_LU 2).
Proof.
  apply (window_slots_in_range (Examples.chain_LU 2) Examples.chain_setree
           Examples.chain_forest 5 ltac:(simpl; lia) ltac:(simpl; lia)
           (Printf_Doing 1 1) 1).
  - vm_compute. repeat (first [left; reflexivity | right]).
  - simpl. left. reflexivity.
Defined.

(** ** Occurrences of an event in a trace *)

Lemma occ_nil (pre post : list event) (e : event) : [] = pre ++ e :: post -> False.
Proof. destruct pre; discriminate. Qed.

Lemma occ_cons (x : event) (t pre post : list event) (e : event) :
  x :: t = pre ++ e :: post ->
  (pre = [] /\ x = e /\ t = post)
  \/ (exists pre', pre = x :: pre' /\ t = pre' ++ e :: post).
Proof.
  destruct pre as [|y pre]; simpl; intros H; injection H as -> ->.
  - left. auto.
  - right. eauto.
Qed.

Lemma occ_app (a b pre post : list event) (e : event) :
  a ++ b = pre ++ e :: post ->
  (exists post1, a = pre ++ e :: post1 /\ post = post1 ++ b)
  \/ (exists pre2, pre = a ++ pre2 /\ b = pre2 ++ e :: post).
Proof.
  revert pre. induction a as [|x a IH]; intros pre H; simpl in H.
  - right. exists pre. auto.
  - destruct (occ_cons _ _ _ _ _ H) as [(-> & -> & <-)|(pre' & -> & H')].
    + left. exists a. auto.
    + destruct (IH _ H') as [(post1 & -> & ->)|(pre2 & -> & ->)].
      * left. exists post1. auto.
      * right. exists pre2. auto.
Qed.

Lemma occ_In (tr pre post : list event) (e : event) :
  tr = pre ++ e :: post -> In e tr.
Proof. intros ->. apply in_or_app. right. now left. Qed.

Lemma each_occ_app (Q : list event -> event -> list event -> Prop)
    (a b : list event) :
  stable Q -> each_occ Q a -> each_occ Q b -> each_occ Q (a ++ b).
Proof.
  intros HQ Ha Hb pre e post H.
  destruct (occ_app _ _ _ _ _ H) as [(post1 & Ea & ->)|(pre2 & -> & Eb)].
  - specialize (HQ [] b _ _ _ (Ha _ _ _ Ea)). exact HQ.
  - specialize (HQ a [] _ _ _ (Hb _ _ _ Eb)). now rewrite app_nil_r in HQ.
Qed.

Lemma each_occ_nil (Q : list event -> event -> list event -> Prop) :
  each_occ Q [].
Proof. intros pre e post H. destruct (occ_nil _ _ _ H). Qed.

Lemma blocks_each_occ (LU : LUstruct) (setree : Z -> Z) (sforest : sForest)
    (wsz0 : Z) (Q : list event -> event -> list event -> Prop) (T : list event) :
  stable Q ->
  (forall b, window_block LU setree sforest wsz0 b -> each_occ Q b) ->
  blocks_of LU setree sforest wsz0 T -> each_occ Q T.
Proof.
  intros HQ Hb [bs [-> Hbs]]. induction Hbs as [|b bs Hb1 _ IH]; simpl.
  - apply each_occ_nil.
  - apply each_occ_app; [exact HQ|now apply Hb|exact IH].
Qed.

(** Events of a given kind *)

Lemma forallb_In (f : event -> bool) (l : list event) (e : event) :
  forallb f l = true -> In e l -> f e = true.
Proof. intros H. rewrite forallb_forall in H. apply H. Qed.

Lemma dDiag_trace_tail_prims (LU : LUstruct) (k offset : Z) :
  exists t, dDiagFactorPanelSolveGPU_trace LU k offset
            = Call_dDiagFactorPanelSolveGPU k offset :: t
            /\ forallb is_prim t = true.
Proof.
  unfold dDiagFactorPanelSolveGPU_trace. eexists. split; [reflexivity|].
  split_ifs; reflexivity.
Qed.

Lemma dPanelBcast_trace_tail_prims (LU : LUstruct) (k offset : Z) :
  exists t, dPanelBcastGPU_trace LU k offset = Call_dPanelBcastGPU k offset :: t
            /\ forallb is_prim t = true.
Proof.
  unfold dPanelBcastGPU_trace, panel_bcast_U, panel_bcast_L.
  eexists. split; [reflexivity|]. split_ifs; reflexivity.
Qed.

Lemma forallb_prims_weaken (f : event -> bool) (t : list event) :
  (forall p, f (Prim p) = true) -> forallb is_prim t = true -> forallb f t = true.
Proof.
  intros Hf H. rewrite forallb_forall in *. intros e He.
  specialize (H e He). destruct e; try discriminate. apply Hf.
Qed.

(** ** The gate in front of the mid-window factorization *)

Section GateLemmas.

Variable LU : LUstruct.
Variable setree : Z -> Z.
Variable sforest : sForest.

Lemma window_node_trace (w1 wsz par k0 : Z) (s : sched_state) :
  let k := nodeList sforest k0 in
  let offset := Z.rem (k0 - w1) wsz + (if parity_odd par then halfWin LU else 0) in
  fst (window_node LU setree sforest w1 wsz par k0 s)
  = Printf_Doing k0 offset
    :: (if has_sends LU k
        then [Prim (lookAheadUpdateGPU offset k (setree k)
                      (k_lpanel_of LU k offset) (k_upanel_of LU k offset))]
        else [])
    ++ fst (look_ahead_panel_solve LU sforest (setree k) s)
    ++ (if has_sends LU k
        then [Prim (dSchurCompUpdateExcludeOneGPU offset k (setree k)
                      (k_lpanel_of LU k offset) (k_upanel_of LU k offset))]
        else []).
Proof.
  cbv zeta. unfold window_node.
  destruct (look_ahead_panel_solve LU sforest _ s) as [t_gate s']. reflexivity.
Qed.

Lemma window_node_state (w1 wsz par k0 : Z) (s : sched_state) :
  snd (window_node LU setree sforest w1 wsz par k0 s)
  = snd (look_ahead_panel_solve LU sforest (setree (nodeList sforest k0)) s).
Proof.
  unfold window_node.
  destruct (look_ahead_panel_solve LU sforest _ s) as [t_gate s']. reflexivity.
Qed.

(** The three outcomes of the "Look Ahead Panel Solve" block. *)
Lemma look_ahead_panel_solve_cases (k_parent : Z) (s : sched_state) :
  let p := myIperm sforest k_parent in
  let t := fst (look_ahead_panel_solve LU sforest k_parent s) in
  t = []
  \/ (exists left, t = [Gate_decrement p left]
                   /\ (left <> 0 \/ numLvl sforest <= 1))
  \/ (t = Gate_decrement p 0 :: dDiagFactorPanelSolveGPU_trace LU k_parent 0
      /\ 1 < numLvl sforest /\ k_parent < nsupers LU /\ 0 < p < nNodes sforest
      /\ localNumChildrenLeft s p - 1 = 0).
Proof.
  cbv zeta. unfold look_ahead_panel_solve.
  destruct (Z.ltb_spec k_parent (nsupers LU)) as [Hn|Hn]; [|now left].
  destruct (Z.ltb_spec 0 (myIperm sforest k_parent)) as [H0|H0]; [|now left].
  destruct (Z.ltb_spec (myIperm sforest k_parent) (nNodes sforest)) as [H1|H1];
    [|now left].
  cbn [andb]. unfold topoLvl.
  destruct (Z.ltb_spec 0 (numLvl sforest - 1)) as [Hl|Hl]; cbn [andb].
  - destruct (Z.eqb_spec (localNumChildrenLeft s (myIperm sforest k_parent) - 1) 0)
      as [Hz|Hz]; cbn [fst].
    + right. right. rewrite Hz. repeat split; lia.
    + right. left. eexists. split; [reflexivity|]. now left.
  - right. left. eexists. split; [reflexivity|]. right. lia.
Qed.

Lemma look_ahead_panel_solve_shape (k_parent : Z) (s : sched_state) :
  gate_shape LU sforest k_parent
    (fst (look_ahead_panel_solve LU sforest k_parent s)).
Proof.
  destruct (look_ahead_panel_solve_cases k_parent s) as [H|[H|(H & Hl & _)]];
    unfold gate_shape; auto.
Qed.

Lemma gate_no_doing (k_parent : Z) (s : sched_state) :
  forallb (fun e => negb (is_doing e))
    (fst (look_ahead_panel_solve LU sforest k_parent s)) = true.
Proof.
  destruct (look_ahead_panel_solve_cases k_parent s)
    as [->|[(left & -> & _)|(-> & _)]]; try reflexivity.
  destruct (dDiag_trace_tail_prims LU k_parent 0) as (t & -> & Ht). cbn.
  now apply forallb_prims_weaken.
Qed.

Lemma gated_call_stable : stable (gated_call LU sforest).
Proof.
  intros a b pre e post H kp off He.
  destruct (H kp off He) as (H1 & H2 & H3 & H4 & pre' & ->).
  repeat split; try assumption; try lia.
  exists (a ++ pre'). now rewrite app_assoc.
Qed.

Lemma no_diag_call_occ (t pre post : list event) (kp off : Z) :
  forallb (fun e => negb (is_diag_call e)) t = true ->
  t = pre ++ Call_dDiagFactorPanelSolveGPU kp off :: post -> False.
Proof.
  intros Hf H. apply occ_In in H. apply (forallb_In _ _ _ Hf) in H. discriminate.
Qed.

Lemma window_block_gated_call (wsz0 : Z) (b : list event) :
  window_block LU setree sforest wsz0 b -> each_occ (gated_call LU sforest) b.
Proof.
  intros Hb pre e post H kp off ->.
  destruct Hb as [w1 wsz par k0 s Hk Hw|k0n k1n s Hk Hw|w1 wsz par k0 Hk Hw].
  - rewrite window_node_trace in H. cbv zeta in H.
    destruct (occ_cons _ _ _ _ _ H) as [(_ & Hd & _)|(pre1 & -> & H1)];
      [discriminate|].
    destruct (occ_app _ _ _ _ _ H1) as [(post1 & Ea & _)|(pre2 & -> & H2)].
    { exfalso. eapply no_diag_call_occ; [|exact Ea]. split_ifs; reflexivity. }
    destruct (occ_app _ _ _ _ _ H2) as [(post1 & Eg & _)|(pre3 & -> & H3)].
    + destruct (look_ahead_panel_solve_cases (setree (nodeList sforest k0)) s)
        as [Hc|[(left & Hc & _)|(Hc & Hl & Hn & Hp & Hz)]];
        cbv zeta in Hc; rewrite Hc in Eg.
      * destruct (occ_nil _ _ _ Eg).
      * exfalso. eapply no_diag_call_occ; [|exact Eg]. reflexivity.
      * destruct (occ_cons _ _ _ _ _ Eg) as [(_ & Hd & _)|(pre4 & -> & E4)];
          [discriminate|].
        destruct (dDiag_trace_tail_prims LU (setree (nodeList sforest k0)) 0)
          as (t & Et & Ht). rewrite Et in E4.
        destruct (occ_cons _ _ _ _ _ E4) as [(-> & Hd & _)|(pre5 & -> & E5)].
        -- injection Hd as <- <-. repeat split; try assumption; try lia.
           eexists (Printf_Doing k0 _ :: _). reflexivity.
        -- exfalso. eapply no_diag_call_occ; [|exact E5].
           now apply forallb_prims_weaken.
    + exfalso. eapply no_diag_call_occ; [|exact H3]. split_ifs; reflexivity.
  - exfalso. eapply no_diag_call_occ; [|exact H].
    destruct (dPanelBcast_trace_tail_prims LU (nodeList sforest k0n)
                (offset_next_of LU k0n k1n s)) as (t & -> & Ht).
    cbn. rewrite forallb_app. cbn. rewrite andb_true_r.
    now apply forallb_prims_weaken.
  - exfalso. eapply no_diag_call_occ; [|exact H].
    unfold sync_node. cbn [fst]. split_ifs; reflexivity.
Qed.

Lemma pipeline_gated_call (fuel : nat) :
  each_occ (gated_call LU sforest) (fst (pipeline LU setree sforest fuel)).
Proof.
  eapply blocks_each_occ;
    [apply gated_call_stable|apply window_block_gated_call|apply pipeline_blocks].
Qed.

End GateLemmas.

(** C3 (as amended). A call of [dDiagFactorPanelSolveGPU] issued from the
    windows uses slot 0 and comes right behind the decrement that empties
    the parent's counter; it needs a forest of more than one level
    ([topoLvl < maxTopoLevel - 1] with [topoLvl] fixed at 0), a parent below
    [nsupers] and a parent position strictly between 0 and [nnodes].  The
    level of the parent plays no part. *)
Theorem mid_window_factor_gate :
  forall (LU : LUstruct) (setree : Z -> Z) (sforest : sForest) (fuel : nat)
         (pre post : list event) (k_parent offset : Z),
    fst (pipeline LU setree sforest fuel)
    = pre ++ Call_dDiagFactorPanelSolveGPU k_parent offset :: post ->
    offset = 0 /\ 1 < numLvl sforest /\ k_parent < nsupers LU
    /\ 0 < myIperm sforest k_parent < nNodes sforest
    /\ exists pre', pre = pre' ++ [Gate_decrement (myIperm sforest k_parent) 0].
Proof.
  intros LU setree sforest fuel pre post kp off H.
  exact (pipeline_gated_call LU setree sforest fuel _ _ _ H kp off eq_refl).
Qed.

Lemma mid_window_factor_gate_witness :
  0 = 0 /\ 1 < numLvl Examples.chain_forest
  /\ 1 < nsupers (Examples.chain_LU 2)
  /\ 0 < myIperm Examples.chain_forest 1 < nNodes Examples.chain_forest
  /\ exists pre',
       firstn 3 (fst (pipeline (Examples.chain_LU 2) Examples.chain_setree
                        Examples.chain_forest 5))
       = pre' ++ [Gate_decrement (myIperm Examples.chain_forest 1) 0].
Proof.
  apply (mid_window_factor_gate (Examples.chain_LU 2) Examples.chain_setree
           Examples.chain_forest 5
           (firstn 3 (fst (pipeline (Examples.chain_LU 2) Examples.chain_setree
                             Examples.chain_forest 5)))
           (skipn 4 (fst (pipeline (Examples.chain_LU 2) Examples.chain_setree
                            Examples.chain_forest 5)))
           1 0).
  vm_compute. reflexivity.
Defined.

(** C3 (as stated) fails: on the two-node chain the root, which is the whole
    final level, is factored from inside the first window. *)
Lemma mid_window_factor_final_level :
  ~ (forall k_parent offset,
       In (Call_dDiagFactorPanelSolveGPU k_parent offset)
          (fst (pipeline (Examples.chain_LU 2) Examples.chain_setree
                  Examples.chain_forest 5)) ->
       ~ in_final_level Examples.chain_forest
           (myIperm Examples.chain_forest k_parent)).
Proof.
  intros H. apply (H 1 0).
  - vm_compute. repeat (first [left; reflexivity | right]).
  - unfold in_final_level. simpl. lia.
Qed.

(** ** Order of the updates of a node *)

Lemma ordered_updates_stable (LU : LUstruct) (setree : Z -> Z) (sforest : sForest) :
  stable (ordered_updates LU setree sforest).
Proof.
  intros a b pre e post H k0 off He Hs.
  destruct (H k0 off He Hs) as (mid & post' & -> & Hg).
  exists mid, (post' ++ b). split; [|exact Hg].
  cbn. rewrite <- app_assoc. reflexivity.
Qed.

Lemma no_doing_occ (t pre post : list event) (k0 off : Z) :
  forallb (fun e => negb (is_doing e)) t = true ->
  t = pre ++ Printf_Doing k0 off :: post -> False.
Proof.
  intros Hf H. apply occ_In in H. apply (forallb_In _ _ _ Hf) in H. discriminate.
Qed.

Lemma window_block_ordered_updates (LU : LUstruct) (setree : Z -> Z)
    (sforest : sForest) (wsz0 : Z) (b : list event) :
  window_block LU setree sforest wsz0 b ->
  each_occ (ordered_updates LU setree sforest) b.
Proof.
  intros Hb pre e post H k0' off -> Hs.
  destruct Hb as [w1 wsz par k0 s Hk Hw|k0n k1n s Hk Hw|w1 wsz par k0 Hk Hw].
  - rewrite window_node_trace in H. cbv zeta in H.
    destruct (occ_cons _ _ _ _ _ H) as [(-> & Hd & <-)|(pre1 & -> & H1)].
    + injection Hd as <- <-. rewrite Hs. cbv zeta.
      eexists _, []. split; [reflexivity|].
      apply look_ahead_panel_solve_shape.
    + exfalso. eapply no_doing_occ; [|exact H1].
      rewrite !forallb_app, gate_no_doing. split_ifs; reflexivity.
  - exfalso. eapply no_doing_occ; [|exact H].
    destruct (dPanelBcast_trace_tail_prims LU (nodeList sforest k0n)
                (offset_next_of LU k0n k1n s)) as (t & -> & Ht).
    cbn. rewrite forallb_app. cbn. rewrite andb_true_r.
    now apply forallb_prims_weaken.
  - exfalso. eapply no_doing_occ; [|exact H].
    unfold sync_node. cbn [fst]. split_ifs; reflexivity.
Qed.



(** ** Nodes without sends *)

Lemma for_loop_Forall {St : Type} (Q : event -> Prop)
    (body : Z -> St -> list event * St) :
  (forall k s, Forall Q (fst (body k s))) ->
  forall n k0 s, Forall Q (fst (for_loop n k0 body s)).
Proof.
  intros Hb. induction n as [|n IH]; intros k0 s; simpl.
  - constructor.
  - specialize (Hb k0 s). destruct (body k0 s) as [t1 s1].
    specialize (IH (k0 + 1) s1).
    destruct (for_loop n (k0 + 1) body s1) as [t2 s2].
    apply Forall_app. now split.
Qed.

Lemma for_loop_In {St : Type} (body : Z -> St -> list event * St)
    (e : event) (k : Z) :
  (forall s, In e (fst (body k s))) ->
  forall n k0 s, k0 <= k < k0 + Z.of_nat n ->
                 In e (fst (for_loop n k0 body s)).
Proof.
  intros Hb. induction n as [|n IH]; intros k0 s Hk; [lia|]. simpl.
  destruct (Z.eq_dec k k0) as [->|Hne].
  - specialize (Hb s). destruct (body k0 s) as [t1 s1].
    destruct (for_loop n (k0 + 1) body s1) as [t2 s2]. cbn [fst] in *.
    apply in_or_app. now left.
  - destruct (body k0 s) as [t1 s1]. specialize (IH (k0 + 1) s1 ltac:(lia)).
    destruct (for_loop n (k0 + 1) body s1) as [t2 s2]. cbn [fst] in *.
    apply in_or_app. now right.
Qed.

Section NoSends.

Variable LU : LUstruct.
Variable setree : Z -> Z.
Variable sforest : sForest.

Lemma prims_no_schur (t : list event) :
  forallb (fun e => match schur_node e with None => true | Some _ => false end) t
  = true ->
  Forall (schur_has_sends LU) t.
Proof.
  intros H. rewrite forallb_forall in H. apply List.Forall_forall.
  intros e He k Hk. specialize (H e He). rewrite Hk in H. discriminate.
Qed.

Lemma dDiag_trace_no_schur (k offset : Z) :
  Forall (schur_has_sends LU) (dDiagFactorPanelSolveGPU_trace LU k offset).
Proof.
  apply prims_no_schur. unfold dDiagFactorPanelSolveGPU_trace.
  split_ifs; reflexivity.
Qed.

Lemma dPanelBcast_trace_no_schur (k offset : Z) :
  Forall (schur_has_sends LU) (dPanelBcastGPU_trace LU k offset).
Proof.
  apply prims_no_schur. unfold dPanelBcastGPU_trace, panel_bcast_U, panel_bcast_L.
  split_ifs; reflexivity.
Qed.

Lemma window_block_schur (wsz0 : Z) (b : list event) :
  window_block LU setree sforest wsz0 b -> Forall (schur_has_sends LU) b.
Proof.
  intros Hb.
  destruct Hb as [w1 wsz par k0 s Hk Hw|k0n k1n s Hk Hw|w1 wsz par k0 Hk Hw].
  - rewrite window_node_trace. cbv zeta.
    constructor; [intros k Hk'; discriminate|].
    apply Forall_app. split; [|apply Forall_app; split].
    + destruct (has_sends LU (nodeList sforest k0)) eqn:Hs; [|constructor].
      constructor; [|constructor]. intros k Hk'. now injection Hk' as <-.
    + destruct (look_ahead_panel_solve_cases LU sforest
                  (setree (nodeList sforest k0)) s)
        as [->|[(left & -> & _)|(-> & _)]].
      * constructor.
      * constructor; [intros k Hk'; discriminate|constructor].
      * constructor; [intros k Hk'; discriminate|apply dDiag_trace_no_schur].
    + destruct (has_sends LU (nodeList sforest k0)) eqn:Hs; [|constructor].
      constructor; [|constructor]. intros k Hk'. now injection Hk' as <-.
  - apply Forall_app. split; [apply dPanelBcast_trace_no_schur|].
    constructor; [intros k Hk'; discriminate|constructor].
  - unfold sync_node. cbn [fst]. destruct (has_sends LU _); [|constructor].
    constructor; [intros k Hk'; discriminate|constructor].
Qed.

Lemma pipelined_schur (fuel : nat) :
  Forall (schur_has_sends LU) (snd (dsparseTreeFactorGPU_trace LU setree sforest fuel)).
Proof.
  unfold dsparseTreeFactorGPU_trace.
  destruct (nNodes sforest <? 1); [constructor|].
  pose proof (pipeline_blocks LU setree sforest fuel) as Hb.
  apply (blocks_Forall LU setree sforest _ (schur_has_sends LU)) in Hb;
    [|apply window_block_schur].
  destruct (pipeline LU setree sforest fuel) as [t_win r]. cbn [fst snd] in *.
  constructor; [intros k Hk'; discriminate|].
  apply Forall_app. split; [|apply Forall_app; split; [|exact Hb]].
  - unfold ramp.
    destruct (for_range 0 _ (count_child setree sforest) _) as [t0 lncl].
    pose proof (for_loop_Forall (schur_has_sends LU) (ramp_node LU sforest)
                  (fun k s => dDiag_trace_no_schur _ _)
                  (Z.to_nat (eTreeTopLims sforest (topoLvl + 1)
                             - eTreeTopLims sforest topoLvl))
                  (eTreeTopLims sforest topoLvl) (fun _ => 0)) as H.
    unfold for_range.
    destruct (for_loop _ _ (ramp_node LU sforest) _) as [t dps]. exact H.
  - unfold first_window. destruct (ramp LU setree sforest) as [t0 [lncl dps]].
    assert (Hbody : forall k s, Forall (schur_has_sends LU) (fst (first_bcast LU sforest k s))).
    { intros k s. unfold first_bcast. destruct (s k =? 0); cbn [fst];
        [apply dPanelBcast_trace_no_schur|constructor]. }
    pose proof (for_loop_Forall (schur_has_sends LU) (first_bcast LU sforest) Hbody
                  (Z.to_nat (SUPERLU_MIN (numLookAhead LU ÷ 2) (eTreeTopLims sforest 1)
                             - eTreeTopLims sforest topoLvl))
                  (eTreeTopLims sforest topoLvl) (fun _ => 0)) as H.
    unfold for_range.
    destruct (for_loop _ _ (first_bcast LU sforest) _) as [t dpb]. exact H.
Qed.

Lemma baseline_schur_ok (k : Z) : Forall (schur_has_sends LU) (baseline_schur LU k).
Proof.
  unfold baseline_schur. destruct (has_sends LU k) eqn:Hs; [|constructor].
  constructor; [|constructor]. intros k' Hk'. now injection Hk' as <-.
Qed.

Lemma baseline_schur_has_sends :
  Forall (schur_has_sends LU) (snd (dsparseTreeFactorGPUBaseline_trace LU sforest)).
Proof.
  unfold dsparseTreeFactorGPUBaseline_trace.
  destruct (nNodes sforest <? 1); [constructor|]. cbn [snd].
  constructor; [intros k Hk'; discriminate|].
  apply for_loop_Forall. intros lvl []. unfold baseline_level.
  apply for_loop_Forall. intros k0 []. unfold baseline_node. cbn [fst].
  apply Forall_app. split; [|apply Forall_app; split; [|apply baseline_schur_ok]].
  - apply prims_no_schur. unfold baseline_diag. split_ifs; reflexivity.
  - apply prims_no_schur. unfold baseline_bcast, panel_bcast_U, panel_bcast_L.
    split_ifs; reflexivity.
Qed.

(** The baseline factors every node of every level. *)
Lemma baseline_factors_all (lvl k0 : Z) (e : event) :
  1 <= nNodes sforest ->
  0 <= lvl < numLvl sforest ->
  eTreeTopLims sforest lvl <= k0 < eTreeTopLims sforest (lvl + 1) ->
  In e (baseline_diag LU (nodeList sforest k0) (k0 - eTreeTopLims sforest lvl)) ->
  In e (snd (dsparseTreeFactorGPUBaseline_trace LU sforest)).
Proof.
  intros Hn Hl Hk He. unfold dsparseTreeFactorGPUBaseline_trace.
  replace (nNodes sforest <? 1) with false by (symmetry; apply Z.ltb_ge; lia).
  cbn [snd]. right. unfold for_range.
  apply (for_loop_In _ e lvl); [|lia].
  intros []. unfold baseline_level, for_range.
  apply (for_loop_In _ e k0); [|lia].
  intros []. unfold baseline_node. cbn [fst]. apply in_or_app. now left.
Qed.

End NoSends.

(** ** The send counts do not steer factorization and bookkeeping *)

Lemma for_loop_filter_eq {St : Type} (f : event -> bool)
    (body1 body2 : Z -> St -> list event * St) :
  (forall k s, snd (body1 k s) = snd (body2 k s)
               /\ List.filter f (fst (body1 k s)) = List.filter f (fst (body2 k s))) ->
  forall n k0 s,
    snd (for_loop n k0 body1 s) = snd (for_loop n k0 body2 s)
    /\ List.filter f (fst (for_loop n k0 body1 s))
       = List.filter f (fst (for_loop n k0 body2 s)).
Proof.
  intros Hb. induction n as [|n IH]; intros k0 s; simpl; [auto|].
  destruct (Hb k0 s) as [Hs Ht].
  destruct (body1 k0 s) as [t1 s1], (body2 k0 s) as [t1' s1'].
  cbn [fst snd] in Hs, Ht. subst s1'.
  destruct (IH (k0 + 1) s1) as [Hs2 Ht2].
  destruct (for_loop n (k0 + 1) body1 s1) as [t2 s2],
           (for_loop n (k0 + 1) body2 s1) as [t2' s2'].
  cbn [fst snd] in *. split; [exact Hs2|].
  rewrite !List.filter_app. congruence.
Qed.

Section CountsFrame.

Variable LU : LUstruct.
Variables Uidx Uval Lidx Lval : Z -> Z.
Variable setree : Z -> Z.
Variable sforest : sForest.

Local Abbreviation LU' := (with_counts LU Uidx Uval Lidx Lval).

Lemma window_node_bookkeeping (LU0 : LUstruct) (w1 wsz par k0 : Z) (s : sched_state) :
  List.filter is_bookkeeping (fst (window_node LU0 setree sforest w1 wsz par k0 s))
  = Printf_Doing k0 (Z.rem (k0 - w1) wsz
                     + (if parity_odd par then halfWin LU0 else 0))
    :: List.filter is_bookkeeping
         (fst (look_ahead_panel_solve LU0 sforest (setree (nodeList sforest k0)) s)).
Proof.
  rewrite window_node_trace. cbv zeta. cbn [List.filter is_bookkeeping].
  rewrite !List.filter_app.
  destruct (has_sends LU0 (nodeList sforest k0)); cbn; now rewrite app_nil_r.
Qed.

Lemma window_node_counts (w1 wsz par k0 : Z) (s : sched_state) :
  snd (window_node LU' setree sforest w1 wsz par k0 s)
  = snd (window_node LU setree sforest w1 wsz par k0 s)
  /\ List.filter is_bookkeeping (fst (window_node LU' setree sforest w1 wsz par k0 s))
     = List.filter is_bookkeeping (fst (window_node LU setree sforest w1 wsz par k0 s)).
Proof.
  split.
  - rewrite !window_node_state. reflexivity.
  - rewrite !window_node_bookkeeping. reflexivity.
Qed.

Lemma dPanelBcast_bookkeeping (LU0 : LUstruct) (k offset : Z) :
  List.filter is_bookkeeping (dPanelBcastGPU_trace LU0 k offset)
  = [Call_dPanelBcastGPU k offset].
Proof.
  unfold dPanelBcastGPU_trace, panel_bcast_U, panel_bcast_L.
  split_ifs; reflexivity.
Qed.

Lemma scan_next_counts (n : nat) :
  forall (k0_next k1_next : Z) (s : sched_state),
    snd (scan_next LU' sforest n k0_next k1_next s)
    = snd (scan_next LU sforest n k0_next k1_next s)
    /\ List.filter is_bookkeeping (fst (scan_next LU' sforest n k0_next k1_next s))
       = List.filter is_bookkeeping (fst (scan_next LU sforest n k0_next k1_next s)).
Proof.
  induction n as [|n IH]; intros k0_next k1_next s; cbn [scan_next]; [auto|].
  destruct (localNumChildrenLeft s k0_next =? 0); [|auto].
  destruct (IH (k0_next + 1) k1_next
              (set_donePanelBcast (upd (donePanelBcast s) k0_next 1) s)) as [Hs Ht].
  destruct (scan_next LU' sforest n _ _ _) as [t2' s2'],
           (scan_next LU sforest n _ _ _) as [t2 s2].
  cbn [fst snd] in *. split; [exact Hs|].
  rewrite !List.filter_app, !dPanelBcast_bookkeeping.
  cbn [List.filter is_bookkeeping]. rewrite Ht. reflexivity.
Qed.

Lemma sync_node_bookkeeping (LU0 : LUstruct) (w1 wsz par : Z) (n : nat) :
  forall k0 u,
    List.filter is_bookkeeping
      (fst (for_loop n k0 (sync_node LU0 sforest w1 wsz par) u)) = [].
Proof.
  induction n as [|n IH]; intros k0 []; simpl; [reflexivity|].
  specialize (IH (k0 + 1) tt).
  destruct (for_loop n (k0 + 1) _ tt) as [t2 u2]. cbn [fst] in *.
  rewrite List.filter_app, IH. destruct (has_sends LU0 _); reflexivity.
Qed.

Lemma window_iter_counts (s : sched_state) :
  snd (window_iter LU' setree sforest s) = snd (window_iter LU setree sforest s)
  /\ List.filter is_bookkeeping (fst (window_iter LU' setree sforest s))
     = List.filter is_bookkeeping (fst (window_iter LU setree sforest s)).
Proof.
  unfold window_iter, for_range.
  destruct (for_loop_filter_eq is_bookkeeping
              (window_node LU' setree sforest (k1 s) (winSize s) (winParity s))
              (window_node LU setree sforest (k1 s) (winSize s) (winParity s))
              (window_node_counts _ _ _)
              (Z.to_nat (SUPERLU_MIN (nNodes sforest) (k1 s + winSize s) - k1 s))
              (k1 s) s) as [Hs1 Ht1].
  destruct (for_loop _ (k1 s) (window_node LU' setree sforest _ _ _) s) as [t1' s1'],
           (for_loop _ (k1 s) (window_node LU setree sforest _ _ _) s) as [t1 s1].
  cbn [fst snd] in Hs1, Ht1. subst s1'.
  destruct (scan_next_counts
              (Z.to_nat (SUPERLU_MIN (nNodes sforest) (k1 s + winSize s + winSize s1)
                         - (k1 s + winSize s)))
              (k1 s + winSize s) (k1 s + winSize s) s1) as [Hs2 Ht2].
  destruct (scan_next LU' sforest _ _ _ s1) as [t2' s2'],
           (scan_next LU sforest _ _ _ s1) as [t2 s2].
  cbn [fst snd] in Hs2, Ht2. subst s2'.
  pose proof (sync_node_bookkeeping LU' (k1 s) (winSize s) (winParity s)
                (Z.to_nat (SUPERLU_MIN (nNodes sforest) (k1 s + winSize s) - k1 s))
                (k1 s) tt) as H3'.
  pose proof (sync_node_bookkeeping LU (k1 s) (winSize s) (winParity s)
                (Z.to_nat (SUPERLU_MIN (nNodes sforest) (k1 s + winSize s) - k1 s))
                (k1 s) tt) as H3.
  destruct (for_loop _ (k1 s) (sync_node LU' sforest _ _ _) tt) as [t3' u3'],
           (for_loop _ (k1 s) (sync_node LU sforest _ _ _) tt) as [t3 u3].
  cbn [fst snd] in *. split; [reflexivity|].
  rewrite !List.filter_app. congruence.
Qed.

Lemma while_windows_counts (fuel : nat) :
  forall s,
    snd (while_windows LU' setree sforest fuel s)
    = snd (while_windows LU setree sforest fuel s)
    /\ List.filter is_bookkeeping (fst (while_windows LU' setree sforest fuel s))
       = List.filter is_bookkeeping (fst (while_windows LU setree sforest fuel s)).
Proof.
  induction fuel as [|fuel IH]; intros s; cbn [while_windows].
  - destruct (k1 s <? nNodes sforest); auto.
  - destruct (k1 s <? nNodes sforest); [|auto].
    destruct (window_iter_counts s) as [Hs1 Ht1].
    destruct (window_iter LU' setree sforest s) as [t1' s1'],
             (window_iter LU setree sforest s) as [t1 s1].
    cbn [fst snd] in Hs1, Ht1. subst s1'.
    destruct (IH s1) as [Hs2 Ht2].
    destruct (while_windows LU' setree sforest fuel s1) as [t2' r'],
             (while_windows LU setree sforest fuel s1) as [t2 r].
    cbn [fst snd] in *. split; [exact Hs2|].
    rewrite !List.filter_app. congruence.
Qed.

Lemma ramp_counts : ramp LU' setree sforest = ramp LU setree sforest.
Proof. reflexivity. Qed.

Lemma first_window_counts :
  snd (first_window LU' setree sforest) = snd (first_window LU setree sforest)
  /\ List.filter is_bookkeeping (fst (first_window LU' setree sforest))
     = List.filter is_bookkeeping (fst (first_window LU setree sforest)).
Proof.
  unfold first_window. rewrite ramp_counts.
  destruct (ramp LU setree sforest) as [t0 [lncl dps]].
  assert (Hb : forall k s,
             snd (first_bcast LU' sforest k s) = snd (first_bcast LU sforest k s)
             /\ List.filter is_bookkeeping (fst (first_bcast LU' sforest k s))
                = List.filter is_bookkeeping (fst (first_bcast LU sforest k s))).
  { intros k s. unfold first_bcast. destruct (s k =? 0); cbn [fst snd]; [|auto].
    split; [reflexivity|]. now rewrite !dPanelBcast_bookkeeping. }
  unfold for_range.
  destruct (for_loop_filter_eq is_bookkeeping _ _ Hb
              (Z.to_nat (SUPERLU_MIN (numLookAhead LU ÷ 2) (eTreeTopLims sforest 1)
                         - eTreeTopLims sforest topoLvl))
              (eTreeTopLims sforest topoLvl) (fun _ => 0)) as [Hs Ht].
  change (numLookAhead LU') with (numLookAhead LU).
  destruct (for_loop _ _ (first_bcast LU' sforest) _) as [t' dpb'],
           (for_loop _ _ (first_bcast LU sforest) _) as [t dpb].
  cbn [fst snd] in *. subst dpb'. split; [reflexivity|exact Ht].
Qed.

Lemma pipelined_counts (fuel : nat) :
  fst (dsparseTreeFactorGPU_trace LU' setree sforest fuel)
  = fst (dsparseTreeFactorGPU_trace LU setree sforest fuel)
  /\ List.filter is_bookkeeping
       (snd (dsparseTreeFactorGPU_trace LU' setree sforest fuel))
     = List.filter is_bookkeeping
         (snd (dsparseTreeFactorGPU_trace LU setree sforest fuel)).
Proof.
  unfold dsparseTreeFactorGPU_trace, pipeline.
  destruct (nNodes sforest <? 1); [auto|].
  destruct first_window_counts as [Hs0 Ht0]. rewrite Hs0.
  destruct (while_windows_counts fuel (snd (first_window LU setree sforest)))
    as [Hs Ht].
  destruct (while_windows LU' setree sforest fuel _) as [t' r'],
           (while_windows LU setree sforest fuel _) as [t r].
  cbn [fst snd] in *. subst r'. split; [reflexivity|].
  cbn [List.filter is_bookkeeping]. rewrite !List.filter_app, ramp_counts.
  congruence.
Qed.

Lemma baseline_counts :
  fst (dsparseTreeFactorGPUBaseline_trace LU' sforest)
  = fst (dsparseTreeFactorGPUBaseline_trace LU sforest)
  /\ List.filter is_bookkeeping (snd (dsparseTreeFactorGPUBaseline_trace LU' sforest))
     = List.filter is_bookkeeping (snd (dsparseTreeFactorGPUBaseline_trace LU sforest)).
Proof.
  unfold dsparseTreeFactorGPUBaseline_trace.
  destruct (nNodes sforest <? 1); [auto|]. cbn [fst snd]. split; [reflexivity|].
  cbn [List.filter is_bookkeeping]. f_equal.
  unfold for_range. apply for_loop_filter_eq. intros lvl []. unfold baseline_level.
  unfold for_range. apply for_loop_filter_eq. intros k0 []. unfold baseline_node.
  cbn [fst snd]. split; [reflexivity|].
  rewrite !List.filter_app. f_equal.
  unfold baseline_bcast, baseline_schur, panel_bcast_U, panel_bcast_L.
  split_ifs; reflexivity.
Qed.

End CountsFrame.

(** ** Children are processed before the gate opens *)

Section Children.

Variable LU : LUstruct.
Variable setree : Z -> Z.
Variable sforest : sForest.

Lemma children_in_nonneg (n : nat) :
  forall lo p, 0 <= children_in setree sforest n lo p.
Proof.
  induction n as [|n IH]; intros lo p; cbn [children_in]; [lia|].
  specialize (IH (lo + 1) p). destruct (_ =? p); lia.
Qed.

Lemma children_in_snoc (n : nat) :
  forall lo p,
    children_in setree sforest (S n) lo p
    = children_in setree sforest n lo p
      + (if parent_pos setree sforest (lo + Z.of_nat n) =? p then 1 else 0).
Proof.
  induction n as [|n IH]; intros lo p.
  - cbn [children_in]. change (Z.of_nat 0) with 0.
    replace (lo + 0) with lo by lia. lia.
  - replace (lo + Z.of_nat (S n)) with (lo + 1 + Z.of_nat n) by lia.
    change (children_in setree sforest (S (S n)) lo p)
      with ((if parent_pos setree sforest lo =? p then 1 else 0)
            + children_in setree sforest (S n) (lo + 1) p).
    rewrite IH. cbn [children_in]. lia.
Qed.

Lemma children_in_zero (n : nat) :
  forall lo p,
    children_in setree sforest n lo p <= 0 ->
    forall c, lo <= c < lo + Z.of_nat n -> parent_pos setree sforest c <> p.
Proof.
  induction n as [|n IH]; intros lo p H c Hc; [lia|].
  cbn [children_in] in H. pose proof (children_in_nonneg n (lo + 1) p) as Hn.
  destruct (Z.eqb_spec (parent_pos setree sforest lo) p) as [He|Hne]; [lia|].
  destruct (Z.eq_dec c lo) as [->|Hcl]; [exact Hne|].
  apply (IH (lo + 1) p); lia.
Qed.

Lemma processed_app_l (c : Z) (T t : list event) :
  processed LU setree sforest c T -> processed LU setree sforest c (T ++ t).
Proof.
  intros (off & H1 & H2). exists off. split.
  - apply in_or_app. now left.
  - intros Hs. apply in_or_app. left. now apply H2.
Qed.

Lemma processed_app_r (c : Z) (T t : list event) :
  processed LU setree sforest c t -> processed LU setree sforest c (T ++ t).
Proof.
  intros (off & H1 & H2). exists off. split.
  - apply in_or_app. now right.
  - intros Hs. apply in_or_app. right. now apply H2.
Qed.

Lemma each_occ_extend (Q : list event -> event -> list event -> Prop)
    (T t : list event) :
  (forall pre e post post', Q pre e post -> Q pre e post') ->
  each_occ Q T ->
  each_occ (fun pre e post => Q (T ++ pre) e post) t ->
  each_occ Q (T ++ t).
Proof.
  intros Hpost HT Ht pre e post H.
  destruct (occ_app _ _ _ _ _ H) as [(post1 & Ea & ->)|(pre2 & -> & Eb)].
  - eapply Hpost. exact (HT _ _ _ Ea).
  - exact (Ht _ _ _ Eb).
Qed.

Lemma gate_children_post (pre : list event) (e : event) (post post' : list event) :
  gate_children LU setree sforest pre e post ->
  gate_children LU setree sforest pre e post'.
Proof. intros H. exact H. Qed.

(** A trace without decrement keeps the invariant. *)
Lemma children_inv_quiet (k0 : Z) (T t : list event) (lncl : Z -> Z) :
  forallb (fun e => negb (is_gate e)) t = true ->
  children_inv LU setree sforest k0 T lncl ->
  children_inv LU setree sforest k0 (T ++ t) lncl.
Proof.
  intros Hq (H1 & H2 & H3). split; [exact H1|]. split.
  - intros c Hc Hn. apply processed_app_l. now apply H2.
  - apply each_occ_extend; [apply gate_children_post|exact H3|].
    intros pre e post H p ->. apply occ_In in H.
    apply (forallb_In _ _ _ Hq) in H. discriminate.
Qed.

(** What a decrement recorded by the gate says. *)
Lemma gate_event_facts (k_parent : Z) (s : sched_state)
    (pre post : list event) (q left : Z) :
  fst (look_ahead_panel_solve LU sforest k_parent s)
  = pre ++ Gate_decrement q left :: post ->
  pre = [] /\ q = myIperm sforest k_parent /\ 0 < q < nNodes sforest
  /\ left = localNumChildrenLeft s q - 1.
Proof.
  unfold look_ahead_panel_solve.
  destruct (Z.ltb_spec k_parent (nsupers LU)) as [Hn|Hn];
    [|intros H; destruct (occ_nil _ _ _ H)].
  destruct (Z.ltb_spec 0 (myIperm sforest k_parent)) as [H0|H0];
    [|intros H; destruct (occ_nil _ _ _ H)].
  destruct (Z.ltb_spec (myIperm sforest k_parent) (nNodes sforest)) as [H1|H1];
    [|intros H; destruct (occ_nil _ _ _ H)].
  cbn [andb].
  destruct ((topoLvl <? numLvl sforest - 1) && _); cbn [fst]; intros H.
  - destruct (occ_cons _ _ _ _ _ H) as [(-> & Hd & _)|(pre1 & -> & E1)].
    + injection Hd as <- <-. repeat split; lia.
    + exfalso. destruct (dDiag_trace_tail_prims LU k_parent 0) as (t & Et & Ht).
      rewrite Et in E1. apply occ_In in E1. destruct E1 as [E1|E1]; [discriminate|].
      apply (forallb_In _ _ _ Ht) in E1. discriminate.
  - destruct (occ_cons _ _ _ _ _ H) as [(-> & Hd & _)|(pre1 & -> & E1)].
    + injection Hd as <- <-. repeat split; lia.
    + destruct (occ_nil _ _ _ E1).
Qed.

(** The counters after the gate. *)
Lemma look_ahead_panel_solve_lncl (k_parent : Z) (s : sched_state) :
  let p := myIperm sforest k_parent in
  localNumChildrenLeft (snd (look_ahead_panel_solve LU sforest k_parent s))
  = if (k_parent <? nsupers LU) && ((0 <? p) && (p <? nNodes sforest))
    then upd (localNumChildrenLeft s) p (localNumChildrenLeft s p - 1)
    else localNumChildrenLeft s.
Proof.
  cbv zeta. unfold look_ahead_panel_solve.
  destruct (k_parent <? nsupers LU); [|reflexivity]. cbn [andb].
  destruct ((0 <? myIperm sforest k_parent) && _); [|reflexivity].
  destruct ((topoLvl <? numLvl sforest - 1) && _); reflexivity.
Qed.

Lemma no_gate_occ (t pre post : list event) (q left : Z) :
  forallb (fun e => negb (is_gate e)) t = true ->
  t = pre ++ Gate_decrement q left :: post -> False.
Proof.
  intros Hf H. apply occ_In in H. apply (forallb_In _ _ _ Hf) in H. discriminate.
Qed.

(** One node of a window keeps the invariant. *)
Lemma window_node_children_inv (w1 wsz par k0 : Z) (T : list event)
    (s : sched_state) :
  0 <= k0 < nNodes sforest ->
  children_inv LU setree sforest k0 T (localNumChildrenLeft s) ->
  children_inv LU setree sforest (k0 + 1)
    (T ++ fst (window_node LU setree sforest w1 wsz par k0 s))
    (localNumChildrenLeft (snd (window_node LU setree sforest w1 wsz par k0 s))).
Proof.
  intros Hk (H1 & H2 & H3).
  rewrite window_node_trace, window_node_state, look_ahead_panel_solve_lncl.
  cbv zeta.
  fold (parent_pos setree sforest k0).
  set (offset := Z.rem (k0 - w1) wsz + _).
  set (k := nodeList sforest k0).
  assert (Hn : Z.to_nat (nNodes sforest - k0)
               = S (Z.to_nat (nNodes sforest - (k0 + 1)))) by lia.
  assert (Hme : processed LU setree sforest k0
                  (Printf_Doing k0 offset
                   :: (if has_sends LU k
                       then [Prim (lookAheadUpdateGPU offset k (setree k)
                                     (k_lpanel_of LU k offset) (k_upanel_of LU k offset))]
                       else []) ++ [])).
  { exists offset. split; [now left|]. fold k. intros ->. right. now left. }
  split; [|split].
  - intros p Hp. specialize (H1 p Hp). rewrite Hn in H1. cbn [children_in] in H1.
    pose proof (children_in_nonneg (Z.to_nat (nNodes sforest - (k0 + 1))) (k0 + 1) p).
    destruct (_ && _) eqn:Hb.
    + unfold upd. destruct (Z.eq_dec p (parent_pos setree sforest k0)) as [->|Hne].
      * rewrite Z.eqb_refl in H1. lia.
      * destruct (_ =? p); lia.
    + destruct (_ =? p); lia.
  - intros c Hc Hcn. destruct (Z.eq_dec c k0) as [->|Hne].
    + apply processed_app_r. destruct Hme as (off & Hd & Hl). exists off. split.
      * destruct Hd as [Hd|Hd]; [now left|]. rewrite app_nil_r in Hd.
        right. apply in_or_app. now left.
      * intros Hs. specialize (Hl Hs). destruct Hl as [Hl|Hl]; [discriminate|].
        rewrite app_nil_r in Hl. right. apply in_or_app. now left.
    + apply processed_app_l. apply H2; lia.
  - apply each_occ_extend; [apply gate_children_post|exact H3|].
    intros pre e post H p ->.
    destruct (occ_cons _ _ _ _ _ H) as [(_ & Hd & _)|(pre1 & -> & E1)];
      [discriminate|].
    destruct (occ_app _ _ _ _ _ E1) as [(post1 & Ea & _)|(pre2 & -> & E2)].
    { exfalso. eapply no_gate_occ; [|exact Ea]. split_ifs; reflexivity. }
    destruct (occ_app _ _ _ _ _ E2) as [(post1 & Eg & _)|(pre3 & -> & E3)].
    + destruct (gate_event_facts _ _ _ _ _ _ Eg) as (-> & -> & Hq & Hz).
      fold (parent_pos setree sforest k0) in *.
      intros c Hc Hcp.
      assert (Hle : c <= k0).
      { specialize (H1 _ Hq). rewrite Hn in H1. cbn [children_in] in H1.
        rewrite Z.eqb_refl in H1.
        destruct (Z_le_gt_dec c k0) as [Hle|Hgt]; [exact Hle|]. exfalso.
        refine (children_in_zero (Z.to_nat (nNodes sforest - (k0 + 1))) (k0 + 1)
                  (parent_pos setree sforest k0) _ c _ Hcp);
          unfold parent_pos in *; subst k; lia. }
      destruct (Z.eq_dec c k0) as [->|Hne].
      * apply processed_app_r. exact Hme.
      * apply processed_app_l. apply H2; lia.
    + exfalso. eapply no_gate_occ; [|exact E3]. split_ifs; reflexivity.
Qed.

Lemma dPanelBcast_trace_quiet (k offset : Z) :
  forallb (fun e => negb (is_gate e)) (dPanelBcastGPU_trace LU k offset) = true.
Proof.
  destruct (dPanelBcast_trace_tail_prims LU k offset) as (t & -> & Ht).
  cbn. now apply forallb_prims_weaken.
Qed.

(** The invariant the [while] loop keeps from turn to turn. *)
Lemma window_iter_children_inv (T : list event) (s : sched_state) :
  k1 s < nNodes sforest ->
  0 <= k1 s /\ 0 <= winSize s
  /\ children_inv LU setree sforest (Z.min (k1 s) (nNodes sforest)) T
       (localNumChildrenLeft s) ->
  let s' := snd (window_iter LU setree sforest s) in
  0 <= k1 s' /\ 0 <= winSize s'
  /\ children_inv LU setree sforest (Z.min (k1 s') (nNodes sforest))
       (T ++ fst (window_iter LU setree sforest s))
       (localNumChildrenLeft s').
Proof.
  intros Hlt (Hk1 & Hw & Hinv). cbv zeta. unfold window_iter.
  set (hi := SUPERLU_MIN (nNodes sforest) (k1 s + winSize s)).
  assert (Hhi : hi = Z.min (nNodes sforest) (k1 s + winSize s))
    by apply SUPERLU_MIN_spec.
  (* the nodes of the window *)
  pose proof (for_range_inv
    (fun k T' s' =>
       children_inv LU setree sforest k T' (localNumChildrenLeft s')
       /\ winSize s' = winSize s)
    (window_node LU setree sforest (k1 s) (winSize s) (winParity s))
    (k1 s) hi T s) as H1.
  cbv beta in H1.
  destruct (for_range (k1 s) hi (window_node LU setree sforest _ _ _) s)
    as [t1 s1]. cbn [fst snd] in H1.
  destruct H1 as (Hinv1 & Hw1).
  { split; [|reflexivity]. now replace (k1 s) with (Z.min (k1 s) (nNodes sforest)) at 1 by lia. }
  { intros k T' s' Hk (HI & HW). split.
    - apply window_node_children_inv; [lia|exact HI].
    - pose proof (window_node_frame LU setree sforest (k1 s) (winSize s)
                    (winParity s) k s') as (_ & F2 & _).
      cbv zeta in F2. congruence. }
  replace (Z.max (k1 s) hi) with hi in Hinv1 by lia.
  (* the scan for the next window *)
  rewrite Hw1.
  pose proof (scan_next_inv LU sforest
    (fun (_ : Z) T' s' =>
       children_inv LU setree sforest hi T' (localNumChildrenLeft s')
       /\ 0 <= winSize s')
    (fun T' s' =>
       children_inv LU setree sforest hi T' (localNumChildrenLeft s')
       /\ 0 <= winSize s')
    (k1 s + winSize s)
    (Z.to_nat (SUPERLU_MIN (nNodes sforest) (k1 s + winSize s + winSize s)
               - (k1 s + winSize s)))
    (k1 s + winSize s) (T ++ t1) s1) as H2.
  cbv beta in H2.
  destruct (scan_next LU sforest _ (k1 s + winSize s) (k1 s + winSize s) s1)
    as [t2 s2]. cbn [fst snd] in H2.
  destruct H2 as (Hinv2 & Hw2).
  { split; [exact Hinv1|lia]. }
  { intros k T' s' Hk (HI & HW) _. split; [|exact HW]. cbn.
    apply children_inv_quiet; [|exact HI].
    rewrite forallb_app, dPanelBcast_trace_quiet. reflexivity. }
  { intros k T' s' Hk (HI & HW) _. split; [exact HI|]. cbn. lia. }
  { intros T' s' H. exact H. }
  (* the synchronizations *)
  pose proof (for_range_inv
    (fun (_ : Z) T' (_ : unit) =>
       children_inv LU setree sforest hi T' (localNumChildrenLeft s2))
    (sync_node LU sforest (k1 s) (winSize s) (winParity s))
    (k1 s) hi ((T ++ t1) ++ t2) tt) as H3.
  cbv beta in H3.
  destruct (for_range (k1 s) hi (sync_node LU sforest _ _ _) tt) as [t3 u3].
  cbn [fst snd k1 winSize localNumChildrenLeft] in H3 |- *.
  split; [lia|]. split; [exact Hw2|].
  replace (Z.min (k1 s + winSize s) (nNodes sforest)) with hi by lia.
  rewrite <- !app_assoc in H3. apply H3; [now rewrite !app_assoc|].
  intros k T' [] Hk HI. apply children_inv_quiet; [|exact HI].
  unfold sync_node. cbn [fst]. split_ifs; reflexivity.
Qed.

(** A negative window size (only possible with a negative first-level
    limit or look-ahead depth) makes every turn empty. *)
Lemma negative_window_silent (fuel : nat) :
  forall s, winSize s < 0 -> k1 s <= 0 ->
            fst (while_windows LU setree sforest fuel s) = [].
Proof.
  induction fuel as [|fuel IH]; intros s Hw Hk; cbn [while_windows].
  - destruct (k1 s <? nNodes sforest); reflexivity.
  - destruct (k1 s <? nNodes sforest); [|reflexivity].
    assert (E : window_iter LU setree sforest s
                = ([], {| k1 := k1 s + winSize s; winSize := winSize s;
                          winParity := winParity s + 1;
                          localNumChildrenLeft := localNumChildrenLeft s;
                          donePanelBcast := donePanelBcast s;
                          donePanelSolve := donePanelSolve s |})).
    { unfold window_iter. rewrite !for_range_empty
        by (rewrite SUPERLU_MIN_spec; lia).
      replace (Z.to_nat _) with O by (rewrite SUPERLU_MIN_spec; lia).
      reflexivity. }
    rewrite E.
    match goal with
    | |- context [while_windows _ _ _ fuel ?s1] =>
        specialize (IH s1 ltac:(cbn; lia) ltac:(cbn; lia))
    end.
    destruct (while_windows LU setree sforest fuel _) as [t2 r].
    cbn [fst] in *. now subst t2.
Qed.

(** The child counts computed at lines 136-143. *)
Lemma count_children (lncl : Z -> Z) :
  lncl = snd (for_range 0 (nNodes sforest) (count_child setree sforest)
                (fun _ => 0)) ->
  forall p, -1 < p < nNodes sforest ->
            lncl p = children_in setree sforest (Z.to_nat (nNodes sforest)) 0 p.
Proof.
  intros -> p Hp.
  pose proof (for_range_inv
    (fun k (_ : list event) (f : Z -> Z) =>
       0 <= k /\ f p = children_in setree sforest (Z.to_nat k) 0 p)
    (count_child setree sforest) 0 (nNodes sforest) [] (fun _ => 0)) as H.
  cbv beta in H. replace (Z.max 0 (nNodes sforest)) with (nNodes sforest) in H by lia.
  apply H.
  - split; [lia|reflexivity].
  - intros k T' f Hk (Hk0 & Hf). split; [lia|].
    replace (Z.to_nat (k + 1)) with (S (Z.to_nat k)) by lia.
    rewrite children_in_snoc. replace (0 + Z.of_nat (Z.to_nat k)) with k by lia.
    unfold count_child. fold (parent_pos setree sforest k).
    destruct (Z.ltb_spec (-1) (parent_pos setree sforest k)) as [Ha|Ha];
      destruct (Z.ltb_spec (parent_pos setree sforest k) (nNodes sforest)) as [Hb|Hb];
      cbn [andb snd]; unfold upd;
      destruct (Z.eqb_spec (parent_pos setree sforest k) p) as [He|He];
      try rewrite <- He in *;
      try destruct (Z.eq_dec _ (parent_pos setree sforest k)); lia.
Qed.

End Children.

Section FirstLevel.

Variable LU : LUstruct.
Variable setree : Z -> Z.
Variable sforest : sForest.

Lemma first_window_state :
  k1 (snd (first_window LU setree sforest)) = 0
  /\ localNumChildrenLeft (snd (first_window LU setree sforest))
     = snd (for_range 0 (nNodes sforest) (count_child setree sforest) (fun _ => 0)).
Proof.
  unfold first_window, ramp.
  destruct (for_range 0 _ (count_child setree sforest) _) as [t0 lncl].
  destruct (for_range _ _ (ramp_node LU sforest) _) as [t dps].
  destruct (for_range _ _ (first_bcast LU sforest) _) as [t' dpb].
  split; reflexivity.
Qed.

Lemma pipeline_gate_children (fuel : nat) :
  each_occ (gate_children LU setree sforest)
    (fst (pipeline LU setree sforest fuel)).
Proof.
  unfold pipeline. destruct first_window_state as [Hk1 Hl].
  destruct (Z_lt_le_dec (winSize (snd (first_window LU setree sforest))) 0)
    as [Hneg|Hpos].
  - rewrite negative_window_silent; [apply each_occ_nil|exact Hneg|lia].
  - destruct (while_windows_inv LU setree sforest
      (fun T s => 0 <= k1 s /\ 0 <= winSize s
                  /\ children_inv LU setree sforest
                       (Z.min (k1 s) (nNodes sforest)) T (localNumChildrenLeft s)))
      with (fuel := fuel) (T := @nil event)
           (s := snd (first_window LU setree sforest)) as [s' (_ & _ & _ & _ & H)].
    + intros T s HI Hlt. apply window_iter_children_inv; assumption.
    + rewrite Hk1. split; [lia|]. split; [exact Hpos|].
      split; [|split; [|apply each_occ_nil]].
      * intros p Hp.
        rewrite (count_children setree sforest _ Hl p ltac:(lia)).
        replace (Z.min 0 (nNodes sforest)) with 0 by lia.
        rewrite Z.sub_0_r. lia.
      * intros c Hc Hn. lia.
    + exact H.
Qed.

Lemma ramp_calls :
  Forall (fun e =>
            is_doing e = false
            /\ forall k offset, e = Call_dDiagFactorPanelSolveGPU k offset ->
                 exists k0, eTreeTopLims sforest 0 <= k0 < eTreeTopLims sforest 1
                            /\ nodeList sforest k0 = k)
         (fst (ramp LU setree sforest)).
Proof.
  unfold ramp.
  destruct (for_range 0 _ (count_child setree sforest) _) as [t0 lncl].
  pose proof (for_range_inv
    (fun (_ : Z) T (_ : Z -> Z) =>
       Forall (fun e =>
            is_doing e = false
            /\ forall k offset, e = Call_dDiagFactorPanelSolveGPU k offset ->
                 exists k0, eTreeTopLims sforest 0 <= k0 < eTreeTopLims sforest 1
                            /\ nodeList sforest k0 = k) T)
    (ramp_node LU sforest) (eTreeTopLims sforest topoLvl)
    (eTreeTopLims sforest (topoLvl + 1)) [] (fun _ => 0)) as H.
  cbv beta in H.
  destruct (for_range _ _ (ramp_node LU sforest) _) as [t dps].
  cbn [fst snd app] in *. apply H; [constructor|].
  intros k T' s' Hk HT. apply Forall_app. split; [exact HT|].
  unfold ramp_node. cbn [fst].
  destruct (dDiag_trace_tail_prims LU (nodeList sforest k) 0) as (t1 & -> & Ht).
  constructor.
  - split; [reflexivity|]. intros k' off E. injection E as <- <-.
    exists k. split; [exact Hk|reflexivity].
  - apply List.Forall_forall. intros e He.
    apply (forallb_In _ _ _ Ht) in He. destruct e; try discriminate.
    split; [reflexivity|]. intros k' off E. discriminate.
Qed.

Lemma ramp_factors_first_level (k0 : Z) :
  eTreeTopLims sforest 0 <= k0 < eTreeTopLims sforest 1 ->
  In (Call_dDiagFactorPanelSolveGPU (nodeList sforest k0) 0)
     (fst (ramp LU setree sforest)).
Proof.
  intros Hk. unfold ramp.
  destruct (for_range 0 _ (count_child setree sforest) _) as [t0 lncl].
  pose proof (for_loop_In (ramp_node LU sforest)
                (Call_dDiagFactorPanelSolveGPU (nodeList sforest k0) 0) k0
                (fun s => or_introl eq_refl)
                (Z.to_nat (eTreeTopLims sforest (topoLvl + 1)
                           - eTreeTopLims sforest topoLvl))
                (eTreeTopLims sforest topoLvl) (fun _ => 0)) as H.
  unfold for_range.
  destruct (for_loop _ _ (ramp_node LU sforest) _) as [t dps].
  unfold topoLvl in H. change (0 + 1) with 1 in H.
  apply H. lia.
Qed.

Lemma first_window_no_diag_call :
  forallb (fun e => negb (is_diag_call e))
    (fst (first_window LU setree sforest)) = true.
Proof.
  unfold first_window. destruct (ramp LU setree sforest) as [t0 [lncl dps]].
  pose proof (for_range_inv
    (fun (_ : Z) T (_ : Z -> Z) =>
       forallb (fun e => negb (is_diag_call e)) T = true)
    (first_bcast LU sforest) (eTreeTopLims sforest topoLvl)
    (SUPERLU_MIN (numLookAhead LU ÷ 2) (eTreeTopLims sforest 1))
    [] (fun _ => 0)) as H.
  cbv beta in H.
  destruct (for_range _ _ (first_bcast LU sforest) _) as [t dpb].
  cbn [fst snd app] in *. apply H; [reflexivity|].
  intros k T' s' Hk HT. rewrite forallb_app, HT. unfold first_bcast.
  destruct (s' k =? 0); cbn [fst]; [|reflexivity].
  destruct (dPanelBcast_trace_tail_prims LU (nodeList sforest k)
              (Z.rem k (numLookAhead LU))) as (t1 & -> & Ht).
  cbn. now apply forallb_prims_weaken.
Qed.

End FirstLevel.

(** C1. The nodes of the first topological level are factored by the ramp,
    before any window has started a node.  A call of
    [dDiagFactorPanelSolveGPU] for a node [k] outside the first level comes
    right behind the decrement that brings the counter of [k] to zero, and
    by then every node of the list whose parent is [k] has been started by
    a window and, if it has sends, its look-ahead update (the part of its
    Schur update that goes to the parent) has been issued. *)
Theorem diag_factor_after_children :
  forall (LU : LUstruct) (setree : Z -> Z) (sforest : sForest) (fuel : nat),
    1 <= nNodes sforest ->
    (forall k0,
       eTreeTopLims sforest 0 <= k0 < eTreeTopLims sforest 1 ->
       exists pre post,
         snd (dsparseTreeFactorGPU_trace LU setree sforest fuel)
         = pre ++ Call_dDiagFactorPanelSolveGPU (nodeList sforest k0) 0 :: post
         /\ forall e, In e pre -> is_doing e = false)
    /\ (forall k offset pre post,
          snd (dsparseTreeFactorGPU_trace LU setree sforest fuel)
          = pre ++ Call_dDiagFactorPanelSolveGPU k offset :: post ->
          (forall k0, eTreeTopLims sforest 0 <= k0 < eTreeTopLims sforest 1 ->
                      nodeList sforest k0 <> k) ->
          (exists pre', pre = pre' ++ [Gate_decrement (myIperm sforest k) 0])
          /\ forall c, 0 <= c < nNodes sforest ->
                       setree (nodeList sforest c) = k ->
                       processed LU setree sforest c pre).
Proof.
  intros LU setree sforest fuel Hn.
  assert (Etr : snd (dsparseTreeFactorGPU_trace LU setree sforest fuel)
                = Printf_Using :: fst (ramp LU setree sforest)
                  ++ fst (first_window LU setree sforest)
                  ++ fst (pipeline LU setree sforest fuel)).
  { unfold dsparseTreeFactorGPU_trace.
    replace (nNodes sforest <? 1) with false by (symmetry; apply Z.ltb_ge; lia).
    destruct (pipeline LU setree sforest fuel) as [t r]. reflexivity. }
  rewrite Etr. pose proof (ramp_calls LU setree sforest) as Hramp.
  rewrite List.Forall_forall in Hramp. split.
  - intros k0 Hk0.
    destruct (in_split _ _ (ramp_factors_first_level LU setree sforest k0 Hk0))
      as (l1 & l2 & E).
    exists (Printf_Using :: l1), (l2 ++ fst (first_window LU setree sforest)
                                    ++ fst (pipeline LU setree sforest fuel)).
    split.
    + rewrite E. cbn. rewrite <- app_assoc. reflexivity.
    + intros e [<-|He]; [reflexivity|].
      apply Hramp. rewrite E. apply in_or_app. now left.
  - intros k off pre post H Hnot.
    destruct (occ_cons _ _ _ _ _ H) as [(_ & Hd & _)|(pre1 & -> & H1)];
      [discriminate|].
    destruct (occ_app _ _ _ _ _ H1) as [(post1 & Ea & _)|(pre2 & -> & H2)].
    { exfalso. apply occ_In in Ea. destruct (Hramp _ Ea) as [_ Hc].
      destruct (Hc k off eq_refl) as (k0 & Hk0 & E). exact (Hnot k0 Hk0 E). }
    destruct (occ_app _ _ _ _ _ H2) as [(post1 & Eb & _)|(pre3 & -> & H3)].
    { exfalso. eapply no_diag_call_occ; [|exact Eb].
      apply first_window_no_diag_call. }
    destruct (pipeline_gated_call LU setree sforest fuel _ _ _ H3 k off eq_refl)
      as (_ & _ & _ & _ & pre' & ->).
    split.
    + exists (Printf_Using :: fst (ramp LU setree sforest)
              ++ fst (first_window LU setree sforest) ++ pre').
      cbn. rewrite <- !app_assoc. reflexivity.
    + intros c Hc Hp.
      rewrite <- app_assoc in H3. cbn in H3.
      pose proof (pipeline_gate_children LU setree sforest fuel _ _ _ H3
                    (myIperm sforest k) eq_refl c Hc) as Hpr.
      change (Printf_Using :: ?a ++ ?b ++ ?c ++ ?d)
        with ([Printf_Using] ++ a ++ b ++ c ++ d).
      apply processed_app_r, processed_app_r, processed_app_r, processed_app_l.
      apply Hpr. unfold parent_pos. now rewrite Hp.
Qed.

Lemma diag_factor_after_children_witness :
  let tr := snd (dsparseTreeFactorGPU_trace (Examples.chain_LU 2)
                   Examples.chain_setree Examples.chain_forest 5) in
  (exists pre post,
     tr = pre ++ Call_dDiagFactorPanelSolveGPU 0 0 :: post
     /\ forall e, In e pre -> is_doing e = false)
  /\ (exists pre', firstn 21 tr = pre' ++ [Gate_decrement 1 0])
  /\ processed (Examples.chain_LU 2) Examples.chain_setree Examples.chain_forest
       0 (firstn 21 tr).
Proof.
  intros tr.
  destruct (diag_factor_after_children (Examples.chain_LU 2)
              Examples.chain_setree Examples.chain_forest 5
              ltac:(simpl; lia)) as [Hfirst Hgate].
  split.
  - apply (Hfirst 0). simpl. lia.
  - destruct (Hgate 1 0 (firstn 21 tr) (skipn 22 tr)) as [H1 H2].
    + vm_compute. reflexivity.
    + intros k0 Hk0. simpl in *. lia.
    + split; [exact H1|]. apply (H2 0); [simpl; lia|reflexivity].
Defined.

(** ** The index array of an L panel *)

Lemma store_spec (a : list Z) (i v : Z) :
  0 <= i < Z.of_nat (length a) ->
  exists a', store a i v = Some a'
             /\ length a' = length a
             /\ load a' i = Some v
             /\ forall j, j <> i -> load a' j = load a j.
Proof.
  intros Hi. exists (<[Z.to_nat i := v]> a). unfold store, load.
  replace ((0 <=? i) && (i <? Z.of_nat (length a))) with true
    by (symmetry; apply andb_true_intro; split; [apply Z.leb_le|apply Z.ltb_lt]; lia).
  split; [reflexivity|]. split; [apply length_insert|]. split.
  - replace (0 <=? i) with true by (symmetry; apply Z.leb_le; lia).
    apply list_lookup_insert_eq. lia.
  - intros j Hj. destruct (Z.leb_spec 0 j); [|reflexivity].
    apply list_lookup_insert_ne. lia.
Qed.

Section LPanelLemmas.

Variables LPANEL_HEADER_SIZE BC_HEADER LB_DESCRIPTOR : Z.
Variable lsub : Z -> Z.
Variable xsup : Z -> Z.

Local Abbreviation nlb := (lsub 0).
Local Abbreviation nzrow := (lsub 1).
Local Abbreviation rows_upto := (rows_before BC_HEADER LB_DESCRIPTOR lsub).
Local Abbreviation gid_of := (blk_gid BC_HEADER LB_DESCRIPTOR lsub).
Local Abbreviation nrows_of := (blk_nrows BC_HEADER LB_DESCRIPTOR lsub).

Lemma copy_rows_ok (n : nat) :
  forall (rowId ptr firstRow rowIdx : Z) (a : list Z),
    0 <= rowIdx -> rowIdx + Z.of_nat n <= Z.of_nat (length a) ->
    exists a',
      copy_rows LB_DESCRIPTOR lsub n rowId ptr firstRow rowIdx a
      = Some (rowIdx + Z.of_nat n, a')
      /\ length a' = length a
      /\ forall j, j < rowIdx -> load a' j = load a j.
Proof.
  induction n as [|n IH]; intros rowId ptr firstRow rowIdx a H0 Hlen.
  - exists a. cbn [copy_rows]. rewrite Z.add_0_r. auto.
  - cbn [copy_rows].
    destruct (store_spec a rowIdx
                (lsub (ptr + LB_DESCRIPTOR + rowId) - firstRow) ltac:(lia))
      as (a1 & -> & Hl1 & _ & Hf1).
    cbn [mbind option_bind].
    destruct (IH (rowId + 1) ptr firstRow (rowIdx + 1) a1 ltac:(lia) ltac:(lia))
      as (a' & -> & Hl' & Hf').
    exists a'. split; [f_equal; f_equal; lia|]. split; [congruence|].
    intros j Hj. rewrite Hf' by lia. apply Hf1. lia.
Qed.

Lemma rows_upto_mono (m : nat) :
  (forall i, (i < m)%nat -> 0 <= nrows_of i) ->
  forall i j, (i <= j <= m)%nat -> rows_upto i <= rows_upto j.
Proof.
  intros Hnn i j [Hij Hjm]. induction Hij as [|j Hij IH]; [lia|].
  cbn [rows_before]. specialize (Hnn j ltac:(lia)). specialize (IH ltac:(lia)). lia.
Qed.

Local Abbreviation inv_at :=
  (ctor_inv LPANEL_HEADER_SIZE BC_HEADER LB_DESCRIPTOR lsub).

Lemma block_loop_ok (n : nat) :
  4 <= LPANEL_HEADER_SIZE ->
  wf_lsub BC_HEADER LB_DESCRIPTOR lsub ->
  forall (i : nat) (st : ctor_state),
    (i + n = Z.to_nat nlb)%nat -> inv_at i st ->
    exists st', block_loop LB_DESCRIPTOR lsub xsup n st = Some st'
                /\ inv_at (i + n) st'.
Proof.
  intros HH (Hnlb & Hnn & Hsum & _).
  induction n as [|n IH]; intros i st Hin Hinv.
  - exists st. rewrite Nat.add_0_r. auto.
  - destruct Hinv as (Eb & Ep & Er & El & Elen & L1 & Lg & Lp).
    pose proof (rows_upto_mono (Z.to_nat nlb) Hnn) as Hmono.
    pose proof (Hmono 0%nat i ltac:(lia)) as Hr0. cbn [rows_before] in Hr0.
    pose proof (Hmono (S i) (Z.to_nat nlb) ltac:(lia)) as Hr1.
    rewrite Hsum in Hr1. cbn [rows_before] in Hr1.
    pose proof (Hnn i ltac:(lia)) as Hni.
    assert (Hgid : lsub (lsub_ptr st) = gid_of i) by (rewrite El; reflexivity).
    assert (Hnr : lsub (lsub_ptr st + 1) = nrows_of i) by (rewrite El; reflexivity).
    cbn [block_loop]. rewrite Hgid, Hnr.
    destruct (store_spec (ctor_index st) (blkIdPtr st) (gid_of i) ltac:(lia))
      as (a1 & -> & Hl1 & Hv1 & Hf1).
    cbn [mbind option_bind].
    assert (Hprev : load a1 (pxSumPtr st - 1) = Some (rows_upto i)).
    { rewrite Hf1 by lia. rewrite Ep.
      replace (LPANEL_HEADER_SIZE + nlb + 1 + Z.of_nat i - 1)
        with (LPANEL_HEADER_SIZE + nlb + Z.of_nat i) by lia.
      apply Lp. lia. }
    rewrite Hprev. cbn [mbind option_bind].
    destruct (store_spec a1 (pxSumPtr st) (nrows_of i + rows_upto i) ltac:(lia))
      as (a2 & -> & Hl2 & Hv2 & Hf2).
    cbn [mbind option_bind].
    destruct (copy_rows_ok (Z.to_nat (nrows_of i)) 0 (lsub_ptr st)
                (xsup (gid_of i)) (rowIdxPtr st) a2 ltac:(lia) ltac:(lia))
      as (a3 & -> & Hl3 & Hf3).
    cbn [mbind option_bind fst snd].
    replace (i + S n)%nat with (S i + n)%nat by lia.
    apply IH; [lia|].
    unfold ctor_inv. cbn [blkIdPtr pxSumPtr rowIdxPtr lsub_ptr ctor_index].
    repeat split.
    + lia.
    + lia.
    + cbn [rows_before]. lia.
    + cbn [desc_ptr]. rewrite El. reflexivity.
    + lia.
    + rewrite Hf3, Hf2, Hf1 by lia. exact L1.
    + intros j Hj. rewrite Hf3, Hf2 by lia.
      destruct (Nat.eq_dec j i) as [->|Hne].
      * rewrite <- Eb. exact Hv1.
      * rewrite Hf1 by lia. apply Lg. lia.
    + intros j Hj. rewrite Hf3 by lia.
      destruct (Nat.eq_dec j (S i)) as [->|Hne].
      * replace (LPANEL_HEADER_SIZE + nlb + Z.of_nat (S i)) with (pxSumPtr st) by lia.
        rewrite Hv2. cbn [rows_before]. f_equal. lia.
      * rewrite Hf2, Hf1 by lia. apply Lp. lia.
Qed.

End LPanelLemmas.

(** C8. For a well-formed [lsub] the constructor runs without leaving the
    allocated block and yields an index array of the announced size in
    which: [index[1]] is the total row count; the block ids stand at
    [LPANEL_HEADER_SIZE + i] as listed in [lsub], hence in increasing
    order; the prefix sums start at 0, never decrease from one entry to the
    next, and end with [index[1]]. *)
Theorem lpanel_index_invariant :
  forall (LPANEL_HEADER_SIZE BC_HEADER LB_DESCRIPTOR : Z) (SuperSize_of : Z -> Z)
         (lsub xsup : Z -> Z) (Val : Type) (heap : nat -> Z) (k : Z) (lval : Val)
         (isDiagIncluded : Z),
    4 <= LPANEL_HEADER_SIZE ->
    wf_lsub BC_HEADER LB_DESCRIPTOR lsub ->
    exists p,
      xlpanel_t LPANEL_HEADER_SIZE BC_HEADER LB_DESCRIPTOR SuperSize_of lsub xsup
        heap k lval isDiagIncluded = Some p
      /\ val p = lval
      /\ Z.of_nat (length (index p))
         = LPANEL_HEADER_SIZE + 2 * lsub 0 + 1 + lsub 1
      /\ load (index p) 1 = Some (lsub 1)
      /\ (forall i, 0 <= i < lsub 0 ->
            load (index p) (LPANEL_HEADER_SIZE + i)
            = Some (blk_gid BC_HEADER LB_DESCRIPTOR lsub (Z.to_nat i)))
      /\ (forall i j gi gj, 0 <= i < j -> j < lsub 0 ->
            load (index p) (LPANEL_HEADER_SIZE + i) = Some gi ->
            load (index p) (LPANEL_HEADER_SIZE + j) = Some gj ->
            gi < gj)
      /\ load (index p) (LPANEL_HEADER_SIZE + lsub 0) = Some 0
      /\ (forall i, 0 <= i < lsub 0 ->
            exists a b,
              load (index p) (LPANEL_HEADER_SIZE + lsub 0 + i) = Some a
              /\ load (index p) (LPANEL_HEADER_SIZE + lsub 0 + i + 1) = Some b
              /\ a <= b)
      /\ load (index p) (LPANEL_HEADER_SIZE + 2 * lsub 0) = load (index p) 1.
Proof.
  intros H BC LB SuperSize_of lsub xsup Val heap k lval isDiag HH Hwf.
  pose proof Hwf as (Hnlb & Hnn & Hsum & Hinc).
  pose proof (rows_upto_mono BC LB lsub (Z.to_nat (lsub 0)) Hnn) as Hmono.
  pose proof (Hmono 0%nat (Z.to_nat (lsub 0)) ltac:(lia)) as Hnz.
  rewrite Hsum in Hnz. cbn [rows_before] in Hnz.
  unfold xlpanel_t.
  set (a0 := map heap (seq 0 _)).
  assert (Hl0 : Z.of_nat (length a0) = H + 2 * lsub 0 + 1 + lsub 1).
  { unfold a0. rewrite length_map, length_seq. lia. }
  destruct (store_spec a0 0 (lsub 0) ltac:(lia)) as (a1 & -> & Hl1 & _ & _).
  cbn [mbind option_bind].
  destruct (store_spec a1 1 (lsub 1) ltac:(lia)) as (a2 & -> & Hl2 & Hv2 & _).
  cbn [mbind option_bind].
  destruct (store_spec a2 2 isDiag ltac:(lia)) as (a3 & -> & Hl3 & _ & Hf3).
  cbn [mbind option_bind].
  destruct (store_spec a3 3 (SuperSize_of k) ltac:(lia)) as (a4 & -> & Hl4 & _ & Hf4).
  cbn [mbind option_bind].
  destruct (store_spec a4 (H + lsub 0) 0 ltac:(lia)) as (a5 & -> & Hl5 & Hv5 & Hf5).
  cbn [mbind option_bind].
  destruct (block_loop_ok H BC LB lsub xsup (Z.to_nat (lsub 0)) HH Hwf 0%nat
              {| blkIdPtr := H; pxSumPtr := H + lsub 0 + 1;
                 rowIdxPtr := H + 2 * lsub 0 + 1; lsub_ptr := BC;
                 ctor_index := a5 |})
    as (st & -> & Hinv).
  { lia. }
  { unfold ctor_inv. cbn [blkIdPtr pxSumPtr rowIdxPtr lsub_ptr ctor_index
                            rows_before desc_ptr].
    repeat split; try lia.
    - rewrite Hf5, Hf4, Hf3 by lia. exact Hv2.
    - intros j Hj. replace j with 0%nat by lia.
      cbn [rows_before]. rewrite Z.add_0_r. exact Hv5. }
  cbn [mbind option_bind]. eexists. split; [reflexivity|].
  cbn [index val]. cbn [Nat.add] in Hinv.
  destruct Hinv as (_ & _ & _ & _ & Elen & L1 & Lg & Lp).
  split; [reflexivity|]. split; [exact Elen|]. split; [exact L1|].
  assert (Lg' : forall i, 0 <= i < lsub 0 ->
                  load (ctor_index st) (H + i) = Some (blk_gid BC LB lsub (Z.to_nat i))).
  { intros i Hi. specialize (Lg (Z.to_nat i) ltac:(lia)).
    now replace (Z.of_nat (Z.to_nat i)) with i in Lg by lia. }
  assert (Lp' : forall i, 0 <= i <= lsub 0 ->
                  load (ctor_index st) (H + lsub 0 + i)
                  = Some (rows_before BC LB lsub (Z.to_nat i))).
  { intros i Hi. specialize (Lp (Z.to_nat i) ltac:(lia)).
    now replace (Z.of_nat (Z.to_nat i)) with i in Lp by lia. }
  split; [exact Lg'|]. split; [|split; [|split]].
  - intros i j gi gj Hij Hj Ei Ej.
    rewrite Lg' in Ei, Ej by lia. injection Ei as <-. injection Ej as <-.
    apply Hinc. lia.
  - specialize (Lp' 0 ltac:(lia)). now rewrite Z.add_0_r in Lp'.
  - intros i Hi. eexists _, _. split; [apply Lp'; lia|]. split.
    + rewrite <- Z.add_assoc. apply Lp'. lia.
    + apply Hmono. lia.
  - replace (H + 2 * lsub 0) with (H + lsub 0 + lsub 0) by lia.
    rewrite Lp' by lia. rewrite L1. f_equal. exact Hsum.
Qed.

Lemma two_block_lsub_wf : wf_lsub 2 2 Examples.two_block_lsub.
Proof.
  unfold wf_lsub. change (Z.to_nat (Examples.two_block_lsub 0)) with 2%nat.
  split; [vm_compute; discriminate|]. split; [|split].
  - intros [|[|i]] Hi; [vm_compute; discriminate|vm_compute; discriminate|lia].
  - reflexivity.
  - intros [|[|i]] [|[|j]] Hij; try lia. reflexivity.
Defined.

Lemma lpanel_index_invariant_witness :
  exists p,
    xlpanel_t 4 2 2 (fun _ => 10) Examples.two_block_lsub Examples.tens_xsup
      (fun _ => -7) 3 tt 1 = Some p
    /\ load (index p) 6 = Some 0
    /\ load (index p) 8 = load (index p) 1.
Proof.
  destruct (lpanel_index_invariant 4 2 2 (fun _ => 10) Examples.two_block_lsub
              Examples.tens_xsup unit (fun _ => -7) 3 tt 1
              ltac:(lia) two_block_lsub_wf)
    as (p & Hp & _ & _ & _ & _ & _ & H0 & _ & Hlast).
  exists p. split; [exact Hp|]. split; [exact H0|exact Hlast].
Defined.

(** * Further properties *)

(** ** The diagonal step *)

Ltac occ_step H :=
  first
    [ destruct (occ_nil _ _ _ H)
    | let Hd := fresh "Hd" in
      let H' := fresh "H" in
      destruct (occ_cons _ _ _ _ _ H) as [(-> & Hd & <-)|(? & -> & H')];
      [ try discriminate Hd | clear H; rename H' into H ] ].

(** X1. In [dDiagFactorPanelSolveGPU] the pivot kernel runs only on the
    owner of the diagonal block, the L-diagonal broadcast, its copy and the
    U-panel solve only on the process row of [k], and the U-diagonal
    broadcast, its copy and the L-panel solve only on the process column of
    [k]; a process that is none of the three issues nothing and returns
    with the state as it was. *)
Theorem diag_step_roles :
  forall (Mem : Type) (diag_kernel : Z -> Z -> Z -> Mem -> Z -> Mem * Z)
         (extern : prim -> Mem -> Mem)
         (LU : LUstruct) (k offset : Z) (st : lu_state Mem),
    (forall e r, In e (dDiagFactorPanelSolveGPU_trace LU k offset) ->
                 diag_op_role e = Some r -> has_role LU k r)
    /\ (iam LU <> procIJ LU k k -> myrow LU <> krow LU k ->
        mycol LU <> kcol LU k ->
        dDiagFactorPanelSolveGPU_trace LU k offset
        = [Call_dDiagFactorPanelSolveGPU k offset]
        /\ dDiagFactorPanelSolveGPU diag_kernel extern LU k offset st = (0, st)).
Proof.
  intros Mem diag_kernel extern LU k offset st.
  unfold dDiagFactorPanelSolveGPU, dDiagFactorPanelSolveGPU_trace.
  destruct (Z.eqb_spec (iam LU) (procIJ LU k k)) as [Hi|Hi];
    destruct (Z.eqb_spec (myrow LU) (krow LU k)) as [Hr|Hr];
    destruct (Z.eqb_spec (mycol LU) (kcol LU k)) as [Hc|Hc];
    (split;
     [ intros e r He Hrole; cbn in He;
       repeat (destruct He as [<-|He]; [cbn in Hrole; try discriminate;
                                        injection Hrole as <-; assumption|]);
       destruct He
     | intros Hi' Hr' Hc'; try contradiction; split; reflexivity ]).
Qed.

Lemma diag_step_roles_witness :
  dDiagFactorPanelSolveGPU_trace MoreExamples.bystander_LU 0 0
  = [Call_dDiagFactorPanelSolveGPU 0 0]
  /\ dDiagFactorPanelSolveGPU Examples.log_kernel Examples.log_extern
       MoreExamples.bystander_LU 0 0 {| mem := []; info := 0 |}
     = (0, {| mem := []; info := 0 |}).
Proof.
  apply (diag_step_roles (list prim) Examples.log_kernel Examples.log_extern
           MoreExamples.bystander_LU 0 0 {| mem := []; info := 0 |});
    simpl; lia.
Defined.

(** X2. Every panel solve issued by [dDiagFactorPanelSolveGPU] or by the
    inline diagonal step of the baseline comes right after the copy of the
    other side's diagonal block into the device buffer it reads, and is
    followed at once by the synchronization of its stream. *)
Theorem panel_solve_bracketed :
  forall (LU : LUstruct) (k offset : Z),
    each_occ solve_bracketed (dDiagFactorPanelSolveGPU_trace LU k offset)
    /\ each_occ solve_bracketed (baseline_diag LU k offset).
Proof.
  intros LU k offset. split.
  - unfold dDiagFactorPanelSolveGPU_trace.
    destruct (iam LU =? procIJ LU k k), (myrow LU =? krow LU k),
      (mycol LU =? kcol LU k); cbn;
      intros pre e post H s li so dev ksupc ->;
      repeat occ_step H;
      injection Hd as <- <- <- <- <-;
      match goal with
      | |- exists _ _ _, ?l = _ /\ _ => exists (removelast l)
      end;
      eexists _, _; split; reflexivity.
  - unfold baseline_diag.
    destruct (iam LU =? procIJ LU k k), (myrow LU =? krow LU k),
      (mycol LU =? kcol LU k); cbn;
      intros pre e post H s li so dev ksupc ->;
      repeat occ_step H;
      injection Hd as <- <- <- <- <-;
      match goal with
      | |- exists _ _ _, ?l = _ /\ _ => exists (removelast l)
      end;
      eexists _, _; split; reflexivity.
Qed.

(** ** The turns of the [while] loop *)

Lemma scan_next_winSize_bounds (LU : LUstruct) (sforest : sForest)
    (n : nat) (k1_next : Z) (s : sched_state) :
  Z.of_nat n <= Z.max 0 (winSize s) ->
  let s' := snd (scan_next LU sforest n k1_next k1_next s) in
  winSize s' <= winSize s /\ (0 <= winSize s -> 0 <= winSize s')
  /\ k1 s' = k1 s /\ winParity s' = winParity s.
Proof.
  intros Hn. cbv zeta.
  pose proof (scan_next_inv LU sforest
    (fun (_ : Z) (_ : list event) s' =>
       winSize s' = winSize s /\ k1 s' = k1 s /\ winParity s' = winParity s)
    (fun (_ : list event) s' =>
       winSize s' <= winSize s /\ (0 <= winSize s -> 0 <= winSize s')
       /\ k1 s' = k1 s /\ winParity s' = winParity s)
    k1_next n k1_next [] s) as H.
  cbv beta in H. apply H.
  - auto.
  - intros k T' s' Hk (Hw & Hk1 & Hp) _. cbn. auto.
  - intros k T' s' Hk (Hw & Hk1 & Hp) _. cbn. repeat split; try assumption; lia.
  - intros T' s' (Hw & Hk1 & Hp). repeat split; try assumption; lia.
Qed.

(** X3. One turn of the [while] loop moves [k1] forward by exactly the
    window size it started with and flips the parity; the window size it
    leaves is never larger than the one it found (nothing in the loop
    restores a window that the scan has cut short), and stays non-negative
    if it was. *)
Theorem window_turn :
  forall (LU : LUstruct) (setree : Z -> Z) (sforest : sForest) (s : sched_state),
    let s' := snd (window_iter LU setree sforest s) in
    k1 s' = k1 s + winSize s
    /\ winParity s' = winParity s + 1
    /\ winSize s' <= winSize s
    /\ (0 <= winSize s -> 0 <= winSize s').
Proof.
  intros LU setree sforest s. cbv zeta. unfold window_iter.
  pose proof (for_range_inv
    (fun (_ : Z) (_ : list event) s' => winSize s' = winSize s)
    (window_node LU setree sforest (k1 s) (winSize s) (winParity s))
    (k1 s) (SUPERLU_MIN (nNodes sforest) (k1 s + winSize s)) [] s) as H1.
  cbv beta in H1.
  destruct (for_range (k1 s) _ (window_node LU setree sforest _ _ _) s)
    as [t1 s1]. cbn [fst snd] in H1.
  assert (Hw1 : winSize s1 = winSize s).
  { apply H1; [reflexivity|]. intros k T' s' Hk Hw.
    pose proof (window_node_frame LU setree sforest (k1 s) (winSize s)
                  (winParity s) k s') as (_ & F2 & _).
    cbv zeta in F2. congruence. }
  pose proof (scan_next_winSize_bounds LU sforest
    (Z.to_nat (SUPERLU_MIN (nNodes sforest) (k1 s + winSize s + winSize s1)
               - (k1 s + winSize s)))
    (k1 s + winSize s) s1) as H2.
  cbv zeta in H2.
  destruct (scan_next LU sforest _ (k1 s + winSize s) (k1 s + winSize s) s1)
    as [t2 s2]. cbn [fst snd] in H2.
  destruct H2 as (Ha & Hb & _ & _).
  { rewrite SUPERLU_MIN_spec. lia. }
  destruct (for_range (k1 s) _ (sync_node LU sforest _ _ _) tt) as [t3 u3].
  cbn. repeat split; lia.
Qed.

Lemma window_turn_witness :
  0 <= winSize (snd (window_iter (Examples.chain_LU 2) Examples.chain_setree
                       Examples.chain_forest MoreExamples.stuck_state)).
Proof.
  pose proof (window_turn (Examples.chain_LU 2) Examples.chain_setree
                Examples.chain_forest MoreExamples.stuck_state) as H.
  cbv zeta in H. destruct H as (_ & _ & _ & H). apply H. simpl. lia.
Defined.

(** X4. A window of size zero is a trap: as long as [k1 < nnodes], every
    further turn issues nothing and changes nothing but the parity, so the
    pipelined scheduler never leaves its [while] loop. *)
Theorem zero_window_never_returns :
  forall (LU : LUstruct) (setree : Z -> Z) (sforest : sForest)
         (s : sched_state) (fuel : nat),
    winSize s = 0 -> k1 s < nNodes sforest ->
    while_windows LU setree sforest fuel s = ([], None).
Proof.
  intros LU setree sforest s fuel Hw Hk. now apply zero_window_stuck.
Qed.

Lemma zero_window_never_returns_witness :
  while_windows (Examples.chain_LU 2) Examples.chain_setree
    Examples.chain_forest 7 MoreExamples.stuck_state = ([], None).
Proof.
  apply (zero_window_never_returns (Examples.chain_LU 2) Examples.chain_setree
           Examples.chain_forest MoreExamples.stuck_state 7);
    [reflexivity|simpl; lia].
Defined.

(** ** The L panel: lookups *)

Section LPanelQueryLemmas.

Variables LPANEL_HEADER_SIZE GLOBAL_BLOCK_NOT_FOUND : Z.
Variable idx : list Z.

Lemma find_from_spec (g : Z -> Z) (k : Z) (n : nat) :
  forall i,
    (forall j, i <= j < i + Z.of_nat n -> gid LPANEL_HEADER_SIZE idx j = Some (g j)) ->
    ((forall j, i <= j < i + Z.of_nat n -> g j <> k) ->
     find_from LPANEL_HEADER_SIZE GLOBAL_BLOCK_NOT_FOUND idx n i k
     = Some GLOBAL_BLOCK_NOT_FOUND)
    /\ (forall m, i <= m < i + Z.of_nat n -> g m = k ->
        (forall j, i <= j < m -> g j <> k) ->
        find_from LPANEL_HEADER_SIZE GLOBAL_BLOCK_NOT_FOUND idx n i k = Some m).
Proof.
  induction n as [|n IH]; intros i Hg.
  - split; [reflexivity|]. intros m Hm. lia.
  - cbn [find_from]. rewrite (Hg i) by lia. cbn [mbind option_bind].
    destruct (IH (i + 1)) as [IHn IHf]; [intros j Hj; apply Hg; lia|].
    split.
    + intros Hne. destruct (Z.eqb_spec k (g i)) as [E|_].
      * exfalso. apply (Hne i); [lia|congruence].
      * apply IHn. intros j Hj. apply Hne. lia.
    + intros m Hm Ek Hfirst. destruct (Z.eqb_spec k (g i)) as [E|NE].
      * destruct (Z.eq_dec m i) as [->|Hmi]; [reflexivity|].
        exfalso. apply (Hfirst i); [lia|congruence].
      * apply IHf; [|exact Ek|intros j Hj; apply Hfirst; lia].
        destruct (Z.eq_dec m i) as [->|Hmi]; [congruence|lia].
Qed.

Lemma xlpanel_find_spec (nb : Z) (g : Z -> Z) (k : Z) :
  load idx 0 = Some nb ->
  (forall j, 0 <= j < nb -> load idx (LPANEL_HEADER_SIZE + j) = Some (g j)) ->
  ((forall j, 0 <= j < nb -> g j <> k) ->
   xlpanel_find LPANEL_HEADER_SIZE GLOBAL_BLOCK_NOT_FOUND idx k
   = Some GLOBAL_BLOCK_NOT_FOUND)
  /\ (forall m, 0 <= m < nb -> g m = k ->
      (forall j, 0 <= j < m -> g j <> k) ->
      xlpanel_find LPANEL_HEADER_SIZE GLOBAL_BLOCK_NOT_FOUND idx k = Some m).
Proof.
  intros Hnb Hg. unfold xlpanel_find, nblocks. rewrite Hnb.
  cbn [mbind option_bind].
  destruct (find_from_spec g k (Z.to_nat nb) 0) as [Hn Hf].
  { intros j Hj. apply Hg. lia. }
  split.
  - intros Hne. apply Hn. intros j Hj. apply Hne. lia.
  - intros m Hm. apply Hf. lia.
Qed.

Lemma end_scan_spec (nlb iSt maxRows : Z) (st : Z -> Z) :
  (forall i, 0 <= i <= nlb -> stRow LPANEL_HEADER_SIZE idx i = Some (st i)) ->
  0 <= iSt ->
  forall (n : nat) (ii : Z),
    iSt < ii <= nlb -> n = Z.to_nat (nlb - ii) ->
    exists r,
      end_scan LPANEL_HEADER_SIZE idx nlb iSt maxRows n ii = Some r
      /\ ii <= r <= nlb
      /\ (forall j, ii <= j < r -> st j - st iSt <= maxRows)
      /\ (r < nlb -> maxRows < st r - st iSt).
Proof.
  intros Hst H0. induction n as [|n IH]; intros ii Hii Hn.
  - assert (ii = nlb) by lia. subst ii.
    cbn [end_scan]. rewrite !Hst by lia. cbn [mbind option_bind].
    replace (nlb <? nlb) with false by (symmetry; apply Z.ltb_ge; lia).
    rewrite andb_false_r. exists nlb. repeat split; lia.
  - cbn [end_scan]. rewrite !Hst by lia. cbn [mbind option_bind].
    replace (ii <? nlb) with true by (symmetry; apply Z.ltb_lt; lia).
    rewrite andb_true_r.
    destruct (Z.leb_spec (st ii - st iSt) maxRows) as [Hle|Hgt].
    + destruct (IH (ii + 1) ltac:(lia) ltac:(lia)) as (r & -> & Hr & Hall & Hmax).
      exists r. repeat split; try lia.
      intros j Hj. destruct (Z.eq_dec j ii) as [->|Hne]; [exact Hle|].
      apply Hall. lia.
    + exists ii. repeat split; lia.
Qed.

Lemma getEndBlock_char (nlb iSt maxRows : Z) (st : Z -> Z) :
  load idx 0 = Some nlb ->
  (forall i, 0 <= i <= nlb ->
     load idx (LPANEL_HEADER_SIZE + nlb + i) = Some (st i)) ->
  0 <= iSt ->
  exists e,
    getEndBlock LPANEL_HEADER_SIZE idx iSt maxRows = Some e
    /\ (nlb <= iSt -> e = nlb)
    /\ (iSt < nlb ->
        iSt <= e <= nlb
        /\ (forall j, iSt < j <= e -> st j - st iSt <= maxRows)
        /\ (e < nlb -> maxRows < st (e + 1) - st iSt)).
Proof.
  intros Hnb Hld H0.
  assert (Hst : forall i, 0 <= i <= nlb ->
                  stRow LPANEL_HEADER_SIZE idx i = Some (st i)).
  { intros i Hi. unfold stRow, nblocks. rewrite Hnb. cbn [mbind option_bind].
    now apply Hld. }
  unfold getEndBlock, nblocks. rewrite Hnb. cbn [mbind option_bind].
  destruct (Z.leb_spec nlb iSt) as [Hge|Hlt].
  - exists nlb. split; [reflexivity|]. split; [reflexivity|lia].
  - destruct (end_scan_spec nlb iSt maxRows st Hst H0
                (Z.to_nat (nlb - (iSt + 1))) (iSt + 1) ltac:(lia) eq_refl)
      as (r & -> & Hr & Hall & Hmax).
    cbn [mbind option_bind]. rewrite !Hst by lia. cbn [mbind option_bind].
    destruct (Z.ltb_spec maxRows (st r - st iSt)) as [Hbig|Hfit].
    + exists (r - 1). split; [reflexivity|]. split; [lia|]. intros _.
      split; [lia|]. split.
      * intros j Hj. apply Hall. lia.
      * intros _. now replace (r - 1 + 1) with r by lia.
    + exists r. split; [reflexivity|]. split; [lia|]. intros _.
      split; [lia|]. split.
      * intros j Hj. destruct (Z.eq_dec j r) as [->|Hne]; [exact Hfit|].
        apply Hall. lia.
      * intros Hr'. specialize (Hmax Hr'). lia.
Qed.

End LPanelQueryLemmas.

(** X5. [find(k)] returns the position of the first block whose id is
    [k], and [GLOBAL_BLOCK_NOT_FOUND] when no block of the panel has that
    id; in both cases it reads only the block count and the ids before
    the position it returns. *)
Theorem xlpanel_find_first_match :
  forall (LPANEL_HEADER_SIZE GLOBAL_BLOCK_NOT_FOUND : Z) (idx : list Z)
         (nb : Z) (g : Z -> Z) (k : Z),
    load idx 0 = Some nb ->
    (forall j, 0 <= j < nb -> load idx (LPANEL_HEADER_SIZE + j) = Some (g j)) ->
    ((forall j, 0 <= j < nb -> g j <> k) ->
     xlpanel_find LPANEL_HEADER_SIZE GLOBAL_BLOCK_NOT_FOUND idx k
     = Some GLOBAL_BLOCK_NOT_FOUND)
    /\ (forall m, 0 <= m < nb -> g m = k ->
        (forall j, 0 <= j < m -> g j <> k) ->
        xlpanel_find LPANEL_HEADER_SIZE GLOBAL_BLOCK_NOT_FOUND idx k = Some m).
Proof.
  intros. now apply xlpanel_find_spec with (nb := nb).
Qed.

Lemma xlpanel_find_first_match_witness :
  xlpanel_find 4 (-1) MoreExamples.two_block_index 7 = Some 1
  /\ xlpanel_find 4 (-1) MoreExamples.two_block_index 6 = Some (-1).
Proof.
  assert (Hg : forall j, 0 <= j < 2 ->
                 load MoreExamples.two_block_index (4 + j)
                 = Some (if j =? 0 then 5 else 7)).
  { intros j Hj. assert (j = 0 \/ j = 1) as [-> | ->] by lia; reflexivity. }
  split.
  - apply (proj2 (xlpanel_find_first_match 4 (-1) MoreExamples.two_block_index
                    2 (fun j => if j =? 0 then 5 else 7) 7 eq_refl Hg)).
    + lia.
    + reflexivity.
    + intros j Hj. replace j with 0 by lia. cbn. lia.
  - apply (proj1 (xlpanel_find_first_match 4 (-1) MoreExamples.two_block_index
                    2 (fun j => if j =? 0 then 5 else 7) 6 eq_refl Hg)).
    intros j Hj. assert (j = 0 \/ j = 1) as [-> | ->] by lia; cbn; lia.
Defined.

(** X6. [getEndBlock(iSt, maxRows)] on an index array with [nlb] blocks and
    readable prefix sums [st 0 .. st nlb]: it returns [nlb] when [iSt] is
    not a block; otherwise it returns the largest [e] in [iSt .. nlb] such
    that every block boundary after [iSt] up to [e] is at most [maxRows]
    rows away from the start of block [iSt], and it never reads a prefix
    sum beyond entry [nlb]. *)
Theorem getEndBlock_largest_fit :
  forall (LPANEL_HEADER_SIZE : Z) (idx : list Z) (nlb iSt maxRows : Z)
         (st : Z -> Z),
    load idx 0 = Some nlb ->
    (forall i, 0 <= i <= nlb ->
       load idx (LPANEL_HEADER_SIZE + nlb + i) = Some (st i)) ->
    0 <= iSt ->
    exists e,
      getEndBlock LPANEL_HEADER_SIZE idx iSt maxRows = Some e
      /\ (nlb <= iSt -> e = nlb)
      /\ (iSt < nlb ->
          iSt <= e <= nlb
          /\ (forall j, iSt < j <= e -> st j - st iSt <= maxRows)
          /\ (e < nlb -> maxRows < st (e + 1) - st iSt)).
Proof.
  intros. now apply getEndBlock_char.
Qed.

Lemma getEndBlock_largest_fit_witness :
  exists e, getEndBlock 4 MoreExamples.two_block_index 0 2 = Some e
            /\ 0 <= e <= 2.
Proof.
  destruct (getEndBlock_largest_fit 4 MoreExamples.two_block_index 2 0 2
              (fun i => if i =? 0 then 0 else if i =? 1 then 1 else 3)
              eq_refl) as (e & He & _ & Hin).
  - intros i Hi.
    assert (i = 0 \/ i = 1 \/ i = 2) as [-> | [-> | ->]] by lia; reflexivity.
  - lia.
  - exists e. split; [exact He|]. apply Hin. lia.
Defined.

(** ** The L panel: what the constructor leaves in the index array *)

Section LPanelLayout.

Variables LPANEL_HEADER_SIZE BC_HEADER LB_DESCRIPTOR : Z.
Variable lsub : Z -> Z.
Variable xsup : Z -> Z.

Local Abbreviation rows_to := (rows_before BC_HEADER LB_DESCRIPTOR lsub).
Local Abbreviation id_of := (blk_gid BC_HEADER LB_DESCRIPTOR lsub).
Local Abbreviation count_of := (blk_nrows BC_HEADER LB_DESCRIPTOR lsub).
Local Abbreviation ptr_of := (desc_ptr BC_HEADER LB_DESCRIPTOR lsub).
Local Abbreviation layout_at :=
  (ctor_inv LPANEL_HEADER_SIZE BC_HEADER LB_DESCRIPTOR lsub).
Local Abbreviation rows_at :=
  (ctor_rows LPANEL_HEADER_SIZE BC_HEADER LB_DESCRIPTOR lsub xsup).

Lemma copy_rows_content (n : nat) :
  forall (rowId ptr firstRow rowIdx : Z) (a : list Z),
    0 <= rowIdx -> rowIdx + Z.of_nat n <= Z.of_nat (length a) ->
    exists a',
      copy_rows LB_DESCRIPTOR lsub n rowId ptr firstRow rowIdx a
      = Some (rowIdx + Z.of_nat n, a')
      /\ length a' = length a
      /\ (forall j, j < rowIdx -> load a' j = load a j)
      /\ (forall r, 0 <= r < Z.of_nat n ->
            load a' (rowIdx + r)
            = Some (lsub (ptr + LB_DESCRIPTOR + (rowId + r)) - firstRow)).
Proof.
  induction n as [|n IH]; intros rowId ptr firstRow rowIdx a H0 Hlen.
  - exists a. cbn [copy_rows]. rewrite Z.add_0_r.
    repeat split; auto. intros r Hr. lia.
  - cbn [copy_rows].
    destruct (store_spec a rowIdx
                (lsub (ptr + LB_DESCRIPTOR + rowId) - firstRow) ltac:(lia))
      as (a1 & -> & Hl1 & Hv1 & Hf1).
    cbn [mbind option_bind].
    destruct (IH (rowId + 1) ptr firstRow (rowIdx + 1) a1 ltac:(lia) ltac:(lia))
      as (a' & -> & Hl' & Hf' & Hc').
    exists a'. split; [f_equal; f_equal; lia|]. split; [congruence|]. split.
    + intros j Hj. rewrite Hf' by lia. apply Hf1. lia.
    + intros r Hr. destruct (Z.eq_dec r 0) as [->|Hne].
      * rewrite !Z.add_0_r. rewrite Hf' by lia. exact Hv1.
      * replace (rowIdx + r) with (rowIdx + 1 + (r - 1)) by lia.
        rewrite Hc' by lia. do 3 f_equal. lia.
Qed.

Lemma block_loop_full (isDiagIncluded size : Z) (n : nat) :
  4 <= LPANEL_HEADER_SIZE ->
  wf_lsub BC_HEADER LB_DESCRIPTOR lsub ->
  forall (i : nat) (st : ctor_state),
    (i + n = Z.to_nat (lsub 0))%nat ->
    layout_at i st -> rows_at i (ctor_index st) ->
    ctor_header lsub isDiagIncluded size (ctor_index st) ->
    exists st', block_loop LB_DESCRIPTOR lsub xsup n st = Some st'
                /\ layout_at (i + n) st'
                /\ rows_at (i + n) (ctor_index st')
                /\ ctor_header lsub isDiagIncluded size (ctor_index st').
Proof.
  intros HH (Hnlb & Hnn & Hsum & _).
  induction n as [|n IH]; intros i st Hin Hinv Hrows Hhead.
  - exists st. rewrite Nat.add_0_r. auto.
  - destruct Hinv as (Eb & Ep & Er & El & Elen & L1 & Lg & Lp).
    destruct Hhead as (Hh0 & Hh2 & Hh3).
    pose proof (rows_upto_mono BC_HEADER LB_DESCRIPTOR lsub
                  (Z.to_nat (lsub 0)) Hnn) as Hmono.
    pose proof (Hmono 0%nat i ltac:(lia)) as Hr0. cbn [rows_before] in Hr0.
    pose proof (Hmono (S i) (Z.to_nat (lsub 0)) ltac:(lia)) as Hr1.
    rewrite Hsum in Hr1. cbn [rows_before] in Hr1.
    pose proof (Hnn i ltac:(lia)) as Hni.
    assert (Hgid : lsub (lsub_ptr st) = id_of i) by (rewrite El; reflexivity).
    assert (Hnr : lsub (lsub_ptr st + 1) = count_of i) by (rewrite El; reflexivity).
    cbn [block_loop]. rewrite Hgid, Hnr.
    destruct (store_spec (ctor_index st) (blkIdPtr st) (id_of i) ltac:(lia))
      as (a1 & -> & Hl1 & Hv1 & Hf1).
    cbn [mbind option_bind].
    assert (Hprev : load a1 (pxSumPtr st - 1) = Some (rows_to i)).
    { rewrite Hf1 by lia. rewrite Ep.
      replace (LPANEL_HEADER_SIZE + lsub 0 + 1 + Z.of_nat i - 1)
        with (LPANEL_HEADER_SIZE + lsub 0 + Z.of_nat i) by lia.
      apply Lp. lia. }
    rewrite Hprev. cbn [mbind option_bind].
    destruct (store_spec a1 (pxSumPtr st) (count_of i + rows_to i) ltac:(lia))
      as (a2 & -> & Hl2 & Hv2 & Hf2).
    cbn [mbind option_bind].
    destruct (copy_rows_content (Z.to_nat (count_of i)) 0 (lsub_ptr st)
                (xsup (id_of i)) (rowIdxPtr st) a2 ltac:(lia) ltac:(lia))
      as (a3 & -> & Hl3 & Hf3 & Hc3).
    cbn [mbind option_bind fst snd].
    replace (i + S n)%nat with (S i + n)%nat by lia.
    apply IH; [lia| | |].
    + unfold ctor_inv. cbn [blkIdPtr pxSumPtr rowIdxPtr lsub_ptr ctor_index].
      repeat split.
      * lia.
      * lia.
      * cbn [rows_before]. lia.
      * cbn [desc_ptr]. rewrite El. reflexivity.
      * lia.
      * rewrite Hf3, Hf2, Hf1 by lia. exact L1.
      * intros j Hj. rewrite Hf3, Hf2 by lia.
        destruct (Nat.eq_dec j i) as [->|Hne].
        -- rewrite <- Eb. exact Hv1.
        -- rewrite Hf1 by lia. apply Lg. lia.
      * intros j Hj. rewrite Hf3 by lia.
        destruct (Nat.eq_dec j (S i)) as [->|Hne].
        -- replace (LPANEL_HEADER_SIZE + lsub 0 + Z.of_nat (S i))
             with (pxSumPtr st) by lia.
           rewrite Hv2. cbn [rows_before]. f_equal. lia.
        -- rewrite Hf2, Hf1 by lia. apply Lp. lia.
    + cbn [ctor_index]. intros j r Hj Hr.
      destruct (Nat.eq_dec j i) as [->|Hne].
      * replace (LPANEL_HEADER_SIZE + 2 * lsub 0 + 1 + rows_to i + r)
          with (rowIdxPtr st + r) by lia.
        rewrite Hc3 by lia. rewrite El, Z.add_0_l. reflexivity.
      * pose proof (Hmono (S j) i ltac:(lia)) as Hji. cbn [rows_before] in Hji.
        pose proof (Hmono 0%nat j ltac:(lia)) as Hj0. cbn [rows_before] in Hj0.
        rewrite Hf3, Hf2, Hf1 by lia. apply Hrows; [lia|exact Hr].
    + cbn [ctor_index]. unfold ctor_header.
      rewrite !Hf3, !Hf2, !Hf1 by lia. auto.
Qed.

Lemma xlpanel_t_layout (SuperSize_of : Z -> Z) (Val : Type) (heap : nat -> Z)
    (k : Z) (lval : Val) (isDiagIncluded : Z) :
  4 <= LPANEL_HEADER_SIZE ->
  wf_lsub BC_HEADER LB_DESCRIPTOR lsub ->
  exists p,
    xlpanel_t LPANEL_HEADER_SIZE BC_HEADER LB_DESCRIPTOR SuperSize_of lsub xsup
      heap k lval isDiagIncluded = Some p
    /\ val p = lval
    /\ layout_at (Z.to_nat (lsub 0))
         {| blkIdPtr := LPANEL_HEADER_SIZE + lsub 0;
            pxSumPtr := LPANEL_HEADER_SIZE + 2 * lsub 0 + 1;
            rowIdxPtr := LPANEL_HEADER_SIZE + 2 * lsub 0 + 1 + lsub 1;
            lsub_ptr := ptr_of (Z.to_nat (lsub 0));
            ctor_index := index p |}
    /\ rows_at (Z.to_nat (lsub 0)) (index p)
    /\ ctor_header lsub isDiagIncluded (SuperSize_of k) (index p).
Proof.
  intros HH Hwf.
  pose proof Hwf as (Hnlb & Hnn & Hsum & Hinc).
  pose proof (rows_upto_mono BC_HEADER LB_DESCRIPTOR lsub
                (Z.to_nat (lsub 0)) Hnn) as Hmono.
  pose proof (Hmono 0%nat (Z.to_nat (lsub 0)) ltac:(lia)) as Hnz.
  rewrite Hsum in Hnz. cbn [rows_before] in Hnz.
  unfold xlpanel_t.
  set (a0 := map heap (seq 0 _)).
  assert (Hl0 : Z.of_nat (length a0)
                = LPANEL_HEADER_SIZE + 2 * lsub 0 + 1 + lsub 1).
  { unfold a0. rewrite length_map, length_seq. lia. }
  destruct (store_spec a0 0 (lsub 0) ltac:(lia)) as (a1 & -> & Hl1 & Hv1 & _).
  cbn [mbind option_bind].
  destruct (store_spec a1 1 (lsub 1) ltac:(lia)) as (a2 & -> & Hl2 & Hv2 & Hf2).
  cbn [mbind option_bind].
  destruct (store_spec a2 2 isDiagIncluded ltac:(lia))
    as (a3 & -> & Hl3 & Hv3 & Hf3).
  cbn [mbind option_bind].
  destruct (store_spec a3 3 (SuperSize_of k) ltac:(lia))
    as (a4 & -> & Hl4 & Hv4 & Hf4).
  cbn [mbind option_bind].
  destruct (store_spec a4 (LPANEL_HEADER_SIZE + lsub 0) 0 ltac:(lia))
    as (a5 & -> & Hl5 & Hv5 & Hf5).
  cbn [mbind option_bind].
  destruct (block_loop_full isDiagIncluded (SuperSize_of k)
              (Z.to_nat (lsub 0)) HH Hwf 0%nat
              {| blkIdPtr := LPANEL_HEADER_SIZE;
                 pxSumPtr := LPANEL_HEADER_SIZE + lsub 0 + 1;
                 rowIdxPtr := LPANEL_HEADER_SIZE + 2 * lsub 0 + 1;
                 lsub_ptr := BC_HEADER;
                 ctor_index := a5 |})
    as (st & -> & Hinv & Hrows & Hhead).
  { lia. }
  { unfold ctor_inv. cbn [blkIdPtr pxSumPtr rowIdxPtr lsub_ptr ctor_index
                            rows_before desc_ptr].
    repeat split; try lia.
    - rewrite Hf5, Hf4, Hf3 by lia. exact Hv2.
    - intros j Hj. replace j with 0%nat by lia.
      cbn [rows_before]. rewrite Z.add_0_r. exact Hv5. }
  { intros j r Hj. lia. }
  { cbn [ctor_index]. unfold ctor_header.
    rewrite Hf5, Hf4, Hf3, Hf2 by lia. split; [exact Hv1|].
    rewrite Hf5, Hf4 by lia. split; [exact Hv3|].
    rewrite Hf5 by lia. exact Hv4. }
  cbn [mbind option_bind]. eexists. split; [reflexivity|].
  cbn [index val]. cbn [Nat.add] in Hinv, Hrows.
  split; [reflexivity|]. split; [|split; [exact Hrows|exact Hhead]].
  destruct Hinv as (Eb & Ep & Er & El & Elen & L1 & Lg & Lp).
  unfold ctor_inv. cbn [blkIdPtr pxSumPtr rowIdxPtr lsub_ptr ctor_index].
  repeat split; auto; lia.
Qed.

End LPanelLayout.

(** X7. In the panel the constructor builds from a well-formed [lsub],
    [index[0]] is the block count, [index[2]] the flag given to the
    constructor and [index[3]] the size of supernode [k]; and the row
    segment holds, block after block, every row listed in [lsub] as its
    distance from the first column of the block's supernode, so that
    adding [xsup[gid]] gives the listed row back. *)
Theorem lpanel_rows_relative :
  forall (LPANEL_HEADER_SIZE BC_HEADER LB_DESCRIPTOR : Z) (SuperSize_of : Z -> Z)
         (lsub xsup : Z -> Z) (Val : Type) (heap : nat -> Z) (k : Z) (lval : Val)
         (isDiagIncluded : Z),
    4 <= LPANEL_HEADER_SIZE ->
    wf_lsub BC_HEADER LB_DESCRIPTOR lsub ->
    exists p,
      xlpanel_t LPANEL_HEADER_SIZE BC_HEADER LB_DESCRIPTOR SuperSize_of lsub xsup
        heap k lval isDiagIncluded = Some p
      /\ load (index p) 0 = Some (lsub 0)
      /\ load (index p) 2 = Some isDiagIncluded
      /\ load (index p) 3 = Some (SuperSize_of k)
      /\ forall (j : nat) (r : Z),
           (j < Z.to_nat (lsub 0%Z))%nat ->
           0 <= r < blk_nrows BC_HEADER LB_DESCRIPTOR lsub j ->
           exists v,
             load (index p)
               (LPANEL_HEADER_SIZE + 2 * lsub 0 + 1
                + rows_before BC_HEADER LB_DESCRIPTOR lsub j + r) = Some v
             /\ v + xsup (blk_gid BC_HEADER LB_DESCRIPTOR lsub j)
                = lsub (desc_ptr BC_HEADER LB_DESCRIPTOR lsub j
                        + LB_DESCRIPTOR + r).
Proof.
  intros H BC LB SuperSize_of lsub xsup Val heap k lval isDiag HH Hwf.
  destruct (xlpanel_t_layout H BC LB lsub xsup SuperSize_of Val heap k lval
              isDiag HH Hwf) as (p & Hp & _ & _ & Hrows & Hh0 & Hh2 & Hh3).
  exists p. repeat (split; [assumption|]).
  intros j r Hj Hr. eexists. split; [apply Hrows; assumption|]. lia.
Qed.

Lemma lpanel_rows_relative_witness :
  exists p,
    xlpanel_t 4 2 2 (fun _ => 10) Examples.two_block_lsub Examples.tens_xsup
      (fun _ => -7) 3 tt 1 = Some p
    /\ load (index p) 0 = Some 2
    /\ load (index p) 3 = Some 10
    /\ exists v, load (index p) 11 = Some v /\ v + 70 = 71.
Proof.
  destruct (lpanel_rows_relative 4 2 2 (fun _ => 10) Examples.two_block_lsub
              Examples.tens_xsup unit (fun _ => -7) 3 tt 1
              ltac:(lia) two_block_lsub_wf)
    as (p & Hp & H0 & _ & H3 & Hrows).
  exists p. split; [exact Hp|]. split; [exact H0|]. split; [exact H3|].
  destruct (Hrows 1%nat 1 ltac:(vm_compute; lia) ltac:(vm_compute; split; discriminate || reflexivity))
    as (v & Hv & Ev).
  exists v. split; [exact Hv|exact Ev].
Defined.

(** X8. Constructor and lookup together: in the panel built from a
    well-formed [lsub], [find] of the id of block [i] is [i], and [find]
    of an id that no block has is [GLOBAL_BLOCK_NOT_FOUND]. *)
Theorem find_after_constructor :
  forall (LPANEL_HEADER_SIZE BC_HEADER LB_DESCRIPTOR GLOBAL_BLOCK_NOT_FOUND : Z)
         (SuperSize_of : Z -> Z) (lsub xsup : Z -> Z) (Val : Type)
         (heap : nat -> Z) (k : Z) (lval : Val) (isDiagIncluded : Z),
    4 <= LPANEL_HEADER_SIZE ->
    wf_lsub BC_HEADER LB_DESCRIPTOR lsub ->
    exists p,
      xlpanel_t LPANEL_HEADER_SIZE BC_HEADER LB_DESCRIPTOR SuperSize_of lsub xsup
        heap k lval isDiagIncluded = Some p
      /\ (forall i, (i < Z.to_nat (lsub 0%Z))%nat ->
            xlpanel_find LPANEL_HEADER_SIZE GLOBAL_BLOCK_NOT_FOUND (index p)
              (blk_gid BC_HEADER LB_DESCRIPTOR lsub i) = Some (Z.of_nat i))
      /\ (forall g,
            (forall i, (i < Z.to_nat (lsub 0%Z))%nat ->
               blk_gid BC_HEADER LB_DESCRIPTOR lsub i <> g) ->
            xlpanel_find LPANEL_HEADER_SIZE GLOBAL_BLOCK_NOT_FOUND (index p) g
            = Some GLOBAL_BLOCK_NOT_FOUND).
Proof.
  intros H BC LB NF SuperSize_of lsub xsup Val heap k lval isDiag HH Hwf.
  destruct (xlpanel_t_layout H BC LB lsub xsup SuperSize_of Val heap k lval
              isDiag HH Hwf) as (p & Hp & _ & Hinv & _ & Hh0 & _).
  destruct Hinv as (_ & _ & _ & _ & _ & _ & Lg & _).
  cbn [ctor_index] in Lg.
  destruct Hwf as (Hnlb & _ & _ & Hinc).
  assert (Hg : forall j, 0 <= j < lsub 0 ->
                 load (index p) (H + j) = Some (blk_gid BC LB lsub (Z.to_nat j))).
  { intros j Hj. specialize (Lg (Z.to_nat j) ltac:(lia)).
    now replace (Z.of_nat (Z.to_nat j)) with j in Lg by lia. }
  exists p. split; [exact Hp|]. split.
  - intros i Hi.
    apply (proj2 (xlpanel_find_spec H NF (index p) (lsub 0)
                    (fun j => blk_gid BC LB lsub (Z.to_nat j))
                    (blk_gid BC LB lsub i) Hh0 Hg)).
    + lia.
    + now rewrite Nat2Z.id.
    + intros j Hj E. specialize (Hinc (Z.to_nat j) i ltac:(lia)). lia.
  - intros g Hne.
    apply (proj1 (xlpanel_find_spec H NF (index p) (lsub 0)
                    (fun j => blk_gid BC LB lsub (Z.to_nat j)) g Hh0 Hg)).
    intros j Hj. apply Hne. lia.
Qed.

Lemma find_after_constructor_witness :
  exists p,
    xlpanel_t 4 2 2 (fun _ => 10) Examples.two_block_lsub Examples.tens_xsup
      (fun _ => -7) 3 tt 1 = Some p
    /\ xlpanel_find 4 (-1) (index p) 7 = Some 1.
Proof.
  destruct (find_after_constructor 4 2 2 (-1) (fun _ => 10)
              Examples.two_block_lsub Examples.tens_xsup unit (fun _ => -7)
              3 tt 1 ltac:(lia) two_block_lsub_wf)
    as (p & Hp & Hfind & _).
  exists p. split; [exact Hp|].
  apply (Hfind 1%nat). vm_compute. lia.
Defined.

(** X9. Constructor and [getEndBlock] together: in the panel built from a
    well-formed [lsub], [getEndBlock(iSt, maxRows)] for a block [iSt]
    returns [e] with [iSt <= e <= nlb] such that the blocks [iSt .. e-1]
    have at most [maxRows] rows together when [e > iSt]; it returns [iSt]
    itself, the empty range, exactly when block [iSt] alone has more than
    [maxRows] rows; and it returns [nlb] when all the rows from block
    [iSt] on fit. *)
Theorem getEndBlock_after_constructor :
  forall (LPANEL_HEADER_SIZE BC_HEADER LB_DESCRIPTOR : Z) (SuperSize_of : Z -> Z)
         (lsub xsup : Z -> Z) (Val : Type) (heap : nat -> Z) (k : Z) (lval : Val)
         (isDiagIncluded : Z) (iSt : nat) (maxRows : Z),
    4 <= LPANEL_HEADER_SIZE ->
    wf_lsub BC_HEADER LB_DESCRIPTOR lsub ->
    (iSt < Z.to_nat (lsub 0%Z))%nat ->
    exists p e,
      xlpanel_t LPANEL_HEADER_SIZE BC_HEADER LB_DESCRIPTOR SuperSize_of lsub xsup
        heap k lval isDiagIncluded = Some p
      /\ getEndBlock LPANEL_HEADER_SIZE (index p) (Z.of_nat iSt) maxRows
         = Some (Z.of_nat e)
      /\ (iSt <= e <= Z.to_nat (lsub 0%Z))%nat
      /\ ((iSt < e)%nat ->
          rows_before BC_HEADER LB_DESCRIPTOR lsub e
          - rows_before BC_HEADER LB_DESCRIPTOR lsub iSt <= maxRows)
      /\ (e = iSt <-> maxRows < blk_nrows BC_HEADER LB_DESCRIPTOR lsub iSt)
      /\ (lsub 1 - rows_before BC_HEADER LB_DESCRIPTOR lsub iSt <= maxRows ->
          e = Z.to_nat (lsub 0)).
Proof.
  intros H BC LB SuperSize_of lsub xsup Val heap k lval isDiag iSt maxRows
         HH Hwf HiSt.
  destruct (xlpanel_t_layout H BC LB lsub xsup SuperSize_of Val heap k lval
              isDiag HH Hwf) as (p & Hp & _ & Hinv & _ & Hh0 & _).
  destruct Hinv as (_ & _ & _ & _ & _ & _ & _ & Lp).
  cbn [ctor_index] in Lp.
  destruct Hwf as (Hnlb & Hnn & Hsum & _).
  pose proof (rows_upto_mono BC LB lsub (Z.to_nat (lsub 0)) Hnn) as Hmono.
  destruct (getEndBlock_char H (index p) (lsub 0) (Z.of_nat iSt) maxRows
              (fun i => rows_before BC LB lsub (Z.to_nat i)) Hh0)
    as (e & He & _ & Hin).
  { intros i Hi. specialize (Lp (Z.to_nat i) ltac:(lia)).
    now replace (Z.of_nat (Z.to_nat i)) with i in Lp by lia. }
  { lia. }
  destruct (Hin ltac:(lia)) as (Hrange & Hfit & Hmax).
  rewrite Nat2Z.id in Hfit, Hmax.
  exists p, (Z.to_nat e).
  split; [exact Hp|]. split; [rewrite Z2Nat.id by lia; exact He|].
  split; [lia|]. split; [|split].
  - intros Hlt. apply (Hfit e). lia.
  - split.
    + intros Ee. assert (e = Z.of_nat iSt) by lia. subst e.
      specialize (Hmax ltac:(lia)).
      replace (Z.to_nat (Z.of_nat iSt + 1)) with (S iSt) in Hmax by lia.
      cbn [rows_before] in Hmax. lia.
    + intros Hbig.
      destruct (Z.eq_dec e (Z.of_nat iSt)) as [->|Hne]; [lia|].
      specialize (Hfit (Z.of_nat iSt + 1) ltac:(lia)).
      replace (Z.to_nat (Z.of_nat iSt + 1)) with (S iSt) in Hfit by lia.
      cbn [rows_before] in Hfit. lia.
  - intros Hall.
    destruct (Z.eq_dec e (lsub 0)) as [->|Hne]; [reflexivity|].
    specialize (Hmax ltac:(lia)).
    pose proof (Hmono (Z.to_nat (e + 1)) (Z.to_nat (lsub 0)) ltac:(lia)) as Hm.
    rewrite Hsum in Hm. lia.
Qed.

Lemma getEndBlock_after_constructor_witness :
  exists p e,
    xlpanel_t 4 2 2 (fun _ => 10) Examples.two_block_lsub Examples.tens_xsup
      (fun _ => -7) 3 tt 1 = Some p
    /\ getEndBlock 4 (index p) 0 2 = Some (Z.of_nat e)
    /\ (0 <= e <= 2)%nat.
Proof.
  destruct (getEndBlock_after_constructor 4 2 2 (fun _ => 10)
              Examples.two_block_lsub Examples.tens_xsup unit (fun _ => -7)
              3 tt 1 0%nat 2 ltac:(lia) two_block_lsub_wf
              ltac:(vm_compute; lia))
    as (p & e & Hp & He & Hr & _).
  exists p, e. split; [exact Hp|]. split; [exact He|exact Hr].
Defined.

(** ** The L panel: packing the diagonal block *)

Section Buffers.

Context {A : Type}.

Lemma vstore_spec (a : list A) (i : Z) (v : A) :
  0 <= i < Z.of_nat (length a) ->
  exists a', vstore a i v = Some a'
             /\ length a' = length a
             /\ vload a' i = Some v
             /\ forall j, j <> i -> vload a' j = vload a j.
Proof.
  intros Hi. exists (<[Z.to_nat i := v]> a). unfold vstore, vload.
  replace ((0 <=? i) && (i <? Z.of_nat (length a))) with true
    by (symmetry; apply andb_true_intro; split; [apply Z.leb_le|apply Z.ltb_lt]; lia).
  split; [reflexivity|]. split; [apply length_insert|]. split.
  - replace (0 <=? i) with true by (symmetry; apply Z.leb_le; lia).
    apply list_lookup_insert_eq. lia.
  - intros j Hj. destruct (Z.leb_spec 0 j); [|reflexivity].
    apply list_lookup_insert_ne. lia.
Qed.

Lemma vload_in_range (a : list A) (i : Z) :
  0 <= i < Z.of_nat (length a) -> exists v, vload a i = Some v.
Proof.
  intros Hi. unfold vload.
  replace (0 <=? i) with true by (symmetry; apply Z.leb_le; lia).
  destruct (lookup_lt_is_Some_2 a (Z.to_nat i) ltac:(lia)) as [v Hv].
  now exists v.
Qed.

Lemma memcpy_spec (src : list A) (n : nat) :
  forall (dst : list A) (doff soff : Z),
    0 <= doff -> doff + Z.of_nat n <= Z.of_nat (length dst) ->
    0 <= soff -> soff + Z.of_nat n <= Z.of_nat (length src) ->
    exists d,
      memcpy n dst doff src soff = Some d
      /\ length d = length dst
      /\ (forall t, 0 <= t < Z.of_nat n ->
            vload d (doff + t) = vload src (soff + t))
      /\ (forall i, i < doff \/ doff + Z.of_nat n <= i ->
            vload d i = vload dst i).
Proof.
  induction n as [|n IH]; intros dst doff soff Hd Hdl Hs Hsl.
  - exists dst. cbn [memcpy]. repeat split; auto. intros t Ht. lia.
  - cbn [memcpy].
    destruct (vload_in_range src soff ltac:(lia)) as [v Hv].
    rewrite Hv. cbn [mbind option_bind].
    destruct (vstore_spec dst doff v ltac:(lia)) as (d1 & -> & Hl1 & Hv1 & Hf1).
    cbn [mbind option_bind].
    destruct (IH d1 (doff + 1) (soff + 1) ltac:(lia) ltac:(lia) ltac:(lia)
                ltac:(lia)) as (d & -> & Hl & Hc & Hf).
    exists d. split; [reflexivity|]. split; [congruence|]. split.
    + intros t Ht. destruct (Z.eq_dec t 0) as [->|Hne].
      * rewrite !Z.add_0_r. rewrite Hf by lia. congruence.
      * replace (doff + t) with (doff + 1 + (t - 1)) by lia.
        replace (soff + t) with (soff + 1 + (t - 1)) by lia.
        apply Hc. lia.
    + intros i Hi. rewrite Hf by lia. apply Hf1. lia.
Qed.

Lemma pack_columns_spec (idx : list Z) (val : list A) (lda nsupc LDD : Z)
    (len : nat) :
  nzrows idx = Some lda ->
  0 <= nsupc <= LDD ->
  (forall c, 0 <= c < nsupc ->
     0 <= c * lda /\ c * lda + nsupc <= Z.of_nat (length val)) ->
  (forall c, 0 <= c < nsupc -> c * LDD + nsupc <= Z.of_nat len) ->
  forall (n : nat) (j : Z) (d : list A),
    0 <= j -> j + Z.of_nat n = nsupc -> length d = len ->
    exists d',
      pack_columns idx n j nsupc LDD d val = Some d'
      /\ length d' = len
      /\ (forall c t, j <= c < nsupc -> 0 <= t < nsupc ->
            vload d' (c * LDD + t) = vload val (c * lda + t))
      /\ (forall i, (forall c, j <= c < nsupc ->
                       i < c * LDD \/ c * LDD + nsupc <= i) ->
            vload d' i = vload d i).
Proof.
  intros Hlda Hn Hval Hdst.
  induction n as [|n IH]; intros j d Hj Hjn Hlen.
  - exists d. cbn [pack_columns]. repeat split; auto. intros c t Hc. lia.
  - cbn [pack_columns]. rewrite Hlda. cbn [mbind option_bind].
    destruct (Hval j ltac:(lia)) as [Hv0 Hv1].
    pose proof (Hdst j ltac:(lia)) as Hd1.
    assert (Hd0 : 0 <= j * LDD) by nia.
    destruct (memcpy_spec val (Z.to_nat nsupc) d (j * LDD) (j * lda)
                ltac:(lia) ltac:(lia) ltac:(lia) ltac:(lia))
      as (d1 & -> & Hl1 & Hc1 & Hf1).
    cbn [mbind option_bind].
    destruct (IH (j + 1) d1 ltac:(lia) ltac:(lia) ltac:(congruence))
      as (d' & -> & Hl' & Hc' & Hf').
    exists d'. split; [reflexivity|]. split; [exact Hl'|]. split.
    + intros c t Hc Ht. destruct (Z.eq_dec c j) as [->|Hne].
      * rewrite Hf'; [apply Hc1; lia|].
        intros c' Hc'j. left. nia.
      * apply Hc'; lia.
    + intros i Hi. rewrite Hf'; [|intros c Hc; apply Hi; lia].
      apply Hf1. rewrite Z2Nat.id by lia. apply Hi. lia.
Qed.

End Buffers.

(** X10. [packDiagBlock] on a panel whose flag is set and whose first
    block has [nsupc <= LDD] rows, with both buffers large enough, whether
    or not the assertions are compiled in: it returns 0; [DiagLBlk] keeps
    its size; entry [t] of column [c] of the [LDD]-strided block is entry
    [t] of column [c] of the [LDA]-strided panel, for all [c, t < nsupc];
    and every entry of [DiagLBlk] outside these [nsupc] column segments is
    as before. *)
Theorem packDiagBlock_copies_block :
  forall (A : Type) (NDEBUG : bool) (LPANEL_HEADER_SIZE : Z) (idx : list Z)
         (val DiagLBlk : list A) (LDD nb lda hd s0 s1 : Z),
    load idx 0 = Some nb -> load idx 1 = Some lda -> load idx 2 = Some hd ->
    load idx (LPANEL_HEADER_SIZE + nb + 0) = Some s0 ->
    load idx (LPANEL_HEADER_SIZE + nb + (0 + 1)) = Some s1 ->
    hd <> 0 -> s1 - s0 <= LDD ->
    (forall c, 0 <= c < s1 - s0 ->
       0 <= c * lda /\ c * lda + (s1 - s0) <= Z.of_nat (length val)) ->
    (forall c, 0 <= c < s1 - s0 ->
       c * LDD + (s1 - s0) <= Z.of_nat (length DiagLBlk)) ->
    exists d,
      packDiagBlock NDEBUG LPANEL_HEADER_SIZE idx val DiagLBlk LDD
      = Returned (0, d)
      /\ length d = length DiagLBlk
      /\ (forall c t, 0 <= c < s1 - s0 -> 0 <= t < s1 - s0 ->
            vload d (c * LDD + t) = vload val (c * lda + t))
      /\ (forall i, (forall c, 0 <= c < s1 - s0 ->
                       i < c * LDD \/ c * LDD + (s1 - s0) <= i) ->
            vload d i = vload DiagLBlk i).
Proof.
  intros A NDEBUG H idx val Diag LDD nb lda hd s0 s1 H0 H1 H2 Hs0 Hs1 Hhd HLDD
         Hval Hdst.
  assert (Hcopy : exists d,
            pack_block H idx val Diag LDD = Returned (0, d)
            /\ length d = length Diag
            /\ (forall c t, 0 <= c < s1 - s0 -> 0 <= t < s1 - s0 ->
                  vload d (c * LDD + t) = vload val (c * lda + t))
            /\ (forall i, (forall c, 0 <= c < s1 - s0 ->
                             i < c * LDD \/ c * LDD + (s1 - s0) <= i) ->
                  vload d i = vload Diag i)).
  { unfold pack_block, nbrow, stRow, nblocks.
    rewrite H0. cbn [mbind option_bind]. rewrite Hs1, Hs0.
    cbn [mbind option_bind].
    destruct (Z_lt_le_dec (s1 - s0) 0) as [Hneg|Hpos].
    - replace (Z.to_nat (s1 - s0)) with 0%nat by lia. cbn [pack_columns].
      exists Diag. repeat split; auto. intros c t Hc. lia.
    - destruct (pack_columns_spec idx val lda (s1 - s0) LDD (length Diag)
                  H1 ltac:(lia) Hval Hdst (Z.to_nat (s1 - s0)) 0 Diag
                  ltac:(lia) ltac:(lia) eq_refl)
        as (d & -> & Hl & Hc & Hf).
      exists d. repeat split; assumption. }
  unfold packDiagBlock. destruct NDEBUG; [exact Hcopy|].
  unfold haveDiag. rewrite H2.
  destruct (Z.eqb_spec hd 0) as [|_]; [contradiction|].
  assert (En : nbrow H idx 0 = Some (s1 - s0)).
  { unfold nbrow, stRow, nblocks. rewrite H0. cbn [mbind option_bind].
    rewrite Hs1, Hs0. reflexivity. }
  rewrite En. destruct (Z.ltb_spec LDD (s1 - s0)) as [|_]; [lia|].
  exact Hcopy.
Qed.

Lemma packDiagBlock_copies_block_witness :
  exists d,
    packDiagBlock false 4 MoreExamples.two_block_index [11; 12; 13] [0; 0] 1
    = Returned (0, d)
    /\ vload d 0 = vload [11; 12; 13] 0.
Proof.
  destruct (packDiagBlock_copies_block Z false 4 MoreExamples.two_block_index
              [11; 12; 13] [0; 0] 1 2 3 1 0 1
              eq_refl eq_refl eq_refl eq_refl eq_refl)
    as (d & Hd & _ & Hc & _).
  - lia.
  - lia.
  - intros c Hc. replace c with 0 by lia. cbn. lia.
  - intros c Hc. replace c with 0 by lia. cbn. lia.
  - exists d. split; [exact Hd|]. apply (Hc 0 0); lia.
Defined.

(** ** The order in which the windows start the nodes *)

Lemma started_app (a b : list event) : started (a ++ b) = started a ++ started b.
Proof. apply flat_map_app. Qed.

Lemma started_quiet (t : list event) :
  Forall (fun e => is_doing e = false) t -> started t = [].
Proof.
  induction 1 as [|e t He _ IH]; [reflexivity|].
  cbn. fold (started t). rewrite IH. now destruct e.
Qed.

Lemma started_quietb (t : list event) :
  forallb (fun e => negb (is_doing e)) t = true -> started t = [].
Proof.
  intros H. apply started_quiet, List.Forall_forall. intros e He.
  pose proof (forallb_In _ _ _ H He) as Hb. cbv beta in Hb.
  now destruct (is_doing e).
Qed.

Lemma started_prims (t : list event) :
  forallb is_prim t = true -> started t = [].
Proof.
  intros H. apply started_quietb. now apply forallb_prims_weaken.
Qed.

Lemma positions_succ (k : Z) : 0 <= k -> positions (k + 1) = positions k ++ [k].
Proof.
  intros Hk. unfold positions.
  replace (Z.to_nat (k + 1)) with (S (Z.to_nat k)) by lia.
  rewrite seq_S, map_app. cbn. now rewrite Z2Nat.id by lia.
Qed.

Lemma bcast_started (LU : LUstruct) (k offset : Z) :
  started (dPanelBcastGPU_trace LU k offset) = [].
Proof.
  destruct (dPanelBcast_trace_tail_prims LU k offset) as (t & -> & Ht).
  cbn. now apply started_prims.
Qed.

Section Order.

Variable LU : LUstruct.
Variable setree : Z -> Z.
Variable sforest : sForest.

Lemma window_node_started (w1 wsz par k0 : Z) (s : sched_state) :
  started (fst (window_node LU setree sforest w1 wsz par k0 s)) = [k0].
Proof.
  rewrite window_node_trace. cbv zeta. cbn [started flat_map app].
  fold started. rewrite !started_app.
  rewrite (started_quietb _ (gate_no_doing LU sforest _ s)).
  now destruct (has_sends LU (nodeList sforest k0)).
Qed.

Lemma window_iter_started (T : list event) (s : sched_state) :
  k1 s < nNodes sforest ->
  0 <= k1 s -> 0 <= winSize s ->
  started T = positions (Z.min (k1 s) (nNodes sforest)) ->
  let s' := snd (window_iter LU setree sforest s) in
  0 <= k1 s' /\ 0 <= winSize s'
  /\ started (T ++ fst (window_iter LU setree sforest s))
     = positions (Z.min (k1 s') (nNodes sforest)).
Proof.
  intros Hlt Hk1 Hw HT. cbv zeta. unfold window_iter.
  set (hi := SUPERLU_MIN (nNodes sforest) (k1 s + winSize s)).
  assert (Hhi : hi = Z.min (nNodes sforest) (k1 s + winSize s))
    by apply SUPERLU_MIN_spec.
  pose proof (for_range_inv
    (fun k T' s' => started T' = positions k /\ winSize s' = winSize s)
    (window_node LU setree sforest (k1 s) (winSize s) (winParity s))
    (k1 s) hi T s) as H1.
  cbv beta in H1.
  destruct (for_range (k1 s) hi (window_node LU setree sforest _ _ _) s)
    as [t1 s1]. cbn [fst snd] in H1.
  destruct H1 as (HT1 & Hw1).
  { split; [|reflexivity]. rewrite HT. f_equal. lia. }
  { intros k T' s' Hk (HI & HW). split.
    - rewrite started_app, window_node_started, HI.
      symmetry. apply positions_succ. lia.
    - pose proof (window_node_frame LU setree sforest (k1 s) (winSize s)
                    (winParity s) k s') as (_ & F2 & _).
      cbv zeta in F2. congruence. }
  replace (Z.max (k1 s) hi) with hi in HT1 by lia.
  rewrite Hw1.
  pose proof (scan_next_inv LU sforest
    (fun (_ : Z) T' s' => started T' = positions hi /\ 0 <= winSize s')
    (fun T' s' => started T' = positions hi /\ 0 <= winSize s')
    (k1 s + winSize s)
    (Z.to_nat (SUPERLU_MIN (nNodes sforest) (k1 s + winSize s + winSize s)
               - (k1 s + winSize s)))
    (k1 s + winSize s) (T ++ t1) s1) as H2.
  cbv beta in H2.
  destruct (scan_next LU sforest _ (k1 s + winSize s) (k1 s + winSize s) s1)
    as [t2 s2]. cbn [fst snd] in H2.
  destruct H2 as (HT2 & Hw2).
  { split; [exact HT1|lia]. }
  { intros k T' s' Hk (HI & HW) _. split; [|exact HW].
    rewrite !started_app, bcast_started, HI. cbn. apply app_nil_r. }
  { intros k T' s' Hk (HI & HW) _. split; [exact HI|]. cbn. lia. }
  { intros T' s' H. exact H. }
  pose proof (for_range_inv
    (fun (_ : Z) T' (_ : unit) => started T' = positions hi)
    (sync_node LU sforest (k1 s) (winSize s) (winParity s))
    (k1 s) hi ((T ++ t1) ++ t2) tt) as H3.
  cbv beta in H3.
  destruct (for_range (k1 s) hi (sync_node LU sforest _ _ _) tt) as [t3 u3].
  cbn [fst snd k1 winSize] in H3 |- *.
  split; [lia|]. split; [exact Hw2|].
  replace (Z.min (k1 s + winSize s) (nNodes sforest)) with hi by lia.
  rewrite <- !app_assoc in H3. apply H3; [now rewrite !app_assoc|].
  intros k T' [] Hk HI. rewrite started_app, HI.
  unfold sync_node. cbn [fst]. split_ifs; cbn; apply app_nil_r.
Qed.

Lemma ramp_started : started (fst (ramp LU setree sforest)) = [].
Proof.
  apply started_quiet.
  eapply List.Forall_impl; [|apply (ramp_calls LU setree sforest)].
  intros e [He _]. exact He.
Qed.

Lemma first_window_started : started (fst (first_window LU setree sforest)) = [].
Proof.
  unfold first_window. destruct (ramp LU setree sforest) as [t0 [lncl dps]].
  pose proof (for_range_inv
    (fun (_ : Z) T (_ : Z -> Z) => started T = [])
    (first_bcast LU sforest) (eTreeTopLims sforest topoLvl)
    (SUPERLU_MIN (numLookAhead LU ÷ 2) (eTreeTopLims sforest 1))
    [] (fun _ => 0)) as H.
  cbv beta in H.
  destruct (for_range _ _ (first_bcast LU sforest) _) as [t dpb].
  cbn [fst snd app] in *. apply H; [reflexivity|].
  intros k T' s' Hk HT. rewrite started_app, HT. unfold first_bcast.
  destruct (s' k =? 0); cbn [fst]; [|reflexivity].
  apply bcast_started.
Qed.

Lemma pipeline_started (fuel : nat) :
  exists m, m <= Z.max 0 (nNodes sforest)
            /\ started (fst (pipeline LU setree sforest fuel)) = positions m.
Proof.
  unfold pipeline.
  destruct (first_window_state LU setree sforest) as [Hk1 _].
  destruct (Z_lt_le_dec (winSize (snd (first_window LU setree sforest))) 0)
    as [Hneg|Hpos].
  - exists 0. split; [lia|].
    rewrite negative_window_silent; [reflexivity|exact Hneg|lia].
  - destruct (while_windows_inv LU setree sforest
      (fun T s => 0 <= k1 s /\ 0 <= winSize s
                  /\ started T = positions (Z.min (k1 s) (nNodes sforest))))
      with (fuel := fuel) (T := @nil event)
           (s := snd (first_window LU setree sforest)) as [s' (H0 & _ & H)].
    + intros T s (Ha & Hb & Hc) Hlt. now apply window_iter_started.
    + rewrite Hk1. split; [lia|]. split; [exact Hpos|].
      unfold positions. now replace (Z.to_nat (Z.min 0 (nNodes sforest))) with 0%nat by lia.
    + exists (Z.min (k1 s') (nNodes sforest)). split; [lia|exact H].
Qed.

End Order.

(** X12. Whatever the forest and however long the run, the nodes that
    [dsparseTreeFactorGPU] has started ("Doing" lines) are the list
    positions [0, 1, ..., m - 1] for some [m <= nNodes], in this order:
    no position is started twice, none is skipped, none is started before
    a smaller one. *)
Theorem windows_start_in_order :
  forall (LU : LUstruct) (setree : Z -> Z) (sforest : sForest) (fuel : nat),
  exists m,
    m <= Z.max 0 (nNodes sforest)
    /\ started (snd (dsparseTreeFactorGPU_trace LU setree sforest fuel))
       = positions m.
Proof.
  intros LU setree sforest fuel. unfold dsparseTreeFactorGPU_trace.
  destruct (nNodes sforest <? 1).
  - exists 0. split; [lia|reflexivity].
  - destruct (pipeline_started LU setree sforest fuel) as (m & Hm & E).
    destruct (pipeline LU setree sforest fuel) as [t_win r].
    cbn [fst snd] in *. exists m. split; [exact Hm|].
    cbn [started flat_map app]. fold started.
    now rewrite !started_app, ramp_started, first_window_started, E.
Qed.

(** ** Progress of the windows on a forest in factorization order *)

Section Progress.

Variable LU : LUstruct.
Variable setree : Z -> Z.
Variable sforest : sForest.

Hypothesis Hwf : wf_forest LU setree sforest.

Lemma children_in_none (n : nat) :
  forall lo p,
    (forall c, lo <= c < lo + Z.of_nat n -> parent_pos setree sforest c <> p) ->
    children_in setree sforest n lo p = 0.
Proof.
  induction n as [|n IH]; intros lo p H; cbn [children_in]; [reflexivity|].
  rewrite IH by (intros c Hc; apply H; lia).
  destruct (Z.eqb_spec (parent_pos setree sforest lo) p) as [E|_]; [|reflexivity].
  exfalso. apply (H lo); [lia|exact E].
Qed.

Lemma exact_zero_below (k0 : Z) (lncl : Z -> Z) (p : Z) :
  exact_counts setree sforest k0 lncl ->
  0 <= p <= k0 -> p < nNodes sforest -> lncl p = 0.
Proof.
  intros Hex Hp Hn. rewrite (Hex p) by lia. apply children_in_none.
  intros c Hc E. destruct (Hwf c) as [Hlt _]; [lia|rewrite E; lia|].
  rewrite E in Hlt. lia.
Qed.

Lemma window_node_exact (w1 wsz par k0 : Z) (s : sched_state) :
  0 <= k0 < nNodes sforest ->
  exact_counts setree sforest k0 (localNumChildrenLeft s) ->
  exact_counts setree sforest (k0 + 1)
    (localNumChildrenLeft (snd (window_node LU setree sforest w1 wsz par k0 s))).
Proof.
  intros Hk Hex p Hp.
  rewrite window_node_state, look_ahead_panel_solve_lncl. cbv zeta.
  specialize (Hex p Hp).
  replace (Z.to_nat (nNodes sforest - k0))
    with (S (Z.to_nat (nNodes sforest - (k0 + 1)))) in Hex by lia.
  cbn [children_in] in Hex.
  pose proof (Hwf k0 Hk) as Hw.
  unfold parent_pos in Hex at 1. unfold parent_pos in Hw.
  set (pp := myIperm sforest (setree (nodeList sforest k0))) in *.
  destruct (Z.ltb_spec (setree (nodeList sforest k0)) (nsupers LU));
    destruct (Z.ltb_spec 0 pp); destruct (Z.ltb_spec pp (nNodes sforest));
    cbn [andb]; unfold upd;
    destruct (Z.eqb_spec pp p) as [E|E]; try subst p;
    try destruct (Z.eq_dec _ pp); lia.
Qed.

Lemma scan_next_progress (n : nat) (k1_next : Z) (s : sched_state) :
  1 <= winSize s ->
  (n <> 0%nat -> localNumChildrenLeft s k1_next = 0) ->
  let s' := snd (scan_next LU sforest n k1_next k1_next s) in
  1 <= winSize s' /\ localNumChildrenLeft s' = localNumChildrenLeft s.
Proof.
  intros Hw H0. cbv zeta.
  pose proof (scan_next_inv LU sforest
    (fun (_ : Z) (_ : list event) s' =>
       winSize s' = winSize s
       /\ localNumChildrenLeft s' = localNumChildrenLeft s)
    (fun (_ : list event) s' =>
       1 <= winSize s'
       /\ localNumChildrenLeft s' = localNumChildrenLeft s)
    k1_next n k1_next [] s) as H.
  cbv beta in H. apply H.
  - split; reflexivity.
  - intros k T' s' Hk [HW HL] _. split; assumption.
  - intros k T' s' Hk [HW HL] Hne. cbn. split; [|exact HL].
    rewrite HL in Hne.
    assert (k <> k1_next) by (intros ->; apply Hne, H0; lia). lia.
  - intros T' s' [HW HL]. split; [lia|exact HL].
Qed.

Lemma window_iter_progress (s : sched_state) :
  k1 s < nNodes sforest -> 0 <= k1 s -> 1 <= winSize s ->
  exact_counts setree sforest (k1 s) (localNumChildrenLeft s) ->
  let s' := snd (window_iter LU setree sforest s) in
  k1 s' = k1 s + winSize s
  /\ 1 <= winSize s'
  /\ exact_counts setree sforest (Z.min (k1 s') (nNodes sforest))
       (localNumChildrenLeft s').
Proof.
  intros Hlt Hk1 Hw Hex. cbv zeta. unfold window_iter.
  set (hi := SUPERLU_MIN (nNodes sforest) (k1 s + winSize s)).
  assert (Hhi : hi = Z.min (nNodes sforest) (k1 s + winSize s))
    by apply SUPERLU_MIN_spec.
  pose proof (for_range_inv
    (fun k (_ : list event) s' =>
       exact_counts setree sforest k (localNumChildrenLeft s')
       /\ winSize s' = winSize s)
    (window_node LU setree sforest (k1 s) (winSize s) (winParity s))
    (k1 s) hi [] s) as H1.
  cbv beta in H1.
  destruct (for_range (k1 s) hi (window_node LU setree sforest _ _ _) s)
    as [t1 s1]. cbn [fst snd] in H1.
  destruct H1 as (Hex1 & Hw1).
  { split; [exact Hex|reflexivity]. }
  { intros k T' s' Hk (HI & HW). split.
    - apply window_node_exact; [lia|exact HI].
    - pose proof (window_node_frame LU setree sforest (k1 s) (winSize s)
                    (winParity s) k s') as (_ & F2 & _).
      cbv zeta in F2. congruence. }
  replace (Z.max (k1 s) hi) with hi in Hex1 by lia.
  rewrite Hw1.
  pose proof (scan_next_progress
    (Z.to_nat (SUPERLU_MIN (nNodes sforest) (k1 s + winSize s + winSize s)
               - (k1 s + winSize s)))
    (k1 s + winSize s) s1) as H2.
  cbv zeta in H2.
  destruct (scan_next LU sforest _ (k1 s + winSize s) (k1 s + winSize s) s1)
    as [t2 s2]. cbn [fst snd] in H2.
  destruct H2 as (Hw2 & Hl2).
  { lia. }
  { intros Hn. rewrite SUPERLU_MIN_spec in Hn.
    apply (exact_zero_below hi); [exact Hex1|lia|lia]. }
  destruct (for_range (k1 s) hi (sync_node LU sforest _ _ _) tt) as [t3 u3].
  cbn [fst snd k1 winSize localNumChildrenLeft].
  split; [reflexivity|]. split; [exact Hw2|].
  replace (Z.min (k1 s + winSize s) (nNodes sforest)) with hi by lia.
  now rewrite Hl2.
Qed.

Lemma while_windows_returns :
  forall (fuel : nat) (T : list event) (s : sched_state),
    nNodes sforest - k1 s <= Z.of_nat fuel ->
    0 <= k1 s -> 1 <= winSize s ->
    exact_counts setree sforest (Z.min (k1 s) (nNodes sforest))
      (localNumChildrenLeft s) ->
    started T = positions (Z.min (k1 s) (nNodes sforest)) ->
    exists s',
      snd (while_windows LU setree sforest fuel s) = Some s'
      /\ nNodes sforest <= k1 s'
      /\ started (T ++ fst (while_windows LU setree sforest fuel s))
         = positions (Z.min (k1 s') (nNodes sforest)).
Proof.
  induction fuel as [|fuel IH]; intros T s Hfuel Hk1 Hw Hex HT.
  - cbn [while_windows]. destruct (Z.ltb_spec (k1 s) (nNodes sforest)); [lia|].
    exists s. cbn. rewrite app_nil_r. auto.
  - cbn [while_windows]. destruct (Z.ltb_spec (k1 s) (nNodes sforest)) as [Hlt|Hge].
    + replace (Z.min (k1 s) (nNodes sforest)) with (k1 s) in Hex by lia.
      pose proof (window_iter_progress s Hlt Hk1 Hw Hex) as (Ek & Hw' & Hex').
      pose proof (window_iter_started LU setree sforest T s Hlt Hk1
                    ltac:(lia) HT) as (Hk1' & _ & HT').
      destruct (window_iter LU setree sforest s) as [t1 s1].
      cbn [fst snd] in *.
      destruct (IH (T ++ t1) s1 ltac:(lia) Hk1' Hw' Hex' HT')
        as (s' & Es & Hdone & Hst).
      destruct (while_windows LU setree sforest fuel s1) as [t2 r].
      cbn [fst snd] in *. exists s'. rewrite app_assoc. auto.
    + exists s. cbn. rewrite app_nil_r. auto.
Qed.

End Progress.

Lemma pipeline_runs :
  forall (LU : LUstruct) (setree : Z -> Z) (sforest : sForest) (fuel : nat),
    wf_forest LU setree sforest ->
    2 <= numLookAhead LU -> 1 <= nNodes sforest ->
    1 <= eTreeTopLims sforest 1 ->
    (Z.to_nat (nNodes sforest) <= fuel)%nat ->
    fst (dsparseTreeFactorGPU_trace LU setree sforest fuel) = Some 0
    /\ started (snd (dsparseTreeFactorGPU_trace LU setree sforest fuel))
       = positions (nNodes sforest).
Proof.
  intros LU setree sforest fuel Hwf HLA Hn Hlim Hfuel.
  unfold dsparseTreeFactorGPU_trace.
  destruct (Z.ltb_spec (nNodes sforest) 1) as [|_]; [lia|].
  unfold pipeline.
  destruct (first_window_state LU setree sforest) as [Hk1 Hl].
  pose proof (first_window_winSize LU setree sforest) as HW.
  rewrite SUPERLU_MIN_spec in HW.
  assert (Hq : 1 <= numLookAhead LU ÷ 2).
  { apply Z.quot_le_lower_bound; lia. }
  destruct (while_windows_returns LU setree sforest Hwf fuel []
              (snd (first_window LU setree sforest)))
    as (s' & Es & Hdone & Hst).
  { rewrite Hk1. lia. }
  { rewrite Hk1. lia. }
  { rewrite HW. lia. }
  { rewrite Hk1. replace (Z.min 0 (nNodes sforest)) with 0 by lia.
    intros p Hp. rewrite Z.sub_0_r.
    apply (count_children setree sforest _ Hl). lia. }
  { rewrite Hk1. unfold positions.
    now replace (Z.to_nat (Z.min 0 (nNodes sforest))) with 0%nat by lia. }
  destruct (while_windows LU setree sforest fuel _) as [t_win r].
  cbn [fst snd app] in *. subst r. split; [reflexivity|].
  cbn [started flat_map app]. fold started.
  rewrite !started_app, ramp_started, first_window_started, Hst.
  cbn [app]. f_equal. lia.
Qed.



(** ** Broadcast before use, slot by slot *)

Lemma parity_flip (par : Z) :
  0 <= par -> parity_odd (par + 1) = negb (parity_odd par).
Proof.
  intros Hp. unfold parity_odd.
  pose proof (Z.quot_rem' par 2) as E0.
  pose proof (Z.quot_rem' (par + 1) 2) as E1.
  pose proof (Z.rem_bound_pos par 2 Hp ltac:(lia)) as B0.
  pose proof (Z.rem_bound_pos (par + 1) 2 ltac:(lia) ltac:(lia)) as B1.
  destruct (Z.eqb_spec (Z.rem (par + 1) 2) 0);
    destruct (Z.eqb_spec (Z.rem par 2) 0); cbn; try reflexivity; lia.
Qed.

Lemma half_below (a k : Z) : 0 <= k < a ÷ 2 -> k < a.
Proof.
  intros Hk. destruct (Z_lt_le_dec a 0) as [Hneg|Hpos].
  - pose proof (Z.mul_quot_ge a 2 ltac:(lia) ltac:(lia)). lia.
  - pose proof (Z.mul_quot_le a 2 Hpos ltac:(lia)). lia.
Qed.

Section Ready.

Variable LU : LUstruct.
Variable setree : Z -> Z.
Variable sforest : sForest.

Local Abbreviation ready_occ := (bcast_before_doing sforest).

Lemma ready_quiet (T t : list event) :
  forallb (fun e => negb (is_doing e)) t = true ->
  each_occ ready_occ T -> each_occ ready_occ (T ++ t).
Proof.
  intros Ht HT. apply each_occ_extend; [|exact HT|].
  - intros pre e post post' H. exact H.
  - intros pre e post E k0 off ->. exfalso. eapply no_doing_occ; eassumption.
Qed.

Lemma ready_doing (T t : list event) (k0 off : Z) :
  forallb (fun e => negb (is_doing e)) t = true ->
  In (Call_dPanelBcastGPU (nodeList sforest k0) off) T ->
  each_occ ready_occ T ->
  each_occ ready_occ (T ++ Printf_Doing k0 off :: t).
Proof.
  intros Ht Hin HT. apply each_occ_extend; [|exact HT|].
  - intros pre e post post' H. exact H.
  - intros pre e post E k off' ->.
    destruct (occ_cons _ _ _ _ _ E) as [(-> & Hd & _)|(pre' & -> & E')].
    + injection Hd as <- <-. now rewrite app_nil_r.
    + exfalso. eapply no_doing_occ; eassumption.
Qed.

Lemma window_node_ready (T : list event) (s0 : sched_state) (k0 : Z)
    (s : sched_state) :
  In (Call_dPanelBcastGPU (nodeList sforest k0) (slot_of LU s0 k0)) T ->
  each_occ ready_occ T ->
  each_occ ready_occ
    (T ++ fst (window_node LU setree sforest (k1 s0) (winSize s0)
                 (winParity s0) k0 s)).
Proof.
  intros Hin HT. rewrite window_node_trace. cbv zeta.
  apply ready_doing; [|exact Hin|exact HT].
  rewrite !forallb_app, (gate_no_doing LU sforest).
  now destruct (has_sends LU (nodeList sforest k0)).
Qed.

Lemma bcast_quiet (k offset : Z) :
  forallb (fun e => negb (is_doing e)) (dPanelBcastGPU_trace LU k offset) = true.
Proof.
  destruct (dPanelBcast_trace_tail_prims LU k offset) as (t & -> & Ht).
  cbn. now apply forallb_prims_weaken.
Qed.

Lemma bcast_call_in (k offset : Z) :
  In (Call_dPanelBcastGPU k offset) (dPanelBcastGPU_trace LU k offset).
Proof.
  destruct (dPanelBcast_trace_tail_prims LU k offset) as (t & -> & _).
  now left.
Qed.

Lemma window_iter_ready (T : list event) (s : sched_state) :
  k1 s < nNodes sforest ->
  0 <= k1 s /\ 0 <= winSize s /\ 0 <= winParity s
  /\ each_occ ready_occ T /\ window_ready LU sforest T s ->
  let s' := snd (window_iter LU setree sforest s) in
  0 <= k1 s' /\ 0 <= winSize s' /\ 0 <= winParity s'
  /\ each_occ ready_occ (T ++ fst (window_iter LU setree sforest s))
  /\ window_ready LU sforest (T ++ fst (window_iter LU setree sforest s)) s'.
Proof.
  intros Hlt (Hk1 & Hw & Hpar & HT & Hready). cbv zeta. unfold window_iter.
  set (hi := SUPERLU_MIN (nNodes sforest) (k1 s + winSize s)).
  assert (Hhi : hi = Z.min (nNodes sforest) (k1 s + winSize s))
    by apply SUPERLU_MIN_spec.
  (* the nodes of the window *)
  pose proof (for_range_inv
    (fun (_ : Z) T' s' =>
       each_occ ready_occ T' /\ window_ready LU sforest T' s
       /\ winSize s' = winSize s /\ winParity s' = winParity s)
    (window_node LU setree sforest (k1 s) (winSize s) (winParity s))
    (k1 s) hi T s) as H1.
  cbv beta in H1.
  destruct (for_range (k1 s) hi (window_node LU setree sforest _ _ _) s)
    as [t1 s1]. cbn [fst snd] in H1.
  destruct H1 as (HT1 & _ & Hw1 & Hp1); [now repeat split| |].
  { intros k T' s' Hk (HT' & HR' & HW & HP).
    pose proof (window_node_frame LU setree sforest (k1 s) (winSize s)
                  (winParity s) k s') as (_ & F2 & F3).
    cbv zeta in F2, F3. repeat split.
    - apply window_node_ready; [apply HR'; lia|exact HT'].
    - intros k0 Hk0. apply in_or_app. left. now apply HR'.
    - congruence.
    - congruence. }
  (* the scan for the next window *)
  rewrite Hw1.
  set (k1n := k1 s + winSize s).
  set (off := fun k0 => Z.rem (k0 - k1n) (winSize s)
                        + (if negb (parity_odd (winParity s))
                           then halfWin LU else 0)).
  pose proof (scan_next_inv LU sforest
    (fun k T' s' =>
       each_occ ready_occ T'
       /\ winSize s' = winSize s /\ winParity s' = winParity s
       /\ forall k0, k1n <= k0 < k ->
            In (Call_dPanelBcastGPU (nodeList sforest k0) (off k0)) T')
    (fun T' s' =>
       each_occ ready_occ T'
       /\ 0 <= winSize s' <= winSize s
       /\ forall k0, k1n <= k0 < Z.min (nNodes sforest) (k1n + winSize s') ->
            In (Call_dPanelBcastGPU (nodeList sforest k0) (off k0)) T')
    k1n
    (Z.to_nat (SUPERLU_MIN (nNodes sforest) (k1n + winSize s) - k1n))
    k1n (T ++ t1) s1) as H2.
  cbv beta in H2.
  destruct (scan_next LU sforest _ k1n k1n s1) as [t2 s2].
  cbn [fst snd] in H2.
  destruct H2 as (HT2 & Hw2 & Hin2).
  { split; [exact HT1|]. split; [exact Hw1|]. split; [exact Hp1|].
    intros k0 Hk0. lia. }
  { intros k T' s' Hk (HT' & HW & HP & HIn) _.
    assert (Eoff : offset_next_of LU k k1n s' = off k).
    { unfold offset_next_of, off. now rewrite HW, HP. }
    rewrite Eoff. repeat split.
    - apply ready_quiet; [|exact HT'].
      rewrite forallb_app, bcast_quiet. reflexivity.
    - exact HW.
    - exact HP.
    - intros k0 Hk0. apply in_or_app.
      destruct (Z.eq_dec k0 k) as [->|Hne].
      + right. apply in_or_app. left. apply bcast_call_in.
      + left. apply HIn. lia. }
  { intros k T' s' Hk (HT' & HW & HP & HIn) _.
    rewrite SUPERLU_MIN_spec in Hk. cbn [winSize set_winSize].
    split; [exact HT'|]. split; [lia|].
    intros k0 Hk0. apply HIn. lia. }
  { intros T' s' (HT' & HW & HP & HIn). rewrite SUPERLU_MIN_spec in HIn.
    split; [exact HT'|]. split; [lia|].
    intros k0 Hk0. apply HIn. lia. }
  (* the synchronizations *)
  pose proof (for_range_inv
    (fun (_ : Z) T' (_ : unit) =>
       each_occ ready_occ T'
       /\ forall k0, k1n <= k0 < Z.min (nNodes sforest) (k1n + winSize s2) ->
            In (Call_dPanelBcastGPU (nodeList sforest k0) (off k0)) T')
    (sync_node LU sforest (k1 s) (winSize s) (winParity s))
    (k1 s) hi ((T ++ t1) ++ t2) tt) as H3.
  cbv beta in H3.
  destruct (for_range (k1 s) hi (sync_node LU sforest _ _ _) tt) as [t3 u3].
  cbn [fst snd k1 winSize winParity] in H3 |- *.
  rewrite <- !app_assoc in H3.
  destruct H3 as (HT3 & Hin3).
  { split; [now rewrite !app_assoc|].
    intros k0 Hk0. rewrite !app_assoc. now apply Hin2. }
  { intros k T' [] Hk (HT' & HIn). split.
    - apply ready_quiet; [|exact HT'].
      unfold sync_node. cbn [fst]. split_ifs; reflexivity.
    - intros k0 Hk0. apply in_or_app. left. now apply HIn. }
  split; [lia|]. split; [lia|]. split; [lia|]. split; [exact HT3|].
  intros k0 Hk0. cbn [k1 winSize] in Hk0.
  specialize (Hin3 k0 Hk0).
  unfold slot_of. cbn [k1 winSize winParity].
  replace (Z.rem (k0 - k1n) (winSize s2)) with (k0 - k1n)
    by (symmetry; apply Z.rem_small; lia).
  rewrite parity_flip by exact Hpar.
  unfold off in Hin3.
  replace (Z.rem (k0 - k1n) (winSize s)) with (k0 - k1n) in Hin3
    by (symmetry; apply Z.rem_small; lia).
  exact Hin3.
Qed.

Lemma first_window_ready :
  eTreeTopLims sforest 0 = 0 ->
  window_ready LU sforest (fst (first_window LU setree sforest))
    (snd (first_window LU setree sforest))
  /\ forallb (fun e => negb (is_doing e))
       (fst (first_window LU setree sforest)) = true.
Proof.
  intros Hst. unfold window_ready, slot_of, first_window.
  destruct (ramp LU setree sforest) as [t0 [lncl dps]].
  unfold topoLvl. rewrite Hst.
  set (w0 := SUPERLU_MIN (numLookAhead LU ÷ 2) (eTreeTopLims sforest 1)).
  assert (Hw0 : w0 = Z.min (numLookAhead LU ÷ 2) (eTreeTopLims sforest 1))
    by apply SUPERLU_MIN_spec.
  pose proof (for_range_inv
    (fun k T (dpb : Z -> Z) =>
       (forall k', k <= k' -> dpb k' = 0)
       /\ forallb (fun e => negb (is_doing e)) T = true
       /\ forall k0, 0 <= k0 < k ->
            In (Call_dPanelBcastGPU (nodeList sforest k0) k0) T)
    (first_bcast LU sforest) 0 w0 [] (fun _ => 0)) as H.
  cbv beta in H.
  destruct (for_range 0 w0 (first_bcast LU sforest) _) as [t dpb].
  cbn [fst snd app k1 winSize winParity] in *.
  destruct H as (_ & Hq & Hin).
  { split; [reflexivity|]. split; [reflexivity|]. intros k0 Hk0. lia. }
  { intros k T' dpb' Hk (Hz & HQ & HIn). unfold first_bcast.
    rewrite (Hz k) by lia. cbn [Z.eqb fst snd]. repeat split.
    - intros k' Hk'. unfold upd. destruct (Z.eq_dec k' k); [lia|]. apply Hz. lia.
    - rewrite forallb_app, HQ. apply bcast_quiet.
    - intros k0 Hk0. apply in_or_app.
      destruct (Z.eq_dec k0 k) as [->|Hne].
      + right. pose proof (half_below (numLookAhead LU) k ltac:(lia)).
        replace (Z.rem k (numLookAhead LU)) with k
          by (symmetry; apply Z.rem_small; lia).
        apply bcast_call_in.
      + left. apply HIn. lia. }
  split; [|exact Hq].
  intros k0 Hk0. unfold parity_odd. cbn [Z.rem Z.eqb negb].
  rewrite Z.sub_0_r, Z.add_0_r.
  replace (Z.rem k0 w0) with k0 by (symmetry; apply Z.rem_small; lia).
  apply Hin. lia.
Qed.

Lemma pipeline_ready (fuel : nat) :
  eTreeTopLims sforest 0 = 0 ->
  each_occ ready_occ
    (fst (first_window LU setree sforest)
     ++ fst (pipeline LU setree sforest fuel)).
Proof.
  intros Hst. unfold pipeline.
  destruct (first_window_state LU setree sforest) as [Hk1 _].
  destruct (first_window_ready Hst) as [Hready Hq].
  assert (H0 : each_occ ready_occ (fst (first_window LU setree sforest))).
  { rewrite <- (app_nil_l (fst _)). apply ready_quiet; [exact Hq|].
    apply each_occ_nil. }
  destruct (Z_lt_le_dec (winSize (snd (first_window LU setree sforest))) 0)
    as [Hneg|Hpos].
  - rewrite negative_window_silent; [|exact Hneg|lia].
    now rewrite app_nil_r.
  - destruct (while_windows_inv LU setree sforest
      (fun T s => 0 <= k1 s /\ 0 <= winSize s /\ 0 <= winParity s
                  /\ each_occ ready_occ T /\ window_ready LU sforest T s))
      with (fuel := fuel) (T := fst (first_window LU setree sforest))
           (s := snd (first_window LU setree sforest))
      as [s' (_ & _ & _ & H & _)].
    + intros T s HI Hlt. apply window_iter_ready; assumption.
    + rewrite Hk1. split; [lia|]. split; [exact Hpos|].
      split; [|split; [exact H0|exact Hready]].
      unfold first_window. destruct (ramp LU setree sforest) as [t0 [lncl dps]].
      destruct (for_range _ _ (first_bcast LU sforest) _) as [t dpb].
      cbn. lia.
    + exact H.
Qed.

End Ready.

Lemma pipeline_bcast_first :
  forall (LU : LUstruct) (setree : Z -> Z) (sforest : sForest) (fuel : nat),
    eTreeTopLims sforest 0 = 0 ->
    each_occ (bcast_before_doing sforest)
      (snd (dsparseTreeFactorGPU_trace LU setree sforest fuel)).
Proof.
  intros LU setree sforest fuel Hst. unfold dsparseTreeFactorGPU_trace.
  destruct (nNodes sforest <? 1); [apply each_occ_nil|].
  pose proof (pipeline_ready LU setree sforest fuel Hst) as H.
  destruct (pipeline LU setree sforest fuel) as [t_win r].
  cbn [fst snd] in *.
  change (Printf_Using :: fst (ramp LU setree sforest)
            ++ fst (first_window LU setree sforest) ++ t_win)
    with ((Printf_Using :: fst (ramp LU setree sforest))
            ++ (fst (first_window LU setree sforest) ++ t_win)).
  apply each_occ_app; [| |exact H].
  - intros a b pre e post HQ k0 off E. apply in_or_app. right. now apply HQ.
  - intros pre e post E k0 off ->. exfalso.
    destruct (occ_cons _ _ _ _ _ E) as [(_ & Hd & _)|(pre' & _ & E')];
      [discriminate Hd|].
    pose proof (occ_In _ _ _ _ E') as Hin.
    pose proof (ramp_calls LU setree sforest) as Hr.
    rewrite List.Forall_forall in Hr. destruct (Hr _ Hin) as [Hd _].
    discriminate Hd.
Qed.

(** X14. When the first level starts at list position 0, every node that
    [dsparseTreeFactorGPU] starts on a slot ("Doing k0 on offset") had
    [dPanelBcastGPU] called for it with that very slot earlier in the run:
    the first window by the broadcasts before the [while] loop, every later
    window by the scan of the turn before, which uses the other half of
    the slots and the window size that the scan may still shrink. *)
Theorem doing_follows_bcast :
  forall (LU : LUstruct) (setree : Z -> Z) (sforest : sForest) (fuel : nat),
    eTreeTopLims sforest 0 = 0 ->
    each_occ (bcast_before_doing sforest)
      (snd (dsparseTreeFactorGPU_trace LU setree sforest fuel)).
Proof.
  intros LU setree sforest fuel Hst. now apply pipeline_bcast_first.
Qed.

Lemma doing_follows_bcast_witness :
  each_occ (bcast_before_doing Examples.chain_forest)
    (snd (dsparseTreeFactorGPU_trace (Examples.chain_LU 2)
            Examples.chain_setree Examples.chain_forest 2)).
Proof.
  apply (doing_follows_bcast (Examples.chain_LU 2) Examples.chain_setree
           Examples.chain_forest 2).
  reflexivity.
Defined.

(** ** at_plus_a_dist: loops as folds *)

Lemma zseq_nil (lo hi : Z) : hi <= lo -> zseq lo hi = [].
Proof. intros H. unfold zseq. now replace (Z.to_nat (hi - lo)) with 0%nat by lia. Qed.

Lemma zseq_snoc (lo hi : Z) : lo <= hi -> zseq lo (hi + 1) = zseq lo hi ++ [hi].
Proof.
  intros H. unfold zseq.
  replace (Z.to_nat (hi + 1 - lo)) with (S (Z.to_nat (hi - lo))) by lia.
  rewrite seq_S, map_app. cbn. do 2 f_equal. lia.
Qed.

Lemma In_zseq (lo hi x : Z) : In x (zseq lo hi) <-> lo <= x < hi.
Proof.
  unfold zseq. rewrite in_map_iff. split.
  - intros (t & <- & Ht). apply in_seq in Ht. lia.
  - intros Hx. exists (Z.to_nat (x - lo)). split; [lia|]. apply in_seq. lia.
Qed.

Lemma length_zseq (lo hi : Z) : lo <= hi -> Z.of_nat (length (zseq lo hi)) = hi - lo.
Proof. intros H. unfold zseq. rewrite length_map, length_seq. lia. Qed.

Lemma iter_from_fold {St : Type} (f : Z -> St -> St) (n : nat) :
  forall i s,
    iter_from n i f s
    = fold_left (fun s i => f i s) (map (fun t => i + Z.of_nat t) (seq 0 n)) s.
Proof.
  induction n as [|n IH]; intros i s; [reflexivity|].
  cbn [iter_from seq map fold_left]. rewrite Z.add_0_r, IH.
  rewrite <- seq_shift, map_map. f_equal. apply map_ext. intros t. lia.
Qed.

Lemma iter_z_fold {St : Type} (f : Z -> St -> St) (lo hi : Z) (s : St) :
  iter_z lo hi f s = fold_left (fun s i => f i s) (zseq lo hi) s.
Proof. apply iter_from_fold. Qed.

Lemma fold_left_through_map {St X Y : Type} (G : Y -> St -> St) (h : X -> Y)
    (l : list X) :
  forall s, fold_left (fun s x => G (h x) s) l s
            = fold_left (fun s y => G y s) (map h l) s.
Proof. induction l as [|x l IH]; intros s; [reflexivity|]. cbn. apply IH. Qed.

Lemma fold_left_flat_map {St X Y : Type} (f : St -> Y -> St) (g : X -> list Y)
    (l : list X) :
  forall s, fold_left f (flat_map g l) s
            = fold_left (fun s x => fold_left f (g x) s) l s.
Proof.
  induction l as [|x l IH]; intros s; [reflexivity|].
  cbn. rewrite fold_left_app. apply IH.
Qed.

Lemma fold_left_ext_in {St X : Type} (f g : St -> X -> St) (l : list X) :
  (forall s x, In x l -> f s x = g s x) ->
  forall s, fold_left f l s = fold_left g l s.
Proof.
  induction l as [|x l IH]; intros H s; [reflexivity|].
  cbn. rewrite H by now left. apply IH. intros s' y Hy. apply H. now right.
Qed.

Lemma fold_left_prefix_inv {St X : Type} (P : list X -> St -> Prop)
    (f : St -> X -> St) (E : list X) (s0 : St) :
  P [] s0 ->
  (forall E1 e E2 s, E = E1 ++ e :: E2 -> P E1 s -> P (E1 ++ [e]) (f s e)) ->
  P E (fold_left f E s0).
Proof.
  intros H0 Hstep.
  assert (H : forall E2 E1 s, E = E1 ++ E2 -> P E1 s ->
                              P E (fold_left f E2 s)).
  { induction E2 as [|e E2 IH]; intros E1 s HE HP.
    - rewrite app_nil_r in HE. now subst E1.
    - cbn. apply (IH (E1 ++ [e])).
      + now rewrite <- app_assoc.
      + now apply (Hstep E1 e E2). }
  now apply (H E [] s0).
Qed.

Lemma iter_z_inv {St : Type} (P : Z -> St -> Prop) (body : Z -> St -> St)
    (lo hi : Z) (s : St) :
  P lo s ->
  (forall k s', lo <= k < hi -> P k s' -> P (k + 1) (body k s')) ->
  P (Z.max lo hi) (iter_z lo hi body s).
Proof.
  intros H0 Hstep. unfold iter_z.
  assert (H : forall n k s', lo <= k -> k + Z.of_nat n <= Z.max lo hi ->
                             P k s' ->
                             P (k + Z.of_nat n) (iter_from n k body s')).
  { induction n as [|n IH]; intros k s' Hk Hn HP.
    - cbn. now rewrite Z.add_0_r.
    - cbn [iter_from].
      replace (k + Z.of_nat (S n)) with (k + 1 + Z.of_nat n) by lia.
      apply IH; [lia|lia|]. apply Hstep; [lia|exact HP]. }
  replace (Z.max lo hi) with (lo + Z.of_nat (Z.to_nat (hi - lo))) by lia.
  apply H; [lia|lia|exact H0].
Qed.

(** ** at_plus_a_dist: the transposition *)

Lemma cols_with_app {X : Type} (E1 E2 : list (X * Z)) (r : Z) :
  cols_with (E1 ++ E2) r = cols_with E1 r ++ cols_with E2 r.
Proof. unfold cols_with. now rewrite List.filter_app, map_app. Qed.

Lemma cnt_app {X : Type} (E1 E2 : list (X * Z)) (r : Z) :
  cnt (E1 ++ E2) r = cnt E1 r + cnt E2 r.
Proof. unfold cnt. rewrite cols_with_app, length_app. lia. Qed.

Lemma cnt_nonneg {X : Type} (E : list (X * Z)) (r : Z) : 0 <= cnt E r.
Proof. unfold cnt. lia. Qed.

Lemma cnt_one {X : Type} (e : X * Z) (r : Z) :
  cnt [e] r = if snd e =? r then 1 else 0.
Proof. unfold cnt, cols_with. cbn. now destruct (snd e =? r). Qed.

Lemma In_cols_with {X : Type} (E : list (X * Z)) (r : Z) (j : X) :
  In j (cols_with E r) <-> In (j, r) E.
Proof.
  unfold cols_with. rewrite in_map_iff. split.
  - intros ([j' r'] & <- & H). apply List.filter_In in H as [H E'].
    cbn in *. apply Z.eqb_eq in E'. now subst.
  - intros H. exists (j, r). split; [reflexivity|].
    apply List.filter_In. split; [exact H|]. cbn. apply Z.eqb_refl.
Qed.

Section RowBuckets.

Context {X : Type}.
Variable m : Z.
Variable E : list (X * Z).

Lemma pointers_mono (tc : Z -> Z) :
  (forall i, 0 <= i < m -> tc (i + 1) = tc i + cnt E i) ->
  forall a b, 0 <= a <= b -> b <= m -> tc a <= tc b.
Proof.
  intros Htc a b Hab Hb.
  assert (H : forall d : nat, a + Z.of_nat d <= m -> tc a <= tc (a + Z.of_nat d)).
  { induction d as [|d IH]; intros Hd.
    - rewrite Z.add_0_r. lia.
    - replace (a + Z.of_nat (S d)) with (a + Z.of_nat d + 1) by lia.
      rewrite Htc by lia. pose proof (cnt_nonneg E (a + Z.of_nat d)).
      specialize (IH ltac:(lia)). lia. }
  specialize (H (Z.to_nat (b - a)) ltac:(lia)).
  now replace (a + Z.of_nat (Z.to_nat (b - a))) with b in H by lia.
Qed.

(** One entry more: it goes behind the entries of its row that are
    already there, and no other row sees it. *)
Lemma transpose_step (tc : Z -> Z) (E1 E2 : list (X * Z)) (e : X * Z)
    (s : (Z -> X) * (Z -> Z)) :
  (forall i, 0 <= i < m -> tc (i + 1) = tc i + cnt E i) ->
  E = E1 ++ e :: E2 -> 0 <= snd e < m ->
  transposed m tc E1 s ->
  transposed m tc (E1 ++ [e])
    (gupd (fst s) (snd s (snd e)) (fst e),
     upd (snd s) (snd e) (snd s (snd e) + 1)).
Proof.
  intros Htc HE Hr (I1 & I2). destruct s as [tr mk], e as [j r0].
  cbn [fst snd] in *.
  pose proof (pointers_mono tc Htc) as Hmono.
  assert (Hsplit : forall r, cnt E r = cnt E1 r + cnt [(j, r0)] r + cnt E2 r).
  { intros r. rewrite HE. change ((j, r0) :: E2) with ([(j, r0)] ++ E2).
    rewrite !cnt_app. lia. }
  split; cbn [fst snd].
  - intros r Hrr. rewrite cnt_app, cnt_one. cbn [snd]. unfold upd.
    destruct (Z.eq_dec r r0) as [->|Hne].
    + rewrite Z.eqb_refl, I1 by lia. lia.
    + destruct (Z.eqb_spec r0 r); [congruence|]. rewrite I1 by lia. lia.
  - intros r Hrr. rewrite cols_with_app, cnt_app, cnt_one. cbn [snd].
    unfold cols_with at 2. cbn [List.filter snd].
    destruct (Z.eqb_spec r0 r) as [<-|Hne].
    + cbn [map fst]. rewrite Z.add_assoc, zseq_snoc
        by (pose proof (cnt_nonneg E1 r0); lia).
      rewrite map_app. f_equal.
      * rewrite <- I2 by lia. apply map_ext_in. intros x Hx.
        apply In_zseq in Hx. unfold gupd.
        destruct (Z.eq_dec x (mk r0)); [rewrite I1 in *; lia|reflexivity].
      * cbn. unfold gupd. rewrite I1 by lia.
        now destruct (Z.eq_dec (tc r0 + cnt E1 r0) (tc r0 + cnt E1 r0)).
    + cbn [map]. rewrite Z.add_0_r, app_nil_r, <- I2 by lia.
      apply map_ext_in. intros x Hx. apply In_zseq in Hx. unfold gupd.
      destruct (Z.eq_dec x (mk r0)) as [Ex|]; [|reflexivity]. exfalso.
      rewrite I1 in Ex by lia.
      pose proof (Hsplit r) as Sr. pose proof (Hsplit r0) as Sr0.
      rewrite cnt_one in Sr, Sr0. cbn [snd] in Sr, Sr0.
      rewrite Z.eqb_refl in Sr0.
      pose proof (cnt_nonneg E2 r). pose proof (cnt_nonneg E2 r0).
      pose proof (cnt_nonneg E1 r). pose proof (cnt_nonneg E1 r0).
      destruct (Z.eqb_spec r0 r); [congruence|].
      pose proof (Htc r Hrr). pose proof (Htc r0 Hr).
      destruct (Z_lt_le_dec r r0).
      * pose proof (Hmono (r + 1) r0 ltac:(lia) ltac:(lia)). lia.
      * pose proof (Hmono (r0 + 1) r ltac:(lia) ltac:(lia)). lia.
Qed.

End RowBuckets.

Section Transposition.

Variables m n : Z.
Variables colptr rowind : Z -> Z.

Local Abbreviation E := (entries n colptr rowind).

Lemma In_entries (j r : Z) :
  In (j, r) E <-> 0 <= j < n /\ In r (A_col colptr rowind j).
Proof.
  unfold entries. rewrite in_flat_map. split.
  - intros (j' & Hj' & H). apply in_map_iff in H as (r' & [= <- <-] & Hr).
    apply In_zseq in Hj'. split; [lia|exact Hr].
  - intros [Hj Hr]. exists j. split; [apply In_zseq; lia|].
    apply in_map_iff. now exists r.
Qed.

Lemma In_A_col (j r : Z) :
  In r (A_col colptr rowind j)
  <-> exists i, colptr j <= i < colptr (j + 1) /\ rowind i = r.
Proof.
  unfold A_col. rewrite in_map_iff. split.
  - intros (i & <- & Hi). apply In_zseq in Hi. now exists i.
  - intros (i & Hi & <-). exists i. split; [reflexivity|]. now apply In_zseq.
Qed.

Lemma entries_in_range :
  rows_in_range m n colptr rowind ->
  forall e, In e E -> 0 <= fst e < n /\ 0 <= snd e < m.
Proof.
  intros Hwf [j r] He. apply In_entries in He as [Hj Hr].
  apply In_A_col in Hr as (i & Hi & <-). cbn. split; [exact Hj|].
  now apply (Hwf j i).
Qed.

(** Two nested loops over the columns and their entries are one fold over
    the entries. *)
Lemma entries_fold {St : Type} (F : Z -> Z -> St -> St) (s0 : St) :
  iter_z 0 n
    (fun j s =>
       iter_z (colptr j) (colptr (j + 1)) (fun i s => F j (rowind i) s) s) s0
  = fold_left (fun s e => F (fst e) (snd e) s) E s0.
Proof.
  rewrite iter_z_fold. unfold entries. rewrite fold_left_flat_map.
  apply fold_left_ext_in. intros s j _.
  rewrite iter_z_fold. unfold A_col.
  rewrite (fold_left_through_map (F j) rowind).
  now rewrite (fold_left_through_map (fun e s => F (fst e) (snd e) s)
                 (fun r => (j, r))).
Qed.

Lemma count_entries_spec (heap_marker : Z -> Z) (r : Z) :
  0 <= r < m -> count_entries n colptr rowind m heap_marker r = cnt E r.
Proof.
  intros Hr. unfold count_entries.
  pose proof (iter_z_inv
    (fun k (m : Z -> Z) => forall r, 0 <= r < k -> m r = 0)
    (fun i mk => upd mk i 0) 0 m heap_marker) as H0.
  cbv beta in H0. set (m0 := iter_z 0 m _ heap_marker) in *.
  assert (Hz : m0 r = 0).
  { apply H0; [intros; lia| |lia].
    intros k mk Hk Hm r' Hr'. unfold upd.
    destruct (Z.eq_dec r' k); [reflexivity|]. apply Hm. lia. }
  rewrite (entries_fold (fun _ r mk => upd mk r (mk r + 1))).
  assert (H : forall (l : list (Z * Z)) mk,
             fold_left (fun mk e => upd mk (snd e) (mk (snd e) + 1)) l mk r
             = mk r + cnt l r).
  { induction l as [|e l IH]; intros mk.
    - unfold cnt. cbn. lia.
    - cbn [fold_left]. rewrite IH.
      change (e :: l) with ([e] ++ l). rewrite cnt_app, cnt_one.
      unfold upd. destruct (Z.eq_dec r (snd e)) as [->|Hne].
      + rewrite Z.eqb_refl. lia.
      + destruct (Z.eqb_spec (snd e) r); [congruence|lia]. }
  rewrite H, Hz. lia.
Qed.

Lemma set_pointers_spec (heap_tc m0 : Z -> Z) :
  let tc := fst (set_pointers m heap_tc m0) in
  let mk := snd (set_pointers m heap_tc m0) in
  tc 0 = 0
  /\ (forall i, 0 <= i < m -> tc (i + 1) = tc i + m0 i)
  /\ (forall i, 0 <= i < m -> mk i = tc i).
Proof.
  cbv zeta. unfold set_pointers.
  pose proof (iter_z_inv
    (fun k (s : (Z -> Z) * (Z -> Z)) =>
       fst s 0 = 0
       /\ (forall i, 0 <= i < k -> fst s (i + 1) = fst s i + m0 i)
       /\ (forall i, 0 <= i < k -> snd s i = fst s i)
       /\ (forall i, k <= i -> snd s i = m0 i))
    (fun i '(tc, mk) => (upd tc (i + 1) (tc i + mk i), upd mk i (tc i)))
    0 m (upd heap_tc 0 0, m0)) as H.
  cbv beta in H.
  destruct H as (H0 & H1 & H2 & _).
  - cbn. split; [unfold upd; now destruct (Z.eq_dec 0 0)|].
    split; [intros; lia|]. split; [intros; lia|reflexivity].
  - intros k [tc mk] Hk (I0 & I1 & I2 & I3). cbn [fst snd] in *.
    split; [|split; [|split]].
    + unfold upd. destruct (Z.eq_dec 0 (k + 1)); [lia|exact I0].
    + intros i Hi. unfold upd.
      destruct (Z.eq_dec (i + 1) (k + 1)) as [Ei|Ei];
        destruct (Z.eq_dec i (k + 1)); try lia.
      * assert (i = k) as -> by lia. rewrite (I3 k) by lia. reflexivity.
      * apply I1. lia.
    + intros i Hi. unfold upd.
      destruct (Z.eq_dec i k) as [->|Ei]; destruct (Z.eq_dec _ (k + 1)); try lia.
      apply I2. lia.
    + intros i Hi. unfold upd. destruct (Z.eq_dec i k); [lia|]. apply I3. lia.
  - repeat split.
    + exact H0.
    + intros i Hi. apply H1. lia.
    + intros i Hi. apply H2. lia.
Qed.

Lemma transpose_of_spec (heap_marker heap_tc heap_tr : Z -> Z) :
  rows_in_range m n colptr rowind ->
  let tc := fst (transpose_of m n colptr rowind heap_marker heap_tc heap_tr) in
  let tr := snd (transpose_of m n colptr rowind heap_marker heap_tc heap_tr) in
  tc 0 = 0
  /\ (forall r, 0 <= r < m -> tc (r + 1) = tc r + cnt E r)
  /\ (forall r, 0 <= r < m -> T_col tc tr r = cols_with E r).
Proof.
  intros Hwf. cbv zeta. unfold transpose_of.
  pose proof (set_pointers_spec heap_tc
                (count_entries n colptr rowind m heap_marker)) as Hp.
  cbv zeta in Hp.
  destruct (set_pointers m heap_tc _) as [tc m1]. cbn [fst snd] in Hp.
  destruct Hp as (Hp0 & Hp1 & Hp2).
  assert (Htc : forall i, 0 <= i < m -> tc (i + 1) = tc i + cnt E i).
  { intros i Hi. rewrite Hp1 by lia. now rewrite count_entries_spec. }
  unfold transpose.
  rewrite (entries_fold
             (fun j r '(tr, mk) => (upd tr (mk r) j, upd mk r (mk r + 1)))).
  pose proof (fold_left_prefix_inv (transposed m tc)
    (fun s e =>
       (fun j r '(tr, mk) => (upd tr (mk r) j, upd mk r (mk r + 1)))
         (fst e) (snd e) s)
    E (heap_tr, m1)) as H.
  cbv beta in H.
  destruct (fold_left _ E (heap_tr, m1)) as [tr m2]. cbn [fst snd].
  split; [exact Hp0|]. split; [exact Htc|].
  intros r Hr. unfold T_col. rewrite Htc by lia.
  destruct H as (_ & H2).
  - split; cbn [fst snd].
    + intros r' Hr'. unfold cnt. cbn. rewrite Hp2 by lia. lia.
    + intros r' Hr'. unfold cnt. cbn. rewrite Z.add_0_r. now rewrite zseq_nil.
  - intros E1 e E2 s HE HI.
    assert (He : 0 <= snd e < m).
    { apply (entries_in_range Hwf). rewrite HE. apply in_or_app. right. now left. }
    pose proof (transpose_step m E tc E1 E2 e s Htc HE He HI) as Hs.
    destruct s as [tr' m']. exact Hs.
  - now apply H2.
Qed.

End Transposition.

(** ** at_plus_a_dist: the columns of A' + A *)

Lemma existsb_eqb_In (k : Z) (acc : list Z) :
  existsb (Z.eqb k) acc = true <-> In k acc.
Proof.
  rewrite existsb_exists. split.
  - intros (x & Hx & E). apply Z.eqb_eq in E. now subst.
  - intros H. exists k. split; [exact H|apply Z.eqb_refl].
Qed.

Lemma add_new_cases (j k : Z) (acc : list Z) :
  (k = j \/ In k acc) /\ add_new j acc k = acc
  \/ (k <> j /\ ~ In k acc) /\ add_new j acc k = acc ++ [k].
Proof.
  unfold add_new. destruct (Z.eqb_spec k j) as [->|Hne]; cbn [orb].
  - left. auto.
  - destruct (existsb (Z.eqb k) acc) eqn:Ex.
    + left. apply existsb_eqb_In in Ex. auto.
    + right. split; [|reflexivity]. split; [exact Hne|].
      intros H. apply existsb_eqb_In in H. congruence.
Qed.

Lemma add_all_length (j : Z) (P : list Z) :
  forall W, (length W <= length (fold_left (add_new j) P W))%nat.
Proof.
  induction P as [|k P IH]; intros W; cbn [fold_left]; [lia|].
  destruct (add_new_cases j k W) as [[_ ->]|[_ ->]]; [apply IH|].
  specialize (IH (W ++ [k])). rewrite length_app in IH. cbn in IH. lia.
Qed.

Lemma add_all_In (j : Z) (P : list Z) :
  forall W k, In k (fold_left (add_new j) P W) <-> In k W \/ (k <> j /\ In k P).
Proof.
  induction P as [|x P IH]; intros W k; cbn [fold_left].
  - cbn. tauto.
  - rewrite IH. destruct (add_new_cases j x W) as [[Hx ->]|[[Hx1 Hx2] ->]].
    + cbn. split; [tauto|]. intros [H|[Hk [<-|H]]]; tauto.
    + rewrite in_app_iff. cbn. split; [|tauto].
      intros [[H|[<-|[]]]|H]; tauto.
Qed.

Lemma NoDup_snoc (l : list Z) (x : Z) :
  List.NoDup l -> ~ In x l -> List.NoDup (l ++ [x]).
Proof.
  induction 1 as [|y l Hy Hl IH]; intros Hx; cbn.
  - constructor; [intros []|constructor].
  - constructor.
    + rewrite in_app_iff. cbn. intros [H|[->|[]]]; [contradiction|].
      apply Hx. now left.
    + apply IH. intros H. apply Hx. now right.
Qed.

Lemma add_all_NoDup (j : Z) (P : list Z) :
  forall W, List.NoDup W -> List.NoDup (fold_left (add_new j) P W).
Proof.
  induction P as [|x P IH]; intros W HW; cbn [fold_left]; [exact HW|].
  destruct (add_new_cases j x W) as [[_ ->]|[[_ Hx] ->]]; apply IH;
    [exact HW|now apply NoDup_snoc].
Qed.

Lemma store_take (a : list Z) (c k : Z) (a' : list Z) :
  0 <= c -> store a c k = Some a' ->
  take (Z.to_nat (c + 1)) a' = take (Z.to_nat c) a ++ [k]
  /\ length a' = length a.
Proof.
  intros Hc. unfold store.
  destruct ((0 <=? c) && (c <? Z.of_nat (length a))) eqn:Hb; [|discriminate].
  apply andb_true_iff in Hb as [_ Hlt]. apply Z.ltb_lt in Hlt.
  intros [= <-]. split; [|apply length_insert].
  replace (Z.to_nat (c + 1)) with (S (Z.to_nat c)) by lia.
  rewrite (take_S_r _ _ k) by (apply list_lookup_insert_eq; lia).
  now rewrite take_insert_ge by lia.
Qed.

Lemma try_from_fold {St : Type} (g : Z -> St -> option St) (n : nat) :
  forall i s,
    try_from n i g s
    = try_fold g (map (fun t => i + Z.of_nat t) (seq 0 n)) s.
Proof.
  induction n as [|n IH]; intros i s; [reflexivity|].
  cbn [try_from seq map try_fold]. rewrite Z.add_0_r.
  destruct (g i s) as [s'|]; [|reflexivity]. cbn [mbind option_bind].
  rewrite IH, <- seq_shift, map_map. f_equal. apply map_ext. intros t. lia.
Qed.

Lemma try_fold_map {St X Y : Type} (G : Y -> St -> option St) (h : X -> Y)
    (l : list X) :
  forall s, try_fold (fun x s => G (h x) s) l s = try_fold G (map h l) s.
Proof.
  induction l as [|x l IH]; intros s; [reflexivity|].
  cbn. destruct (G (h x) s); [apply IH|reflexivity].
Qed.

Lemma try_fold_app {St X : Type} (G : X -> St -> option St) (l1 l2 : list X) :
  forall s, try_fold G (l1 ++ l2) s = (s' ← try_fold G l1 s; try_fold G l2 s').
Proof.
  induction l1 as [|x l1 IH]; intros s; [reflexivity|].
  cbn. destruct (G x s); [apply IH|reflexivity].
Qed.

Lemma try_z_inv {St : Type} (P : Z -> St -> Prop) (body : Z -> St -> option St)
    (lo hi : Z) (s : St) :
  P lo s ->
  (forall k s', lo <= k < hi -> P k s' ->
     exists s'', body k s' = Some s'' /\ P (k + 1) s'') ->
  exists s', try_z lo hi body s = Some s' /\ P (Z.max lo hi) s'.
Proof.
  intros H0 Hstep. unfold try_z.
  assert (H : forall n k s', lo <= k -> k + Z.of_nat n <= Z.max lo hi ->
                             P k s' ->
                             exists s'', try_from n k body s' = Some s''
                                         /\ P (k + Z.of_nat n) s'').
  { induction n as [|n IH]; intros k s' Hk Hn HP.
    - exists s'. cbn. now rewrite Z.add_0_r.
    - cbn [try_from].
      destruct (Hstep k s' ltac:(lia) HP) as (s1 & -> & HP1).
      cbn [mbind option_bind].
      replace (k + Z.of_nat (S n)) with (k + 1 + Z.of_nat n) by lia.
      apply IH; [lia|lia|exact HP1]. }
  replace (Z.max lo hi) with (lo + Z.of_nat (Z.to_nat (hi - lo))) by lia.
  apply H; [lia|lia|exact H0].
Qed.

Lemma map_seq_from {X : Type} (f : nat -> X) (b : nat) :
  forall a, map f (seq a b) = map (fun t => f (a + t)%nat) (seq 0 b).
Proof.
  induction b as [|b IH]; intros a; [reflexivity|].
  cbn [seq map]. rewrite Nat.add_0_r. f_equal.
  rewrite IH, <- (seq_shift b 0), map_map. apply map_ext. intros t.
  f_equal. lia.
Qed.

Lemma zseq_split (lo mid hi : Z) :
  lo <= mid <= hi -> zseq lo hi = zseq lo mid ++ zseq mid hi.
Proof.
  intros H. unfold zseq.
  replace (Z.to_nat (hi - lo))
    with (Z.to_nat (mid - lo) + Z.to_nat (hi - mid))%nat by lia.
  rewrite seq_app, map_app. f_equal. cbn [Nat.add].
  rewrite map_seq_from. apply map_ext. intros t. lia.
Qed.

Section Columns.

Variable n : Z.

Lemma count_list (j : Z) (P : list Z) :
  forall (W : list Z) (m : Z -> Z) (c : Z),
    (forall k, In k P -> 0 <= k < n) ->
    flags_for n j m W ->
    let r := fold_left (fun s k => count_new j k s) P (m, c) in
    snd r = c + Z.of_nat (length (fold_left (add_new j) P W))
            - Z.of_nat (length W)
    /\ flags_for n j (fst r) (fold_left (add_new j) P W)
    /\ (forall k, fst r k = m k \/ fst r k = j).
Proof.
  induction P as [|k P IH]; intros W m c HP Hfl; cbv zeta.
  - cbn. split; [lia|]. split; [exact Hfl|]. auto.
  - cbn [fold_left].
    assert (Ecn : count_new j k (m, c)
                  = if m k =? j then (m, c) else (upd m k j, c + 1))
      by reflexivity.
    rewrite Ecn. clear Ecn.
    pose proof (HP k ltac:(now left)) as Hk.
    assert (HP' : forall k', In k' P -> 0 <= k' < n)
      by (intros k' Hk'; apply HP; now right).
    destruct (Z.eqb_spec (m k) j) as [Em|Em].
    + destruct (add_new_cases j k W) as [[_ ->]|[[H1 H2] _]].
      * now apply IH.
      * exfalso. apply Hfl in Em; [|exact Hk]. tauto.
    + destruct (add_new_cases j k W) as [[H _]|[[H1 H2] ->]].
      * exfalso. apply Em, Hfl; [exact Hk|exact H].
      * destruct (IH (W ++ [k]) (upd m k j) (c + 1) HP') as (Ic & Ifl & Im).
        { intros k' Hk'. unfold upd. rewrite in_app_iff. cbn.
          destruct (Z.eq_dec k' k) as [->|Hne]; [tauto|].
          rewrite (Hfl k' Hk'). split; [tauto|].
          intros [H|[H|[H|[]]]]; auto. congruence. }
        cbv zeta in Ic, Ifl, Im. split; [|split; [exact Ifl|]].
        -- rewrite Ic, length_app. cbn. lia.
        -- intros k'. destruct (Im k') as [H|H]; [|now right].
           rewrite H. unfold upd. destruct (Z.eq_dec k' k); auto.
Qed.

Lemma fill_list (j : Z) (len : nat) (P : list Z) :
  forall (W0 W : list Z) (s : fill_state),
    (forall k, In k P -> 0 <= k < n) ->
    flags_for n j (marker s) W ->
    written s = W0 ++ W ->
    num_nz s = Z.of_nat (length (W0 ++ W)) ->
    length (b_rowind s) = len ->
    (length (W0 ++ fold_left (add_new j) P W) <= len)%nat ->
    exists s',
      try_fold (fill_new j) P s = Some s'
      /\ flags_for n j (marker s') (fold_left (add_new j) P W)
      /\ written s' = W0 ++ fold_left (add_new j) P W
      /\ num_nz s' = Z.of_nat (length (W0 ++ fold_left (add_new j) P W))
      /\ length (b_rowind s') = len
      /\ b_colptr s' = b_colptr s
      /\ (forall k, marker s' k = marker s k \/ marker s' k = j).
Proof.
  induction P as [|k P IH]; intros W0 W s HP Hfl Hw Hc Hl Hlen.
  - exists s. cbn. split; [reflexivity|]. split; [exact Hfl|].
    repeat (split; [assumption || reflexivity|]). auto.
  - cbn [fold_left try_fold] in *.
    assert (Efn : fill_new j k s
                  = if marker s k =? j then Some s
                    else br ← store (b_rowind s) (num_nz s) k;
                         Some {| marker := upd (marker s) k j;
                                 num_nz := num_nz s + 1;
                                 b_colptr := b_colptr s; b_rowind := br |})
      by reflexivity.
    rewrite Efn. clear Efn.
    pose proof (HP k ltac:(now left)) as Hk.
    assert (HP' : forall k', In k' P -> 0 <= k' < n)
      by (intros k' Hk'; apply HP; now right).
    destruct (Z.eqb_spec (marker s k) j) as [Em|Em].
    + cbn [mbind option_bind].
      destruct (add_new_cases j k W) as [[_ Ea]|[[H1 H2] _]].
      * rewrite Ea in *. now apply IH.
      * exfalso. apply Hfl in Em; [|exact Hk]. tauto.
    + destruct (add_new_cases j k W) as [[H _]|[[H1 H2] Ea]].
      * exfalso. apply Em, Hfl; [exact Hk|exact H].
      * rewrite Ea in *.
        pose proof (add_all_length j P (W ++ [k])) as Hmono.
        rewrite !length_app in Hlen, Hmono, Hc. cbn [length] in Hmono.
        destruct (store_spec (b_rowind s) (num_nz s) k ltac:(lia))
          as (br & Est & _).
        destruct (store_take (b_rowind s) (num_nz s) k br ltac:(lia) Est)
          as (Htk & Hlb).
        rewrite Est. cbn [mbind option_bind].
        destruct (IH W0 (W ++ [k])
                    {| marker := upd (marker s) k j; num_nz := num_nz s + 1;
                       b_colptr := b_colptr s; b_rowind := br |} HP')
          as (s' & Es & Ifl & Iw & Ic & Il & Ib & Im).
        { cbn [marker]. intros k' Hk'. unfold upd. rewrite in_app_iff. cbn.
          destruct (Z.eq_dec k' k) as [->|Hne]; [tauto|].
          rewrite (Hfl k' Hk'). split; [tauto|].
          intros [H|[H|[H|[]]]]; auto. congruence. }
        { unfold written in *. cbn [num_nz b_rowind].
          rewrite Htk, Hw. now rewrite app_assoc. }
        { cbn [num_nz]. rewrite !length_app. cbn [length]. lia. }
        { cbn [b_rowind]. congruence. }
        { rewrite !length_app. lia. }
        exists s'. split; [exact Es|]. split; [exact Ifl|].
        split; [exact Iw|]. split; [exact Ic|]. split; [exact Il|].
        split; [exact Ib|].
        intros k'. destruct (Im k') as [H|H]; [|now right].
        rewrite H. cbn [marker]. unfold upd. destruct (Z.eq_dec k' k); auto.
Qed.

Lemma clear_flags_spec (m : Z -> Z) (k : Z) :
  0 <= k < n -> clear_flags n m k = -1.
Proof.
  intros Hk. unfold clear_flags.
  pose proof (iter_z_inv
    (fun i (m' : Z -> Z) => forall k, 0 <= k < i -> m' k = -1)
    (fun i m => upd m i (-1)) 0 n m) as H.
  cbv beta in H. apply H; [intros; lia| |lia].
  intros i m' Hi Hm k' Hk'. unfold upd.
  destruct (Z.eq_dec k' i); [reflexivity|]. apply Hm. lia.
Qed.

Lemma flat_snoc (F : Z -> list Z) (j : Z) :
  0 <= j -> flat_map F (zseq 0 (j + 1)) = flat_map F (zseq 0 j) ++ F j.
Proof.
  intros Hj. rewrite zseq_snoc by lia. rewrite flat_map_app. cbn.
  now rewrite app_nil_r.
Qed.

Lemma flat_length_mono (F : Z -> list Z) (a b : Z) :
  0 <= a <= b ->
  (length (flat_map F (zseq 0 a)) <= length (flat_map F (zseq 0 b)))%nat.
Proof.
  intros H. rewrite (zseq_split 0 a b) by lia.
  rewrite flat_map_app, length_app. lia.
Qed.

(** The two passes over any reads that stay inside the flags. *)
Variable reads : Z -> list Z.
Hypothesis reads_in_range :
  forall j k, 0 <= j < n -> In k (reads j) -> 0 <= k < n.

Local Abbreviation B := (merged reads).

Variable count_col : Z -> (Z -> Z) * Z -> (Z -> Z) * Z.
Variable fill_col : Z -> fill_state -> option fill_state.

Hypothesis count_col_reads :
  forall j mk c, 0 <= j < n ->
    count_col j (mk, c)
    = fold_left (fun s k => count_new j k s) (reads j) (upd mk j j, c).

Hypothesis fill_col_reads :
  forall j s, 0 <= j < n ->
    fill_col j s
    = try_fold (fill_new j) (reads j)
        {| marker := upd (marker s) j j; num_nz := num_nz s;
           b_colptr := upd (b_colptr s) j (num_nz s);
           b_rowind := b_rowind s |}.

Lemma count_pass_spec (mk : Z -> Z) :
  snd (iter_z 0 n count_col (clear_flags n mk, 0))
  = Z.of_nat (length (flat_map B (zseq 0 n))).
Proof.
  pose proof (iter_z_inv
    (fun j (s : (Z -> Z) * Z) =>
       (forall k, 0 <= k < n -> fst s k < j)
       /\ snd s = Z.of_nat (length (flat_map B (zseq 0 j))))
    count_col 0 n (clear_flags n mk, 0)) as H.
  cbv beta in H. destruct H as (_ & H).
  - cbn [fst snd]. split; [|reflexivity].
    intros k Hk. rewrite clear_flags_spec by exact Hk. lia.
  - intros j [m' c] Hj (Hm & Hc). cbn [fst snd] in *.
    rewrite count_col_reads by lia.
    destruct (count_list j (reads j) [] (upd m' j j) c) as (Ic & _ & Im).
    { intros k. now apply reads_in_range. }
    { intros k Hk. cbn. unfold upd. destruct (Z.eq_dec k j) as [->|Hne]; [tauto|].
      specialize (Hm k Hk). split; [lia|tauto]. }
    cbv zeta in Ic, Im. split.
    + intros k Hk. destruct (Im k) as [->| ->]; [|lia].
      unfold upd. destruct (Z.eq_dec k j); [lia|].
      specialize (Hm k Hk). lia.
    + fold (merged reads j) in Ic.
      rewrite Ic, flat_snoc, length_app by lia. cbn [length]. lia.
  - rewrite H. destruct (Z_lt_le_dec n 0).
    + replace (Z.max 0 n) with 0 by lia. now rewrite (zseq_nil 0 n) by lia.
    + now replace (Z.max 0 n) with n by lia.
Qed.

Lemma fill_column_spec (len : nat) (j : Z) (s : fill_state) :
  (length (flat_map B (zseq 0 n)) <= len)%nat ->
  0 <= j < n ->
  filled n B len j s ->
  exists s', fill_col j s = Some s' /\ filled n B len (j + 1) s'.
Proof.
  intros Hlen Hj (Hm & Hw & Hc & Hl & Hb).
  rewrite fill_col_reads by lia.
  pose proof (flat_length_mono B (j + 1) n ltac:(lia)) as Hmono.
  rewrite flat_snoc in Hmono by lia.
  destruct (fill_list j len (reads j) (flat_map B (zseq 0 j)) []
              {| marker := upd (marker s) j j; num_nz := num_nz s;
                 b_colptr := upd (b_colptr s) j (num_nz s);
                 b_rowind := b_rowind s |})
    as (s' & Es & _ & Iw & Ic & Il & Ib & Im).
  { intros k. now apply reads_in_range. }
  { intros k Hk. cbn. unfold upd. destruct (Z.eq_dec k j) as [->|Hne]; [tauto|].
    specialize (Hm k Hk). split; [lia|tauto]. }
  { unfold written in *. cbn [num_nz b_rowind]. now rewrite app_nil_r. }
  { cbn [num_nz]. now rewrite app_nil_r. }
  { exact Hl. }
  { fold (merged reads j). lia. }
  exists s'. split; [exact Es|]. fold (merged reads j) in Iw, Ic.
  split; [|split; [|split; [|split]]].
  - intros k Hk. destruct (Im k) as [->| ->]; [|lia].
    cbn [marker]. unfold upd. destruct (Z.eq_dec k j); [lia|].
    specialize (Hm k Hk). lia.
  - now rewrite flat_snoc by lia.
  - now rewrite flat_snoc by lia.
  - exact Il.
  - intros j' Hj'. rewrite Ib. cbn [b_colptr]. unfold upd.
    destruct (Z.eq_dec j' j) as [->|Hne]; [exact Hc|]. apply Hb. lia.
Qed.

Lemma passes_refine (mk heap_bc : Z -> Z) (heap_br : nat -> Z) :
  0 <= n ->
  exists bc,
    (let '(mk', bnz) := iter_z 0 n count_col (clear_flags n mk, 0) in
     s ← try_z 0 n fill_col
           {| marker := clear_flags n mk'; num_nz := 0;
              b_colptr := heap_bc;
              b_rowind := map heap_br (seq 0 (Z.to_nat bnz)) |};
     Some (bnz, upd (b_colptr s) n (num_nz s), b_rowind s))
    = Some (Z.of_nat (length (flat_map B (zseq 0 n))), bc,
            flat_map B (zseq 0 n))
    /\ forall j, 0 <= j <= n ->
         bc j = Z.of_nat (length (flat_map B (zseq 0 j))).
Proof.
  intros Hn.
  pose proof (count_pass_spec mk) as Hbnz.
  destruct (iter_z 0 n count_col (clear_flags n mk, 0)) as [m3 bnz].
  cbn [snd] in Hbnz. subst bnz. rewrite Nat2Z.id.
  set (len := length (flat_map B (zseq 0 n))).
  destruct (try_z_inv (filled n B len) fill_col 0 n
              {| marker := clear_flags n m3; num_nz := 0;
                 b_colptr := heap_bc;
                 b_rowind := map heap_br (seq 0 len) |})
    as (s & -> & Hm & Hw & Hc & Hl & Hb).
  - split; [|split; [|split; [|split]]].
    + intros k Hk. cbn [marker]. rewrite clear_flags_spec by exact Hk. lia.
    + reflexivity.
    + reflexivity.
    + cbn [b_rowind]. now rewrite length_map, length_seq.
    + intros j' Hj'. lia.
  - intros j s' Hj HI. apply fill_column_spec; try assumption. lia.
  - replace (Z.max 0 n) with n in * by lia.
    cbn [mbind option_bind]. exists (upd (b_colptr s) n (num_nz s)). split.
    + do 2 f_equal.
      unfold written in Hw. rewrite Hc, Nat2Z.id in Hw.
      rewrite <- Hw. symmetry. apply take_ge. fold len. lia.
    + intros j Hj. unfold upd. destruct (Z.eq_dec j n) as [->|Hne].
      * exact Hc.
      * apply Hb. lia.
Qed.

Lemma col_of_flat (F : Z -> list Z) (j : Z) :
  0 <= j < n ->
  col_of (flat_map F (zseq 0 n))
    (Z.of_nat (length (flat_map F (zseq 0 j))))
    (Z.of_nat (length (flat_map F (zseq 0 (j + 1)))))
  = F j.
Proof.
  intros Hj. unfold col_of.
  rewrite (zseq_split 0 (j + 1) n) by lia.
  rewrite flat_map_app, flat_snoc by lia.
  rewrite length_app, Nat2Z.id.
  replace (Z.to_nat (Z.of_nat (length (flat_map F (zseq 0 j)) + length (F j))
                     - Z.of_nat (length (flat_map F (zseq 0 j)))))
    with (length (F j)) by lia.
  rewrite <- !app_assoc, drop_app_length. apply take_app_length.
Qed.

End Columns.

(** ** at_plus_a_dist: the block of t_rowind *)

Lemma try_fold_ext_in {St X : Type} (f g : X -> St -> option St) (l : list X) :
  (forall x s, In x l -> f x s = g x s) ->
  forall s, try_fold f l s = try_fold g l s.
Proof.
  induction l as [|x l IH]; intros H s; [reflexivity|].
  cbn. rewrite H by now left. destruct (g x s); [|reflexivity].
  apply IH. intros y s' Hy. apply H. now right.
Qed.

Lemma try_fold_flat_map {St X Y : Type} (G : Y -> St -> option St)
    (g : X -> list Y) (l : list X) :
  forall s, try_fold G (flat_map g l) s
            = try_fold (fun x s => try_fold G (g x) s) l s.
Proof.
  induction l as [|x l IH]; intros s; [reflexivity|].
  cbn. rewrite try_fold_app. destruct (try_fold G (g x) s); [apply IH|reflexivity].
Qed.

Lemma cnt_cons {X : Type} (e : X * Z) (l : list (X * Z)) (r : Z) :
  cnt (e :: l) r = (if snd e =? r then 1 else 0) + cnt l r.
Proof.
  change (e :: l) with ([e] ++ l). now rewrite cnt_app, cnt_one.
Qed.

Lemma cnt_below_succ {X : Type} (l : list (X * Z)) (k : Z) :
  Z.of_nat (length (List.filter (fun e => snd e <? k + 1) l))
  = Z.of_nat (length (List.filter (fun e => snd e <? k) l)) + cnt l k.
Proof.
  induction l as [|e l IH]; [reflexivity|].
  rewrite cnt_cons. cbn [List.filter].
  destruct (Z.ltb_spec (snd e) (k + 1)), (Z.ltb_spec (snd e) k),
    (Z.eqb_spec (snd e) k); cbn [length]; lia.
Qed.

Lemma pointers_count_below {X : Type} (l : list (X * Z)) (m : Z)
    (rp : Z -> Z) :
  rp 0 = 0 ->
  (forall j, 0 <= j < m -> rp (j + 1) = rp j + cnt l j) ->
  (forall e, In e l -> 0 <= snd e) ->
  forall k, 0 <= k <= m ->
    rp k = Z.of_nat (length (List.filter (fun e => snd e <? k) l)).
Proof.
  intros H0 Hs Hnn k [Hk Hkm]. revert Hkm. pattern k.
  apply natlike_ind; [| |exact Hk].
  - intros _. rewrite H0.
    replace (List.filter (fun e : X * Z => snd e <? 0) l) with (@nil (X * Z));
      [reflexivity|].
    symmetry. clear Hs. induction l as [|e l IH]; [reflexivity|].
    cbn [List.filter].
    destruct (Z.ltb_spec (snd e) 0) as [Hlt|_].
    + pose proof (Hnn e (or_introl eq_refl)). lia.
    + apply IH. intros e' He'. apply Hnn. now right.
  - intros x Hx IH Hle. unfold Z.succ. rewrite cnt_below_succ, Hs by lia.
    rewrite IH by lia. reflexivity.
Qed.

Lemma filter_all {X : Type} (p : X -> bool) (l : list X) :
  (forall x, In x l -> p x = true) -> List.filter p l = l.
Proof.
  induction l as [|x l IH]; intros H; [reflexivity|]. cbn [List.filter].
  rewrite (H x (or_introl eq_refl)). f_equal. apply IH. intros y Hy.
  apply H. now right.
Qed.

Lemma try_guard_some {St X : Type} (ok : X -> St -> bool) (g : X -> St -> St)
    (l : list X) :
  forall s0,
    (forall E1 e E2, l = E1 ++ e :: E2 ->
       ok e (fold_left (fun s x => g x s) E1 s0) = true) ->
    try_fold (fun x s => if ok x s then Some (g x s) else None) l s0
    = Some (fold_left (fun s x => g x s) l s0).
Proof.
  induction l as [|a l IH]; intros s0 H; [reflexivity|].
  cbn [try_fold fold_left]. pose proof (H [] a l eq_refl) as Ha. cbn in Ha.
  rewrite Ha. cbn [mbind option_bind]. apply IH.
  intros E1 e E2 ->. apply (H (a :: E1) e E2 eq_refl).
Qed.

Lemma try_guard_ok {St X : Type} (ok : X -> St -> bool) (g : X -> St -> St)
    (l : list X) :
  forall s0 s',
    try_fold (fun x s => if ok x s then Some (g x s) else None) l s0 = Some s' ->
    forall E1 e E2, l = E1 ++ e :: E2 ->
      ok e (fold_left (fun s x => g x s) E1 s0) = true.
Proof.
  induction l as [|a l IH]; intros s0 s' H E1 e E2 HE.
  - destruct E1; discriminate HE.
  - cbn [try_fold] in H. destruct (ok a s0) eqn:Hok; [|discriminate H].
    cbn [mbind option_bind] in H.
    destruct E1 as [|x E1]; cbn in HE; injection HE as -> ->.
    + exact Hok.
    + cbn [fold_left]. apply (IH _ _ H E1 e E2 eq_refl).
Qed.

Lemma last_of_row {X : Type} (l : list (X * Z)) (r : Z) :
  0 < cnt l r ->
  exists E1 e E2, l = E1 ++ e :: E2 /\ snd e = r /\ cnt E2 r = 0.
Proof.
  induction l as [|a l IH]; intros H.
  - unfold cnt in H. cbn in H. lia.
  - destruct (Z_lt_le_dec 0 (cnt l r)) as [Hpos|Hz].
    + destruct (IH Hpos) as (E1 & e & E2 & -> & He & Hc).
      exists (a :: E1), e, E2. auto.
    + pose proof (cnt_nonneg l r). rewrite cnt_cons in H.
      exists [], a, l. split; [reflexivity|].
      split; [destruct (Z.eqb_spec (snd a) r); [assumption|lia]|lia].
Qed.

Section TransposeWithin.

Variables m n : Z.
Variables colptr rowind : Z -> Z.
Variable nz : Z.

Local Abbreviation E := (entries n colptr rowind).
Local Abbreviation put :=
  (fun (e : Z * Z) (s : (Z -> Z) * (Z -> Z)) =>
     (upd (fst s) (snd s (snd e)) (fst e),
      upd (snd s) (snd e) (snd s (snd e) + 1))).
Local Abbreviation fits :=
  (fun (e : Z * Z) (s : (Z -> Z) * (Z -> Z)) =>
     (0 <=? snd s (snd e)) && (snd s (snd e) <? nz)).

Hypothesis Hwf : rows_in_range m n colptr rowind.

Lemma entries_try_fold {St : Type} (F : Z -> Z -> St -> option St) (s0 : St) :
  try_z 0 n
    (fun j s =>
       try_z (colptr j) (colptr (j + 1)) (fun i s => F j (rowind i) s) s) s0
  = try_fold (fun e s => F (fst e) (snd e) s) E s0.
Proof.
  unfold try_z. rewrite try_from_fold. fold (zseq 0 n).
  unfold entries. rewrite try_fold_flat_map.
  apply try_fold_ext_in. intros j s _.
  rewrite try_from_fold. fold (zseq (colptr j) (colptr (j + 1))).
  unfold A_col. rewrite (try_fold_map (F j) rowind).
  now rewrite <- (try_fold_map (fun e s => F (fst e) (snd e) s)
                    (fun r => (j, r))).
Qed.

Lemma transpose_within_fold (heap_tr m1 : Z -> Z) :
  transpose_within n colptr rowind nz heap_tr m1
  = try_fold (fun e s => if fits e s then Some (put e s) else None) E
      (heap_tr, m1).
Proof.
  unfold transpose_within.
  rewrite (entries_try_fold
             (fun j r '(tr, mk) =>
                tr' ← store_within nz tr (mk r) j;
                Some (tr', upd mk r (mk r + 1)))).
  apply try_fold_ext_in. intros e [tr mk] _. unfold store_within.
  cbn [fst snd]. now destruct ((0 <=? mk (snd e)) && (mk (snd e) <? nz)).
Qed.

Lemma transpose_fold (heap_tr m1 : Z -> Z) :
  transpose n colptr rowind heap_tr m1
  = fold_left (fun s e => put e s) E (heap_tr, m1).
Proof.
  unfold transpose.
  rewrite (entries_fold n colptr rowind
             (fun j r '(tr, mk) => (upd tr (mk r) j, upd mk r (mk r + 1)))).
  apply fold_left_ext_in. intros [tr mk] e _. reflexivity.
Qed.

Variable tc : Z -> Z.
Hypothesis Htc0 : tc 0 = 0.
Hypothesis Htc : forall i, 0 <= i < m -> tc (i + 1) = tc i + cnt E i.

Lemma transposed_prefix (heap_tr m1 : Z -> Z) (E1 E2 : list (Z * Z)) :
  (forall i, 0 <= i < m -> m1 i = tc i) ->
  E = E1 ++ E2 ->
  transposed m tc E1 (fold_left (fun s e => put e s) E1 (heap_tr, m1)).
Proof.
  intros Hm1 HE.
  apply (fold_left_prefix_inv (transposed m tc) (fun s e => put e s) E1).
  - split; cbn [fst snd].
    + intros r Hr. unfold cnt. cbn. rewrite Hm1 by lia. lia.
    + intros r Hr. unfold cnt. cbn. rewrite Z.add_0_r. now rewrite zseq_nil.
  - intros A e B s HA HI.
    assert (HE' : E = A ++ e :: (B ++ E2)).
    { rewrite HE, HA, <- app_assoc. reflexivity. }
    assert (He : 0 <= snd e < m).
    { apply (entries_in_range m n colptr rowind Hwf). rewrite HE'.
      apply in_or_app. right. now left. }
    pose proof (transpose_step m E tc A (B ++ E2) e s Htc HE' He HI) as Hs.
    destruct s as [tr' m']. exact Hs.
Qed.

Lemma pointers_total : 0 <= m -> tc m = Z.of_nat (length E).
Proof.
  intros Hm.
  rewrite (pointers_count_below E m tc Htc0 Htc) by
    (try lia; intros e He;
     apply (entries_in_range m n colptr rowind Hwf) in He; lia).
  rewrite filter_all; [reflexivity|].
  intros e He. apply (entries_in_range m n colptr rowind Hwf) in He.
  apply Z.ltb_lt. lia.
Qed.

Lemma transpose_within_fits (heap_tr m1 : Z -> Z) :
  (forall i, 0 <= i < m -> m1 i = tc i) ->
  Z.of_nat (length E) <= nz ->
  transpose_within n colptr rowind nz heap_tr m1
  = Some (transpose n colptr rowind heap_tr m1).
Proof.
  intros Hm1 Hnz. rewrite transpose_within_fold, transpose_fold.
  apply (try_guard_some fits put). intros E1 e E2 HE.
  destruct (transposed_prefix heap_tr m1 E1 (e :: E2) Hm1 HE) as [I1 _].
  assert (He : 0 <= snd e < m).
  { apply (entries_in_range m n colptr rowind Hwf). rewrite HE.
    apply in_or_app. right. now left. }
  rewrite (I1 _ He).
  pose proof (pointers_mono m E tc Htc 0 (snd e) ltac:(lia) ltac:(lia)) as H0.
  pose proof (pointers_mono m E tc Htc (snd e + 1) m ltac:(lia) ltac:(lia))
    as H1.
  rewrite Htc in H1 by exact He. rewrite pointers_total in H1 by lia.
  assert (Hc : cnt E (snd e) = cnt E1 (snd e) + 1 + cnt E2 (snd e)).
  { rewrite HE at 1. rewrite cnt_app, cnt_cons, Z.eqb_refl. lia. }
  pose proof (cnt_nonneg E2 (snd e)). pose proof (cnt_nonneg E1 (snd e)).
  apply andb_true_intro. split; [apply Z.leb_le|apply Z.ltb_lt]; lia.
Qed.

Lemma transpose_within_overrun (heap_tr m1 : Z -> Z) :
  (forall i, 0 <= i < m -> m1 i = tc i) ->
  0 <= nz < Z.of_nat (length E) ->
  transpose_within n colptr rowind nz heap_tr m1 = None.
Proof.
  intros Hm1 Hnz.
  destruct (transpose_within n colptr rowind nz heap_tr m1) as [s'|] eqn:Hrun;
    [exfalso|reflexivity].
  rewrite transpose_within_fold in Hrun.
  pose proof (try_guard_ok fits put E _ _ Hrun) as Hok.
  assert (Hm : 0 < m).
  { destruct E as [|e l] eqn:HE; [cbn in Hnz; lia|].
    assert (He : In e E) by (rewrite HE; now left).
    apply (entries_in_range m n colptr rowind Hwf) in He. lia. }
  assert (Hall : forall k, 0 <= k -> k <= m -> tc k <= nz).
  { intros k Hk. pattern k. apply natlike_ind; [| |exact Hk].
    - intros _. lia.
    - intros x Hx IH Hle. unfold Z.succ. rewrite Htc by lia.
      specialize (IH ltac:(lia)).
      destruct (Z_lt_le_dec 0 (cnt E x)) as [Hpos|Hz]; [|lia].
      destruct (last_of_row E x Hpos) as (E1 & e & E2 & HE & He & Hc).
      specialize (Hok E1 e E2 HE).
      destruct (transposed_prefix heap_tr m1 E1 (e :: E2) Hm1 HE) as [I1 _].
      cbv beta in Hok. rewrite He in Hok. rewrite (I1 x) in Hok by lia.
      apply andb_true_iff in Hok as [_ Hlt]. apply Z.ltb_lt in Hlt.
      assert (Hs : cnt E x = cnt E1 x + 1 + cnt E2 x).
      { rewrite HE at 1. rewrite cnt_app, cnt_cons, He, Z.eqb_refl. lia. }
      lia. }
  specialize (Hall m ltac:(lia) ltac:(lia)).
  rewrite pointers_total in Hall by lia. lia.
Qed.

End TransposeWithin.

Lemma transpose_within_spec (m n : Z) (colptr rowind : Z -> Z) (nz : Z)
    (heap_marker heap_tc heap_tr : Z -> Z) :
  rows_in_range m n colptr rowind ->
  let m1 := snd (set_pointers m heap_tc
                   (count_entries n colptr rowind m heap_marker)) in
  (Z.of_nat (length (entries n colptr rowind)) <= nz ->
   transpose_within n colptr rowind nz heap_tr m1
   = Some (transpose n colptr rowind heap_tr m1))
  /\ (0 <= nz < Z.of_nat (length (entries n colptr rowind)) ->
      transpose_within n colptr rowind nz heap_tr m1 = None).
Proof.
  intros Hwf. cbv zeta.
  pose proof (set_pointers_spec m heap_tc
                (count_entries n colptr rowind m heap_marker)) as Hp.
  cbv zeta in Hp. destruct (set_pointers m heap_tc _) as [tc m1].
  cbn [fst snd] in *. destruct Hp as (Hp0 & Hp1 & Hp2).
  assert (Htc : forall i, 0 <= i < m ->
                  tc (i + 1) = tc i + cnt (entries n colptr rowind) i).
  { intros i Hi. rewrite Hp1 by lia. now rewrite count_entries_spec. }
  split; intros Hnz.
  - now apply (transpose_within_fits m n colptr rowind nz Hwf tc Hp0 Htc).
  - now apply (transpose_within_overrun m n colptr rowind nz Hwf tc Hp0 Htc).
Qed.

Section AtPlusAColumns.

Variable n : Z.
Variables colptr rowind : Z -> Z.

Local Abbreviation E := (entries n colptr rowind).
Local Abbreviation B := (B_spec n colptr rowind).

Hypothesis Hwf : rows_in_range n n colptr rowind.

Lemma apa_reads_in_range (j k : Z) :
  0 <= j < n -> In k (apa_reads n colptr rowind j) -> 0 <= k < n.
Proof.
  intros Hj Hk. apply in_app_iff in Hk as [Hk|Hk].
  - apply In_A_col in Hk as (i & Hi & <-). now apply (Hwf j i).
  - apply In_cols_with in Hk.
    now apply (entries_in_range n n colptr rowind Hwf) in Hk as [Hk _].
Qed.

Lemma count_column_fold (tc tr : Z -> Z) (j : Z) (mk : Z -> Z) (c : Z) :
  count_column colptr rowind tc tr j (mk, c)
  = fold_left (fun s k => count_new j k s)
      (A_col colptr rowind j ++ T_col tc tr j) (upd mk j j, c).
Proof.
  unfold count_column. rewrite !iter_z_fold.
  rewrite (fold_left_through_map (count_new j) rowind).
  rewrite (fold_left_through_map (count_new j) tr).
  now rewrite fold_left_app.
Qed.

Lemma fill_column_fold (tc tr : Z -> Z) (j : Z) (s : fill_state) :
  fill_column colptr rowind tc tr j s
  = try_fold (fill_new j) (A_col colptr rowind j ++ T_col tc tr j)
      {| marker := upd (marker s) j j; num_nz := num_nz s;
         b_colptr := upd (b_colptr s) j (num_nz s);
         b_rowind := b_rowind s |}.
Proof.
  unfold fill_column, try_z, A_col, T_col. rewrite try_fold_app.
  rewrite try_from_fold. fold (zseq (colptr j) (colptr (j + 1))).
  rewrite (try_fold_map (fill_new j) rowind).
  destruct (try_fold (fill_new j) _ _) as [s2|]; [|reflexivity].
  cbn [mbind option_bind]. rewrite try_from_fold.
  fold (zseq (tc j) (tc (j + 1))).
  now rewrite (try_fold_map (fill_new j) tr).
Qed.

Lemma at_plus_a_dist_refines (nz : Z)
    (heap_marker heap_tc heap_tr heap_bc : Z -> Z) (heap_br : nat -> Z) :
  0 <= n -> Z.of_nat (length E) <= nz ->
  exists bc,
    at_plus_a_dist n colptr rowind nz heap_marker heap_tc heap_tr heap_bc heap_br
    = Some (Z.of_nat (length (flat_map B (zseq 0 n))), bc,
            flat_map B (zseq 0 n))
    /\ forall j, 0 <= j <= n ->
         bc j = Z.of_nat (length (flat_map B (zseq 0 j))).
Proof.
  intros Hn Hnz. unfold at_plus_a_dist, count_pass.
  pose proof (transpose_of_spec n n colptr rowind heap_marker heap_tc heap_tr Hwf)
    as HT.
  destruct (transpose_within_spec n n colptr rowind nz heap_marker heap_tc
              heap_tr Hwf) as [Hfit _].
  cbv zeta in HT. unfold transpose_of in HT.
  destruct (set_pointers n heap_tc _) as [tc m1].
  cbn [snd] in Hfit. rewrite (Hfit Hnz).
  destruct (transpose n colptr rowind heap_tr m1) as [tr m2].
  cbn [fst snd] in HT. destruct HT as (_ & _ & HT).
  apply (passes_refine n (apa_reads n colptr rowind) apa_reads_in_range
           (count_column colptr rowind tc tr) (fill_column colptr rowind tc tr)).
  - intros j mk c Hj. rewrite count_column_fold, HT by lia. reflexivity.
  - intros j s Hj. rewrite fill_column_fold, HT by lia. reflexivity.
  - exact Hn.
Qed.

Lemma at_plus_a_dist_overrun (nz : Z)
    (heap_marker heap_tc heap_tr heap_bc : Z -> Z) (heap_br : nat -> Z) :
  0 <= nz < Z.of_nat (length E) ->
  at_plus_a_dist n colptr rowind nz heap_marker heap_tc heap_tr heap_bc heap_br
  = None.
Proof.
  intros Hnz. unfold at_plus_a_dist.
  destruct (transpose_within_spec n n colptr rowind nz heap_marker heap_tc
              heap_tr Hwf) as [_ Hover].
  destruct (set_pointers n heap_tc _) as [tc m1].
  cbn [snd] in Hover. now rewrite (Hover Hnz).
Qed.

Lemma B_spec_In (j k : Z) :
  0 <= j < n ->
  In k (B j)
  <-> k <> j /\ (In k (A_col colptr rowind j)
                 \/ (0 <= k < n /\ In j (A_col colptr rowind k))).
Proof.
  intros Hj. unfold B_spec, merged, apa_reads. rewrite add_all_In, in_app_iff.
  rewrite In_cols_with, In_entries. cbn. tauto.
Qed.

End AtPlusAColumns.

Section AtaColumns.

Variables m n : Z.
Variables colptr rowind : Z -> Z.

Local Abbreviation E := (entries n colptr rowind).

Hypothesis Hwf : rows_in_range m n colptr rowind.

Lemma ata_reads_in_range (j k : Z) :
  0 <= j < n -> In k (ata_reads n colptr rowind j) -> 0 <= k < n.
Proof.
  intros Hj Hk. unfold ata_reads in Hk.
  apply in_flat_map in Hk as (r & _ & Hk). apply In_cols_with in Hk.
  now apply (entries_in_range m n colptr rowind Hwf) in Hk as [Hk _].
Qed.

Lemma ata_count_column_fold (tc tr : Z -> Z) (j : Z) (mk : Z -> Z) (c : Z) :
  (forall r, 0 <= r < m -> T_col tc tr r = cols_with E r) ->
  0 <= j < n ->
  ata_count_column colptr rowind tc tr j (mk, c)
  = fold_left (fun s k => count_new j k s) (ata_reads n colptr rowind j)
      (upd mk j j, c).
Proof.
  intros HT Hj. unfold ata_count_column, ata_reads. rewrite iter_z_fold.
  rewrite fold_left_flat_map. unfold A_col.
  rewrite <- (fold_left_through_map
                (fun r s => fold_left (fun s k => count_new j k s)
                              (cols_with E r) s) rowind).
  apply fold_left_ext_in. intros s i Hi. apply In_zseq in Hi. cbv zeta.
  rewrite iter_z_fold, (fold_left_through_map (count_new j) tr).
  fold (T_col tc tr (rowind i)). rewrite HT; [reflexivity|].
  now apply (Hwf j i).
Qed.

Lemma ata_fill_column_fold (tc tr : Z -> Z) (j : Z) (s : fill_state) :
  (forall r, 0 <= r < m -> T_col tc tr r = cols_with E r) ->
  0 <= j < n ->
  ata_fill_column colptr rowind tc tr j s
  = try_fold (fill_new j) (ata_reads n colptr rowind j)
      {| marker := upd (marker s) j j; num_nz := num_nz s;
         b_colptr := upd (b_colptr s) j (num_nz s);
         b_rowind := b_rowind s |}.
Proof.
  intros HT Hj. unfold ata_fill_column, ata_reads, try_z.
  rewrite try_from_fold. fold (zseq (colptr j) (colptr (j + 1))).
  rewrite try_fold_flat_map. unfold A_col.
  rewrite <- (try_fold_map
                (fun r s => try_fold (fill_new j) (cols_with E r) s) rowind).
  apply try_fold_ext_in. intros i s' Hi. apply In_zseq in Hi. cbv zeta.
  rewrite try_from_fold.
  fold (zseq (tc (rowind i)) (tc (rowind i + 1))).
  rewrite (try_fold_map (fill_new j) tr).
  fold (T_col tc tr (rowind i)). rewrite HT; [reflexivity|].
  now apply (Hwf j i).
Qed.

Lemma getata_dist_refines (nz : Z)
    (heap_marker heap_tc heap_tr heap_bc : Z -> Z) (heap_br : nat -> Z) :
  0 <= n -> Z.of_nat (length E) <= nz ->
  exists bc,
    getata_dist m n colptr rowind nz heap_marker heap_tc heap_tr heap_bc heap_br
    = Some (Z.of_nat (length (flat_map (ATA_spec n colptr rowind) (zseq 0 n))),
            bc, flat_map (ATA_spec n colptr rowind) (zseq 0 n))
    /\ forall j, 0 <= j <= n ->
         bc j = Z.of_nat (length (flat_map (ATA_spec n colptr rowind)
                                    (zseq 0 j))).
Proof.
  intros Hn Hnz. unfold getata_dist.
  pose proof (transpose_of_spec m n colptr rowind heap_marker heap_tc heap_tr Hwf)
    as HT.
  destruct (transpose_within_spec m n colptr rowind nz heap_marker heap_tc
              heap_tr Hwf) as [Hfit _].
  cbv zeta in HT. unfold transpose_of in HT.
  destruct (set_pointers m heap_tc _) as [tc m1].
  cbn [snd] in Hfit. rewrite (Hfit Hnz).
  destruct (transpose n colptr rowind heap_tr m1) as [tr m2].
  cbn [fst snd] in HT. destruct HT as (_ & _ & HT).
  apply (passes_refine n (ata_reads n colptr rowind) ata_reads_in_range
           (ata_count_column colptr rowind tc tr)
           (ata_fill_column colptr rowind tc tr)).
  - intros j mk c Hj. now apply ata_count_column_fold.
  - intros j s Hj. now apply ata_fill_column_fold.
  - exact Hn.
Qed.

Lemma getata_dist_overrun (nz : Z)
    (heap_marker heap_tc heap_tr heap_bc : Z -> Z) (heap_br : nat -> Z) :
  0 <= nz < Z.of_nat (length E) ->
  getata_dist m n colptr rowind nz heap_marker heap_tc heap_tr heap_bc heap_br
  = None.
Proof.
  intros Hnz. unfold getata_dist.
  destruct (transpose_within_spec m n colptr rowind nz heap_marker heap_tc
              heap_tr Hwf) as [_ Hover].
  destruct (set_pointers m heap_tc _) as [tc m1].
  cbn [snd] in Hover. now rewrite (Hover Hnz).
Qed.

Lemma ATA_spec_In (j k : Z) :
  In k (ATA_spec n colptr rowind j)
  <-> k <> j /\ 0 <= k < n
      /\ exists r, In r (A_col colptr rowind j) /\ In r (A_col colptr rowind k).
Proof.
  unfold ATA_spec, merged, ata_reads. rewrite add_all_In, in_flat_map. cbn.
  split.
  - intros [[]|(Hne & r & Hr & Hk)]. apply In_cols_with, In_entries in Hk.
    split; [exact Hne|]. split; [tauto|]. exists r. tauto.
  - intros (Hne & Hk & r & Hr & Hr'). right. split; [exact Hne|].
    exists r. split; [exact Hr|]. apply In_cols_with, In_entries. tauto.
Qed.

End AtaColumns.

Lemma small_rows_in_range :
  rows_in_range 2 2 MoreExamples.small_colptr MoreExamples.small_rowind.
Proof.
  intros j i Hj Hi. unfold MoreExamples.small_colptr in Hi.
  unfold MoreExamples.small_rowind.
  assert (j = 0 \/ j = 1) as [-> | ->] by lia; simpl in Hi.
  - assert (i = 0) as -> by lia. simpl. lia.
  - assert (i = 1 \/ i = 2) as [-> | ->] by lia; simpl; lia.
Defined.

Lemma small_entries_fit :
  Z.of_nat (length (entries 2 MoreExamples.small_colptr
                      MoreExamples.small_rowind)) <= 3.
Proof. vm_compute. discriminate. Defined.

(** X15. The transposition at the head of [at_plus_a_dist] and
    [getata_dist]: for an [m]-by-[n] pattern whose row indices are below
    [m], the pointers of T start at 0 and never decrease, and column [r] of
    T lists the columns of A that have an entry in row [r], once per
    entry, in the order in which A stores them; so [j] is in column [r] of
    T exactly when [r] is in column [j] of A.  This T is what the loop
    leaves in the [nz] cells of [t_rowind] whenever [nz] is at least the
    number of stored entries; with [0 <= nz] below that number a store
    falls outside the block. *)
Theorem transpose_lists_columns :
  forall (m n : Z) (colptr rowind : Z -> Z)
         (heap_marker heap_t_colptr heap_t_rowind : Z -> Z),
    rows_in_range m n colptr rowind ->
    let tc := fst (transpose_of m n colptr rowind heap_marker heap_t_colptr
                     heap_t_rowind) in
    let tr := snd (transpose_of m n colptr rowind heap_marker heap_t_colptr
                     heap_t_rowind) in
    tc 0 = 0
    /\ (forall r, 0 <= r < m ->
          tc r <= tc (r + 1)
          /\ T_col tc tr r = cols_with (entries n colptr rowind) r
          /\ forall j, In j (T_col tc tr r)
                       <-> 0 <= j < n /\ In r (A_col colptr rowind j))
    /\ (forall nz,
          (Z.of_nat (length (entries n colptr rowind)) <= nz ->
           transpose_of_within m n colptr rowind nz heap_marker heap_t_colptr
             heap_t_rowind = Some (tc, tr))
          /\ (0 <= nz < Z.of_nat (length (entries n colptr rowind)) ->
              transpose_of_within m n colptr rowind nz heap_marker
                heap_t_colptr heap_t_rowind = None)).
Proof.
  intros m n colptr rowind hm htc htr Hwf. cbv zeta.
  pose proof (transpose_of_spec m n colptr rowind hm htc htr Hwf) as H.
  cbv zeta in H. destruct H as (H0 & H1 & H2).
  split; [exact H0|]. split.
  - intros r Hr. split; [|split].
    + rewrite H1 by exact Hr.
      pose proof (cnt_nonneg (entries n colptr rowind) r). lia.
    + now apply H2.
    + intros j. rewrite H2 by exact Hr. rewrite In_cols_with. apply In_entries.
  - intros nz.
    destruct (transpose_within_spec m n colptr rowind nz hm htc htr Hwf)
      as [Hfit Hover].
    unfold transpose_of_within, transpose_of.
    destruct (set_pointers m htc _) as [tc m1]. cbn [snd] in Hfit, Hover.
    split; intros Hnz.
    + rewrite (Hfit Hnz).
      now destruct (transpose n colptr rowind htr m1) as [tr m2].
    + now rewrite (Hover Hnz).
Qed.

Lemma transpose_lists_columns_witness :
  T_col (fst (transpose_of 2 2 MoreExamples.small_colptr
                MoreExamples.small_rowind (fun _ => 7) (fun _ => 7)
                (fun _ => 7)))
        (snd (transpose_of 2 2 MoreExamples.small_colptr
                MoreExamples.small_rowind (fun _ => 7) (fun _ => 7)
                (fun _ => 7))) 1
  = cols_with (entries 2 MoreExamples.small_colptr MoreExamples.small_rowind) 1.
Proof.
  pose proof (transpose_lists_columns 2 2 MoreExamples.small_colptr
                MoreExamples.small_rowind (fun _ => 7) (fun _ => 7)
                (fun _ => 7) small_rows_in_range) as H.
  cbv zeta in H. destruct H as (_ & H & _).
  destruct (H 1 ltac:(lia)) as (_ & E & _). exact E.
Defined.

(** X16. For a square pattern with row indices in range,
    [at_plus_a_dist] stays inside the blocks it allocates exactly when [nz]
    covers the entries the columns store.  With [nz] at least the number of
    stored entries it returns, [*b_rowind] holds exactly [*bnz] cells,
    entry 0 of [*b_colptr] is 0, entry [n] is [*bnz], and the pointers
    never decrease.  With [0 <= nz] below that number the transposition
    stores past the [nz] cells of [t_rowind]. *)
Theorem at_plus_a_dist_in_bounds :
  forall (n nz : Z) (colptr rowind : Z -> Z)
         (heap_marker heap_t_colptr heap_t_rowind heap_b_colptr : Z -> Z)
         (heap_b_rowind : nat -> Z),
    rows_in_range n n colptr rowind -> 0 <= n ->
    (Z.of_nat (length (entries n colptr rowind)) <= nz ->
     exists bnz bc br,
       at_plus_a_dist n colptr rowind nz heap_marker heap_t_colptr
         heap_t_rowind heap_b_colptr heap_b_rowind = Some (bnz, bc, br)
       /\ Z.of_nat (length br) = bnz
       /\ bc 0 = 0 /\ bc n = bnz
       /\ forall j, 0 <= j < n -> bc j <= bc (j + 1))
    /\ (0 <= nz < Z.of_nat (length (entries n colptr rowind)) ->
        at_plus_a_dist n colptr rowind nz heap_marker heap_t_colptr
          heap_t_rowind heap_b_colptr heap_b_rowind = None).
Proof.
  intros n nz colptr rowind hm htc htr hbc hbr Hwf Hn. split.
  - intros Hnz.
    destruct (at_plus_a_dist_refines n colptr rowind Hwf nz hm htc htr hbc hbr
                Hn Hnz) as (bc & E & Hbc).
    eexists _, bc, _. split; [exact E|]. split; [reflexivity|].
    split; [|split].
    + rewrite Hbc by lia. now rewrite zseq_nil.
    + apply Hbc. lia.
    + intros j Hj. rewrite !Hbc by lia.
      pose proof (flat_length_mono (B_spec n colptr rowind) j (j + 1)
                    ltac:(lia)).
      lia.
  - intros Hnz. now apply at_plus_a_dist_overrun.
Qed.

Lemma at_plus_a_dist_in_bounds_witness :
  (exists bnz bc br,
     at_plus_a_dist 2 MoreExamples.small_colptr MoreExamples.small_rowind 3
       (fun _ => 7) (fun _ => 7) (fun _ => 7) (fun _ => 7) (fun _ => 7)
     = Some (bnz, bc, br)
     /\ Z.of_nat (length br) = bnz /\ bc 2 = bnz)
  /\ at_plus_a_dist 2 MoreExamples.small_colptr MoreExamples.small_rowind 2
       (fun _ => 7) (fun _ => 7) (fun _ => 7) (fun _ => 7) (fun _ => 7)
     = None.
Proof.
  split.
  - destruct (proj1 (at_plus_a_dist_in_bounds 2 3 MoreExamples.small_colptr
                       MoreExamples.small_rowind (fun _ => 7) (fun _ => 7)
                       (fun _ => 7) (fun _ => 7) (fun _ => 7)
                       small_rows_in_range ltac:(lia)) small_entries_fit)
      as (bnz & bc & br & E & Hl & _ & Hn & _).
    exists bnz, bc, br. split; [exact E|]. split; [exact Hl|exact Hn].
  - apply (proj2 (at_plus_a_dist_in_bounds 2 2 MoreExamples.small_colptr
                    MoreExamples.small_rowind (fun _ => 7) (fun _ => 7)
                    (fun _ => 7) (fun _ => 7) (fun _ => 7)
                    small_rows_in_range ltac:(lia))).
    split; [lia|]. vm_compute. reflexivity.
Defined.

(** X17. The pattern [at_plus_a_dist] returns, when [nz] covers the
    stored entries, is that of A' + A without its diagonal: column [j] of
    the result has no row twice, and holds [k] exactly when [k] is not [j]
    and A has an entry at (k, j) or at (j, k).  Hence the result is
    symmetric. *)
Theorem at_plus_a_dist_pattern :
  forall (n nz : Z) (colptr rowind : Z -> Z)
         (heap_marker heap_t_colptr heap_t_rowind heap_b_colptr : Z -> Z)
         (heap_b_rowind : nat -> Z),
    rows_in_range n n colptr rowind -> 0 <= n ->
    Z.of_nat (length (entries n colptr rowind)) <= nz ->
    exists bnz bc br,
      at_plus_a_dist n colptr rowind nz heap_marker heap_t_colptr
        heap_t_rowind heap_b_colptr heap_b_rowind = Some (bnz, bc, br)
      /\ (forall j, 0 <= j < n ->
            List.NoDup (col_of br (bc j) (bc (j + 1)))
            /\ forall k, In k (col_of br (bc j) (bc (j + 1)))
                         <-> k <> j
                             /\ (In k (A_col colptr rowind j)
                                 \/ (0 <= k < n /\ In j (A_col colptr rowind k))))
      /\ (forall j k, 0 <= j < n -> 0 <= k < n ->
            In k (col_of br (bc j) (bc (j + 1)))
            <-> In j (col_of br (bc k) (bc (k + 1)))).
Proof.
  intros n nz colptr rowind hm htc htr hbc hbr Hwf Hn Hnz.
  destruct (at_plus_a_dist_refines n colptr rowind Hwf nz hm htc htr hbc hbr
              Hn Hnz) as (bc & E & Hbc).
  assert (Hcol : forall j, 0 <= j < n ->
            col_of (flat_map (B_spec n colptr rowind) (zseq 0 n))
              (bc j) (bc (j + 1))
            = B_spec n colptr rowind j).
  { intros j Hj. rewrite !Hbc by lia. now apply col_of_flat. }
  eexists _, bc, _. split; [exact E|]. split.
  - intros j Hj. rewrite Hcol by exact Hj. split.
    + apply add_all_NoDup. constructor.
    + intros k. now apply B_spec_In.
  - intros j k Hj Hk. rewrite !Hcol by assumption.
    rewrite !B_spec_In by assumption.
    assert (Hr : forall a b, 0 <= a < n -> In b (A_col colptr rowind a) ->
                             0 <= b < n).
    { intros a b Ha Hb. apply In_A_col in Hb as (i & Hi & <-).
      now apply (Hwf a i). }
    split; intros [Hne [H|[_ H]]]; (split; [congruence|]); auto.
Qed.

Lemma at_plus_a_dist_pattern_witness :
  exists bnz bc br,
    at_plus_a_dist 2 MoreExamples.small_colptr MoreExamples.small_rowind 3
      (fun _ => 7) (fun _ => 7) (fun _ => 7) (fun _ => 7) (fun _ => 7)
    = Some (bnz, bc, br)
    /\ (In 1 (col_of br (bc 0) (bc (0 + 1)))
        <-> In 0 (col_of br (bc 1) (bc (1 + 1)))).
Proof.
  destruct (at_plus_a_dist_pattern 2 3 MoreExamples.small_colptr
              MoreExamples.small_rowind (fun _ => 7) (fun _ => 7) (fun _ => 7)
              (fun _ => 7) (fun _ => 7) small_rows_in_range ltac:(lia)
              small_entries_fit)
    as (bnz & bc & br & E & _ & Hsym).
  exists bnz, bc, br. split; [exact E|]. apply Hsym; lia.
Defined.

(** X18. What [SUPERLU_MALLOC] leaves in the blocks it returns never
    reaches the result of [at_plus_a_dist] when the row indices are in
    range and [nz] covers the stored entries, so that every store and load
    stays inside its block: two runs on the same pattern return the same
    count, the same row indices and the same [n + 1] column pointers,
    whatever the five blocks held. *)
Theorem at_plus_a_dist_ignores_heap :
  forall (n nz : Z) (colptr rowind : Z -> Z)
         (hm htc htr hbc hm' htc' htr' hbc' : Z -> Z) (hbr hbr' : nat -> Z),
    rows_in_range n n colptr rowind -> 0 <= n ->
    Z.of_nat (length (entries n colptr rowind)) <= nz ->
    exists bnz bc bc' br,
      at_plus_a_dist n colptr rowind nz hm htc htr hbc hbr = Some (bnz, bc, br)
      /\ at_plus_a_dist n colptr rowind nz hm' htc' htr' hbc' hbr'
         = Some (bnz, bc', br)
      /\ forall j, 0 <= j <= n -> bc j = bc' j.
Proof.
  intros n nz colptr rowind hm htc htr hbc hm' htc' htr' hbc' hbr hbr' Hwf Hn
         Hnz.
  destruct (at_plus_a_dist_refines n colptr rowind Hwf nz hm htc htr hbc hbr
              Hn Hnz) as (bc & E & Hbc).
  destruct (at_plus_a_dist_refines n colptr rowind Hwf nz hm' htc' htr' hbc'
              hbr' Hn Hnz) as (bc' & E' & Hbc').
  eexists _, bc, bc', _. split; [exact E|]. split; [exact E'|].
  intros j Hj. now rewrite Hbc, Hbc'.
Qed.

Lemma at_plus_a_dist_ignores_heap_witness :
  exists bnz bc bc' br,
    at_plus_a_dist 2 MoreExamples.small_colptr MoreExamples.small_rowind 3
      (fun _ => 7) (fun _ => 7) (fun _ => 7) (fun _ => 7) (fun _ => 7)
    = Some (bnz, bc, br)
    /\ at_plus_a_dist 2 MoreExamples.small_colptr MoreExamples.small_rowind 3
         (fun _ => -1) (fun _ => 0) (fun _ => 5) (fun _ => 9) (fun _ => 4)
       = Some (bnz, bc', br).
Proof.
  destruct (at_plus_a_dist_ignores_heap 2 3 MoreExamples.small_colptr
              MoreExamples.small_rowind
              (fun _ => 7) (fun _ => 7) (fun _ => 7) (fun _ => 7)
              (fun _ => -1) (fun _ => 0) (fun _ => 5) (fun _ => 9)
              (fun _ => 7) (fun _ => 4) small_rows_in_range ltac:(lia)
              small_entries_fit)
    as (bnz & bc & bc' & br & E & E' & _).
  exists bnz, bc, bc', br. split; [exact E|exact E'].
Defined.

(** X19. For an [m]-by-[n] pattern with row indices below [m],
    [getata_dist] stays inside the blocks it allocates exactly when [nz]
    covers the entries the columns store.  With [nz] at least the number
    of stored entries it returns a block of exactly [*atanz] cells with
    pointers that start at 0, never decrease and end at [*atanz], and the
    pattern it returns is that of A' * A without its diagonal: column [j]
    has no row twice and holds [k] exactly when [k] is another column of A
    that shares a row with column [j].  With [0 <= nz] below that number
    the transposition stores past the [nz] cells of [t_rowind]. *)
Theorem getata_dist_pattern :
  forall (m n nz : Z) (colptr rowind : Z -> Z)
         (heap_marker heap_t_colptr heap_t_rowind heap_b_colptr : Z -> Z)
         (heap_b_rowind : nat -> Z),
    rows_in_range m n colptr rowind -> 0 <= n ->
    (Z.of_nat (length (entries n colptr rowind)) <= nz ->
     exists atanz bc br,
       getata_dist m n colptr rowind nz heap_marker heap_t_colptr
         heap_t_rowind heap_b_colptr heap_b_rowind = Some (atanz, bc, br)
       /\ Z.of_nat (length br) = atanz
       /\ bc 0 = 0 /\ bc n = atanz
       /\ forall j, 0 <= j < n ->
            bc j <= bc (j + 1)
            /\ List.NoDup (col_of br (bc j) (bc (j + 1)))
            /\ forall k, In k (col_of br (bc j) (bc (j + 1)))
                         <-> k <> j /\ 0 <= k < n
                             /\ exists r, In r (A_col colptr rowind j)
                                          /\ In r (A_col colptr rowind k))
    /\ (0 <= nz < Z.of_nat (length (entries n colptr rowind)) ->
        getata_dist m n colptr rowind nz heap_marker heap_t_colptr
          heap_t_rowind heap_b_colptr heap_b_rowind = None).
Proof.
  intros m n nz colptr rowind hm htc htr hbc hbr Hwf Hn. split.
  - intros Hnz.
    destruct (getata_dist_refines m n colptr rowind Hwf nz hm htc htr hbc hbr
                Hn Hnz) as (bc & E & Hbc).
    eexists _, bc, _. split; [exact E|]. split; [reflexivity|].
    split; [|split].
    + rewrite Hbc by lia. now rewrite zseq_nil.
    + apply Hbc. lia.
    + intros j Hj. rewrite !Hbc by lia. split; [|split].
      * pose proof (flat_length_mono (ATA_spec n colptr rowind) j (j + 1)
                      ltac:(lia)). lia.
      * rewrite col_of_flat by exact Hj. apply add_all_NoDup. constructor.
      * intros k. rewrite col_of_flat by exact Hj. apply ATA_spec_In.
  - intros Hnz. now apply getata_dist_overrun.
Qed.

Lemma getata_dist_pattern_witness :
  (exists atanz bc br,
     getata_dist 2 2 MoreExamples.small_colptr MoreExamples.small_rowind 3
       (fun _ => 7) (fun _ => 7) (fun _ => 7) (fun _ => 7) (fun _ => 7)
     = Some (atanz, bc, br)
     /\ Z.of_nat (length br) = atanz /\ bc 2 = atanz)
  /\ getata_dist 2 2 MoreExamples.small_colptr MoreExamples.small_rowind 2
       (fun _ => 7) (fun _ => 7) (fun _ => 7) (fun _ => 7) (fun _ => 7)
     = None.
Proof.
  split.
  - destruct (proj1 (getata_dist_pattern 2 2 3 MoreExamples.small_colptr
                       MoreExamples.small_rowind (fun _ => 7) (fun _ => 7)
                       (fun _ => 7) (fun _ => 7) (fun _ => 7)
                       small_rows_in_range ltac:(lia)) small_entries_fit)
      as (atanz & bc & br & E & Hl & _ & Hn & _).
    exists atanz, bc, br. split; [exact E|]. split; [exact Hl|exact Hn].
  - apply (proj2 (getata_dist_pattern 2 2 2 MoreExamples.small_colptr
                    MoreExamples.small_rowind (fun _ => 7) (fun _ => 7)
                    (fun _ => 7) (fun _ => 7) (fun _ => 7)
                    small_rows_in_range ltac:(lia))).
    split; [lia|]. vm_compute. reflexivity.
Defined.

(** ** get_perm_c_dist *)

Lemma natural_order_spec (n : Z) (perm_c : Z -> Z) (i : Z) :
  natural_order n perm_c i = if (0 <=? i) && (i <? n) then i else perm_c i.
Proof.
  unfold natural_order.
  pose proof (iter_z_inv
    (fun k (pc : Z -> Z) =>
       forall i, pc i = if (0 <=? i) && (i <? k) then i else perm_c i)
    (fun i pc => upd pc i i) 0 n perm_c) as H.
  cbv beta in H.
  assert (E : (0 <=? i) && (i <? n) = (0 <=? i) && (i <? Z.max 0 n)).
  { destruct (Z.leb_spec 0 i); [|reflexivity]. cbn.
    destruct (Z.ltb_spec i n), (Z.ltb_spec i (Z.max 0 n)); try reflexivity; lia. }
  rewrite E. apply H.
  - intros i'. destruct (Z.leb_spec 0 i'), (Z.ltb_spec i' 0); cbn;
      try reflexivity; lia.
  - intros k pc Hk Hpc i'. unfold upd. rewrite Hpc.
    destruct (Z.eq_dec i' k) as [->|Hne].
    + destruct (Z.leb_spec 0 k), (Z.ltb_spec k (k + 1)); cbn;
        try reflexivity; lia.
    + destruct (Z.leb_spec 0 i'); [|reflexivity]. cbn.
      destruct (Z.ltb_spec i' k), (Z.ltb_spec i' (k + 1)); try reflexivity; lia.
Qed.

Lemma no_members_nil (l : list Z) : (forall k, ~ In k l) -> l = [].
Proof.
  destruct l as [|x l]; [reflexivity|]. intros H. destruct (H x). now left.
Qed.

Lemma flat_map_all_nil (F : Z -> list Z) (l : list Z) :
  (forall j, In j l -> F j = []) -> flat_map F l = [].
Proof.
  induction l as [|x l IH]; intros H; [reflexivity|].
  cbn. rewrite H by now left. apply IH. intros j Hj. apply H. now right.
Qed.

Lemma diagonal_rows_in_range (n : Z) (colptr rowind : Z -> Z) :
  diagonal_only n colptr rowind -> rows_in_range n n colptr rowind.
Proof. intros Hd j i Hj Hi. rewrite (Hd j i Hj Hi). exact Hj. Qed.

Lemma diagonal_no_adjacency (n : Z) (colptr rowind : Z -> Z) :
  diagonal_only n colptr rowind ->
  flat_map (B_spec n colptr rowind) (zseq 0 n) = [].
Proof.
  intros Hd. apply flat_map_all_nil. intros j Hj. apply In_zseq in Hj.
  apply no_members_nil. intros k Hk.
  apply (B_spec_In n colptr rowind j k ltac:(lia)) in Hk
    as (Hne & [H|[Hk H]]);
    apply In_A_col in H as (i & Hi & E).
  - rewrite (Hd j i ltac:(lia) Hi) in E. congruence.
  - rewrite (Hd k i Hk Hi) in E. congruence.
Qed.

Lemma shared_rows_no_adjacency (n : Z) (colptr rowind : Z -> Z) :
  (forall j k r, 0 <= j < n -> 0 <= k < n ->
     In r (A_col colptr rowind j) -> In r (A_col colptr rowind k) -> j = k) ->
  flat_map (ATA_spec n colptr rowind) (zseq 0 n) = [].
Proof.
  intros Hd. apply flat_map_all_nil. intros j Hj. apply In_zseq in Hj.
  apply no_members_nil. intros k Hk.
  apply ATA_spec_In in Hk as (Hne & Hk & r & Hr & Hr').
  apply Hne. symmetry. now apply (Hd j k r).
Qed.

(** X20. The orderings that need no ordering routine, for a matrix whose
    [nnz] field covers the entries its columns store.  On a square matrix
    whose stored entries all lie on the diagonal, [MMD_AT_PLUS_A] (and
    [METIS_AT_PLUS_A] when ParMETIS is configured) finds an empty adjacency
    structure and returns the natural order without calling GENMMD or
    METIS; [MMD_ATA] does the same on any matrix in which no row has
    entries in two different columns.  The natural order sets
    [perm_c[i] = i] for [0 <= i < n] and leaves the rest of [perm_c]
    alone. *)
Theorem empty_structure_natural_order :
  forall (HAVE_PARMETIS HAVE_COLAMD : bool)
         (genmmd_dist_ : Z -> (Z -> Z) -> list Z -> (Z -> Z) -> Z -> Z)
         (METIS_NodeND : Z -> (Z -> Z) -> list Z -> Z -> Z)
         (colamd : Z -> Z -> Z -> (Z -> Z) -> (Z -> Z) -> option (Z -> Z))
         (pnum : Z) (A : SuperMatrix) (perm_c : Z -> Z) (h : heap),
    0 <= ncol A ->
    Z.of_nat (length (entries (ncol A) (Astore_colptr A) (Astore_rowind A)))
    <= nnz A ->
    (forall i, natural_order (ncol A) perm_c i
               = if (0 <=? i) && (i <? ncol A) then i else perm_c i)
    /\ (nrow A = ncol A ->
        diagonal_only (ncol A) (Astore_colptr A) (Astore_rowind A) ->
        get_perm_c_dist HAVE_PARMETIS HAVE_COLAMD genmmd_dist_ METIS_NodeND
          colamd pnum MMD_AT_PLUS_A A perm_c h
        = PermSet (natural_order (ncol A) perm_c)
        /\ (HAVE_PARMETIS = true ->
            get_perm_c_dist HAVE_PARMETIS HAVE_COLAMD genmmd_dist_ METIS_NodeND
              colamd pnum METIS_AT_PLUS_A A perm_c h
            = PermSet (natural_order (ncol A) perm_c)))
    /\ (rows_in_range (nrow A) (ncol A) (Astore_colptr A) (Astore_rowind A) ->
        (forall j k r, 0 <= j < ncol A -> 0 <= k < ncol A ->
           In r (A_col (Astore_colptr A) (Astore_rowind A) j) ->
           In r (A_col (Astore_colptr A) (Astore_rowind A) k) -> j = k) ->
        get_perm_c_dist HAVE_PARMETIS HAVE_COLAMD genmmd_dist_ METIS_NodeND
          colamd pnum MMD_ATA A perm_c h
        = PermSet (natural_order (ncol A) perm_c)).
Proof.
  intros HP HC genmmd metis colamd pnum A perm_c h Hn Hnz.
  split; [apply natural_order_spec|]. split.
  - intros Hsq Hd. unfold get_perm_c_dist. rewrite Hsq, Z.eqb_refl. cbn [negb].
    destruct (at_plus_a_dist_refines (ncol A) (Astore_colptr A)
                (Astore_rowind A) (diagonal_rows_in_range _ _ _ Hd) (nnz A)
                (heap_marker h) (heap_t_colptr h) (heap_t_rowind h)
                (heap_b_colptr h) (heap_b_rowind h) Hn Hnz) as (bc & -> & _).
    rewrite diagonal_no_adjacency by exact Hd. cbn [length Z.of_nat].
    unfold minimum_degree. cbn [Z.eqb negb]. split; [reflexivity|].
    intros ->. reflexivity.
  - intros Hwf Hd. unfold get_perm_c_dist.
    destruct (getata_dist_refines (nrow A) (ncol A) (Astore_colptr A)
                (Astore_rowind A) Hwf (nnz A)
                (heap_marker h) (heap_t_colptr h) (heap_t_rowind h)
                (heap_b_colptr h) (heap_b_rowind h) Hn Hnz) as (bc & -> & _).
    rewrite shared_rows_no_adjacency by exact Hd. reflexivity.
Qed.

Lemma empty_structure_natural_order_witness :
  get_perm_c_dist true false (fun _ _ _ pc => pc) (fun _ _ _ i => i)
    (fun _ _ _ _ _ => None) 0 MMD_AT_PLUS_A
    {| nrow := 2; ncol := 2; nnz := 2;
       Astore_colptr := MoreExamples.diag_colptr;
       Astore_rowind := MoreExamples.diag_rowind |}
    (fun _ => 9)
    {| heap_marker := fun _ => 7; heap_t_colptr := fun _ => 7;
       heap_t_rowind := fun _ => 7; heap_b_colptr := fun _ => 7;
       heap_b_rowind := fun _ => 7 |}
  = PermSet (natural_order 2 (fun _ => 9)).
Proof.
  pose proof (empty_structure_natural_order true false (fun _ _ _ pc => pc)
                (fun _ _ _ i => i) (fun _ _ _ _ _ => None) 0
                {| nrow := 2; ncol := 2; nnz := 2;
                   Astore_colptr := MoreExamples.diag_colptr;
                   Astore_rowind := MoreExamples.diag_rowind |}
                (fun _ => 9)
                {| heap_marker := fun _ => 7; heap_t_colptr := fun _ => 7;
                   heap_t_rowind := fun _ => 7; heap_b_colptr := fun _ => 7;
                   heap_b_rowind := fun _ => 7 |}
                ltac:(simpl; lia) ltac:(vm_compute; discriminate))
    as (_ & H & _).
  cbn [nrow ncol Astore_colptr Astore_rowind] in H.
  destruct (H eq_refl) as [E _]; [|exact E].
  intros j i Hj Hi.
  unfold MoreExamples.diag_colptr in Hi. unfold MoreExamples.diag_rowind.
  assert (j = 0 \/ j = 1) as [-> | ->] by lia; simpl in Hi.
  - assert (i = 0) as -> by lia. reflexivity.
  - assert (i = 1) as -> by lia. reflexivity.
Defined.

Lemma iter_z_pointwise (g : Z -> Z) (lo hi : Z) (a0 : Z -> Z) (i : Z) :
  iter_z lo hi (fun i a => upd a i (g (a i))) a0 i
  = if (lo <=? i) && (i <? hi) then g (a0 i) else a0 i.
Proof.
  pose proof (iter_z_inv
    (fun k (a : Z -> Z) =>
       forall i, a i = if (lo <=? i) && (i <? k) then g (a0 i) else a0 i)
    (fun i a => upd a i (g (a i))) lo hi a0) as H.
  cbv beta in H.
  assert (E : (lo <=? i) && (i <? hi) = (lo <=? i) && (i <? Z.max lo hi)).
  { destruct (Z.leb_spec lo i); [|reflexivity]. cbn.
    destruct (Z.ltb_spec i hi), (Z.ltb_spec i (Z.max lo hi)); try reflexivity; lia. }
  rewrite E. apply H.
  - intros i'. destruct (Z.leb_spec lo i'), (Z.ltb_spec i' lo); cbn;
      try reflexivity; lia.
  - intros k a Hk Ha i'. unfold upd. rewrite !Ha.
    destruct (Z.eq_dec i' k) as [->|Hne].
    + destruct (Z.leb_spec lo k), (Z.ltb_spec k (k + 1)), (Z.ltb_spec k k);
        cbn; try reflexivity; lia.
    + destruct (Z.leb_spec lo i'); [|reflexivity]. cbn.
      destruct (Z.ltb_spec i' k), (Z.ltb_spec i' (k + 1)); try reflexivity; lia.
Qed.

Lemma bump_rows (l : list Z) :
  try_z 0 (Z.of_nat (length l)) (fun i b => v ← load b i; store b i (v + 1)) l
  = Some (map (fun v => v + 1) l).
Proof.
  destruct (try_z_inv
    (fun k (b : list Z) =>
       length b = length l
       /\ forall i : nat,
            b !! i = if Z.of_nat i <? k then (fun v => v + 1) <$> (l !! i)
                     else l !! i)
    (fun i b => v ← load b i; store b i (v + 1))
    0 (Z.of_nat (length l)) l) as (b & -> & Hl & Hb).
  - split; [reflexivity|]. intros i.
    destruct (Z.ltb_spec (Z.of_nat i) 0); [lia|reflexivity].
  - intros k b Hk (Hl & Hb).
    destruct (lookup_lt_is_Some_2 l (Z.to_nat k) ltac:(lia)) as [v Hv].
    assert (Hld : load b k = Some v).
    { unfold load. replace (0 <=? k) with true by (symmetry; apply Z.leb_le; lia).
      rewrite Hb. destruct (Z.ltb_spec (Z.of_nat (Z.to_nat k)) k); [lia|exact Hv]. }
    rewrite Hld. cbn [mbind option_bind].
    assert (Hst : store b k (v + 1) = Some (<[Z.to_nat k := v + 1]> b)).
    { unfold store.
      replace ((0 <=? k) && (k <? Z.of_nat (length b))) with true; [reflexivity|].
      symmetry. apply andb_true_intro.
      split; [apply Z.leb_le|apply Z.ltb_lt]; lia. }
    rewrite Hst. eexists. split; [reflexivity|]. split.
    + now rewrite length_insert.
    + intros i. destruct (Nat.eq_dec i (Z.to_nat k)) as [->|Hne].
      * rewrite list_lookup_insert_eq by lia.
        destruct (Z.ltb_spec (Z.of_nat (Z.to_nat k)) (k + 1)); [|lia].
        now rewrite Hv.
      * rewrite list_lookup_insert_ne by congruence. rewrite Hb.
        destruct (Z.ltb_spec (Z.of_nat i) k), (Z.ltb_spec (Z.of_nat i) (k + 1));
          try reflexivity; lia.
  - f_equal. apply list_eq. intros i. rewrite Hb, list_lookup_fmap.
    replace (Z.max 0 (Z.of_nat (length l))) with (Z.of_nat (length l)) by lia.
    destruct (Z.ltb_spec (Z.of_nat i) (Z.of_nat (length l))) as [|Hge];
      [reflexivity|].
    rewrite (lookup_ge_None_2 l i) by lia. reflexivity.
Qed.

(** X21. What GENMMD is handed.  On a square matrix with row indices in
    range, an [nnz] field that covers the stored entries and at least one
    entry off the diagonal, a run of [MMD_AT_PLUS_A] whose allocations
    succeed passes the test for a square matrix and stays inside the
    blocks of [t_rowind] and of the adjacency: it calls [genmmd_dist_]
    once,
    with 1-based column pointers that start at 1, never decrease and end
    one past the number of adjacency entries, and with adjacency entries
    that all lie in [1 .. n]; the permutation it returns is GENMMD's,
    lowered by one on [0 .. n-1]. *)
Theorem genmmd_gets_one_based_structure :
  forall (HAVE_PARMETIS HAVE_COLAMD : bool)
         (genmmd_dist_ : Z -> (Z -> Z) -> list Z -> (Z -> Z) -> Z -> Z)
         (METIS_NodeND : Z -> (Z -> Z) -> list Z -> Z -> Z)
         (colamd : Z -> Z -> Z -> (Z -> Z) -> (Z -> Z) -> option (Z -> Z))
         (pnum : Z) (A : SuperMatrix) (perm_c : Z -> Z) (h : heap),
    nrow A = ncol A -> 0 <= ncol A ->
    rows_in_range (ncol A) (ncol A) (Astore_colptr A) (Astore_rowind A) ->
    Z.of_nat (length (entries (ncol A) (Astore_colptr A) (Astore_rowind A)))
    <= nnz A ->
    (exists j i, 0 <= j < ncol A
                 /\ Astore_colptr A j <= i < Astore_colptr A (j + 1)
                 /\ Astore_rowind A i <> j) ->
    exists xadj adjncy pc,
      get_perm_c_dist HAVE_PARMETIS HAVE_COLAMD genmmd_dist_ METIS_NodeND
        colamd pnum MMD_AT_PLUS_A A perm_c h = PermSet pc
      /\ (forall i, pc i = if (0 <=? i) && (i <? ncol A)
                           then genmmd_dist_ (ncol A) xadj adjncy perm_c i - 1
                           else genmmd_dist_ (ncol A) xadj adjncy perm_c i)
      /\ xadj 0 = 1
      /\ xadj (ncol A) = Z.of_nat (length adjncy) + 1
      /\ (forall j, 0 <= j < ncol A -> xadj j <= xadj (j + 1))
      /\ Forall (fun v => 1 <= v <= ncol A) adjncy.
Proof.
  intros HP HC genmmd metis colamd pnum A perm_c h Hsq Hn Hwf Hnz
         (j0 & i0 & Hj0 & Hi0 & Hoff).
  unfold get_perm_c_dist. rewrite Hsq, Z.eqb_refl. cbn [negb].
  destruct (at_plus_a_dist_refines (ncol A) (Astore_colptr A)
              (Astore_rowind A) Hwf (nnz A)
              (heap_marker h) (heap_t_colptr h) (heap_t_rowind h)
              (heap_b_colptr h) (heap_b_rowind h) Hn Hnz) as (bc & -> & Hbc).
  set (B := B_spec (ncol A) (Astore_colptr A) (Astore_rowind A)) in *.
  set (br := flat_map B (zseq 0 (ncol A))) in *.
  assert (Hin : forall k, In k br -> 0 <= k < ncol A).
  { intros k Hk. apply in_flat_map in Hk as (j & Hj & Hk).
    apply In_zseq in Hj.
    apply (B_spec_In (ncol A) _ _ j k ltac:(lia)) in Hk as (_ & [H|[H _]]);
      [|exact H].
    apply In_A_col in H as (i & Hi & <-). now apply (Hwf j i). }
  assert (Hne : br <> []).
  { intros E. assert (Hk : In (Astore_rowind A i0) br).
    { apply in_flat_map. exists j0. split; [apply In_zseq; lia|].
      apply (B_spec_In (ncol A) _ _ j0 _ ltac:(lia)). split; [exact Hoff|].
      left. apply In_A_col. now exists i0. }
    rewrite E in Hk. destruct Hk. }
  unfold minimum_degree.
  destruct (Z.eqb_spec (Z.of_nat (length br)) 0) as [E0|_].
  { destruct br; [congruence|cbn in E0; lia]. }
  cbn [negb]. rewrite bump_rows.
  eexists _, _, _. split; [reflexivity|]. split; [|split; [|split; [|split]]].
  - intros i. apply (iter_z_pointwise (fun v => v - 1)).
  - rewrite (iter_z_pointwise (fun v => v + 1)).
    destruct (Z.leb_spec 0 0), (Z.ltb_spec 0 (ncol A + 1)); cbn; try lia.
    rewrite Hbc by lia. now rewrite zseq_nil.
  - rewrite (iter_z_pointwise (fun v => v + 1)).
    destruct (Z.leb_spec 0 (ncol A)), (Z.ltb_spec (ncol A) (ncol A + 1));
      cbn; try lia.
    rewrite Hbc by lia. rewrite length_map. reflexivity.
  - intros j Hj. rewrite !(iter_z_pointwise (fun v => v + 1)).
    destruct (Z.leb_spec 0 j), (Z.ltb_spec j (ncol A + 1)),
      (Z.leb_spec 0 (j + 1)), (Z.ltb_spec (j + 1) (ncol A + 1)); cbn; try lia.
    rewrite !Hbc by lia.
    pose proof (flat_length_mono B j (j + 1) ltac:(lia)). lia.
  - apply List.Forall_forall. intros v Hv.
    apply in_map_iff in Hv as (k & <- & Hk). specialize (Hin k Hk). lia.
Qed.

Lemma genmmd_gets_one_based_structure_witness :
  exists (xadj : Z -> Z) (adjncy : list Z) (pc : Z -> Z),
    get_perm_c_dist true false (fun _ _ _ pc => pc) (fun _ _ _ i => i)
      (fun _ _ _ _ _ => None) 0 MMD_AT_PLUS_A
      {| nrow := 2; ncol := 2; nnz := 3;
         Astore_colptr := MoreExamples.small_colptr;
         Astore_rowind := MoreExamples.small_rowind |}
      (fun _ => 9)
      {| heap_marker := fun _ => 7; heap_t_colptr := fun _ => 7;
         heap_t_rowind := fun _ => 7; heap_b_colptr := fun _ => 7;
         heap_b_rowind := fun _ => 7 |}
    = PermSet pc
    /\ xadj 0 = 1 /\ xadj 2 = Z.of_nat (length adjncy) + 1.
Proof.
  destruct (genmmd_gets_one_based_structure true false (fun _ _ _ pc => pc)
              (fun _ _ _ i => i) (fun _ _ _ _ _ => None) 0
              {| nrow := 2; ncol := 2; nnz := 3;
                 Astore_colptr := MoreExamples.small_colptr;
                 Astore_rowind := MoreExamples.small_rowind |}
              (fun _ => 9)
              {| heap_marker := fun _ => 7; heap_t_colptr := fun _ => 7;
                 heap_t_rowind := fun _ => 7; heap_b_colptr := fun _ => 7;
                 heap_b_rowind := fun _ => 7 |}
              eq_refl ltac:(simpl; lia) small_rows_in_range
              small_entries_fit)
    as (xadj & adjncy & pc & E & _ & H0 & Hn & _).
  - exists 0, 0. cbn [ncol Astore_colptr Astore_rowind].
    unfold MoreExamples.small_colptr, MoreExamples.small_rowind. simpl.
    repeat split; lia.
  - exists xadj, adjncy, pc. split; [exact E|]. split; [exact H0|exact Hn].
Defined.

(** ** Factorization before broadcast *)

Lemma no_bcast_occ (t pre post : list event) (k off : Z) :
  forallb (fun e => negb (is_bcast_call e)) t = true ->
  t = pre ++ Call_dPanelBcastGPU k off :: post -> False.
Proof.
  intros Ht E. pose proof (occ_In _ _ _ _ E) as Hin.
  pose proof (forallb_In _ _ _ Ht Hin) as Hb. discriminate Hb.
Qed.

Lemma fbb_quiet (T t : list event) :
  forallb (fun e => negb (is_bcast_call e)) t = true ->
  each_occ factor_before_bcast T -> each_occ factor_before_bcast (T ++ t).
Proof.
  intros Ht HT. apply each_occ_extend; [|exact HT|].
  - intros pre e post post' H. exact H.
  - intros pre e post E k off ->. exfalso. eapply no_bcast_occ; eassumption.
Qed.

Lemma fbb_bcast (LU : LUstruct) (T : list event) (k off : Z) (t : list event) :
  forallb (fun e => negb (is_bcast_call e)) t = true ->
  In (Call_dDiagFactorPanelSolveGPU k 0) T ->
  each_occ factor_before_bcast T ->
  each_occ factor_before_bcast (T ++ dPanelBcastGPU_trace LU k off ++ t).
Proof.
  intros Ht Hin HT. apply each_occ_extend; [|exact HT|].
  - intros pre e post post' H. exact H.
  - destruct (dPanelBcast_trace_tail_prims LU k off) as (t1 & -> & Ht1).
    intros pre e post E k' off' ->. cbn [app] in E.
    destruct (occ_cons _ _ _ _ _ E) as [(-> & Hd & _)|(pre' & -> & E')].
    + injection Hd as <- <-. now rewrite app_nil_r.
    + exfalso. eapply (no_bcast_occ (t1 ++ t)); [|exact E'].
      rewrite forallb_app, Ht. rewrite andb_true_r.
      now apply forallb_prims_weaken.
Qed.

Lemma dDiag_trace_no_bcast (LU : LUstruct) (k off : Z) :
  forallb (fun e => negb (is_bcast_call e))
    (dDiagFactorPanelSolveGPU_trace LU k off) = true.
Proof.
  destruct (dDiag_trace_tail_prims LU k off) as (t & -> & Ht).
  cbn. now apply forallb_prims_weaken.
Qed.

Lemma dDiag_call_in (LU : LUstruct) (k off : Z) :
  In (Call_dDiagFactorPanelSolveGPU k off)
     (dDiagFactorPanelSolveGPU_trace LU k off).
Proof.
  destruct (dDiag_trace_tail_prims LU k off) as (t & -> & _). now left.
Qed.

Section FactorFirst.

Variable LU : LUstruct.
Variable setree : Z -> Z.
Variable sforest : sForest.

Hypothesis Hwf : wf_forest LU setree sforest.
Hypothesis Hlisted : parents_listed setree sforest.
Hypothesis Hlvl : 1 < numLvl sforest.

Lemma gate_no_bcast (k_parent : Z) (s : sched_state) :
  forallb (fun e => negb (is_bcast_call e))
    (fst (look_ahead_panel_solve LU sforest k_parent s)) = true.
Proof.
  destruct (look_ahead_panel_solve_cases LU sforest k_parent s)
    as [->|[(left & -> & _)|(-> & _)]]; try reflexivity.
  cbn. apply dDiag_trace_no_bcast.
Qed.

Lemma window_node_no_bcast (w1 wsz par k0 : Z) (s : sched_state) :
  forallb (fun e => negb (is_bcast_call e))
    (fst (window_node LU setree sforest w1 wsz par k0 s)) = true.
Proof.
  rewrite window_node_trace. cbv zeta. cbn [forallb is_bcast_call negb andb].
  rewrite !forallb_app, gate_no_bcast.
  now destruct (has_sends LU (nodeList sforest k0)).
Qed.

Lemma gate_factors (k_parent : Z) (s : sched_state) :
  k_parent < nsupers LU ->
  0 < myIperm sforest k_parent < nNodes sforest ->
  localNumChildrenLeft s (myIperm sforest k_parent) - 1 = 0 ->
  In (Call_dDiagFactorPanelSolveGPU k_parent 0)
     (fst (look_ahead_panel_solve LU sforest k_parent s)).
Proof.
  intros Hk Hp Hz. unfold look_ahead_panel_solve.
  replace (k_parent <? nsupers LU) with true by (symmetry; apply Z.ltb_lt; lia).
  replace ((0 <? myIperm sforest k_parent)
           && (myIperm sforest k_parent <? nNodes sforest)) with true
    by (symmetry; apply andb_true_intro; split; apply Z.ltb_lt; lia).
  rewrite Hz.
  replace (topoLvl <? numLvl sforest - 1) with true
    by (symmetry; apply Z.ltb_lt; unfold topoLvl; lia).
  cbn [Z.eqb andb fst]. right. apply dDiag_call_in.
Qed.

Lemma window_node_factored (w1 wsz par k0 : Z) (T : list event)
    (s : sched_state) :
  0 <= k0 < nNodes sforest ->
  exact_counts setree sforest k0 (localNumChildrenLeft s) ->
  factored_when_free sforest T (localNumChildrenLeft s) ->
  factored_when_free sforest
    (T ++ fst (window_node LU setree sforest w1 wsz par k0 s))
    (localNumChildrenLeft (snd (window_node LU setree sforest w1 wsz par k0 s))).
Proof.
  intros Hk Hex Hf p Hp Hz. apply in_or_app.
  rewrite window_node_state, look_ahead_panel_solve_lncl in Hz.
  cbv zeta in Hz.
  pose proof (Hwf k0 Hk) as Hw. pose proof (Hlisted k0 Hk) as Hl.
  unfold parent_pos in Hw, Hl.
  set (kp := setree (nodeList sforest k0)) in *.
  set (pp := myIperm sforest kp) in *.
  destruct (Z.ltb_spec kp (nsupers LU)) as [Hks|Hks];
    destruct (Z.ltb_spec 0 pp) as [Hp0|Hp0];
    destruct (Z.ltb_spec pp (nNodes sforest)) as [Hp1|Hp1];
    cbn [andb] in Hz; try (left; now apply Hf).
  unfold upd in Hz. destruct (Z.eq_dec p pp) as [->|Hne];
    [|left; now apply Hf].
  right. rewrite window_node_trace. cbv zeta. right.
  apply in_or_app. right. apply in_or_app. left.
  rewrite Hl by lia. fold kp.
  apply gate_factors; [exact Hks|fold pp; lia|exact Hz].
Qed.

Lemma window_iter_factored (T : list event) (s : sched_state) :
  k1 s < nNodes sforest ->
  0 <= k1 s /\ 1 <= winSize s
  /\ exact_counts setree sforest (Z.min (k1 s) (nNodes sforest))
       (localNumChildrenLeft s)
  /\ factored_when_free sforest T (localNumChildrenLeft s)
  /\ each_occ factor_before_bcast T ->
  let s' := snd (window_iter LU setree sforest s) in
  0 <= k1 s' /\ 1 <= winSize s'
  /\ exact_counts setree sforest (Z.min (k1 s') (nNodes sforest))
       (localNumChildrenLeft s')
  /\ factored_when_free sforest (T ++ fst (window_iter LU setree sforest s))
       (localNumChildrenLeft s')
  /\ each_occ factor_before_bcast (T ++ fst (window_iter LU setree sforest s)).
Proof.
  intros Hlt (Hk1 & Hw & Hex & Hf & HT). cbv zeta.
  replace (Z.min (k1 s) (nNodes sforest)) with (k1 s) in Hex by lia.
  pose proof (window_iter_progress LU setree sforest Hwf s Hlt Hk1 Hw Hex)
    as (Ek & Hw' & Hex').
  cbv zeta in Ek, Hw', Hex'.
  split; [lia|]. split; [exact Hw'|]. split; [exact Hex'|].
  clear Ek Hw' Hex'. unfold window_iter.
  set (hi := SUPERLU_MIN (nNodes sforest) (k1 s + winSize s)).
  assert (Hhi : hi = Z.min (nNodes sforest) (k1 s + winSize s))
    by apply SUPERLU_MIN_spec.
  (* the nodes of the window *)
  pose proof (for_range_inv
    (fun k T' s' =>
       exact_counts setree sforest k (localNumChildrenLeft s')
       /\ winSize s' = winSize s
       /\ factored_when_free sforest T' (localNumChildrenLeft s')
       /\ each_occ factor_before_bcast T')
    (window_node LU setree sforest (k1 s) (winSize s) (winParity s))
    (k1 s) hi T s) as H1.
  cbv beta in H1.
  destruct (for_range (k1 s) hi (window_node LU setree sforest _ _ _) s)
    as [t1 s1]. cbn [fst snd] in H1.
  destruct H1 as (Hex1 & Hw1 & Hf1 & HT1); [now repeat split| |].
  { intros k T' s' Hk (HE & HW & HF & HO). split; [|split; [|split]].
    - apply window_node_exact; [exact Hwf|lia|exact HE].
    - pose proof (window_node_frame LU setree sforest (k1 s) (winSize s)
                    (winParity s) k s') as (_ & F2 & _).
      cbv zeta in F2. congruence.
    - apply window_node_factored; [lia|exact HE|exact HF].
    - apply fbb_quiet; [apply window_node_no_bcast|exact HO]. }
  replace (Z.max (k1 s) hi) with hi in Hex1 by lia.
  (* the scan for the next window *)
  rewrite Hw1.
  set (k1n := k1 s + winSize s).
  pose proof (scan_next_inv LU sforest
    (fun (_ : Z) T' s' =>
       localNumChildrenLeft s' = localNumChildrenLeft s1
       /\ factored_when_free sforest T' (localNumChildrenLeft s1)
       /\ each_occ factor_before_bcast T')
    (fun T' s' =>
       localNumChildrenLeft s' = localNumChildrenLeft s1
       /\ factored_when_free sforest T' (localNumChildrenLeft s1)
       /\ each_occ factor_before_bcast T')
    k1n
    (Z.to_nat (SUPERLU_MIN (nNodes sforest) (k1n + winSize s) - k1n))
    k1n (T ++ t1) s1) as H2.
  cbv beta in H2.
  destruct (scan_next LU sforest _ k1n k1n s1) as [t2 s2].
  cbn [fst snd] in H2.
  destruct H2 as (Hl2 & Hf2 & HT2); [now repeat split| | | |].
  { intros k T' s' Hk (HL & HF & HO) Hz. rewrite SUPERLU_MIN_spec in Hk.
    split; [exact HL|]. split.
    - intros p Hp Hpz. apply in_or_app. left. now apply HF.
    - apply fbb_bcast; [reflexivity| |exact HO].
      apply HF; [lia|]. now rewrite <- HL. }
  { intros k T' s' Hk H _. exact H. }
  { intros T' s' H. exact H. }
  (* the synchronizations *)
  pose proof (for_range_inv
    (fun (_ : Z) T' (_ : unit) =>
       factored_when_free sforest T' (localNumChildrenLeft s1)
       /\ each_occ factor_before_bcast T')
    (sync_node LU sforest (k1 s) (winSize s) (winParity s))
    (k1 s) hi ((T ++ t1) ++ t2) tt) as H3.
  cbv beta in H3.
  destruct (for_range (k1 s) hi (sync_node LU sforest _ _ _) tt) as [t3 u3].
  cbn [fst snd localNumChildrenLeft] in H3 |- *.
  rewrite <- !app_assoc in H3. rewrite Hl2. apply H3.
  - split; now rewrite !app_assoc.
  - intros k T' [] Hk (HF & HO). split.
    + intros p Hp Hpz. apply in_or_app. left. now apply HF.
    + apply fbb_quiet; [|exact HO].
      unfold sync_node. cbn [fst]. split_ifs; reflexivity.
Qed.

End FactorFirst.

Section FactorFirstWhole.

Variable LU : LUstruct.
Variable setree : Z -> Z.
Variable sforest : sForest.

Lemma ramp_no_bcast :
  forallb (fun e => negb (is_bcast_call e)) (fst (ramp LU setree sforest)) = true.
Proof.
  unfold ramp.
  destruct (for_range 0 (nNodes sforest) (count_child setree sforest) _)
    as [t0 lncl].
  pose proof (for_range_inv
    (fun (_ : Z) T (_ : Z -> Z) =>
       forallb (fun e => negb (is_bcast_call e)) T = true)
    (ramp_node LU sforest) (eTreeTopLims sforest topoLvl)
    (eTreeTopLims sforest (topoLvl + 1)) [] (fun _ => 0)) as H.
  cbv beta in H.
  destruct (for_range _ _ (ramp_node LU sforest) _) as [t dps].
  cbn [fst snd app] in *. apply H; [reflexivity|].
  intros k T' s' Hk HT. rewrite forallb_app, HT. unfold ramp_node.
  cbn [fst]. apply dDiag_trace_no_bcast.
Qed.

Lemma first_window_fbb :
  each_occ factor_before_bcast
    (Printf_Using :: fst (ramp LU setree sforest)
       ++ fst (first_window LU setree sforest)).
Proof.
  pose proof (ramp_factors_first_level LU setree sforest) as Hramp.
  pose proof ramp_no_bcast as Hq.
  unfold first_window. destruct (ramp LU setree sforest) as [t0 [lncl dps]].
  cbn [fst] in Hramp, Hq.
  pose proof (for_range_inv
    (fun (_ : Z) T (_ : Z -> Z) =>
       each_occ factor_before_bcast ((Printf_Using :: t0) ++ T))
    (first_bcast LU sforest) (eTreeTopLims sforest topoLvl)
    (SUPERLU_MIN (numLookAhead LU ÷ 2) (eTreeTopLims sforest 1))
    [] (fun _ => 0)) as H.
  cbv beta in H.
  destruct (for_range _ _ (first_bcast LU sforest) _) as [t dpb].
  cbn [fst snd app] in *. apply H.
  - rewrite app_nil_r. change (Printf_Using :: t0) with ([] ++ Printf_Using :: t0).
    apply fbb_quiet; [exact Hq|apply each_occ_nil].
  - intros k T' s' Hk HT. rewrite SUPERLU_MIN_spec in Hk. unfold first_bcast.
    destruct (s' k =? 0); cbn [fst]; [|now rewrite app_nil_r].
    rewrite <- (app_nil_r (dPanelBcastGPU_trace _ _ _)).
    change (Printf_Using :: t0 ++ T' ++ dPanelBcastGPU_trace LU (nodeList sforest k)
                                   (Z.rem k (numLookAhead LU)) ++ [])
      with ((Printf_Using :: t0) ++ T' ++ dPanelBcastGPU_trace LU
              (nodeList sforest k) (Z.rem k (numLookAhead LU)) ++ []).
    rewrite app_assoc. apply fbb_bcast; [reflexivity| |exact HT].
    right. apply in_or_app. left. apply Hramp. unfold topoLvl in Hk. lia.
Qed.

End FactorFirstWhole.

Lemma pipeline_factor_first :
  forall (LU : LUstruct) (setree : Z -> Z) (sforest : sForest) (fuel : nat),
    wf_forest LU setree sforest ->
    parents_listed setree sforest ->
    leaves_first_level setree sforest ->
    1 < numLvl sforest ->
    each_occ factor_before_bcast
      (snd (dsparseTreeFactorGPU_trace LU setree sforest fuel)).
Proof.
  intros LU setree sforest fuel Hwf Hlisted Hleaves Hlvl.
  unfold dsparseTreeFactorGPU_trace.
  destruct (Z.ltb_spec (nNodes sforest) 1) as [|Hn]; [apply each_occ_nil|].
  unfold pipeline.
  pose proof (first_window_fbb LU setree sforest) as H0.
  destruct (first_window_state LU setree sforest) as [Hk1 Hl].
  set (s0 := snd (first_window LU setree sforest)) in *.
  set (T0 := Printf_Using :: fst (ramp LU setree sforest)
               ++ fst (first_window LU setree sforest)) in *.
  assert (Hshape : forall t,
            Printf_Using :: fst (ramp LU setree sforest)
              ++ fst (first_window LU setree sforest) ++ t = T0 ++ t).
  { intros t. unfold T0. cbn [app]. now rewrite <- app_assoc. }
  destruct (Z_lt_le_dec (winSize s0) 1) as [Hsmall|Hbig].
  - assert (E : fst (while_windows LU setree sforest fuel s0) = []).
    { destruct (Z_lt_le_dec (winSize s0) 0) as [Hneg|Hz].
      - apply negative_window_silent; [exact Hneg|lia].
      - rewrite zero_window_stuck; [reflexivity|lia|lia]. }
    destruct (while_windows LU setree sforest fuel s0) as [t_win r].
    cbn [fst snd] in *. subst t_win. rewrite Hshape, app_nil_r. exact H0.
  - destruct (while_windows_inv LU setree sforest
      (fun T s =>
         0 <= k1 s /\ 1 <= winSize s
         /\ exact_counts setree sforest (Z.min (k1 s) (nNodes sforest))
              (localNumChildrenLeft s)
         /\ factored_when_free sforest T (localNumChildrenLeft s)
         /\ each_occ factor_before_bcast T))
      with (fuel := fuel) (T := T0) (s := s0) as [s' (_ & _ & _ & _ & H)].
    + intros T s HI Hlt. now apply window_iter_factored.
    + rewrite Hk1. split; [lia|]. split; [exact Hbig|].
      replace (Z.min 0 (nNodes sforest)) with 0 by lia.
      assert (Hex : exact_counts setree sforest 0 (localNumChildrenLeft s0)).
      { intros p Hp. rewrite Z.sub_0_r.
        apply (count_children setree sforest _ Hl). lia. }
      split; [exact Hex|]. split; [|exact H0].
      intros p Hp Hz. unfold T0. right. apply in_or_app. left.
      apply ramp_factors_first_level. apply Hleaves; [exact Hp|].
      pose proof (Hex p Hp) as Ep. rewrite Z.sub_0_r in Ep. congruence.
    + destruct (while_windows LU setree sforest fuel s0) as [t_win r].
      cbn [fst snd] in *. now rewrite Hshape.
Qed.

(** X22. On a forest in factorization order whose childless positions are
    exactly covered by the first level, whose [myIperm] finds the parents
    in the list, and which has more than one level,
    [dsparseTreeFactorGPU] never broadcasts a panel before factoring it:
    every call of [dPanelBcastGPU] for a node comes after a call of
    [dDiagFactorPanelSolveGPU] for that node (on slot 0), however long
    the run. *)
Theorem bcast_follows_factorization :
  forall (LU : LUstruct) (setree : Z -> Z) (sforest : sForest) (fuel : nat),
    wf_forest LU setree sforest ->
    parents_listed setree sforest ->
    leaves_first_level setree sforest ->
    1 < numLvl sforest ->
    each_occ factor_before_bcast
      (snd (dsparseTreeFactorGPU_trace LU setree sforest fuel)).
Proof.
  intros LU setree sforest fuel Hwf Hlisted Hleaves Hlvl.
  now apply pipeline_factor_first.
Qed.

Lemma bcast_follows_factorization_witness :
  each_occ factor_before_bcast
    (snd (dsparseTreeFactorGPU_trace (Examples.chain_LU 2)
            Examples.chain_setree Examples.chain_forest 2)).
Proof.
  apply (bcast_follows_factorization (Examples.chain_LU 2)
           Examples.chain_setree Examples.chain_forest 2).
  - intros c Hc Hp. cbn in Hc.
    assert (c = 0 \/ c = 1) as [-> | ->] by lia.
    + split; reflexivity.
    + vm_compute in Hp. destruct Hp as [Hp _]. discriminate Hp.
  - intros c Hc Hp. cbn in Hc.
    assert (c = 0 \/ c = 1) as [-> | ->] by lia.
    + reflexivity.
    + vm_compute in Hp. destruct Hp as [Hp _]. discriminate Hp.
  - intros p Hp Hz. cbn in Hp.
    assert (p = 0 \/ p = 1) as [-> | ->] by lia.
    + cbn. lia.
    + vm_compute in Hz. discriminate Hz.
  - cbn. lia.
Defined.

(** ** Nodes that send nothing *)

Lemma started_In (T : list event) (k0 : Z) :
  In k0 (started T) -> exists offset, In (Printf_Doing k0 offset) T.
Proof.
  unfold started. rewrite in_flat_map. intros (e & He & Hk).
  destruct e; cbn in Hk; try contradiction.
  destruct Hk as [<-|[]]. eauto.
Qed.

Lemma In_positions (m k0 : Z) : 0 <= k0 < m -> In k0 (positions m).
Proof.
  intros H. unfold positions. apply in_map_iff. exists (Z.to_nat k0).
  split; [lia|]. apply in_seq. lia.
Qed.



(** ** screate_A_x_b: the rows of the processes *)

(** X23. The row blocks that [screate_A_x_b] gives to the processes of an
    [nprow]-by-[npcol] grid tile the rows of the matrix: no block has a
    negative size, the block of process 0 starts at row 0, the block of
    every next process starts where the one before ends, and the block of
    the last process ends at row [m]; all blocks but the last have
    [m / (nprow * npcol)] rows, and the last takes the remainder too. *)
Theorem local_rows_tile :
  forall (m nprow npcol : Z),
    0 <= m -> 1 <= nprow * npcol ->
    let P := nprow * npcol in
    let m_loc := fun iam => fst (local_rows m nprow npcol iam) in
    let fst_row := fun iam => snd (local_rows m nprow npcol iam) in
    fst_row 0 = 0
    /\ (forall iam, 0 <= iam < P -> 0 <= m_loc iam)
    /\ (forall iam, 0 <= iam < P - 1 ->
          m_loc iam = Z.quot m P
          /\ fst_row (iam + 1) = fst_row iam + m_loc iam)
    /\ fst_row (P - 1) + m_loc (P - 1) = m
    /\ Z.quot m P <= m_loc (P - 1) < Z.quot m P + P.
Proof.
  intros m nprow npcol Hm HP. cbv zeta. unfold local_rows. cbn [fst snd].
  set (P := nprow * npcol) in *. set (q := Z.quot m P).
  replace (q * nprow * npcol) with (q * P) by (unfold P; ring).
  pose proof (Z.mul_quot_le m P Hm ltac:(lia)) as Hq.
  pose proof (Z.quot_pos m P Hm ltac:(lia)) as Hq0. fold q in Hq, Hq0.
  pose proof (Z.quot_rem' m P) as Hqr. fold q in Hqr.
  pose proof (Z.rem_bound_pos m P Hm ltac:(lia)) as Hr.
  split; [lia|]. split; [|split; [|split]].
  - intros iam Hi.
    destruct (Z.eqb_spec (q * P) m); cbn [negb]; [lia|].
    destruct (Z.eqb_spec iam (P - 1)); nia.
  - intros iam Hi.
    destruct (Z.eqb_spec (q * P) m); cbn [negb]; [split; [reflexivity|ring]|].
    destruct (Z.eqb_spec iam (P - 1)); [lia|]. split; [reflexivity|ring].
  - destruct (Z.eqb_spec (q * P) m); cbn [negb]; [lia|].
    rewrite Z.eqb_refl. ring.
  - destruct (Z.eqb_spec (q * P) m); cbn [negb]; [lia|].
    rewrite Z.eqb_refl. nia.
Qed.

Lemma local_rows_tile_witness :
  snd (local_rows 7 1 3 2) + fst (local_rows 7 1 3 2) = 7.
Proof.
  pose proof (local_rows_tile 7 1 3 ltac:(lia) ltac:(lia)) as H.
  cbv zeta in H. destruct H as (_ & _ & _ & H & _). exact H.
Defined.

(** ** screate_A_x_b: the local rows in compressed row storage *)

Lemma transposed_ext {X : Type} (m : Z) (tc : Z -> Z) (E1 : list (X * Z))
    (a b : Z -> X) (mk : Z -> Z) :
  (forall q, a q = b q) ->
  transposed m tc E1 (a, mk) -> transposed m tc E1 (b, mk).
Proof.
  intros Hab (I1 & I2). split; cbn [fst snd] in *; [exact I1|].
  intros r Hr. rewrite <- I2 by exact Hr. apply map_ext. intros q.
  now rewrite Hab.
Qed.

Lemma map_flat_map {X Y W : Type} (h : Y -> W) (f : X -> list Y) (l : list X) :
  map h (flat_map f l) = flat_map (fun x => map h (f x)) l.
Proof.
  induction l as [|x l IH]; [reflexivity|]. cbn. now rewrite map_app, IH.
Qed.

Section LocalCSRLemmas.

Context {V : Type}.
Variable n : Z.
Variables colptr rowind : Z -> Z.
Variable nzval : Z -> V.
Variables m_loc fst_row : Z.

Hypothesis Hfst : 0 <= fst_row.
Hypothesis Hfit : fst_row + m_loc <= n.

Local Abbreviation E := (entries n colptr rowind).
Local Abbreviation E2 := (entries n colptr (fun j : Z => j)).
Local Abbreviation is_local :=
  (fun e : Z * Z =>
     (fst_row <=? rowind (snd e)) && (rowind (snd e) <? fst_row + m_loc)).
Local Abbreviation to_local :=
  (fun e : Z * Z => ((fst e, nzval (snd e)), rowind (snd e) - fst_row)).
Local Abbreviation LE := (local_entries n colptr rowind nzval m_loc fst_row).

Lemma entries_by_index :
  E = map (fun e : Z * Z => (fst e, rowind (snd e))) E2.
Proof.
  unfold entries. rewrite map_flat_map. apply flat_map_ext. intros j.
  unfold A_col. rewrite !map_map. reflexivity.
Qed.

Lemma row_counts_spec (mk : Z -> Z) (r : Z) :
  row_counts n colptr rowind mk r = mk r + cnt E r.
Proof.
  unfold row_counts.
  rewrite (entries_fold n colptr rowind (fun _ r mk => upd mk r (mk r + 1))).
  generalize mk. induction E as [|e l IH]; intros mk'.
  - unfold cnt. cbn. lia.
  - cbn [fold_left]. rewrite IH, cnt_cons.
    unfold upd. destruct (Z.eq_dec r (snd e)) as [->|Hne].
    + rewrite Z.eqb_refl. lia.
    + destruct (Z.eqb_spec (snd e) r); [congruence|lia].
Qed.

Lemma local_cnt (l : list (Z * Z)) (j : Z) :
  0 <= j < m_loc ->
  cnt (map to_local (List.filter is_local l)) j
  = cnt (map (fun e : Z * Z => (fst e, rowind (snd e))) l) (fst_row + j).
Proof.
  intros Hj. induction l as [|e l IH]; [reflexivity|].
  cbn [List.filter map]. rewrite (cnt_cons (fst e, rowind (snd e))).
  cbn [snd].
  destruct (Z.leb_spec fst_row (rowind (snd e)));
    destruct (Z.ltb_spec (rowind (snd e)) (fst_row + m_loc)); cbn [andb].
  - cbn [map]. rewrite cnt_cons, IH. cbn [snd].
    destruct (Z.eqb_spec (rowind (snd e) - fst_row) j),
      (Z.eqb_spec (rowind (snd e)) (fst_row + j)); lia.
  - rewrite IH. destruct (Z.eqb_spec (rowind (snd e)) (fst_row + j)); lia.
  - rewrite IH. destruct (Z.eqb_spec (rowind (snd e)) (fst_row + j)); lia.
  - rewrite IH. destruct (Z.eqb_spec (rowind (snd e)) (fst_row + j)); lia.
Qed.

Lemma row_pointers_spec (heap_rowptr mk0 : Z -> Z) :
  let rp := fst (row_pointers m_loc fst_row heap_rowptr mk0) in
  let mk := snd (row_pointers m_loc fst_row heap_rowptr mk0) in
  rp 0 = 0
  /\ (forall j, 0 <= j < m_loc -> rp (j + 1) = rp j + mk0 (fst_row + j))
  /\ (forall j, 0 <= j < m_loc -> mk j = rp j).
Proof.
  cbv zeta. unfold row_pointers.
  pose proof (iter_z_inv
    (fun k (s : (Z -> Z) * (Z -> Z)) =>
       fst s 0 = 0
       /\ (forall j, 0 <= j < k -> fst s (j + 1) = fst s j + mk0 (fst_row + j))
       /\ (forall j, 0 <= j < k -> snd s j = fst s j)
       /\ (forall i, k <= i -> snd s i = mk0 i))
    (fun j '(rowptr, mk) =>
       let row := fst_row + j in
       (upd rowptr (j + 1) (rowptr j + mk row), upd mk j (rowptr j)))
    0 m_loc (upd heap_rowptr 0 0, mk0)) as H.
  cbv beta in H.
  destruct H as (H0 & H1 & H2 & _).
  - cbn. split; [unfold upd; now destruct (Z.eq_dec 0 0)|].
    split; [intros; lia|]. split; [intros; lia|reflexivity].
  - intros k [rp mk] Hk (I0 & I1 & I2 & I3). cbn [fst snd] in *. cbv zeta.
    split; [|split; [|split]].
    + unfold upd. destruct (Z.eq_dec 0 (k + 1)); [lia|exact I0].
    + intros j Hj. unfold upd.
      destruct (Z.eq_dec (j + 1) (k + 1)) as [Ej|Ej];
        destruct (Z.eq_dec j (k + 1)); try lia.
      * assert (j = k) as -> by lia. rewrite (I3 (fst_row + k)) by lia.
        reflexivity.
      * apply I1. lia.
    + intros j Hj. unfold upd.
      destruct (Z.eq_dec j k) as [->|Ej]; destruct (Z.eq_dec _ (k + 1)); try lia.
      apply I2. lia.
    + intros i Hi. unfold upd. destruct (Z.eq_dec i k); [lia|]. apply I3. lia.
  - repeat split.
    + exact H0.
    + intros j Hj. apply H1. lia.
    + intros j Hj. apply H2. lia.
Qed.

Lemma transfer_step (rp : Z -> Z) (E1 E3 : list (Z * Z)) (e : Z * Z)
    (s : csr_state V) :
  (forall j, 0 <= j < m_loc -> rp (j + 1) = rp j + cnt LE j) ->
  E2 = E1 ++ e :: E3 ->
  transposed m_loc rp (map to_local (List.filter is_local E1))
    (fun q => (colind s q, nzval_loc s q), csr_marker s) ->
  let s' := transfer_entry rowind nzval m_loc fst_row (fst e) (snd e) s in
  transposed m_loc rp (map to_local (List.filter is_local (E1 ++ [e])))
    (fun q => (colind s' q, nzval_loc s' q), csr_marker s').
Proof.
  intros Hrp HE HI. cbv zeta. unfold transfer_entry.
  rewrite List.filter_app. cbn [List.filter].
  destruct ((fst_row <=? rowind (snd e))
            && (rowind (snd e) <? fst_row + m_loc)) eqn:Hloc.
  - apply andb_true_iff in Hloc as [Hl1 Hl2].
    apply Z.leb_le in Hl1. apply Z.ltb_lt in Hl2.
    rewrite map_app. cbn [map colind nzval_loc csr_marker].
    pose proof (transpose_step m_loc LE rp
                  (map to_local (List.filter is_local E1))
                  (map to_local (List.filter is_local E3))
                  (to_local e)
                  (fun q => (colind s q, nzval_loc s q), csr_marker s)
                  Hrp) as Hs.
    cbn [fst snd] in Hs.
    eapply transposed_ext; [|apply Hs].
    + intros q. unfold gupd, upd. now destruct (Z.eq_dec q _).
    + unfold local_entries. rewrite HE, List.filter_app, map_app.
      cbn [List.filter].
      replace ((fst_row <=? rowind (snd e))
               && (rowind (snd e) <? fst_row + m_loc)) with true
        by (symmetry; apply andb_true_intro; split;
            [apply Z.leb_le|apply Z.ltb_lt]; lia).
      reflexivity.
    + lia.
    + exact HI.
  - now rewrite app_nil_r.
Qed.

Lemma local_csr_spec (heap_marker heap_rowptr heap_colind : Z -> Z)
    (heap_nzval : Z -> V) :
  let r := local_csr n colptr rowind nzval m_loc fst_row heap_marker
             heap_rowptr heap_colind heap_nzval in
  let rowptr := fst (fst (fst r)) in
  rowptr 0 = 0
  /\ snd (fst (fst r)) = rowptr m_loc
  /\ forall j, 0 <= j < m_loc ->
       rowptr (j + 1) = rowptr j + cnt LE j
       /\ map (snd (fst r)) (zseq (rowptr j) (rowptr (j + 1)))
          = map fst (cols_with LE j)
       /\ map (snd r) (zseq (rowptr j) (rowptr (j + 1)))
          = map snd (cols_with LE j).
Proof.
  cbv zeta. unfold local_csr.
  pose proof (row_pointers_spec heap_rowptr
                (row_counts n colptr rowind (intCalloc_dist n heap_marker)))
    as Hp.
  cbv zeta in Hp.
  destruct (row_pointers m_loc fst_row heap_rowptr _) as [rp mk1].
  cbn [fst snd] in *. destruct Hp as (Hp0 & Hp1 & Hp2).
  assert (Hrp : forall j, 0 <= j < m_loc -> rp (j + 1) = rp j + cnt LE j).
  { intros j Hj. rewrite Hp1, row_counts_spec by lia.
    unfold intCalloc_dist.
    replace ((0 <=? fst_row + j) && (fst_row + j <? n)) with true
      by (symmetry; apply andb_true_intro; split;
          [apply Z.leb_le|apply Z.ltb_lt]; lia).
    unfold local_entries. rewrite local_cnt by lia.
    now rewrite <- entries_by_index. }
  split; [exact Hp0|]. split; [reflexivity|].
  rewrite (entries_fold n colptr (fun j : Z => j)
             (transfer_entry rowind nzval m_loc fst_row)).
  pose proof (fold_left_prefix_inv
    (fun E1 (s : csr_state V) =>
       transposed m_loc rp (map to_local (List.filter is_local E1))
         (fun q => (colind s q, nzval_loc s q), csr_marker s))
    (fun s e => transfer_entry rowind nzval m_loc fst_row (fst e) (snd e) s)
    E2
    {| colind := heap_colind; nzval_loc := heap_nzval; csr_marker := mk1 |})
    as H.
  cbv beta in H.
  destruct H as (_ & H).
  - split; cbn [fst snd csr_marker List.filter map].
    + intros r Hr. unfold cnt. cbn. rewrite Hp2 by lia. lia.
    + intros r Hr. unfold cnt. cbn. rewrite Z.add_0_r. now rewrite zseq_nil.
  - intros E1 e E3 s HE HI. now apply (transfer_step rp E1 E3 e s Hrp HE).
  - fold LE in H. cbn [fst] in H.
    intros j Hj. split; [now apply Hrp|].
    specialize (H j Hj). rewrite <- Hrp in H by exact Hj.
    rewrite <- H, !map_map. split; reflexivity.
Qed.

Lemma In_local_columns (j i : Z) :
  0 <= j < m_loc ->
  In i (map fst (cols_with LE j))
  <-> 0 <= i < n /\ In (fst_row + j) (A_col colptr rowind i).
Proof.
  intros Hj. rewrite in_map_iff. split.
  - intros ([i' v] & <- & H). apply In_cols_with in H.
    unfold local_entries in H. apply in_map_iff in H as ([c idx] & Eq & H).
    apply List.filter_In in H as [H _]. cbn [fst snd] in *.
    injection Eq as <- _ Er.
    apply (In_entries n colptr (fun j : Z => j)) in H as [Hc Hidx].
    split; [exact Hc|]. apply In_A_col.
    apply In_A_col in Hidx as (idx' & Hr & <-). exists idx'. split; [exact Hr|lia].
  - intros [Hi Hin]. apply In_A_col in Hin as (idx & Hr & Er).
    exists (i, nzval idx). split; [reflexivity|]. apply In_cols_with.
    unfold local_entries. apply in_map_iff. exists (i, idx). cbn [fst snd].
    split; [do 2 f_equal; lia|]. apply List.filter_In. split.
    + apply In_entries. split; [exact Hi|]. apply In_A_col. now exists idx.
    + cbn [snd]. apply andb_true_intro.
      split; [apply Z.leb_le|apply Z.ltb_lt]; lia.
Qed.

End LocalCSRLemmas.

Lemma local_entries_rows {V : Type} (n : Z) (colptr rowind : Z -> Z)
    (nzval : Z -> V) (m_loc fst_row : Z) (e : (Z * V) * Z) :
  In e (local_entries n colptr rowind nzval m_loc fst_row) ->
  0 <= snd e < m_loc.
Proof.
  unfold local_entries. intros H. apply in_map_iff in H as (x & <- & H).
  apply List.filter_In in H as [_ H]. apply andb_true_iff in H as [H1 H2].
  apply Z.leb_le in H1. apply Z.ltb_lt in H2. cbn [snd]. lia.
Qed.

(** X24. The conversion of the local rows to compressed row storage in
    [screate_A_x_b] (lines 226-259). For a pattern with [n] columns whose
    row indices lie in [0, n), and a block of [m_loc] rows from [fst_row]
    inside the matrix: [rowptr] starts at 0 and never decreases, [nnz_loc]
    is the number of entries of the matrix in the block, and local row [j]
    lists between [rowptr[j]] and [rowptr[j + 1]] the columns and the
    values of the entries of row [fst_row + j], in the order in which the
    column storage holds them; column [i] is listed there exactly when the
    matrix has an entry at ([fst_row + j], [i]). Nothing of what the
    allocated blocks held reaches those cells. *)
Theorem local_csr_rows :
  forall (V : Type) (n : Z) (colptr rowind : Z -> Z) (nzval : Z -> V)
         (m_loc fst_row : Z)
         (heap_marker heap_rowptr heap_colind : Z -> Z) (heap_nzval : Z -> V),
    0 <= fst_row -> 0 <= m_loc -> fst_row + m_loc <= n ->
    rows_in_range n n colptr rowind ->
    let r := local_csr n colptr rowind nzval m_loc fst_row heap_marker
               heap_rowptr heap_colind heap_nzval in
    let rowptr := fst (fst (fst r)) in
    let nnz_loc := snd (fst (fst r)) in
    let colind := snd (fst r) in
    let nzval_loc := snd r in
    let local := local_entries n colptr rowind nzval m_loc fst_row in
    rowptr 0 = 0
    /\ nnz_loc = Z.of_nat (length local)
    /\ forall j, 0 <= j < m_loc ->
         rowptr j <= rowptr (j + 1)
         /\ map colind (zseq (rowptr j) (rowptr (j + 1)))
            = map fst (cols_with local j)
         /\ map nzval_loc (zseq (rowptr j) (rowptr (j + 1)))
            = map snd (cols_with local j)
         /\ forall i, In i (map colind (zseq (rowptr j) (rowptr (j + 1))))
                      <-> 0 <= i < n
                          /\ In (fst_row + j) (A_col colptr rowind i).
Proof.
  intros V n colptr rowind nzval m_loc fst_row hm hr hc hv Hfst Hm Hfit _.
  cbv zeta.
  pose proof (local_csr_spec n colptr rowind nzval m_loc fst_row Hfst Hfit
                hm hr hc hv) as H.
  cbv zeta in H. destruct H as (H0 & Hn & Hrows).
  split; [exact H0|]. split.
  - rewrite Hn.
    rewrite (pointers_count_below
               (local_entries n colptr rowind nzval m_loc fst_row) m_loc _ H0)
      by (try lia; try (intros j Hj; now apply Hrows);
          intros e He; apply local_entries_rows in He; lia).
    rewrite filter_all; [reflexivity|].
    intros e He. apply local_entries_rows in He. apply Z.ltb_lt. lia.
  - intros j Hj. destruct (Hrows j Hj) as (Hs & Hc & Hv).
    split; [rewrite Hs; pose proof (cnt_nonneg
              (local_entries n colptr rowind nzval m_loc fst_row) j); lia|].
    split; [exact Hc|]. split; [exact Hv|].
    intros i. rewrite Hc. now apply In_local_columns.
Qed.

Lemma local_csr_rows_witness :
  let r := local_csr 2 MoreExamples.small_colptr MoreExamples.small_rowind
             (fun i => 10 + i) 1 1 (fun _ => 7) (fun _ => 7) (fun _ => 7)
             (fun _ => 7) in
  snd (fst (fst r)) = 2
  /\ map (snd (fst r)) (zseq 0 2) = [0; 1]
  /\ map (snd r) (zseq 0 2) = [10; 12].
Proof.
  pose proof (local_csr_rows Z 2 MoreExamples.small_colptr
                MoreExamples.small_rowind (fun i => 10 + i) 1 1
                (fun _ => 7) (fun _ => 7) (fun _ => 7) (fun _ => 7)
                ltac:(lia) ltac:(lia) ltac:(lia) small_rows_in_range) as H.
  cbv zeta in *. destruct H as (_ & Hn & H).
  destruct (H 0 ltac:(lia)) as (_ & Hc & Hv & _).
  split; [exact Hn|]. split; [exact Hc|exact Hv].
Defined.

(** ** screate_A_x_b: the local right-hand sides and solutions *)

Lemma try_from_reaches {St : Type} (body : Z -> St -> option St) (n : nat) :
  forall i s s',
    try_from n i body s = Some s' ->
    forall k, i <= k < i + Z.of_nat n -> exists a b, body k a = Some b.
Proof.
  induction n as [|n IH]; intros i s s' H k Hk; [lia|].
  cbn [try_from] in H. destruct (body i s) as [s1|] eqn:Hb; [|discriminate H].
  cbn [mbind option_bind] in H.
  destruct (Z.eq_dec k i) as [->|Hne]; [now exists s, s1|].
  apply (IH (i + 1) s1 s' H). lia.
Qed.

Lemma gather_within {D V : Type} (I J rsize wsize : Z) (pos rd : Z -> Z -> Z)
    (src : Z -> D) (f : D -> V) (h : Z -> V) :
  (forall j i, pos j i = j * I + i) ->
  (forall j i, 0 <= j < J -> 0 <= i < I -> 0 <= rd j i < rsize) ->
  I * J <= wsize ->
  exists r,
    try_z 0 J
      (fun j x =>
         try_z 0 I
           (fun i x =>
              v ← load_within rsize src (rd j i);
              store_within wsize x (pos j i) (f v))
           x)
      h = Some r
    /\ (forall j i, 0 <= j < J -> 0 <= i < I -> r (j * I + i) = f (src (rd j i)))
    /\ (forall q, ~ 0 <= q < I * J -> r q = h q).
Proof.
  intros Hpos Hrd Hw.
  destruct (try_z_inv
    (fun k (x : Z -> V) =>
       (forall j i, 0 <= j < k -> 0 <= i < I -> x (j * I + i) = f (src (rd j i)))
       /\ (forall q, q < 0 \/ k * I <= q -> x q = h q))
    (fun j x =>
       try_z 0 I
         (fun i x =>
            v ← load_within rsize src (rd j i);
            store_within wsize x (pos j i) (f v))
         x)
    0 J h) as (r & Hr & H1 & H2).
  - split; [intros; lia|reflexivity].
  - intros k x Hk (I1 & I2).
    destruct (try_z_inv
      (fun i' (y : Z -> V) =>
         (forall j i, 0 <= j < k -> 0 <= i < I ->
            y (j * I + i) = f (src (rd j i)))
         /\ (forall i, 0 <= i < i' -> y (k * I + i) = f (src (rd k i)))
         /\ (forall q, q < 0 \/ k * I + i' <= q -> y q = h q))
      (fun i x =>
         v ← load_within rsize src (rd k i);
         store_within wsize x (pos k i) (f v))
      0 I x) as (y & Hy & G1 & G2 & G3).
    + split; [exact I1|]. split; [intros; lia|].
      intros q Hq. apply I2. lia.
    + intros i' y Hi' (J1 & J2 & J3).
      unfold load_within, store_within. rewrite Hpos.
      pose proof (Hrd k i' Hk Hi') as Hin.
      replace ((0 <=? rd k i') && (rd k i' <? rsize)) with true
        by (symmetry; apply andb_true_intro; split;
            [apply Z.leb_le|apply Z.ltb_lt]; lia).
      cbn [mbind option_bind].
      replace ((0 <=? k * I + i') && (k * I + i' <? wsize)) with true
        by (symmetry; apply andb_true_intro; split;
            [apply Z.leb_le|apply Z.ltb_lt]; nia).
      eexists. split; [reflexivity|]. unfold gupd. split; [|split].
      * intros j i Hj Hi. destruct (Z.eq_dec (j * I + i) (k * I + i')) as [E|_];
          [exfalso; nia|]. now apply J1.
      * intros i Hi. destruct (Z.eq_dec (k * I + i) (k * I + i')) as [E|E].
        -- now replace i with i' by lia.
        -- apply J2. lia.
      * intros q Hq. destruct (Z.eq_dec q (k * I + i')) as [E|_];
          [exfalso; nia|]. apply J3. lia.
    + exists y. split; [exact Hy|]. split.
      * intros j i Hj Hi. destruct (Z.eq_dec j k) as [->|Hne].
        -- apply G2. lia.
        -- apply G1; lia.
      * intros q Hq. apply G3. nia.
  - exists r. split; [exact Hr|]. split.
    + intros j i Hj Hi. apply H1; lia.
    + intros q Hq. apply H2. nia.
Qed.

(** X25. The local right-hand sides and solutions of [screate_A_x_b]
    (lines 277-297), for a block of [m_loc] rows from [fst_row] inside an
    [m]-by-[n] matrix.  On a square matrix every load and store stays
    inside its block and the two local blocks are stored column by column
    with leading dimension [m_loc]: for a local row [i] and a right-hand
    side [j], cell [j * m_loc + i] of [rhs] is the rounded entry of row
    [fst_row + i] of right-hand side [j] (which [b_global_dble] holds with
    leading dimension [m]), the same cell of [x] is that entry of the true
    solutions, and no other cell is written.  With fewer rows than columns
    and more than one right-hand side, the process that owns the last rows
    loads past the [m * nrhs] cells of [b_global_dble], which the loop
    reads with leading dimension [n]. *)
Theorem local_vectors_gather :
  forall (D V : Type) (round : D -> V) (m n m_loc fst_row nrhs : Z)
         (b_global_dble : Z -> D) (xtrue_global heap_rhs heap_x : Z -> V),
    0 <= fst_row -> fst_row + m_loc <= m ->
    (m = n ->
     exists rhs x,
       local_rhs round m n m_loc fst_row nrhs b_global_dble heap_rhs = Some rhs
       /\ local_x n m_loc fst_row nrhs xtrue_global heap_x = Some x
       /\ (forall i j, 0 <= i < m_loc -> 0 <= j < nrhs ->
             rhs (j * m_loc + i) = round (b_global_dble (j * m + (fst_row + i)))
             /\ x (j * m_loc + i) = xtrue_global (j * n + (fst_row + i)))
       /\ (forall q, ~ 0 <= q < m_loc * nrhs ->
             rhs q = heap_rhs q /\ x q = heap_x q))
    /\ (m < n -> fst_row + m_loc = m -> 1 <= m_loc -> 2 <= nrhs ->
        local_rhs round m n m_loc fst_row nrhs b_global_dble heap_rhs = None).
Proof.
  intros D V round m n m_loc fst_row nrhs b xt hr hx Hfst Hfit. split.
  - intros <-.
    destruct (gather_within m_loc nrhs (m * nrhs) (m_loc * nrhs)
                (fun j i => j * m_loc + i) (fun j i => j * m + (fst_row + i))
                b round hr)
      as (rhs & Er & R1 & R2);
      [reflexivity|intros j i Hj Hi; nia|lia|].
    destruct (gather_within m_loc nrhs (m * nrhs) (m_loc * nrhs)
                (fun j i => i + j * m_loc) (fun j i => i + fst_row + j * m)
                xt (fun v => v) hx)
      as (x & Ex & X1 & X2);
      [intros; cbv beta; lia|intros j i Hj Hi; nia|lia|].
    exists rhs, x. split; [exact Er|]. split; [exact Ex|]. split.
    + intros i j Hi Hj. split; [now apply R1|].
      rewrite X1 by assumption. f_equal. lia.
    + intros q Hq. split; [now apply R2|now apply X2].
  - intros Hmn Hlast Hloc Hrhs.
    destruct (local_rhs round m n m_loc fst_row nrhs b hr) as [rhs|] eqn:Hrun;
      [exfalso|reflexivity].
    unfold local_rhs, try_z in Hrun.
    destruct (try_from_reaches _ _ _ _ _ Hrun (nrhs - 1) ltac:(lia))
      as (a & a' & Hcol).
    destruct (try_from_reaches _ _ _ _ _ Hcol (m_loc - 1) ltac:(lia))
      as (c & c' & Hcell).
    cbv zeta in Hcell. unfold load_within in Hcell.
    destruct (Z.ltb_spec ((nrhs - 1) * n + (fst_row + (m_loc - 1))) (m * nrhs))
      as [Hlt|_]; [nia|].
    rewrite andb_false_r in Hcell. discriminate Hcell.
Qed.

Lemma local_vectors_gather_witness :
  (exists rhs x,
     local_rhs (fun d : Z => d + 100) 4 4 2 1 2 (fun q => q) (fun _ => 7)
     = Some rhs
     /\ local_x 4 2 1 2 (fun q => q) (fun _ => 7) = Some x
     /\ rhs 3 = 106 /\ x 3 = 6 /\ x 4 = 7)
  /\ local_rhs (fun d : Z => d + 100) 3 4 2 1 2 (fun q => q) (fun _ => 7)
     = None.
Proof.
  split.
  - destruct (proj1 (local_vectors_gather Z Z (fun d : Z => d + 100) 4 4 2 1 2
                       (fun q => q) (fun q => q) (fun _ => 7) (fun _ => 7)
                       ltac:(lia) ltac:(lia)) eq_refl)
      as (rhs & x & Er & Ex & Hc & Ho).
    exists rhs, x. split; [exact Er|]. split; [exact Ex|].
    destruct (Hc 1 1 ltac:(lia) ltac:(lia)) as [Hr Hx].
    destruct (Ho 4 ltac:(lia)) as [_ Hq].
    split; [exact Hr|]. split; [exact Hx|exact Hq].
  - apply (proj2 (local_vectors_gather Z Z (fun d : Z => d + 100) 3 4 2 1 2
                    (fun q => q) (fun q => q) (fun _ => 7) (fun _ => 7)
                    ltac:(lia) ltac:(lia))); lia.
Defined.
